(** * libgroove: the decode engine of [src/playlist.c]

    A shallow embedding of the playlist, the sink map, the sink queues, the
    reference-counted buffers, the filter-graph build and the decode worker,
    with the properties of the specification stated over it.

    Memory is explicit.  Every C object that is shared through pointers (a
    playlist item, a file, a sink, a buffer) lives in a finite map from
    addresses to records; a pointer is an [option loc], [NULL] being [None].
    A read or a write through [NULL], or through an address that was freed,
    is a [Fault].  The nodes of the sink map are owned by the map alone and
    are kept as values.  There is one playlist; a [GroovePlaylist *] is its
    address.  C [int]s are [Z], stored through [wrap_int]; C [double]s are
    binary64 floats.

    What is outside [playlist.c] comes in as an argument: the result of an
    allocation, the answers of libavfilter, the two libavutil tables.  So
    does [decode_one_frame], which drives the demuxer and the codec.  The
    queue of [queue.c] is modelled from the specification. *)

From Stdlib Require Import ZArith List Bool Lia Floats.
From stdpp Require Import base option list gmap strings.

Open Scope Z_scope.

(** ** Addresses, faults and the monad of the embedding *)

Definition loc := positive.

Abbreviation NULL := None (only parsing).

Inductive fault :=
  | NullDeref      (* a field read or written through a null pointer *)
  | UseAfterFree   (* an access to an object that is not (or no longer) allocated *)
  | Blocked        (* a wait that nothing in a sequential run can end *)
  | OutOfFuel.     (* a loop of the model ran out of its iteration budget *)

Inductive result (A : Type) :=
  | Ok (a : A)
  | Fault (f : fault).
Arguments Ok {A} a.
Arguments Fault {A} f.

(** The C truth value of a comparison. *)
Definition c_bool (b : bool) : Z := if b then 1 else 0.

(** Two's complement [int]: the value of an arithmetic result stored in an
    [int] field. *)
Definition wrap_int (z : Z) : Z := (z + 2147483648) mod 4294967296 - 2147483648.

(** ** Data model *)

(** [GroovePlaylistItem]: a node of the playlist's doubly-linked list. *)
Record GroovePlaylistItem := mkItem {
  file : option loc;
  gain : float;
  prev : option loc;
  next : option loc
}.

(** [GrooveFilePrivate], restricted to the fields this file reads or writes. *)
Record GrooveFilePrivate := mkFile {
  seek_pos : Z;
  seek_flush : Z;
  eof : Z;
  f_abort_request : Z;
  audio_clock : float;
  time_base : Z * Z;             (* [f->audio_st->time_base] *)
  codec_sample_rate : Z;         (* [f->audio_st->codec->sample_rate] *)
  codec_channel_layout : Z;
  codec_sample_fmt : Z
}.

(** [GrooveAudioFormat]. *)
Record GrooveAudioFormat := mkFormat {
  sample_rate : Z;
  channel_layout : Z;
  sample_fmt : Z
}.

(** [GrooveBuffer] together with its [GrooveBufferPrivate]. *)
Record GrooveBuffer := mkBuffer {
  item : option loc;
  pos : float;
  format : GrooveAudioFormat;
  frame_count : Z;
  size : Z;
  frame : loc;          (* [b->frame], the address of the [AVFrame] *)
  ref_count : Z
}.

(** An [AVFrame] as the filter graph hands it out. *)
Record AVFrame := mkFrame {
  frame_addr : loc;
  nb_samples : Z;
  frame_channel_layout : Z;
  frame_format : Z;
  frame_sample_rate : Z
}.

(** Modelled from the spec: [GrooveQueue] is declared in [queue.h], which is
    missing.  "Sink Queue — bounded FIFO wrapping the generic queue
    primitive", with the abort state that "abort" sets and "reset" clears. *)
Record GrooveQueue := mkQueue {
  q_items : list (option loc);   (* the [void *] objects, oldest first *)
  q_abort_request : Z
}.

(** [GrooveSink] together with its [GrooveSinkPrivate]. *)
Record GrooveSink := mkSink {
  audio_format : GrooveAudioFormat;
  buffer_size : Z;
  bytes_per_sec : Z;
  sink_playlist : option loc;    (* [sink->playlist] *)
  flush : bool;                  (* is the [flush] callback set *)
  purge : bool;                  (* is the [purge] callback set *)
  audioq : option GrooveQueue;
  audioq_buf_count : Z;
  audioq_size : Z;
  min_audioq_size : Z
}.

(** [SinkStack] and [SinkMap], as the C structs: a [SinkStack *] is an
    [option SinkStack]. *)
#[local] Unset Elimination Schemes.

Inductive SinkStack :=
  mkSinkStack (sink : option loc) (next : option SinkStack).

Inductive SinkMap :=
  mkSinkMap (stack_head : option SinkStack)
            (aformat_ctx abuffersink_ctx : option nat)
            (next : option SinkMap).

#[local] Set Elimination Schemes.

Definition ss_sink (s : SinkStack) := let 'mkSinkStack x _ := s in x.
Definition ss_next (s : SinkStack) := let 'mkSinkStack _ n := s in n.
Definition stack_head (m : SinkMap) := let 'mkSinkMap h _ _ _ := m in h.
Definition aformat_ctx (m : SinkMap) := let 'mkSinkMap _ a _ _ := m in a.
Definition abuffersink_ctx (m : SinkMap) := let 'mkSinkMap _ _ b _ := m in b.
Definition sm_next (m : SinkMap) := let 'mkSinkMap _ _ _ n := m in n.

(** The filter graph: the filters created in it, in creation order (a
    filter context is an index into that list), and the links between their
    pads. *)
Inductive AVFilter :=
  | abuffer (time_base_num time_base_den rate fmt : Z) (layout : Z)
  | volume_filter (args : string)     (* the text it is created from *)
  | asplit (outputs : Z)
  | aformat (fmt : GrooveAudioFormat)
  | abuffersink.

Record AVFilterGraph := mkGraph {
  filters : list AVFilter;
  links : list (nat * Z * nat * Z);   (* source, source pad, destination, destination pad *)
  configured : bool
}.

(** [GroovePlaylist] together with its [GroovePlaylistPrivate]; the private
    [volume] is [p_volume]. *)
Record GroovePlaylist := mkPlaylist {
  head : option loc;
  tail : option loc;
  volume : float;
  abort_request : Z;
  paused : Z;
  last_paused : Z;
  in_sample_rate : Z;
  in_channel_layout : Z;
  in_sample_fmt : Z;
  in_time_base : Z * Z;
  filter_graph : option AVFilterGraph;
  abuffer_ctx : option nat;
  volume_ctx : option nat;
  asplit_ctx : option nat;
  decode_head : option loc;
  p_volume : float;
  rebuild_filter_graph_flag : Z;
  sink_map : option SinkMap;
  sink_map_count : Z;
  filter_volume : float;
  sent_end_of_q : Z;
  purge_item : option loc
}.

(** The memory the engine works on: the four heaps, the one playlist, and
    what the external world has seen of it ([av_frame_free] and [SDL_Delay]
    calls, the sinks' callbacks). *)
Inductive event :=
  | Delay (ms : Z)                          (* [SDL_Delay] *)
  | Decode (f : option loc)                 (* [decode_one_frame] on a file *)
  | FrameFree (fr : loc)                    (* [av_frame_free] *)
  | FlushHook (s : loc)                     (* [sink->flush(sink)] *)
  | PurgeHook (s : loc) (i : option loc).   (* [sink->purge(sink, item)] *)

Record World := mkWorld {
  items : gmap loc GroovePlaylistItem;
  files : gmap loc GrooveFilePrivate;
  sinks : gmap loc GrooveSink;
  buffers : gmap loc GrooveBuffer;
  playlist : GroovePlaylist;
  trace : list event
}.

(** *** Field updates *)

Definition set_items (f : gmap loc GroovePlaylistItem → gmap loc GroovePlaylistItem) (w : World) :=
  mkWorld (f (items w)) (files w) (sinks w) (buffers w) (playlist w) (trace w).
Definition set_files (f : gmap loc GrooveFilePrivate → gmap loc GrooveFilePrivate) (w : World) :=
  mkWorld (items w) (f (files w)) (sinks w) (buffers w) (playlist w) (trace w).
Definition set_sinks (f : gmap loc GrooveSink → gmap loc GrooveSink) (w : World) :=
  mkWorld (items w) (files w) (f (sinks w)) (buffers w) (playlist w) (trace w).
Definition set_buffers (f : gmap loc GrooveBuffer → gmap loc GrooveBuffer) (w : World) :=
  mkWorld (items w) (files w) (sinks w) (f (buffers w)) (playlist w) (trace w).
Definition set_playlist (f : GroovePlaylist → GroovePlaylist) (w : World) :=
  mkWorld (items w) (files w) (sinks w) (buffers w) (f (playlist w)) (trace w).
Definition set_trace (f : list event → list event) (w : World) :=
  mkWorld (items w) (files w) (sinks w) (buffers w) (playlist w) (f (trace w)).

Definition with_prev (v : option loc) (i : GroovePlaylistItem) :=
  mkItem (file i) (gain i) v (next i).
Definition with_next (v : option loc) (i : GroovePlaylistItem) :=
  mkItem (file i) (gain i) (prev i) v.
Definition with_gain (v : float) (i : GroovePlaylistItem) :=
  mkItem (file i) v (prev i) (next i).
Definition with_file (v : option loc) (i : GroovePlaylistItem) :=
  mkItem v (gain i) (prev i) (next i).

Definition with_seek (pos flush : Z) (f : GrooveFilePrivate) :=
  mkFile pos flush (eof f) (f_abort_request f) (audio_clock f) (time_base f)
         (codec_sample_rate f) (codec_channel_layout f) (codec_sample_fmt f).

Definition with_ref_count (v : Z) (b : GrooveBuffer) :=
  mkBuffer (item b) (pos b) (format b) (frame_count b) (size b) (frame b) v.

Definition with_audioq (q : option GrooveQueue) (s : GrooveSink) :=
  mkSink (audio_format s) (buffer_size s) (bytes_per_sec s) (sink_playlist s)
         (flush s) (purge s) q (audioq_buf_count s) (audioq_size s) (min_audioq_size s).
Definition with_counters (count bytes : Z) (s : GrooveSink) :=
  mkSink (audio_format s) (buffer_size s) (bytes_per_sec s) (sink_playlist s)
         (flush s) (purge s) (audioq s) count bytes (min_audioq_size s).
Definition with_sink_playlist (pl : option loc) (s : GrooveSink) :=
  mkSink (audio_format s) (buffer_size s) (bytes_per_sec s) pl
         (flush s) (purge s) (audioq s) (audioq_buf_count s) (audioq_size s) (min_audioq_size s).
Definition with_cached (bps minq : Z) (s : GrooveSink) :=
  mkSink (audio_format s) (buffer_size s) bps (sink_playlist s)
         (flush s) (purge s) (audioq s) (audioq_buf_count s) (audioq_size s) minq.

Definition with_head (v : option loc) (p : GroovePlaylist) :=
  mkPlaylist v (tail p) (volume p) (abort_request p) (paused p) (last_paused p)
    (in_sample_rate p) (in_channel_layout p) (in_sample_fmt p) (in_time_base p)
    (filter_graph p) (abuffer_ctx p) (volume_ctx p) (asplit_ctx p) (decode_head p)
    (p_volume p) (rebuild_filter_graph_flag p) (sink_map p) (sink_map_count p)
    (filter_volume p) (sent_end_of_q p) (purge_item p).
Definition with_tail (v : option loc) (p : GroovePlaylist) :=
  mkPlaylist (head p) v (volume p) (abort_request p) (paused p) (last_paused p)
    (in_sample_rate p) (in_channel_layout p) (in_sample_fmt p) (in_time_base p)
    (filter_graph p) (abuffer_ctx p) (volume_ctx p) (asplit_ctx p) (decode_head p)
    (p_volume p) (rebuild_filter_graph_flag p) (sink_map p) (sink_map_count p)
    (filter_volume p) (sent_end_of_q p) (purge_item p).
Definition with_decode_head (v : option loc) (p : GroovePlaylist) :=
  mkPlaylist (head p) (tail p) (volume p) (abort_request p) (paused p) (last_paused p)
    (in_sample_rate p) (in_channel_layout p) (in_sample_fmt p) (in_time_base p)
    (filter_graph p) (abuffer_ctx p) (volume_ctx p) (asplit_ctx p) v
    (p_volume p) (rebuild_filter_graph_flag p) (sink_map p) (sink_map_count p)
    (filter_volume p) (sent_end_of_q p) (purge_item p).
Definition with_p_volume (v : float) (p : GroovePlaylist) :=
  mkPlaylist (head p) (tail p) (volume p) (abort_request p) (paused p) (last_paused p)
    (in_sample_rate p) (in_channel_layout p) (in_sample_fmt p) (in_time_base p)
    (filter_graph p) (abuffer_ctx p) (volume_ctx p) (asplit_ctx p) (decode_head p)
    v (rebuild_filter_graph_flag p) (sink_map p) (sink_map_count p)
    (filter_volume p) (sent_end_of_q p) (purge_item p).
Definition with_rebuild_filter_graph_flag (v : Z) (p : GroovePlaylist) :=
  mkPlaylist (head p) (tail p) (volume p) (abort_request p) (paused p) (last_paused p)
    (in_sample_rate p) (in_channel_layout p) (in_sample_fmt p) (in_time_base p)
    (filter_graph p) (abuffer_ctx p) (volume_ctx p) (asplit_ctx p) (decode_head p)
    (p_volume p) v (sink_map p) (sink_map_count p)
    (filter_volume p) (sent_end_of_q p) (purge_item p).
Definition with_sink_map (m : option SinkMap) (n : Z) (p : GroovePlaylist) :=
  mkPlaylist (head p) (tail p) (volume p) (abort_request p) (paused p) (last_paused p)
    (in_sample_rate p) (in_channel_layout p) (in_sample_fmt p) (in_time_base p)
    (filter_graph p) (abuffer_ctx p) (volume_ctx p) (asplit_ctx p) (decode_head p)
    (p_volume p) (rebuild_filter_graph_flag p) m n
    (filter_volume p) (sent_end_of_q p) (purge_item p).
Definition with_filter_volume (v : float) (p : GroovePlaylist) :=
  mkPlaylist (head p) (tail p) (volume p) (abort_request p) (paused p) (last_paused p)
    (in_sample_rate p) (in_channel_layout p) (in_sample_fmt p) (in_time_base p)
    (filter_graph p) (abuffer_ctx p) (volume_ctx p) (asplit_ctx p) (decode_head p)
    (p_volume p) (rebuild_filter_graph_flag p) (sink_map p) (sink_map_count p)
    v (sent_end_of_q p) (purge_item p).
Definition with_sent_end_of_q (v : Z) (p : GroovePlaylist) :=
  mkPlaylist (head p) (tail p) (volume p) (abort_request p) (paused p) (last_paused p)
    (in_sample_rate p) (in_channel_layout p) (in_sample_fmt p) (in_time_base p)
    (filter_graph p) (abuffer_ctx p) (volume_ctx p) (asplit_ctx p) (decode_head p)
    (p_volume p) (rebuild_filter_graph_flag p) (sink_map p) (sink_map_count p)
    (filter_volume p) v (purge_item p).
Definition with_abort_request (v : Z) (p : GroovePlaylist) :=
  mkPlaylist (head p) (tail p) (volume p) v (paused p) (last_paused p)
    (in_sample_rate p) (in_channel_layout p) (in_sample_fmt p) (in_time_base p)
    (filter_graph p) (abuffer_ctx p) (volume_ctx p) (asplit_ctx p) (decode_head p)
    (p_volume p) (rebuild_filter_graph_flag p) (sink_map p) (sink_map_count p)
    (filter_volume p) (sent_end_of_q p) (purge_item p).
Definition with_purge_item (v : option loc) (p : GroovePlaylist) :=
  mkPlaylist (head p) (tail p) (volume p) (abort_request p) (paused p) (last_paused p)
    (in_sample_rate p) (in_channel_layout p) (in_sample_fmt p) (in_time_base p)
    (filter_graph p) (abuffer_ctx p) (volume_ctx p) (asplit_ctx p) (decode_head p)
    (p_volume p) (rebuild_filter_graph_flag p) (sink_map p) (sink_map_count p)
    (filter_volume p) (sent_end_of_q p) v.
Definition with_in_format (rate layout fmt : Z) (tb : Z * Z) (p : GroovePlaylist) :=
  mkPlaylist (head p) (tail p) (volume p) (abort_request p) (paused p) (last_paused p)
    rate layout fmt tb
    (filter_graph p) (abuffer_ctx p) (volume_ctx p) (asplit_ctx p) (decode_head p)
    (p_volume p) (rebuild_filter_graph_flag p) (sink_map p) (sink_map_count p)
    (filter_volume p) (sent_end_of_q p) (purge_item p).
Definition with_filter_graph (g : option AVFilterGraph) (p : GroovePlaylist) :=
  mkPlaylist (head p) (tail p) (volume p) (abort_request p) (paused p) (last_paused p)
    (in_sample_rate p) (in_channel_layout p) (in_sample_fmt p) (in_time_base p)
    g (abuffer_ctx p) (volume_ctx p) (asplit_ctx p) (decode_head p)
    (p_volume p) (rebuild_filter_graph_flag p) (sink_map p) (sink_map_count p)
    (filter_volume p) (sent_end_of_q p) (purge_item p).
Definition with_abuffer_ctx (c : option nat) (p : GroovePlaylist) :=
  mkPlaylist (head p) (tail p) (volume p) (abort_request p) (paused p) (last_paused p)
    (in_sample_rate p) (in_channel_layout p) (in_sample_fmt p) (in_time_base p)
    (filter_graph p) c (volume_ctx p) (asplit_ctx p) (decode_head p)
    (p_volume p) (rebuild_filter_graph_flag p) (sink_map p) (sink_map_count p)
    (filter_volume p) (sent_end_of_q p) (purge_item p).
Definition with_volume_ctx (c : option nat) (p : GroovePlaylist) :=
  mkPlaylist (head p) (tail p) (volume p) (abort_request p) (paused p) (last_paused p)
    (in_sample_rate p) (in_channel_layout p) (in_sample_fmt p) (in_time_base p)
    (filter_graph p) (abuffer_ctx p) c (asplit_ctx p) (decode_head p)
    (p_volume p) (rebuild_filter_graph_flag p) (sink_map p) (sink_map_count p)
    (filter_volume p) (sent_end_of_q p) (purge_item p).
Definition with_asplit_ctx (c : option nat) (p : GroovePlaylist) :=
  mkPlaylist (head p) (tail p) (volume p) (abort_request p) (paused p) (last_paused p)
    (in_sample_rate p) (in_channel_layout p) (in_sample_fmt p) (in_time_base p)
    (filter_graph p) (abuffer_ctx p) (volume_ctx p) c (decode_head p)
    (p_volume p) (rebuild_filter_graph_flag p) (sink_map p) (sink_map_count p)
    (filter_volume p) (sent_end_of_q p) (purge_item p).

(** *** The state-and-fault monad *)

Definition M (A : Type) := World → result (A * World).

Definition ret {A} (a : A) : M A := fun w => Ok (a, w).
Definition bind {A B} (c : M A) (k : A → M B) : M B :=
  fun w => match c w with
           | Ok (a, w') => k a w'
           | Fault f => Fault f
           end.
Definition fail {A} (f : fault) : M A := fun _ => Fault f.
Definition get : M World := fun w => Ok (w, w).
Definition modify (f : World → World) : M unit := fun w => Ok (tt, f w).

Notation "'let*' x ':=' c 'in' k" := (bind c (fun x => k))
  (at level 10, x name, c at level 100, k at level 200, only parsing).
Notation "c1 '>>' c2" := (bind c1 (fun _ => c2))
  (at level 100, c2 at level 200, right associativity, only parsing).

(** [when c body]: the C statement [if (c) body]. *)
Definition when (c : bool) (body : M unit) : M unit := if c then body else ret tt.

Definition log (e : event) : M unit := modify (set_trace (fun t => t ++ [e])).

(** *** Reads and writes through pointers *)

Definition load {A} (heap : World → gmap loc A) (p : option loc) : M A :=
  fun w => match p with
           | None => Fault NullDeref
           | Some l => match heap w !! l with
                       | Some v => Ok (v, w)
                       | None => Fault UseAfterFree
                       end
           end.

Definition store_item (p : option loc) (f : GroovePlaylistItem → GroovePlaylistItem) : M unit :=
  let* i := load items p in
  match p with
  | Some l => modify (set_items <[l := f i]>)
  | None => fail NullDeref
  end.

Definition store_file (p : option loc) (f : GrooveFilePrivate → GrooveFilePrivate) : M unit :=
  let* x := load files p in
  match p with
  | Some l => modify (set_files <[l := f x]>)
  | None => fail NullDeref
  end.

Definition store_sink (p : option loc) (f : GrooveSink → GrooveSink) : M unit :=
  let* x := load sinks p in
  match p with
  | Some l => modify (set_sinks <[l := f x]>)
  | None => fail NullDeref
  end.

Definition store_buffer (p : option loc) (f : GrooveBuffer → GrooveBuffer) : M unit :=
  let* x := load buffers p in
  match p with
  | Some l => modify (set_buffers <[l := f x]>)
  | None => fail NullDeref
  end.

(** The playlist is always there: [playlist->...] and [p->...]. *)
Definition the_playlist : M GroovePlaylist := fun w => Ok (playlist w, w).
Definition update_playlist (f : GroovePlaylist → GroovePlaylist) : M unit :=
  modify (set_playlist f).

(** [av_free] of a playlist item that is allocated. *)
Definition free_item (p : option loc) : M unit :=
  match p with
  | None => ret tt
  | Some l => let* _ := load items p in modify (set_items (delete l))
  end.

Definition is_null (p : option loc) : bool := bool_decide (p = NULL).
Definition ptr_eq (p q : option loc) : bool := bool_decide (p = q).

(** ** Buffers (lines 86-88 and 1077-1103) *)

(** [static GrooveBuffer *end_of_q_sentinel = NULL;] *)
Definition end_of_q_sentinel : option loc := NULL.

Definition groove_buffer_ref (buffer : option loc) : M unit :=
  let* b := load buffers buffer in
  store_buffer buffer (with_ref_count (wrap_int (ref_count b + 1))).

Definition groove_buffer_unref (buffer : option loc) : M unit :=
  match buffer with
  | None => ret tt
  | Some l =>
      let* b := load buffers buffer in
      store_buffer buffer (with_ref_count (wrap_int (ref_count b - 1))) >>
      let* b := load buffers buffer in
      let free := ref_count b =? 0 in
      when free
        (log (FrameFree (frame b)) >>         (* av_frame_free(&b->frame) *)
         modify (set_buffers (delete l)))     (* av_free(b); av_free(buffer) *)
  end.

(** ** The sink queue hooks (lines 531-569) *)

Definition audioq_put (sink : option loc) (obj : option loc) : M unit :=
  let buffer := obj in
  let* s := load sinks sink in
  if ptr_eq buffer end_of_q_sentinel then ret tt
  else
    let* b := load buffers buffer in
    store_sink sink (with_counters (wrap_int (audioq_buf_count s + 1))
                                   (wrap_int (audioq_size s + size b))).

Definition audioq_get (sink : option loc) (obj : option loc) : M unit :=
  let buffer := obj in
  let* s := load sinks sink in
  if ptr_eq buffer end_of_q_sentinel then ret tt
  else
    let* b := load buffers buffer in
    store_sink sink (with_counters (wrap_int (audioq_buf_count s - 1))
                                   (wrap_int (audioq_size s - size b))).

Definition audioq_cleanup (sink : option loc) (obj : option loc) : M unit :=
  let buffer := obj in
  let* s := load sinks sink in
  if ptr_eq buffer end_of_q_sentinel then ret tt
  else
    let* b := load buffers buffer in
    store_sink sink (with_counters (wrap_int (audioq_buf_count s - 1))
                                   (wrap_int (audioq_size s - size b))) >>
    groove_buffer_unref buffer.

Definition audioq_purge (sink : option loc) (obj : option loc) : M bool :=
  let* s := load sinks sink in
  match sink_playlist s with
  | None => fail NullDeref                 (* playlist->internals *)
  | Some _ =>
      let* p := the_playlist in
      let item' := purge_item p in
      let buffer := obj in
      let* b := load buffers buffer in
      ret (ptr_eq (item b) item')
  end.

(** ** The queue primitive

    [queue.c] is not among the sources.  A queue is reached through the sink
    that owns it ([queue->context]). *)

Definition the_queue (sink : option loc) : M GrooveQueue :=
  let* s := load sinks sink in
  match audioq s with
  | Some q => ret q
  | None => fail NullDeref
  end.

Definition set_queue (sink : option loc) (q : GrooveQueue) : M unit :=
  store_sink sink (with_audioq (Some q)).

(** Modelled from the spec: [groove_queue_put] is missing.  "put(obj)": the
    object goes to the end of the FIFO and the [put] hook is called.  [ok]
    tells whether the queue took the object; the callers test the result
    against 0. *)
Definition groove_queue_put (ok : bool) (sink : option loc) (obj : option loc) : M Z :=
  let* q := the_queue sink in
  if ok then
    set_queue sink (mkQueue (q_items q ++ [obj]) (q_abort_request q)) >>
    audioq_put sink obj >>
    ret 0
  else ret (-1).

(** Modelled from the spec: [groove_queue_get] is missing.  "get(obj,
    blocking) → {1=got, else=aborted}": the oldest object is taken out and
    the [get] hook is called; an aborted queue gives nothing; an empty one
    gives nothing when [block] is 0 and waits otherwise. *)
Definition groove_queue_get (sink : option loc) (block : Z) : M (Z * option (option loc)) :=
  let* q := the_queue sink in
  if negb (q_abort_request q =? 0) then ret (-1, None)
  else match q_items q with
       | obj :: rest =>
           set_queue sink (mkQueue rest (q_abort_request q)) >>
           audioq_get sink obj >>
           ret (1, Some obj)
       | [] => if block =? 0 then ret (0, None) else fail Blocked
       end.

(** Modelled from the spec: the loop of [groove_queue_flush], which calls
    the [cleanup] hook on every object that was still held. *)
Fixpoint queue_cleanup_all (sink : option loc) (l : list (option loc)) : M unit :=
  match l with
  | [] => ret tt
  | obj :: rest => audioq_cleanup sink obj >> queue_cleanup_all sink rest
  end.

(** Modelled from the spec: [groove_queue_flush] is missing.  "flush (drain
    synchronously freeing contents)". *)
Definition groove_queue_flush (sink : option loc) : M unit :=
  let* q := the_queue sink in
  set_queue sink (mkQueue [] (q_abort_request q)) >>
  queue_cleanup_all sink (q_items q).

(** Modelled from the spec: [groove_queue_abort] is missing.  "abort (wake
    all blocked getters, returning not-got)". *)
Definition groove_queue_abort (sink : option loc) : M unit :=
  let* q := the_queue sink in
  set_queue sink (mkQueue (q_items q) 1).

(** Modelled from the spec: [groove_queue_reset] is missing.  "reset (clear
    abort state)". *)
Definition groove_queue_reset (sink : option loc) : M unit :=
  let* q := the_queue sink in
  set_queue sink (mkQueue (q_items q) 0).

(** Modelled from the spec: the loop of [groove_queue_purge], which asks
    the [purge] hook about every object and calls the [cleanup] hook on those
    it removes. *)
Fixpoint queue_purge_each (sink : option loc) (l : list (option loc)) : M (list (option loc)) :=
  match l with
  | [] => ret []
  | obj :: rest =>
      let* hit := audioq_purge sink obj in
      if hit then audioq_cleanup sink obj >> queue_purge_each sink rest
      else let* kept := queue_purge_each sink rest in ret (obj :: kept)
  end.

(** Modelled from the spec: [groove_queue_purge] is missing.  "purge (remove
    entries for which a predicate returns true)". *)
Definition groove_queue_purge (sink : option loc) : M unit :=
  let* q := the_queue sink in
  let* kept := queue_purge_each sink (q_items q) in
  let* q := the_queue sink in
  set_queue sink (mkQueue kept (q_abort_request q)).

(** ** Walking the sink map (lines 409-457) *)

Fixpoint every_sink_stack (func : option loc → M Z) (default_value : Z)
    (stack_item : SinkStack) : M (option Z) :=
  let 'mkSinkStack sink next_stack_item := stack_item in
  let* value := func sink in
  if negb (value =? default_value) then ret (Some value)
  else match next_stack_item with
       | Some n => every_sink_stack func default_value n
       | None => ret None
       end.

Fixpoint every_sink_map (func : option loc → M Z) (default_value : Z)
    (map_item : SinkMap) : M (option Z) :=
  let 'mkSinkMap stack _ _ next_map_item := map_item in
  let* r := match stack with
            | Some st => every_sink_stack func default_value st
            | None => ret None
            end in
  match r with
  | Some value => ret (Some value)
  | None => match next_map_item with
            | Some m => every_sink_map func default_value m
            | None => ret None
            end
  end.

Definition every_sink (func : option loc → M Z) (default_value : Z) : M Z :=
  let* p := the_playlist in
  let* r := match sink_map p with
            | Some m => every_sink_map func default_value m
            | None => ret None
            end in
  ret (default default_value r).

Definition sink_is_full (sink : option loc) : M Z :=
  let* s := load sinks sink in
  ret (c_bool (min_audioq_size s <=? audioq_size s)).

Definition every_sink_full : M Z := every_sink sink_is_full 1.

(** [put_ok sink] tells whether the queue of [sink] takes the object; the
    result of [groove_queue_put] is not looked at here. *)
Definition sink_signal_end (put_ok : option loc → bool) (sink : option loc) : M Z :=
  let* _ := load sinks sink in
  let* _ := groove_queue_put (put_ok sink) sink end_of_q_sentinel in
  ret 0.

Definition every_sink_signal_end (put_ok : option loc → bool) : M unit :=
  let* _ := every_sink (sink_signal_end put_ok) 0 in ret tt.

Definition sink_flush (sink : option loc) : M Z :=
  let* s := load sinks sink in
  groove_queue_flush sink >>
  when (flush s) (match sink with Some l => log (FlushHook l) | None => ret tt end) >>
  ret 0.

Definition every_sink_flush : M unit :=
  let* _ := every_sink sink_flush 0 in ret tt.

(** ** The playlist (lines 876-987) *)

(** [item] is what [av_mallocz] returned: [NULL], or the address of a new,
    zeroed item. *)
Definition groove_playlist_insert (item : option loc) (file' : option loc)
    (gain' : float) (next' : option loc) : M (option loc) :=
  match item with
  | None => ret NULL
  | Some l =>
      modify (set_items <[l := mkItem NULL 0%float NULL NULL]>) >>
      store_item item (with_file file') >>
      store_item item (with_next next') >>
      store_item item (with_gain gain') >>
      let* _ := load files file' in               (* f = file->internals *)
      (if negb (is_null next') then
         let* n := load items next' in
         if negb (is_null (prev n)) then
           store_item item (with_prev (prev n)) >>
           let* i := load items item in
           store_item (prev i) (with_next item) >>
           store_item next' (with_prev item)
         else
           update_playlist (with_head item)
       else
         let* pl := the_playlist in
         if is_null (head pl) then
           update_playlist (with_head item) >>
           update_playlist (with_tail item) >>
           let* pl := the_playlist in
           update_playlist (with_decode_head (head pl)) >>
           store_file file' (with_seek 0 0)
         else
           store_item item (with_prev (tail pl)) >>
           store_item (tail pl) (with_next item) >>
           update_playlist (with_tail item)) >>
      ret item
  end.

Definition purge_sink (sink : option loc) : M Z :=
  let* _ := load sinks sink in
  groove_queue_purge sink >>
  let* s := load sinks sink in
  match sink_playlist s with
  | None => fail NullDeref                 (* playlist->internals *)
  | Some _ =>
      let* p := the_playlist in
      let item' := purge_item p in
      when (purge s) (match sink with Some l => log (PurgeHook l item') | None => ret tt end) >>
      ret 0
  end.

Definition groove_playlist_remove (item : option loc) : M unit :=
  let* p := the_playlist in
  let* i := load items item in
  when (ptr_eq item (decode_head p))
    (update_playlist (with_decode_head (next i))) >>
  (if negb (is_null (prev i)) then store_item (prev i) (with_next (next i))
   else update_playlist (with_head (next i))) >>
  let* i := load items item in
  (if negb (is_null (next i)) then store_item (next i) (with_prev (prev i))
   else update_playlist (with_tail (prev i))) >>
  update_playlist (with_purge_item item) >>
  let* _ := every_sink purge_sink 0 in
  update_playlist (with_purge_item NULL) >>
  free_item item.

(** The loop of [groove_playlist_clear]; [fuel] bounds its iterations. *)
Fixpoint groove_playlist_clear_loop (fuel : nat) (node : option loc) : M unit :=
  if is_null node then ret tt
  else match fuel with
       | O => fail OutOfFuel
       | S fuel' =>
           groove_playlist_remove node >>
           let* n := load items node in         (* node = node->next *)
           groove_playlist_clear_loop fuel' (next n)
       end.

Definition groove_playlist_clear (fuel : nat) : M unit :=
  let* pl := the_playlist in
  let node := head pl in
  if is_null node then ret tt
  else groove_playlist_clear_loop fuel node.

(** The loop of [groove_playlist_count]; [fuel] bounds its iterations. *)
Fixpoint groove_playlist_count_loop (fuel : nat) (node : option loc) (count : Z) : M Z :=
  if is_null node then ret count
  else match fuel with
       | O => fail OutOfFuel
       | S fuel' =>
           let* n := load items node in
           groove_playlist_count_loop fuel' (next n) (wrap_int (count + 1))
       end.

Definition groove_playlist_count (fuel : nat) : M Z :=
  let* pl := the_playlist in
  groove_playlist_count_loop fuel (head pl) 0.

(** ** The sink map (lines 622-706) *)

(** What [av_mallocz] returns: [NULL], or a zeroed object. *)
Definition av_mallocz {A} (ok : bool) (zero : A) : option A :=
  if ok then Some zero else None.

(** [x->field], for an object held by value. *)
Definition deref {A} (p : option A) : M A :=
  match p with
  | Some v => ret v
  | None => fail NullDeref
  end.

Definition audio_formats_equal (a b : GrooveAudioFormat) : bool :=
  (sample_rate a =? sample_rate b) &&
  (channel_layout a =? channel_layout b) &&
  (sample_fmt a =? sample_fmt b).

(** The inner loop of [remove_sink_from_map]: [None] when [sink] is not on
    the stack, otherwise what is linked in the place of [stack_item] once the
    entry is unlinked. *)
Fixpoint remove_sink_from_stack (sink : option loc) (stack_item : SinkStack)
    : option (option SinkStack) :=
  let 'mkSinkStack item_sink next_stack_item := stack_item in
  if ptr_eq item_sink sink then Some next_stack_item
  else match next_stack_item with
       | Some n =>
           match remove_sink_from_stack sink n with
           | Some n' => Some (Some (mkSinkStack item_sink n'))
           | None => None
           end
       | None => None
       end.

(** The outer loop: [None] when no stack holds [sink], otherwise the map
    after the removal and whether a map item was deleted. *)
Fixpoint remove_sink_from_map_loop (sink : option loc) (map_item : SinkMap)
    : option (option SinkMap * bool) :=
  let 'mkSinkMap stack a b next_map_item := map_item in
  match stack ≫= remove_sink_from_stack sink with
  | Some (Some stack') => Some (Some (mkSinkMap (Some stack') a b next_map_item), false)
  | Some None => Some (next_map_item, true)   (* the stack is empty; delete the map item *)
  | None =>
      match next_map_item with
      | Some m =>
          match remove_sink_from_map_loop sink m with
          | Some (m', deleted) => Some (Some (mkSinkMap stack a b m'), deleted)
          | None => None
          end
      | None => None
      end
  end.

Definition remove_sink_from_map (sink : option loc) : M Z :=
  let* s := load sinks sink in
  let* _ := deref (sink_playlist s) in          (* p = playlist->internals *)
  let* p := the_playlist in
  match (sink_map p ≫= remove_sink_from_map_loop sink
         : option (option SinkMap * bool)) with
  | Some (m', deleted) =>
      update_playlist
        (with_sink_map m' (if deleted then wrap_int (sink_map_count p - 1)
                           else sink_map_count p)) >>
      ret 0
  | None => ret (-1)
  end.

(** The loop of [add_sink_to_map]: [None] when no map item has the format
    of [sink], otherwise the map with [stack_entry] pushed. *)
Fixpoint add_sink_to_map_loop (sink : option loc) (stack_entry : SinkStack)
    (map_item : SinkMap) : M (option SinkMap) :=
  let 'mkSinkMap stack a b next_map_item := map_item in
  let* top := deref stack in                             (* map_item->stack_head->sink *)
  let example_sink := ss_sink top in
  let* e := load sinks example_sink in
  let* s := load sinks sink in
  if audio_formats_equal (audio_format e) (audio_format s) then
    ret (Some (mkSinkMap (Some (mkSinkStack (ss_sink stack_entry) stack)) a b next_map_item))
  else match next_map_item with
       | Some m =>
           let* r := add_sink_to_map_loop sink stack_entry m in
           ret (match r with
                | Some m' => Some (mkSinkMap stack a b (Some m'))
                | None => None
                end)
       | None => ret None
       end.

(** [stack_ok] and [map_ok] tell whether the two [av_mallocz] calls succeed. *)
Definition add_sink_to_map (stack_ok map_ok : bool) (sink : option loc) : M Z :=
  let* p := the_playlist in
  let stack_entry := av_mallocz stack_ok (mkSinkStack NULL NULL) in
  let* e := deref stack_entry in                         (* stack_entry->sink = sink; *)
  let stack_entry := Some (mkSinkStack sink (ss_next e)) in
  match stack_entry with
  | None => ret (-1)
  | Some entry =>
      let* r := match sink_map p with
                | Some m => add_sink_to_map_loop sink entry m
                | None => ret None
                end in
      match r with
      | Some m' => update_playlist (with_sink_map (Some m') (sink_map_count p)) >> ret 0
      | None =>
          let map_entry := av_mallocz map_ok (mkSinkMap NULL NULL NULL NULL) in
          let* me := deref map_entry in                  (* map_entry->stack_head = stack_entry; *)
          let map_entry :=
            Some (mkSinkMap stack_entry (aformat_ctx me) (abuffersink_ctx me) (sm_next me)) in
          match map_entry with
          | None => ret (-1)
          | Some me =>
              update_playlist
                (with_sink_map
                   (Some (if negb (bool_decide (sink_map p = None))
                          then mkSinkMap (stack_head me) (aformat_ctx me)
                                         (abuffersink_ctx me) (sink_map p)
                          else me))
                   (wrap_int (sink_map_count p + 1))) >>
              ret 0
          end
      end
  end.

(** ** Sinks (lines 708-778) *)

Definition groove_sink_detach (sink : option loc) : M Z :=
  let* s := load sinks sink in
  let playlist' := sink_playlist s in
  if is_null playlist' then ret (-1)
  else
    when (bool_decide (audioq s ≠ None))
      (groove_queue_abort sink >> groove_queue_flush sink) >>
    let* err := remove_sink_from_map sink in
    store_sink sink (with_sink_playlist NULL) >>
    ret err.

(** The result codes of [groove_sink_get_buffer]; [groove.h], which gives
    them their values, is not part of this file. *)
Inductive GrooveBufferResult :=
  | GROOVE_BUFFER_NO
  | GROOVE_BUFFER_YES
  | GROOVE_BUFFER_END.

(** The result, and what is left in [*buffer]. *)
Definition groove_sink_get_buffer (sink : option loc) (block : Z)
    : M (GrooveBufferResult * option loc) :=
  let* _ := load sinks sink in
  let* r := groove_queue_get sink block in
  match r with
  | (1, Some buffer) =>
      if ptr_eq buffer end_of_q_sentinel then ret (GROOVE_BUFFER_END, NULL)
      else ret (GROOVE_BUFFER_YES, buffer)
  | _ => ret (GROOVE_BUFFER_NO, NULL)
  end.

Section Attach.

(** The two libavutil tables [groove_sink_attach] reads. *)
Variable av_get_channel_layout_nb_channels : Z → Z.
Variable av_get_bytes_per_sample : Z → Z.

Definition groove_sink_attach (stack_ok map_ok : bool)
  (sink : option loc) (playlist' : option loc) : M Z :=
let* s := load sinks sink in
let channel_count :=
  av_get_channel_layout_nb_channels (channel_layout (audio_format s)) in
store_sink sink
  (with_cached
     (wrap_int (wrap_int (channel_count * sample_rate (audio_format s)) *
                av_get_bytes_per_sample (sample_fmt (audio_format s))))
     (wrap_int (wrap_int (buffer_size s * channel_count) *
                av_get_bytes_per_sample (sample_fmt (audio_format s))))) >>
let* _ := deref playlist' in                         (* p = playlist->internals *)
let* err := add_sink_to_map stack_ok map_ok sink in
if err <? 0 then ret err
else
  groove_queue_reset sink >>
  store_sink sink (with_sink_playlist playlist') >>
  ret 0.

End Attach.

(** ** The filter graph (lines 240-407) *)

(** The libavfilter calls of [init_filter_graph] that can fail. *)
Inductive libav_call :=
  | create_abuffer | create_volume | link_volume | create_asplit | link_asplit
  | create_aformat (pad : Z) | link_aformat (pad : Z)
  | create_abuffersink (pad : Z) | link_abuffersink (pad : Z)
  | graph_config.

(** *** The text of the volume (line 297)

    [snprintf(p->strbuf, sizeof(p->strbuf), "volume=%f", vol)].  C's [%f]
    writes a [double] in decimal notation with six digits after the point:
    the exact value of the binary64 number rounded to a multiple of 10^-6,
    to the nearest one and to the even one of two that are equally near
    (the rounding of the C library in the default rounding mode); an
    infinity is written [inf] and a NaN [nan], after a [-] for a negative
    number.  Binary64 as Rocq has it has one NaN, without a sign. *)

Definition digit (n : Z) : string :=
  String (Ascii.ascii_of_N (48 + Z.to_N (n mod 10))) EmptyString.

(** The last [k] decimal digits of [n], before [acc]. *)
Fixpoint fixed_digits (k : nat) (n : Z) (acc : string) : string :=
  match k with
  | O => acc
  | S k' => fixed_digits k' (n / 10) (digit n +:+ acc)
  end.

(** The decimal digits of [n >= 0], at least one. *)
Fixpoint decimal_digits (fuel : nat) (n : Z) (acc : string) : string :=
  match fuel with
  | O => acc
  | S fuel' =>
      if n / 10 =? 0 then digit n +:+ acc
      else decimal_digits fuel' (n / 10) (digit n +:+ acc)
  end.

Definition decimal (n : Z) : string := decimal_digits (S (Z.to_nat (Z.log2 n))) n EmptyString.

(** [num / den] rounded to the nearest integer, to the even one at a tie;
    [0 <= num] and [0 < den]. *)
Definition round_half_even (num den : Z) : Z :=
  let q := num / den in
  let r2 := 2 * (num mod den) in
  if r2 <? den then q
  else if den <? r2 then q + 1
  else if Z.even q then q else q + 1.

(** [printf("%f", x)]. *)
Definition printf_f (x : float) : string :=
  match Prim2SF x with
  | S754_nan => "nan"
  | S754_infinity s => (if s then "-" else EmptyString) +:+ "inf"
  | S754_zero s => (if s then "-" else EmptyString) +:+ "0.000000"
  | S754_finite s m e =>
      let millionths :=
        if 0 <=? e then Z.pos m * 2 ^ e * 1000000
        else round_half_even (Z.pos m * 1000000) (2 ^ (- e)) in
      (if s then "-" else EmptyString) +:+ decimal (millionths / 1000000) +:+ "." +:+
      fixed_digits 6 (millionths mod 1000000) EmptyString
  end.

(** What [snprintf] leaves in [strbuf], a [char[512]]: the first 511
    characters of the text. *)
Definition snprintf_volume (vol : float) : string :=
  String.substring 0 511 ("volume=" +:+ printf_f vol).

Section FilterGraph.

(** What the library answers: whether [avfilter_graph_alloc] gives a graph,
  and the error code of every other call. *)
Variable graph_alloc_ok : bool.
Variable libav : libav_call → Z.

(** [avfilter_graph_create_filter]: on success the new filter's context,
  on failure the error code and a null context. *)
Definition avfilter_graph_create_filter (c : libav_call) (flt : AVFilter)
  : M (Z * option nat) :=
let* p := the_playlist in
let* g := deref (filter_graph p) in
if libav c <? 0 then ret (libav c, NULL)
else
  update_playlist
    (with_filter_graph (Some (mkGraph (filters g ++ [flt]) (links g) (configured g)))) >>
  ret (libav c, Some (length (filters g))).

Definition avfilter_link (c : libav_call) (src : option nat) (srcpad : Z)
  (dst : option nat) (dstpad : Z) : M Z :=
let* p := the_playlist in
let* g := deref (filter_graph p) in
let* a := deref src in
let* b := deref dst in
if libav c <? 0 then ret (libav c)
else
  update_playlist
    (with_filter_graph
       (Some (mkGraph (filters g) (links g ++ [(a, srcpad, b, dstpad)]) (configured g)))) >>
  ret (libav c).

Definition avfilter_graph_config : M Z :=
let* p := the_playlist in
let* g := deref (filter_graph p) in
if libav graph_config <? 0 then ret (libav graph_config)
else
  update_playlist (with_filter_graph (Some (mkGraph (filters g) (links g) true))) >>
  ret (libav graph_config).

(** The loop over the sink map at the end of [init_filter_graph]: the
  error code, and the map with the contexts stored so far. *)
Fixpoint init_filter_graph_loop (audio_src_ctx : option nat) (pad_index : Z)
  (map_item : SinkMap) : M (Z * SinkMap) :=
let 'mkSinkMap stack a b next_map_item := map_item in
let* top := deref stack in
let example_sink := ss_sink top in
let* e := load sinks example_sink in
let* r := avfilter_graph_create_filter (create_aformat pad_index)
            (aformat (audio_format e)) in
let a := snd r in
if fst r <? 0 then ret (fst r, mkSinkMap stack a b next_map_item)
else
  let* err := avfilter_link (link_aformat pad_index) audio_src_ctx pad_index a 0 in
  if err <? 0 then ret (err, mkSinkMap stack a b next_map_item)
  else
    let* r := avfilter_graph_create_filter (create_abuffersink pad_index) abuffersink in
    let b := snd r in
    if fst r <? 0 then ret (fst r, mkSinkMap stack a b next_map_item)
    else
      let* err := avfilter_link (link_abuffersink pad_index) a 0 b 0 in
      if err <? 0 then ret (err, mkSinkMap stack a b next_map_item)
      else match next_map_item with
           | Some m =>
               let* r := init_filter_graph_loop audio_src_ctx (wrap_int (pad_index + 1)) m in
               ret (fst r, mkSinkMap stack a b (Some (snd r)))
           | None => ret (0, mkSinkMap stack a b None)
           end.

(** The second half of [init_filter_graph], from the split filter on. *)
Definition init_filter_graph_outputs (audio_src_ctx : option nat) : M Z :=
let* p := the_playlist in
let* r :=
  if sink_map_count p <? 2 then
    update_playlist (with_asplit_ctx NULL) >> ret (0, audio_src_ctx)
  else
    let* r := avfilter_graph_create_filter create_asplit (asplit (sink_map_count p)) in
    update_playlist (with_asplit_ctx (snd r)) >>
    if fst r <? 0 then ret (fst r, audio_src_ctx)
    else
      let* err := avfilter_link link_asplit audio_src_ctx 0 (snd r) 0 in
      if err <? 0 then ret (err, audio_src_ctx)
      else ret (0, snd r) in
if fst r <? 0 then ret (fst r)
else
  let audio_src_ctx := snd r in
  let* p := the_playlist in
  let* err :=
    match sink_map p with
    | Some m =>
        let* r := init_filter_graph_loop audio_src_ctx 0 m in
        update_playlist (with_sink_map (Some (snd r)) (sink_map_count p)) >>
        ret (fst r)
    | None => ret 0
    end in
  if err <? 0 then ret err
  else
    let* err := avfilter_graph_config in
    if err <? 0 then ret err
    else
      update_playlist (with_rebuild_filter_graph_flag 0) >>
      ret 0.

(** Lines 291-293: the local [vol] of [init_filter_graph]. *)
Definition init_filter_graph_vol (volume' : float) : float :=
let vol := volume' in
let vol := if (1 <? vol)%float then 1%float else vol in
let vol := if (vol <? 0)%float then 0%float else vol in
vol.

Definition init_filter_graph (file' : option loc) : M Z :=
let* f := load files file' in
update_playlist (with_filter_graph NULL) >>              (* avfilter_graph_free *)
update_playlist (with_filter_graph (av_mallocz graph_alloc_ok (mkGraph [] [] false))) >>
let* p := the_playlist in
if bool_decide (filter_graph p = None) then ret (-1)
else
  update_playlist
    (with_in_format (codec_sample_rate f) (codec_channel_layout f)
                    (codec_sample_fmt f) (time_base f)) >>
  let* r := avfilter_graph_create_filter create_abuffer
              (abuffer (fst (time_base f)) (snd (time_base f)) (codec_sample_rate f)
                       (codec_sample_fmt f) (codec_channel_layout f)) in
  update_playlist (with_abuffer_ctx (snd r)) >>
  if fst r <? 0 then ret (fst r)
  else
    let* p := the_playlist in
    let audio_src_ctx := abuffer_ctx p in
    update_playlist (with_filter_volume (p_volume p)) >>
    let vol := init_filter_graph_vol (p_volume p) in
    if (vol =? 1)%float then
      update_playlist (with_volume_ctx NULL) >>
      init_filter_graph_outputs audio_src_ctx
    else
      let* r := avfilter_graph_create_filter create_volume (volume_filter (snprintf_volume vol)) in
      update_playlist (with_volume_ctx (snd r)) >>
      if fst r <? 0 then ret (fst r)
      else
        let* p := the_playlist in
        let* err := avfilter_link link_volume audio_src_ctx 0 (volume_ctx p) 0 in
        if err <? 0 then ret err
        else
          let* p := the_playlist in
          init_filter_graph_outputs (volume_ctx p).

Definition maybe_init_filter_graph (file' : option loc) : M Z :=
let* p := the_playlist in
let* f := load files file' in
if bool_decide (filter_graph p = None)
   || negb (rebuild_filter_graph_flag p =? 0)
   || negb (in_sample_rate p =? codec_sample_rate f)
   || negb (in_channel_layout p =? codec_channel_layout f)
   || negb (in_sample_fmt p =? codec_sample_fmt f)
   || negb (fst (in_time_base p) =? fst (time_base f))
   || negb (snd (in_time_base p) =? snd (time_base f))
   || negb (p_volume p =? filter_volume p)%float
then init_filter_graph file'
else ret 0.

End FilterGraph.

(** ** From a filtered frame to the sink queues (lines 90-135 and 206-223) *)

Section Multicast.

Variable av_get_channel_layout_nb_channels : Z → Z.
Variable av_get_bytes_per_sample : Z → Z.

Definition frame_size (fr : AVFrame) : Z :=
wrap_int (wrap_int (av_get_channel_layout_nb_channels (frame_channel_layout fr) *
                    av_get_bytes_per_sample (frame_format fr)) *
          nb_samples fr).

(** [buffer] is what the first [av_mallocz] returned; [b_ok] and [mutex_ok]
  tell whether the second one and [SDL_CreateMutex] succeeded. *)
Definition frame_to_groove_buffer (buffer : option loc) (b_ok mutex_ok : bool)
  (sink : option loc) (fr : AVFrame) : M (option loc) :=
match buffer with
| Some l =>
    if negb b_ok then ret NULL
    else if negb mutex_ok then ret NULL
    else
      let* p := the_playlist in
      let* dh := load items (decode_head p) in
      let* f := load files (file dh) in
      modify (set_buffers
        <[l := mkBuffer (decode_head p) (audio_clock f)
                 (mkFormat (frame_sample_rate fr) (frame_channel_layout fr) (frame_format fr))
                 (nb_samples fr) (frame_size fr) (frame_addr fr) 0]>) >>
      ret buffer
| None => ret NULL
end.

(** The walk down one stack: [put_ok sink] tells whether the queue of
  [sink] takes the buffer. *)
Fixpoint audio_decode_frame_stack (put_ok : option loc → bool) (buffer : option loc)
  (stack_item : SinkStack) : M unit :=
let 'mkSinkStack sink next_stack_item := stack_item in
let* _ := load sinks sink in
let* r := groove_queue_put (put_ok sink) sink buffer in
(if r <? 0 then ret tt else groove_buffer_ref buffer) >>
match next_stack_item with
| Some n => audio_decode_frame_stack put_ok buffer n
| None => ret tt
end.

End Multicast.

(** ** The decode worker (lines 571-620) *)

Definition NOOP_DELAY : Z := 5.

Section DecodeThread.

(** [decode_one_frame] drives the demuxer and the codec; the worker only
  looks at the sign of what it returns. *)
Variable decode_one_frame : option loc → M Z.

(** Whether the queue of a sink takes what is put into it. *)
Variable put_ok : option loc → bool.

(** Lines 603-614: what the worker does with the result [r] of
  [decode_one_frame]. *)
Definition decode_thread_advance (r : Z) : M unit :=
when (r <? 0)
  (let* p := the_playlist in
   let* dh := load items (decode_head p) in
   update_playlist (with_decode_head (next dh)) >>
   let* p := the_playlist in
   when (negb (is_null (decode_head p)))
     (let* dh := load items (decode_head p) in
      store_file (file dh) (with_seek 0 0))).

(** The body of the [while] loop. *)
Definition decode_thread_body : M unit :=
let* p := the_playlist in
if is_null (decode_head p) then
  when (sent_end_of_q p =? 0)
    (every_sink_signal_end put_ok >>
     update_playlist (with_sent_end_of_q 1)) >>
  log (Delay NOOP_DELAY)
else
  update_playlist (with_sent_end_of_q 0) >>
  let* full := every_sink_full in
  if negb (full =? 0) then log (Delay NOOP_DELAY)
  else
    let* p := the_playlist in
    let* dh := load items (decode_head p) in
    let file' := file dh in
    update_playlist (with_p_volume (gain dh * volume p)%float) >>
    log (Decode file') >>
    let* r := decode_one_frame file' in
    decode_thread_advance r.

(** [decode_thread] beside the threads of the client.  The worker holds
  [decode_head_mutex] from the top of a turn of its loop to the end of
  that turn, and the calls of the client that write what the worker reads
  ([groove_playlist_seek], [groove_playlist_insert],
  [groove_playlist_remove], [groove_sink_attach], [groove_sink_detach],
  [groove_playlist_set_gain], [groove_playlist_set_volume]) take the same
  mutex, so they run between two turns.  [clients] lists what the other
  threads do each time the worker has given the mutex back, one entry for
  every turn, up to the entry that sets [abort_request] (the assignment of
  [groove_playlist_destroy], line 828), which ends the loop.  The entries
  are the budget of the loop: it is out of fuel when they are used up and
  [abort_request] is still clear. *)
Fixpoint decode_thread (clients : list (M unit)) : M Z :=
let* p := the_playlist in
if negb (abort_request p =? 0) then ret 0
else match clients with
     | [] => fail OutOfFuel
     | client :: clients' =>
         decode_thread_body >> client >> decode_thread clients'
     end.

End DecodeThread.

(** * The rest of [src/playlist.c]

    The client calls that set the playback state, the volume and the
    position, and the decoding of one packet: [audio_decode_frame] and
    [decode_one_frame], which the worker calls. *)

From Stdlib Require Uint63.

(** *** More field updates *)

Definition with_volume (v : float) (p : GroovePlaylist) :=
  mkPlaylist (head p) (tail p) v (abort_request p) (paused p) (last_paused p)
    (in_sample_rate p) (in_channel_layout p) (in_sample_fmt p) (in_time_base p)
    (filter_graph p) (abuffer_ctx p) (volume_ctx p) (asplit_ctx p) (decode_head p)
    (p_volume p) (rebuild_filter_graph_flag p) (sink_map p) (sink_map_count p)
    (filter_volume p) (sent_end_of_q p) (purge_item p).

Definition with_paused (v : Z) (p : GroovePlaylist) :=
  mkPlaylist (head p) (tail p) (volume p) (abort_request p) v (last_paused p)
    (in_sample_rate p) (in_channel_layout p) (in_sample_fmt p) (in_time_base p)
    (filter_graph p) (abuffer_ctx p) (volume_ctx p) (asplit_ctx p) (decode_head p)
    (p_volume p) (rebuild_filter_graph_flag p) (sink_map p) (sink_map_count p)
    (filter_volume p) (sent_end_of_q p) (purge_item p).

Definition with_last_paused (v : Z) (p : GroovePlaylist) :=
  mkPlaylist (head p) (tail p) (volume p) (abort_request p) (paused p) v
    (in_sample_rate p) (in_channel_layout p) (in_sample_fmt p) (in_time_base p)
    (filter_graph p) (abuffer_ctx p) (volume_ctx p) (asplit_ctx p) (decode_head p)
    (p_volume p) (rebuild_filter_graph_flag p) (sink_map p) (sink_map_count p)
    (filter_volume p) (sent_end_of_q p) (purge_item p).

Definition with_seek_pos (v : Z) (f : GrooveFilePrivate) :=
  mkFile v (seek_flush f) (eof f) (f_abort_request f) (audio_clock f) (time_base f)
         (codec_sample_rate f) (codec_channel_layout f) (codec_sample_fmt f).

Definition with_eof (v : Z) (f : GrooveFilePrivate) :=
  mkFile (seek_pos f) (seek_flush f) v (f_abort_request f) (audio_clock f) (time_base f)
         (codec_sample_rate f) (codec_channel_layout f) (codec_sample_fmt f).

Definition with_audio_clock (v : float) (f : GrooveFilePrivate) :=
  mkFile (seek_pos f) (seek_flush f) (eof f) (f_abort_request f) v (time_base f)
         (codec_sample_rate f) (codec_channel_layout f) (codec_sample_fmt f).

(** *** Numbers *)

(** [(double)z] for an [int] or an [int64_t] other than [INT64_MIN]. *)
Definition int_to_double (z : Z) : float :=
  if z <? 0 then (- PrimFloat.of_uint63 (Uint63.of_Z (- z)))%float
  else PrimFloat.of_uint63 (Uint63.of_Z z).

(** Two's complement [int64_t]. *)
Definition wrap_int64 (z : Z) : Z :=
  (z + 9223372036854775808) mod 18446744073709551616 - 9223372036854775808.

(** [AV_NOPTS_VALUE], [INT64_MIN]. *)
Definition AV_NOPTS_VALUE : Z := -9223372036854775808.

(** libavutil's inline [av_q2d]: [a.num / (double) a.den]. *)
Definition av_q2d (a : Z * Z) : float :=
  (int_to_double (fst a) / int_to_double (snd a))%float.

(** ** Playback state (lines 843-853 and 1028-1031) *)

Definition groove_playlist_play : M unit := update_playlist (with_paused 0).

Definition groove_playlist_pause : M unit := update_playlist (with_paused 1).

Definition groove_playlist_playing : M Z :=
  let* p := the_playlist in
  ret (c_bool (paused p =? 0)).

(** ** Gain, volume and position (lines 989-1026) *)

Definition groove_playlist_set_gain (item : option loc) (gain' : float) : M unit :=
  store_item item (with_gain gain') >>
  let* p := the_playlist in
  when (ptr_eq item (decode_head p))
    (let* dh := load items (decode_head p) in
     update_playlist (with_p_volume (volume p * gain dh)%float)).

(** [item] and [seconds] tell whether the two out-pointers are non-null;
    the result is what was written through each of them, if anything. *)
Definition groove_playlist_position (item seconds : bool)
    : M (option (option loc) * option float) :=
  let* p := the_playlist in
  let item_out := if item then Some (decode_head p) else None in
  if seconds && negb (is_null (decode_head p)) then
    let* dh := load items (decode_head p) in
    let* f := load files (file dh) in
    ret (item_out, Some (audio_clock f))
  else ret (item_out, None).

Definition groove_playlist_set_volume (volume' : float) : M unit :=
  update_playlist (with_volume volume') >>
  let* p := the_playlist in
  if negb (is_null (decode_head p)) then
    let* dh := load items (decode_head p) in
    update_playlist (with_p_volume (volume' * gain dh)%float)
  else update_playlist (with_p_volume volume').

(** ** Seeking (lines 855-874) *)

Section Seek.

(** How the C implementation converts a [double] to an [int64_t]. *)
Variable double_to_int64 : float → Z.

(** [start_time] is [f->ic->start_time], which libavformat keeps. *)
Definition groove_playlist_seek (start_time : Z) (item : option loc) (seconds : float)
  : M unit :=
let* i := load items item in
let file' := file i in
let* f := load files file' in
let ts := double_to_int64
            (seconds * int_to_double (snd (time_base f))
             / int_to_double (fst (time_base f)))%float in
let ts := if negb (start_time =? AV_NOPTS_VALUE) then wrap_int64 (ts + start_time)
          else ts in
store_file file' (with_seek ts 1) >>
update_playlist (with_decode_head item).

End Seek.

(** ** Decoding one packet (lines 138-238 and 459-529) *)

(** An [AVPacket], restricted to the fields this file reads; [pkt_data] is
    the address in [data], 0 for a null pointer. *)
Record AVPacket := mkPacket {
  pkt_pts : Z;
  pkt_data : Z;
  pkt_size : Z;
  pkt_stream_index : Z
}.

(** One turn of the [for (;;)] loop in which [av_buffersink_get_frame] gave
    a frame: the frame, and what the allocations of
    [frame_to_groove_buffer] return for it. *)
Record Pull := mkPull {
  pull_frame : AVFrame;
  pull_buffer : option loc;
  pull_b_ok : bool;
  pull_mutex_ok : bool
}.

(** What libavformat, libavcodec and libavfilter answer during one call of
    [decode_one_frame]. *)
Record DecodeEnv := mkDecodeEnv {
  seek_frame_result : Z;                   (* [av_seek_frame] *)
  codec_cap_delay : bool;                  (* [capabilities & CODEC_CAP_DELAY] *)
  audio_stream_index : Z;                  (* [f->audio_stream_index] *)
  read_frame_result : Z;                   (* [av_read_frame] *)
  read_packet : AVPacket;                  (* the packet it read *)
  decode_answers : list (Z * bool);        (* [avcodec_decode_audio4]: [len1], [got_frame] *)
  buffersrc_result : Z;                    (* [av_buffersrc_write_frame] *)
  buffersink_frames : nat → list Pull * bool
    (* for the n-th map item, the frames [av_buffersink_get_frame] gives
       before it stops, and whether it stops with an error other than
       [AVERROR_EOF] and [AVERROR(EAGAIN)] *)
}.

Section Decode.

Variable av_get_channel_layout_nb_channels : Z → Z.
Variable av_get_bytes_per_sample : Z → Z.
Variable graph_alloc_ok : bool.
Variable libav : libav_call → Z.
Variable put_ok : option loc → bool.
Variable env : DecodeEnv.

(** The [for (;;)] loop over the frames of one map item: [None] for
  [return -1], otherwise [data_size] at the [break]. *)
Fixpoint audio_decode_frame_pulls (example_sink : option loc)
  (stack_head' : option SinkStack) (pulls : list Pull) (error : bool) (data_size : Z)
  : M (option Z) :=
match pulls with
| [] => if error then ret None else ret (Some data_size)
| pl :: rest =>
    let* buffer := frame_to_groove_buffer av_get_channel_layout_nb_channels
                     av_get_bytes_per_sample (pull_buffer pl) (pull_b_ok pl)
                     (pull_mutex_ok pl) example_sink (pull_frame pl) in
    if is_null buffer then ret None
    else
      let* b := load buffers buffer in
      let data_size := wrap_int (data_size + size b) in
      match stack_head' with
      | Some stack_item => audio_decode_frame_stack put_ok buffer stack_item
      | None => ret tt
      end >>
      groove_buffer_ref buffer >>
      groove_buffer_unref buffer >>
      audio_decode_frame_pulls example_sink stack_head' rest error data_size
end.

(** The loop over the sink map: [None] for [return -1], otherwise
  [max_data_size] and [clock_adjustment] after the last map item. *)
Fixpoint audio_decode_frame_map (n : nat) (map_item : SinkMap) (max_data_size : Z)
  (clock_adjustment : float) : M (option (Z * float)) :=
let 'mkSinkMap stack _ _ next_map_item := map_item in
let* top := deref stack in
let example_sink := ss_sink top in
let* r := audio_decode_frame_pulls example_sink stack
            (fst (buffersink_frames env n)) (snd (buffersink_frames env n)) 0 in
match r with
| None => ret None
| Some data_size =>
    let* m :=
      if max_data_size <? data_size then
        let* e := load sinks example_sink in
        ret (data_size, (int_to_double data_size / int_to_double (bytes_per_sec e))%float)
      else ret (max_data_size, clock_adjustment) in
    match next_map_item with
    | Some map_item' => audio_decode_frame_map (S n) map_item' (fst m) (snd m)
    | None => ret (Some m)
    end
end.

(** The [while] loop of [audio_decode_frame]; [data] and [size] are those of
  [pkt_temp], and the decoder's answers are used up one per turn. *)
Fixpoint audio_decode_frame_loop (answers : list (Z * bool)) (pkt : AVPacket)
  (file' : option loc) (data size : Z) (new_packet : bool) : M Z :=
if (0 <? size) || ((data =? 0) && new_packet) then
  match answers with
  | [] => fail OutOfFuel
  | (len1, got_frame) :: answers' =>
      if len1 <? 0 then ret (-1)
      else
        let data := data + len1 in
        let size := wrap_int (size - len1) in
        if negb got_frame then
          if (data =? 0) && codec_cap_delay env then ret 0
          else audio_decode_frame_loop answers' pkt file' data size false
        else if buffersrc_result env <? 0 then ret (-1)
        else
          let* p := the_playlist in
          let* r := match sink_map p with
                    | Some map_item => audio_decode_frame_map 0 map_item 0 0%float
                    | None => ret (Some (0, 0%float))
                    end in
          match r with
          | None => ret (-1)
          | Some (max_data_size, clock_adjustment) =>
              when (pkt_pts pkt =? AV_NOPTS_VALUE)
                (let* f := load files file' in
                 store_file file'
                   (with_audio_clock (audio_clock f + clock_adjustment)%float)) >>
              ret max_data_size
          end
  end
else ret 0.

(** [pkt] is [f->audio_pkt]. *)
Definition audio_decode_frame (pkt : AVPacket) (file' : option loc) : M Z :=
let* f := load files file' in
when (negb (pkt_pts pkt =? AV_NOPTS_VALUE))
  (store_file file'
     (with_audio_clock (av_q2d (time_base f) * int_to_double (pkt_pts pkt))%float)) >>
audio_decode_frame_loop (decode_answers env) pkt file' (pkt_data pkt) (pkt_size pkt) true.

(** [av_read_pause], [av_read_play] and [avcodec_flush_buffers] leave the
  memory of this file alone and are not recorded.  The packet of the
  end-of-file branch is the one [av_init_packet] makes, without a pts,
  with [data] and [size] cleared. *)
Definition decode_one_frame (file' : option loc) : M Z :=
let* r := maybe_init_filter_graph graph_alloc_ok libav file' in
if r <? 0 then ret (-1)
else
  let* f := load files file' in
  if negb (f_abort_request f =? 0) then ret (-1)
  else
    let* p := the_playlist in
    let paused' := paused p in
    when (negb (paused' =? last_paused p))
      (update_playlist (with_last_paused paused')) >>
    let* f := load files file' in
    when (0 <=? seek_pos f)
      ((if seek_frame_result env <? 0 then ret tt
        else when (negb (seek_flush f =? 0)) every_sink_flush) >>
       store_file file' (with_seek_pos (-1)) >>
       store_file file' (with_eof 0)) >>
    let* f := load files file' in
    if negb (eof f =? 0) then
      if codec_cap_delay env then
        let* r := audio_decode_frame
                    (mkPacket AV_NOPTS_VALUE 0 0 (audio_stream_index env)) file' in
        if 0 <? r then ret 0      (* keep flushing *)
        else ret (-1)
      else ret (-1)
    else
      let err := read_frame_result env in
      if err <? 0 then
        store_file file' (with_eof 1) >>
        ret 0
      else
        let pkt := read_packet env in
        if negb (pkt_stream_index pkt =? audio_stream_index env) then ret 0
        else
          let* _ := audio_decode_frame pkt file' in
          ret 0.

End Decode.
(** * Vocabulary of the properties *)

(** The queue a sink owns. *)
Definition queue_of (w : World) (l : loc) : option GrooveQueue :=
  sinks w !! l ≫= audioq.

(** The sinks of a stack and of the sink map, in the order [every_sink]
    visits them. *)
Fixpoint stack_sinks (st : SinkStack) : list (option loc) :=
  let 'mkSinkStack sink next_stack_item := st in
  sink :: match next_stack_item with
          | Some n => stack_sinks n
          | None => []
          end.

Fixpoint map_sinks (m : SinkMap) : list (option loc) :=
  let 'mkSinkMap stack _ _ next_map_item := m in
  from_option stack_sinks [] stack ++
  match next_map_item with
  | Some n => map_sinks n
  | None => []
  end.

Definition attached_sinks (w : World) : list (option loc) :=
  from_option map_sinks [] (sink_map (playlist w)).

(** A sink pointer that can be followed to a sink with a queue. *)
Definition sink_ready (w : World) (p : option loc) : Prop :=
  ∃ l s q, p = Some l ∧ sinks w !! l = Some s ∧ audioq s = Some q.

(** A world to run the examples in: no items, one file, one sink. *)
Definition empty_playlist : GroovePlaylist :=
  mkPlaylist NULL NULL 1%float 0 0 0 0 0 0 (0, 0) None None None None NULL 1%float
             0 None 0 0%float 0 NULL.

Definition a_file : GrooveFilePrivate :=
  mkFile (-1) 0 0 0 0%float (1, 44100) 44100 3 1.

Definition a_format : GrooveAudioFormat := mkFormat 44100 3 1.

Definition a_sink (q : list (option loc)) : GrooveSink :=
  mkSink a_format 8192 0 NULL false false (Some (mkQueue q 0)) 0 0 0.

Definition a_buffer (it : option loc) (fr : loc) (rc : Z) : GrooveBuffer :=
  mkBuffer it 0%float a_format 1024 4096 fr rc.

(** Is the sink behind [p] full, as [sink_is_full] computes it. *)
Definition sink_full (w : World) (p : option loc) : bool :=
  match p ≫= (sinks w !!.) with
  | Some s => min_audioq_size s <=? audioq_size s
  | None => false
  end.

(** A queue and a sink after [obj] was appended to the queue. *)
Definition push_queue (obj : option loc) (q : GrooveQueue) : GrooveQueue :=
  mkQueue (q_items q ++ [obj]) (q_abort_request q).

Definition push_sink (obj : option loc) (s : GrooveSink) : GrooveSink :=
  with_audioq (push_queue obj <$> audioq s) s.

Definition push_all (obj : option loc) (ps : list (option loc))
    (h : gmap loc GrooveSink) : gmap loc GrooveSink :=
  foldl (λ h p, match p with Some l => alter (push_sink obj) l h | None => h end) h ps.

(** A sink pointer that can be followed to a sink. *)
Definition sink_allocated (w : World) (p : option loc) : Prop :=
  ∃ l s, p = Some l ∧ sinks w !! l = Some s.

(** What a turn of the worker that only sleeps leaves behind. *)
Definition slept (w : World) : World :=
  set_trace (λ t, t ++ [Delay NOOP_DELAY]) (set_playlist (with_sent_end_of_q 0) w).

(** What the turn of the worker that signals the end of the queue leaves
    behind. *)
Definition signalled (w : World) : World :=
  set_trace (λ t, t ++ [Delay NOOP_DELAY])
    (set_playlist (with_sent_end_of_q 1)
       (set_sinks (push_all end_of_q_sentinel (attached_sinks w)) w)).

(** [n] more turns that find nothing to do. *)
Definition polled (n : nat) (w : World) : World :=
  set_trace (λ t, t ++ repeat (Delay NOOP_DELAY) n) w.

(** Some attached sink is below its threshold. *)
Definition some_sink_hungry (w : World) : Prop :=
  ∃ l s, Some l ∈ attached_sinks w ∧ sinks w !! l = Some s ∧
         audioq_size s < min_audioq_size s.

(** Example worlds: one sink at address 1, attached, whose queue holds the
    buffer at address 7 and then the sentinel. *)
Definition one_class (l : loc) : SinkMap :=
  mkSinkMap (Some (mkSinkStack (Some l) None)) None None None.

Definition idle_playlist : GroovePlaylist :=
  with_sink_map (Some (one_class 1%positive)) 1 empty_playlist.

Definition idle_world (q : list (option loc)) : World :=
  mkWorld ∅ {[ 100%positive := a_file ]} {[ 1%positive := a_sink q ]}
          {[ 7%positive := a_buffer NULL 70%positive 1 ]} idle_playlist [].

(** [keeps R c]: every run of [c] that returns relates the world it started
    in to the world it ends in by [R]. *)
Definition keeps {A} (R : World → World → Prop) (c : M A) : Prop :=
  ∀ w a w', c w = Ok (a, w') → R w w'.

(** A relation between worlds that no write to a sink, to a buffer or to
    the trace can break. *)
Record frame_rel (R : World → World → Prop) : Prop := {
  fr_refl : ∀ w, R w w;
  fr_trans : ∀ w1 w2 w3, R w1 w2 → R w2 w3 → R w1 w3;
  fr_sinks : ∀ f w, R w (set_sinks f w);
  fr_buffers : ∀ f w, R w (set_buffers f w);
  fr_trace : ∀ f w, R w (set_trace f w)
}.

(** The rebuild flag is the same in both worlds. *)
Definition same_rebuild_flag (w w' : World) : Prop :=
  rebuild_filter_graph_flag (playlist w') = rebuild_filter_graph_flag (playlist w).

(** The two libavutil tables, for the examples: stereo, 16-bit samples. *)
Definition two_channels (layout : Z) : Z := 2.
Definition two_bytes (fmt : Z) : Z := 2.

(** A world whose filter graph was built while no sink was attached. *)
Definition built_playlist : GroovePlaylist :=
  with_filter_graph (Some (mkGraph [abuffer 1 44100 44100 1 3] [] true))
    (with_in_format 44100 3 1 (1, 44100)
       (with_filter_volume 1%float
          (with_abuffer_ctx (Some 0%nat)
             (with_decode_head (Some 50%positive)
                (with_head (Some 50%positive)
                   (with_tail (Some 50%positive) empty_playlist)))))).

Definition built_world : World :=
  mkWorld {[ 50%positive := mkItem (Some 100%positive) 1%float NULL NULL ]}
          {[ 100%positive := a_file ]} {[ 1%positive := a_sink [] ]} ∅
          built_playlist [].

(** The invariant of the playlist's list in the words of the specification:
    the head has no [prev], the tail has no [next], and [a.next == b] exactly
    when [b.prev == a]. *)
Record dll_links (w : World) : Prop := {
  dll_head : ∀ h, head (playlist w) = Some h →
                  ∃ i, items w !! h = Some i ∧ prev i = NULL;
  dll_tail : ∀ t, tail (playlist w) = Some t →
                  ∃ i, items w !! t = Some i ∧ next i = NULL;
  dll_pairs : ∀ a b ia ib, items w !! a = Some ia → items w !! b = Some ib →
                           (next ia = Some b ↔ prev ib = Some a)
}.

(** No item points to freed memory. *)
Definition dll_closed (w : World) : Prop :=
  ∀ a ia b, items w !! a = Some ia → next ia = Some b ∨ prev ia = Some b →
            is_Some (items w !! b).

(** The items and the two ends of the list are the same in both worlds. *)
Definition same_list (w w' : World) : Prop :=
  items w' = items w ∧
  head (playlist w') = head (playlist w) ∧
  tail (playlist w') = tail (playlist w).

(** The items of a playlist after [i], stored at [l], was unlinked and
    freed. *)
Definition unlinked (l : loc) (i : GroovePlaylistItem)
    (h : gmap loc GroovePlaylistItem) : gmap loc GroovePlaylistItem :=
  let h1 := match prev i with
            | Some p => alter (with_next (next i)) p h
            | None => h
            end in
  let h2 := match next i with
            | Some n => alter (with_prev (prev i)) n h1
            | None => h1
            end in
  delete l h2.

(** What unlinking [i] makes of another item [ia], stored at [a]. *)
Definition relinked (i : GroovePlaylistItem) (a : loc) (ia : GroovePlaylistItem)
    : GroovePlaylistItem :=
  mkItem (file ia) (gain ia)
         (if decide (next i = Some a) then prev i else prev ia)
         (if decide (prev i = Some a) then next i else next ia).

(** How many sinks of a stack take a buffer. *)
Fixpoint accepting (put_ok : option loc → bool) (st : SinkStack) : Z :=
  let 'mkSinkStack sink next_stack_item := st in
  (if put_ok sink then 1 else 0) +
  match next_stack_item with
  | Some n => accepting put_ok n
  | None => 0
  end.

(** [n] calls of [groove_buffer_unref], as the consumers make them. *)
Fixpoint unref_times (n : nat) (buffer : option loc) : M unit :=
  match n with
  | O => ret tt
  | S n' => groove_buffer_unref buffer >> unref_times n' buffer
  end.

(** How often [av_frame_free] was called on the frame at [fr]. *)
Definition is_frame_free (fr : loc) (e : event) : bool :=
  match e with
  | FrameFree fr' => bool_decide (fr' = fr)
  | _ => false
  end.

Definition frame_frees (fr : loc) (w : World) : nat :=
  length (List.filter (is_frame_free fr) (trace w)).

Definition INT_MAX : Z := 2147483647.

(** The buffer [frame_to_groove_buffer] makes of [fr] while [decode_head]
    is [dh], for a file whose clock is at [clock]. *)
Definition new_buffer (nb_channels bytes : Z → Z) (dh : option loc) (clock : float)
    (fr : AVFrame) : GrooveBuffer :=
  mkBuffer dh clock
    (mkFormat (frame_sample_rate fr) (frame_channel_layout fr) (frame_format fr))
    (nb_samples fr) (frame_size nb_channels bytes fr) (frame_addr fr) 0.

(** An example: the sink at address 1 and a second sink at address 2 with
    the same format, both attached; an item at 50 is being decoded. *)
Definition two_sink_stack : SinkStack :=
  mkSinkStack (Some 2%positive) (Some (mkSinkStack (Some 1%positive) None)).

Definition two_sink_world : World :=
  mkWorld {[ 50%positive := mkItem (Some 100%positive) 1%float NULL NULL ]}
          {[ 100%positive := a_file ]}
          {[ 1%positive := a_sink []; 2%positive := a_sink [] ]} ∅
          (with_sink_map (Some (mkSinkMap (Some two_sink_stack) None None None)) 1
             built_playlist) [].

Definition a_frame : AVFrame := mkFrame 70%positive 1024 3 1 44100.

(** A filter that is not a volume filter. *)
Definition not_volume (flt : AVFilter) : Prop :=
  match flt with
  | volume_filter _ => False
  | _ => True
  end.

(** From [w] to [w'] the graph only grew, by filters other than volume
    filters, and the volume fields were left alone. *)
Definition same_volume_node (w w' : World) : Prop :=
  filter_volume (playlist w') = filter_volume (playlist w) ∧
  volume_ctx (playlist w') = volume_ctx (playlist w) ∧
  ∀ g, filter_graph (playlist w) = Some g →
       ∃ g' ext, filter_graph (playlist w') = Some g' ∧
                 filters g' = filters g ++ ext ∧ Forall not_volume ext.

(** The [abuffer] filter [init_filter_graph] creates for a file. *)
Definition abuffer_of (f : GrooveFilePrivate) : AVFilter :=
  abuffer (fst (time_base f)) (snd (time_base f)) (codec_sample_rate f)
          (codec_sample_fmt f) (codec_channel_layout f).

(** The world of the counterexample: the effective volume is a NaN, as it is
    after [groove_playlist_set_volume(playlist, NAN)]. *)
Definition nan_world : World :=
  mkWorld {[ 50%positive := mkItem (Some 100%positive) 1%float NULL NULL ]}
          {[ 100%positive := a_file ]} ∅ ∅
          (with_p_volume nan empty_playlist) [].

(** A world whose effective volume is one half. *)
Definition half_world : World :=
  mkWorld {[ 50%positive := mkItem (Some 100%positive) 0.5%float NULL NULL ]}
          {[ 100%positive := a_file ]} ∅ ∅
          (with_p_volume 0.5%float empty_playlist) [].

(** The addresses met from [a] on by following [next] until it is null. *)
Fixpoint chain (h : gmap loc GroovePlaylistItem) (a : option loc) (ls : list loc) : Prop :=
  match ls with
  | [] => a = NULL
  | l :: rest => a = Some l ∧ ∃ i, h !! l = Some i ∧ chain h (next i) rest
  end.

(** The playlist holds the items at [ls], in this order. *)
Definition playlist_holds (w : World) (ls : list loc) : Prop :=
  chain (items w) (head (playlist w)) ls ∧
  tail (playlist w) = last ls ∧
  ∀ t i, tail (playlist w) = Some t → items w !! t = Some i → next i = NULL.

(** [groove_playlist_insert(playlist, file, gain, NULL)] for each of the
    addresses [ls] that [av_mallocz] hands out. *)
Fixpoint append_all (ls : list loc) (file' : option loc) (gain' : float) : M unit :=
  match ls with
  | [] => ret tt
  | l :: rest =>
      groove_playlist_insert (Some l) file' gain' NULL >> append_all rest file' gain'
  end.

(** * Vocabulary for the rest of the file *)

(** The classes of the sink map: the sinks of each map item, in the order of
    the map. *)
Fixpoint map_classes (m : SinkMap) : list (list (option loc)) :=
  let 'mkSinkMap stack _ _ next_map_item := m in
  from_option stack_sinks [] stack ::
  match next_map_item with
  | Some n => map_classes n
  | None => []
  end.

Definition sink_classes (w : World) : list (list (option loc)) :=
  from_option map_classes [] (sink_map (playlist w)).

(** The audio format of the sink behind a pointer. *)
Definition format_of (w : World) (p : option loc) : option GrooveAudioFormat :=
  audio_format <$> (p ≫= (sinks w !!.)).

(** The format of the example sink of a class, its first sink. *)
Definition example_format (w : World) (c : list (option loc)) : option GrooveAudioFormat :=
  c !! 0%nat ≫= format_of w.

(** Classes that are the audio formats: no class is empty, the sinks of a
    class are allocated and have one format, and no two classes have the
    same.  [fmt] gives the format of the sink behind a pointer. *)
Definition classes_ok (fmt : option loc → option GrooveAudioFormat)
    (cs : list (list (option loc))) : Prop :=
  Forall (λ c, c ≠ [] ∧ ∃ f, Forall (λ p, fmt p = Some f) c) cs ∧
  NoDup ((λ c, c !! 0%nat ≫= fmt) <$> cs).

(** The invariant of the sink map: [sink_map_count], an [int], counts the
    classes, and the classes are the audio formats of the attached sinks. *)
Definition sink_map_wf (w : World) : Prop :=
  (sink_map_count (playlist w) = Z.of_nat (length (sink_classes w)) ∧
   sink_map_count (playlist w) ≤ INT_MAX) ∧
  classes_ok (format_of w) (sink_classes w).

(** What a queue may hold for [groove_queue_flush] to go through: allocated
    buffers, each of them once, and end-of-queue sentinels. *)
Definition queue_sound (w : World) (objs : list (option loc)) : Prop :=
  NoDup (omap id objs) ∧ ∀ b, Some b ∈ objs → is_Some (buffers w !! b).

(** The sink after [groove_sink_attach] cached [bytes_per_sec] and
    [min_audioq_size] in it. *)
Definition cached_sink (nb_channels bytes : Z → Z) (s : GrooveSink) : GrooveSink :=
  with_cached
    (wrap_int (wrap_int (nb_channels (channel_layout (audio_format s))
                         * sample_rate (audio_format s))
               * bytes (sample_fmt (audio_format s))))
    (wrap_int (wrap_int (buffer_size s * nb_channels (channel_layout (audio_format s)))
               * bytes (sample_fmt (audio_format s))))
    s.

(** The queue [objs] holds allocated buffers only, none of them cut from
    the item at [l]. *)
Definition queue_free_of (w : World) (l : loc) (objs : list (option loc)) : Prop :=
  Forall (λ obj, ∃ b buf, obj = Some b ∧ buffers w !! b = Some buf ∧ item buf ≠ Some l) objs.

(** A sink that is attached as [groove_sink_attach] leaves it, and whose
    queue holds nothing of the item at [l]. *)
Definition sink_free_of (w : World) (l : loc) (p : option loc) : Prop :=
  ∃ ls s q pl, p = Some ls ∧ sinks w !! ls = Some s ∧ audioq s = Some q ∧
               sink_playlist s = Some pl ∧ queue_free_of w l (q_items q).

(** Two worlds that differ in the trace only. *)
Definition same_memory (w w' : World) : Prop :=
  items w' = items w ∧ files w' = files w ∧ sinks w' = sinks w ∧
  buffers w' = buffers w ∧ playlist w' = playlist w.

(** The list has a head exactly when it has a tail. *)
Definition dll_ends (w : World) : Prop :=
  head (playlist w) = NULL ↔ tail (playlist w) = NULL.

(** From [w] to [w'] no sink but the one at [l] was written. *)
Definition sinks_but (l : loc) (w w' : World) : Prop :=
  ∀ x, x ≠ l → sinks w' !! x = sinks w !! x.

(** The list of one item at 50 while the sink at 1 is attached and its
    queue holds the buffer at 7, which was cut from no item of the list. *)
Definition listening_world : World :=
  mkWorld {[ 50%positive := mkItem (Some 100%positive) 1%float NULL NULL ]}
          {[ 100%positive := a_file ]}
          {[ 1%positive := with_counters 1 4096
                             (with_sink_playlist (Some 9%positive)
                                (a_sink [Some 7%positive])) ]}
          {[ 7%positive := a_buffer NULL 70%positive 1 ]}
          (with_sink_map (Some (one_class 1%positive)) 1 built_playlist) [].

(** The queue of the sink behind [p] holds an end-of-queue sentinel. *)
Definition sentinel_queued (w : World) (p : option loc) : Prop :=
  ∃ ls s q, p = Some ls ∧ sinks w !! ls = Some s ∧ audioq s = Some q ∧
            end_of_q_sentinel ∈ q_items q.

(** The sinks and the sink map are the same in both worlds. *)
Definition same_sinks (w w' : World) : Prop :=
  sinks w' = sinks w ∧ sink_map (playlist w') = sink_map (playlist w).

(** The filter contexts of the classes of the sink map, in the order of the
    map: [aformat_ctx] and [abuffersink_ctx]. *)
Fixpoint map_ctxs (m : SinkMap) : list (option nat * option nat) :=
  let 'mkSinkMap _ a b next_map_item := m in
  (a, b) :: match next_map_item with
            | Some n => map_ctxs n
            | None => []
            end.

(** The output branch of one class: an [aformat] filter for the format of
    the class, then an [abuffersink]. *)
Definition class_filters (fmts : list GrooveAudioFormat) : list AVFilter :=
  flat_map (λ fmt, [aformat fmt; abuffersink]) fmts.

(** The contexts of [n] output branches created from [base] on. *)
Definition class_ctxs (base n : nat) : list (option nat * option nat) :=
  (λ j, (Some (base + 2 * j)%nat, Some (base + 2 * j + 1)%nat)) <$> seq 0 n.

(** Their links: pad [pad + j] of the source feeds the [aformat] of branch
    [j], which feeds its [abuffersink]. *)
Definition class_links (src base : nat) (pad : Z) (n : nat) : list (nat * Z * nat * Z) :=
  flat_map (λ j, [(src, pad + Z.of_nat j, (base + 2 * j)%nat, 0);
                  ((base + 2 * j)%nat, 0, (base + 2 * j + 1)%nat, 0)]) (seq 0 n).

(** The filters every graph starts with: the [abuffer] source of the file,
    a [volume] filter made from the text of [vol] unless [vol] is 1, and an
    [asplit] when there are two classes or more. *)
Definition graph_head (f : GrooveFilePrivate) (vol : float) (n : Z) : list AVFilter :=
  abuffer_of f ::
  (if (vol =? 1)%float then [] else [volume_filter (snprintf_volume vol)]) ++
  (if n <? 2 then [] else [asplit n]).

(** [k] filters in a row, each feeding the next from its pad 0. *)
Definition chain_links (k : nat) : list (nat * Z * nat * Z) :=
  (λ j, (j, 0, S j, 0)) <$> seq 0 (k - 1).

(** The graph drawn above [init_filter_graph]:
    abuffer -> volume -> asplit, then for each audio format
    -> aformat -> abuffersink; checked and configured. *)
Definition built_graph (f : GrooveFilePrivate) (vol : float) (n : Z)
    (fmts : list GrooveAudioFormat) : AVFilterGraph :=
  let hd := graph_head f vol n in
  mkGraph (hd ++ class_filters fmts)
          (chain_links (length hd) ++
           class_links (length hd - 1) (length hd) 0 (length fmts))
          true.

(** The formats of the examples of the classes of the sink map. *)
Definition class_formats (w : World) : list GrooveAudioFormat :=
  omap (example_format w) (sink_classes w).

(** From [w] to [w'] nothing that [maybe_init_filter_graph] compares was
    written: the files, the effective volume, and what the playlist
    recorded of the last build. *)
Definition same_build_input (w w' : World) : Prop :=
  files w' = files w ∧
  p_volume (playlist w') = p_volume (playlist w) ∧
  filter_volume (playlist w') = filter_volume (playlist w) ∧
  in_sample_rate (playlist w') = in_sample_rate (playlist w) ∧
  in_channel_layout (playlist w') = in_channel_layout (playlist w) ∧
  in_sample_fmt (playlist w') = in_sample_fmt (playlist w) ∧
  in_time_base (playlist w') = in_time_base (playlist w).

(** The codec parameters [maybe_init_filter_graph] compares. *)
Definition same_codec (f f2 : GrooveFilePrivate) : Prop :=
  codec_sample_rate f2 = codec_sample_rate f ∧
  codec_channel_layout f2 = codec_channel_layout f ∧
  codec_sample_fmt f2 = codec_sample_fmt f ∧
  time_base f2 = time_base f.

(** An example with two classes: the sink at 1 and a sink at 2 that asks
    for 48000 Hz, both attached, at an effective volume of one half. *)
Definition split_world : World :=
  mkWorld ∅ {[ 100%positive := a_file ]}
          {[ 1%positive := a_sink [];
             2%positive := mkSink (mkFormat 48000 3 1) 8192 0 NULL false false
                                  (Some (mkQueue [] 0)) 0 0 0 ]}
          ∅
          (with_p_volume 0.5%float
             (with_sink_map
                (Some (mkSinkMap (Some (mkSinkStack (Some 1%positive) None)) None None
                         (Some (one_class 2%positive)))) 2 empty_playlist)) [].

(** What the client sees of a file: [f'] differs from [f] in [seek_pos],
    [eof] and [audio_clock] at most. *)
Definition same_stream (f f' : GrooveFilePrivate) : Prop :=
  seek_flush f' = seek_flush f ∧ f_abort_request f' = f_abort_request f ∧
  time_base f' = time_base f ∧ codec_sample_rate f' = codec_sample_rate f ∧
  codec_channel_layout f' = codec_channel_layout f ∧
  codec_sample_fmt f' = codec_sample_fmt f.

(** From [w] to [w'] the schedule was left alone: the items, the list, the
    decode head, the volumes, the pause and abort requests, the end-of-queue
    flag and the classes of the sink map are the same, and of the files only
    the one at [fa] was written, and only its position. *)
Definition same_schedule (fa : loc) (w w' : World) : Prop :=
  items w' = items w ∧
  (∀ x, x ≠ fa → files w' !! x = files w !! x) ∧
  (∀ f, files w !! fa = Some f → ∃ f', files w' !! fa = Some f' ∧ same_stream f f') ∧
  head (playlist w') = head (playlist w) ∧
  tail (playlist w') = tail (playlist w) ∧
  decode_head (playlist w') = decode_head (playlist w) ∧
  volume (playlist w') = volume (playlist w) ∧
  p_volume (playlist w') = p_volume (playlist w) ∧
  paused (playlist w') = paused (playlist w) ∧
  abort_request (playlist w') = abort_request (playlist w) ∧
  sent_end_of_q (playlist w') = sent_end_of_q (playlist w) ∧
  purge_item (playlist w') = purge_item (playlist w) ∧
  sink_map_count (playlist w') = sink_map_count (playlist w) ∧
  sink_classes w' = sink_classes w.

(** The graph is the one [maybe_init_filter_graph] would build for [f]. *)
Definition graph_fresh (p : GroovePlaylist) (f : GrooveFilePrivate) : Prop :=
  filter_graph p ≠ None ∧ rebuild_filter_graph_flag p = 0 ∧
  in_sample_rate p = codec_sample_rate f ∧
  in_channel_layout p = codec_channel_layout f ∧
  in_sample_fmt p = codec_sample_fmt f ∧
  in_time_base p = time_base f ∧
  (p_volume p =? filter_volume p)%float = true.

(** The library's answers at the end of a file: [av_read_frame] fails, and
    the codec has no delay. *)
Definition eof_env : DecodeEnv :=
  mkDecodeEnv 0 false 0 (-1) (mkPacket 0 0 0 0) [] 0 (λ _, ([], false)).

(** What a computation can return. *)
Definition returns {A} (P : A → Prop) (c : M A) : Prop :=
  ∀ w a w', c w = Ok (a, w') → P a.

(** The world after [decode_one_frame] took note of the pause request:
    [last_paused] is [paused]. *)
Definition pause_noted (w : World) : World :=
  if paused (playlist w) =? last_paused (playlist w) then w
  else set_playlist (with_last_paused (paused (playlist w))) w.

(** The example world with a graph that is fresh for its file, and the same
    world after the file ended. *)
Definition fresh_world : World :=
  set_playlist (λ p, with_filter_graph (Some (mkGraph [] [] true))
                       (with_in_format 44100 3 1 (1, 44100) (with_filter_volume 1 p)))
    (idle_world []).

Definition ended_world : World :=
  set_files <[100%positive := with_eof 1 a_file]> (pause_noted fresh_world).

(** The fresh example world while its only item, at address 50, is being
    decoded into a sink that wants 4096 bytes. *)
Definition playing_world : World :=
  set_sinks <[1%positive := with_cached 176400 4096 (a_sink [])]>
    (set_items <[50%positive := mkItem (Some 100%positive) 1%float NULL NULL]>
       (set_playlist (with_decode_head (Some 50%positive)) fresh_world)).

(** From [w] to [w'] neither a file nor the playlist was written. *)
Definition same_files_playlist (w w' : World) : Prop :=
  files w' = files w ∧ playlist w' = playlist w.

(** The fresh example world after the worker rewound its file. *)
Definition rewound_world : World :=
  set_files <[100%positive := with_seek 0 0 a_file]> fresh_world.

(** The timestamp [groove_playlist_seek] asks for. *)
Definition seek_target (double_to_int64 : float → Z) (start_time : Z) (f : GrooveFilePrivate)
    (seconds : float) : Z :=
  let ts := double_to_int64
              (seconds * int_to_double (snd (time_base f))
               / int_to_double (fst (time_base f)))%float in
  if negb (start_time =? AV_NOPTS_VALUE) then wrap_int64 (ts + start_time) else ts.

(** The answers of the decoder up to the first one that ends
    [audio_decode_frame]: an error or a frame. *)
Fixpoint first_frame (answers : list (Z * bool)) : list (Z * bool) :=
  match answers with
  | [] => []
  | (len1, got_frame) :: rest =>
      if (len1 <? 0) || got_frame then [(len1, got_frame)]
      else (len1, got_frame) :: first_frame rest
  end.

Definition with_decode_answers (a : list (Z * bool)) (env : DecodeEnv) : DecodeEnv :=
  mkDecodeEnv (seek_frame_result env) (codec_cap_delay env) (audio_stream_index env)
    (read_frame_result env) (read_packet env) a (buffersrc_result env)
    (buffersink_frames env).

(** The sink after its queue took a buffer of [sz] bytes at [l]: what
    [groove_queue_put] and [audioq_put] leave. *)
Definition took (l : loc) (sz : Z) (s : GrooveSink) : GrooveSink :=
  with_counters (wrap_int (audioq_buf_count s + 1)) (wrap_int (audioq_size s + sz))
    (push_sink (Some l) s).

(** [f] applied to the objects behind the pointers [ps], one after the
    other. *)
Definition alter_all {A} (f : A → A) (ps : list (option loc)) (h : gmap loc A)
    : gmap loc A :=
  foldl (λ h p, match p with Some x => alter f x h | None => h end) h ps.

(** The sinks after the sinks behind [ps] took the buffers [bufs], and the
    buffers after each of them got [k] references. *)
Definition deliver_sinks (ps : list (option loc)) (bufs : list (loc * GrooveBuffer))
    (h : gmap loc GrooveSink) : gmap loc GrooveSink :=
  foldl (λ h lb, alter_all (took (fst lb) (size (snd lb))) ps h) h bufs.

Definition deliver_buffers (k : Z) (bufs : list (loc * GrooveBuffer))
    (h : gmap loc GrooveBuffer) : gmap loc GrooveBuffer :=
  foldl (λ h lb, <[fst lb := with_ref_count k (snd lb)]> h) h bufs.

Definition sum_sizes (bufs : list (loc * GrooveBuffer)) : Z :=
  foldr (λ lb acc, size (snd lb) + acc) 0 bufs.

(** The buffers made of the frames [pulls] at the addresses [ls], while the
    decode head is [dh] and the clock of its file is at [clock]. *)
Definition pull_bufs (nb_channels bytes : Z → Z) (dh : option loc) (clock : float)
    (pulls : list Pull) (ls : list loc) : list (loc * GrooveBuffer) :=
  zip ls ((λ pl, new_buffer nb_channels bytes dh clock (pull_frame pl)) <$> pulls).

(** The library's answers for a packet with one frame, which the filter
    graph hands on as one frame for the class; its buffer goes to address 8. *)
Definition frame_env : DecodeEnv :=
  mkDecodeEnv 0 false 0 0 (mkPacket 0 1 4 0) [(4, true)] 0
    (λ _, ([mkPull a_frame (Some 8%positive) true true], false)).

(** The number and the bytes of the buffers a queue holds; the end-of-queue
    sentinel counts for nothing. *)
Definition queued_count (objs : list (option loc)) : Z :=
  Z.of_nat (length (omap id objs)).

Fixpoint queued_bytes (hb : gmap loc GrooveBuffer) (objs : list (option loc)) : Z :=
  match objs with
  | [] => 0
  | Some l :: rest => from_option size 0 (hb !! l) + queued_bytes hb rest
  | None :: rest => queued_bytes hb rest
  end.

(** The counters of the sink at [x] are those of its queue, as C ints, and
    the buffers in the queue are allocated. *)
Definition counters_track (w : World) (x : loc) : Prop :=
  ∃ s q, sinks w !! x = Some s ∧ audioq s = Some q ∧
         (∀ l, Some l ∈ q_items q → is_Some (buffers w !! l)) ∧
         wrap_int (audioq_buf_count s) = wrap_int (queued_count (q_items q)) ∧
         wrap_int (audioq_size s) = wrap_int (queued_bytes (buffers w) (q_items q)).

(** The buffers [hb] are buffers of [hb0], with the sizes they had there. *)
Definition sizes_from (hb0 hb : gmap loc GrooveBuffer) : Prop :=
  ∀ l b, hb !! l = Some b → ∃ b0, hb0 !! l = Some b0 ∧ size b0 = size b.

(** The buffers [hb] are buffers of [hb0], with the size and the item they
    had there. *)
Definition fields_from (hb0 hb : gmap loc GrooveBuffer) : Prop :=
  ∀ l b, hb !! l = Some b → ∃ b0, hb0 !! l = Some b0 ∧ size b0 = size b ∧ item b0 = item b.

(** Is [obj] a buffer that was cut from the item [it]. *)
Definition cut_from (hb : gmap loc GrooveBuffer) (it : option loc) (obj : option loc) : bool :=
  match obj ≫= (hb !!.) with
  | Some b => bool_decide (item b = it)
  | None => false
  end.

(** A sink at 1 that holds a buffer of the item at 5 and a buffer of the item
    at 6, while the item at 5 is being removed. *)
Definition purging_world : World :=
  mkWorld ∅ {[ 100%positive := a_file ]}
          {[ 1%positive := with_counters 2 8192
                             (with_sink_playlist (Some 1%positive)
                                (a_sink [Some 7%positive; Some 8%positive])) ]}
          {[ 7%positive := a_buffer (Some 5%positive) 70%positive 1;
             8%positive := a_buffer (Some 6%positive) 80%positive 1 ]}
          (with_purge_item (Some 5%positive) idle_playlist) [].

(** [purging_world] after [purge_sink] went over the sink at 1. *)
Definition purged_world : World :=
  match purge_sink (Some 1%positive) purging_world with
  | Ok (_, w') => w'
  | Fault _ => purging_world
  end.

(** ** The worker beside the client *)

(** [sent_end_of_q] is the same in both worlds; the field is "only touched
    by decode_thread". *)
Definition same_sent_end_of_q (w w' : World) : Prop :=
  sent_end_of_q (playlist w') = sent_end_of_q (playlist w).

(** From [w] to [w'] every attached sink got the end-of-queue sentinel at
    the end of its queue, once, and no other sink was written. *)
Definition sentinel_delivered (w w' : World) : Prop :=
  (NoDup (attached_sinks w) → ∀ l, Some l ∈ attached_sinks w →
     q_items <$> queue_of w' l =
     (λ q, q_items q ++ [end_of_q_sentinel]) <$> queue_of w l) ∧
  (∀ l, Some l ∉ attached_sinks w → sinks w' !! l = sinks w !! l).

(** The turns of a run of [decode_thread] from [w] to [w'] beside
    [clients]: for each turn of the loop, the world in which the worker took
    [decode_head_mutex] and the world in which it gave it back.  The entry
    of the client runs in the latter, and the next turn starts in the world
    that entry leaves. *)
Fixpoint worker_turns (body : M unit) (clients : list (M unit)) (w : World)
    (turns : list (World * World)) (w' : World) : Prop :=
  match turns with
  | [] => w' = w
  | (a, b) :: turns' =>
      match clients with
      | [] => False
      | client :: clients' =>
          a = w ∧ body a = Ok (tt, b) ∧
          ∃ w1, client b = Ok (tt, w1) ∧ worker_turns body clients' w1 turns' w'
      end
  end.

(** The entry of the client that ends the worker: the assignment
    [p->abort_request = 1] of [groove_playlist_destroy]. *)
Definition request_abort : M unit := update_playlist (with_abort_request 1).

(** [decode_one_frame] for the examples, with the libraries' answers of a
    file that is at its end: [av_read_frame] fails, the codec has no delay. *)
Definition decode_at_end : option loc → M Z :=
  decode_one_frame two_channels two_bytes true (λ _, 0) (λ _, true) eof_env.

(** The same when a seek rewinds the file: while a seek is pending on the
    file at 100 the answers are those of [frame_env] (the seek works and the
    next packet decodes to one frame), and otherwise those of [eof_env]. *)
Definition decode_rewinding (file' : option loc) : M Z :=
  λ w, decode_one_frame two_channels two_bytes true (λ _, 0) (λ _, true)
         (match files w !! 100%positive with
          | Some f => if 0 <=? seek_pos f then frame_env else eof_env
          | None => eof_env
          end) file' w.

(** The example world after the worker ran to the end of the file and
    through two more turns, when the client stops it. *)
Definition worker_done_world : World :=
  match decode_thread decode_at_end (λ _, true) [ret tt; ret tt; ret tt; request_abort]
          playing_world with
  | Ok (_, w') => w'
  | Fault _ => playing_world
  end.

(** ** The producer beside the threads of the sinks *)

(** One turn of the [for (;;)] loop of [audio_decode_frame] (lines 207-223),
    as [audio_decode_frame_pulls] runs it, beside the threads of the sinks:
    [consumers] is what those threads do between the walk over the stack and
    the closing [groove_buffer_ref].  The worker holds no lock there:
    [groove_queue_put] has given the queue back, and [groove_buffer_ref]
    takes the buffer's mutex for the time of the call only.  The result is
    [None] for [return -1] and otherwise the new [data_size]. *)
Definition audio_decode_frame_pull_beside (consumers : M unit) (nb_channels bytes : Z → Z)
    (put_ok : option loc → bool) (example_sink : option loc)
    (stack_head' : option SinkStack) (pl : Pull) (data_size : Z) : M (option Z) :=
  let* buffer := frame_to_groove_buffer nb_channels bytes (pull_buffer pl) (pull_b_ok pl)
                   (pull_mutex_ok pl) example_sink (pull_frame pl) in
  if is_null buffer then ret None
  else
    let* b := load buffers buffer in
    let data_size := wrap_int (data_size + size b) in
    match stack_head' with
    | Some stack_item => audio_decode_frame_stack put_ok buffer stack_item
    | None => ret tt
    end >>
    consumers >>
    groove_buffer_ref buffer >>
    groove_buffer_unref buffer >>
    ret (Some data_size).

(** What the thread of a sink does with its queue: it takes the oldest
    buffer out and, when it is done with it, drops its reference
    ([groove_buffer_unref] of a null pointer does nothing). *)
Definition consume (sink : option loc) : M unit :=
  let* r := groove_sink_get_buffer sink 0 in
  groove_buffer_unref (snd r).
(** * Properties *)

(** ** Running the monad *)

Lemma bind_Ok {A B} (c : M A) (k : A → M B) w a w' :
  c w = Ok (a, w') → bind c k w = k a w'.
Proof. unfold bind. intros ->. reflexivity. Qed.

Lemma bind_inv {A B} (c : M A) (k : A → M B) w r :
  bind c k w = Ok r → ∃ a w', c w = Ok (a, w') ∧ k a w' = Ok r.
Proof.
  unfold bind. destruct (c w) as [[a w']|f]; [|discriminate].
  intros H. exists a, w'. split; [reflexivity | exact H].
Qed.

Lemma load_Ok {A} (heap : World → gmap loc A) l w v :
  heap w !! l = Some v → load heap (Some l) w = Ok (v, w).
Proof. unfold load. intros ->. reflexivity. Qed.

Lemma load_inv {A} (heap : World → gmap loc A) p w v w' :
  load heap p w = Ok (v, w') → w' = w ∧ ∃ l, p = Some l ∧ heap w !! l = Some v.
Proof.
  unfold load. destruct p as [l|]; [|discriminate].
  destruct (heap w !! l) eqn:E; [|discriminate].
  intros [= -> ->]. split; [reflexivity|]. exists l. split; [reflexivity | exact E].
Qed.

(** One step of symbolic execution: compute, then use a known lookup. *)
Ltac mstep :=
  simpl;
  first [ rewrite lookup_insert_eq
        | match goal with H : _ = _ |- _ => rewrite H end ].
Ltac mrun := repeat mstep; simpl.

Ltac unfold_queue :=
  unfold groove_sink_get_buffer, groove_queue_get, groove_queue_put, the_queue, set_queue,
    audioq_get, audioq_put, audioq_cleanup, store_sink, load, bind, ret, modify, fail,
    ptr_eq, end_of_q_sentinel.

(** ** [groove_sink_get_buffer] *)

Section GetBuffer.

Variables (w : World) (l : loc) (s : GrooveSink) (q : GrooveQueue) (block : Z).
Hypothesis Hs : sinks w !! l = Some s.
Hypothesis Hq : audioq s = Some q.

Lemma get_buffer_yes b rest buf :
q_abort_request q = 0 → q_items q = Some b :: rest → buffers w !! b = Some buf →
∃ w', groove_sink_get_buffer (Some l) block w = Ok ((GROOVE_BUFFER_YES, Some b), w') ∧
      q_items <$> queue_of w' l = Some rest.
Proof.
intros Ha Hi Hb. unfold_queue. mrun.
eexists. split; [reflexivity|]. unfold queue_of. mrun. reflexivity.
Qed.

Lemma get_buffer_end rest :
q_abort_request q = 0 → q_items q = NULL :: rest →
∃ w', groove_sink_get_buffer (Some l) block w = Ok ((GROOVE_BUFFER_END, NULL), w') ∧
      q_items <$> queue_of w' l = Some rest.
Proof.
intros Ha Hi. unfold_queue. mrun.
eexists. split; [reflexivity|]. unfold queue_of. mrun. reflexivity.
Qed.

Lemma get_buffer_no_empty :
q_abort_request q = 0 → q_items q = [] → block = 0 →
groove_sink_get_buffer (Some l) block w = Ok ((GROOVE_BUFFER_NO, NULL), w).
Proof. intros Ha Hi Hb. unfold_queue. mrun. reflexivity. Qed.

Lemma get_buffer_no_aborted :
q_abort_request q ≠ 0 →
groove_sink_get_buffer (Some l) block w = Ok ((GROOVE_BUFFER_NO, NULL), w).
Proof.
intros Ha. unfold_queue. mrun.
destruct (Z.eqb_spec (q_abort_request q) 0) as [E|E]; [contradiction|]. reflexivity.
Qed.

Lemma get_buffer_no_value r w' :
groove_queue_get (Some l) block w = Ok ((r, None), w') →
groove_sink_get_buffer (Some l) block w = Ok ((GROOVE_BUFFER_NO, NULL), w').
Proof.
intros Hg. unfold groove_sink_get_buffer.
rewrite (bind_Ok _ _ _ _ _ (load_Ok sinks l w s Hs)).
rewrite (bind_Ok _ _ _ _ _ Hg). destruct r as [|[]|]; reflexivity.
Qed.

End GetBuffer.

(** ** Induction on the sink map *)

Lemma SinkStack_ind (P : SinkStack → Prop) :
  (∀ s, P (mkSinkStack s None)) →
  (∀ s n, P n → P (mkSinkStack s (Some n))) →
  ∀ st, P st.
Proof.
  intros Hlast Hcons. fix IH 1.
  intros [s [n|]]; [apply Hcons, IH | apply Hlast].
Qed.

Lemma SinkMap_ind (P : SinkMap → Prop) :
  (∀ st a b, P (mkSinkMap st a b None)) →
  (∀ st a b n, P n → P (mkSinkMap st a b (Some n))) →
  ∀ m, P m.
Proof.
  intros Hlast Hcons. fix IH 1.
  intros [st a b [n|]]; [apply Hcons, IH | apply Hlast].
Qed.

(** ** [every_sink_full] *)

Lemma sink_is_full_Ok w p :
  sink_allocated w p → sink_is_full p w = Ok (c_bool (sink_full w p), w).
Proof.
  intros (l & s & -> & Hs). unfold sink_is_full, sink_full, load, bind, ret.
  simpl. rewrite Hs. reflexivity.
Qed.

Lemma every_sink_stack_full st w :
  Forall (sink_allocated w) (stack_sinks st) →
  every_sink_stack sink_is_full 1 st w =
    Ok (if forallb (sink_full w) (stack_sinks st) then None else Some 0, w).
Proof.
  induction st as [s|s n IH] using SinkStack_ind; simpl; intros Hall.
  - inversion_clear Hall as [|? ? Hs _].
    unfold bind. rewrite (sink_is_full_Ok _ _ Hs).
    destruct (sink_full w s); reflexivity.
  - inversion_clear Hall as [|? ? Hs Hn].
    unfold bind. rewrite (sink_is_full_Ok _ _ Hs).
    destruct (sink_full w s); simpl; [apply IH, Hn | reflexivity].
Qed.

Lemma every_sink_map_full m w :
  Forall (sink_allocated w) (map_sinks m) →
  every_sink_map sink_is_full 1 m w =
    Ok (if forallb (sink_full w) (map_sinks m) then None else Some 0, w).
Proof.
  induction m as [st a b|st a b n IH] using SinkMap_ind; simpl; intros Hall.
  - rewrite app_nil_r in *. destruct st as [st|]; simpl in *.
    + unfold bind. rewrite (every_sink_stack_full _ _ Hall).
      destruct (forallb _ _); reflexivity.
    + reflexivity.
  - apply Forall_app in Hall as [Hst Hn]. rewrite forallb_app.
    destruct st as [st|]; simpl in *.
    + unfold bind. rewrite (every_sink_stack_full _ _ Hst).
      destruct (forallb _ (stack_sinks st)); simpl; [apply IH, Hn | reflexivity].
    + unfold bind, ret. apply IH, Hn.
Qed.

Lemma every_sink_full_Ok w :
  Forall (sink_allocated w) (attached_sinks w) →
  every_sink_full w = Ok (c_bool (forallb (sink_full w) (attached_sinks w)), w).
Proof.
  unfold every_sink_full, every_sink, attached_sinks, the_playlist, bind, ret.
  destruct (sink_map (playlist w)) as [m|]; simpl; [|reflexivity].
  intros Hall. rewrite (every_sink_map_full _ _ Hall).
  destruct (forallb _ _); reflexivity.
Qed.

(** ** The worker when every sink is full *)

Section WorkerFull.

Variable decode_one_frame : option loc → M Z.
Variable put_ok : option loc → bool.

Lemma decode_thread_body_full w :
decode_head (playlist w) ≠ NULL →
Forall (sink_allocated w) (attached_sinks w) →
forallb (sink_full w) (attached_sinks w) = true →
decode_thread_body decode_one_frame put_ok w = Ok (tt, slept w).
Proof.
intros Hd Hall Hfull. unfold decode_thread_body.
unfold bind at 1. unfold the_playlist at 1.
unfold is_null. rewrite bool_decide_eq_false_2 by exact Hd.
unfold bind at 1. unfold update_playlist at 1, modify at 1.
unfold bind at 1.
rewrite every_sink_full_Ok by exact Hall.
change (attached_sinks (set_playlist (with_sent_end_of_q 0) w)) with (attached_sinks w).
change (sink_full (set_playlist (with_sent_end_of_q 0) w)) with (sink_full w).
rewrite Hfull. reflexivity.
Qed.

Lemma decode_thread_body_decodes w d i :
decode_head (playlist w) = Some d →
Forall (sink_allocated w) (attached_sinks w) →
forallb (sink_full w) (attached_sinks w) = false →
items w !! d = Some i →
decode_thread_body decode_one_frame put_ok w =
     bind (decode_one_frame (file i)) decode_thread_advance
       (set_trace (λ t, t ++ [Decode (file i)])
          (set_playlist (λ p, with_p_volume (gain i * volume p)%float
                                (with_sent_end_of_q 0 p)) w)).
Proof.
intros Hd Hall Hfull Hi. unfold decode_thread_body.
unfold bind at 1. unfold the_playlist at 1.
rewrite Hd. simpl.
unfold bind at 1. unfold update_playlist at 1, modify at 1.
unfold bind at 1.
rewrite every_sink_full_Ok by exact Hall.
change (attached_sinks (set_playlist (with_sent_end_of_q 0) w)) with (attached_sinks w).
change (sink_full (set_playlist (with_sent_end_of_q 0) w)) with (sink_full w).
rewrite Hfull. simpl.
unfold bind at 1. unfold the_playlist at 1.
unfold bind at 1. unfold load at 1. simpl. rewrite Hd, Hi.
unfold bind at 1. unfold update_playlist at 1, modify at 1.
unfold bind at 1. unfold log at 1, modify at 1.
reflexivity.
Qed.

End WorkerFull.

(** ** Signalling the end of the queue *)

Lemma sink_ready_allocated w p : sink_ready w p → sink_allocated w p.
Proof. intros (l & s & q & -> & Hs & _). exists l, s. split; [reflexivity | exact Hs]. Qed.

Lemma alter_as_insert (f : GrooveSink → GrooveSink) l s (h : gmap loc GrooveSink) :
  h !! l = Some s → <[l := f s]> h = alter f l h.
Proof.
  intros Hs. apply map_eq. intros j. rewrite lookup_alter, lookup_insert.
  destruct (decide (l = j)) as [<-|]; [rewrite Hs|]; reflexivity.
Qed.

Lemma sink_ready_push w obj l p :
  sink_ready w p → sink_ready (set_sinks (alter (push_sink obj) l) w) p.
Proof.
  intros (l' & s & q & -> & Hs & Hq). destruct (decide (l = l')) as [<-|Hne].
  - exists l, (push_sink obj s), (push_queue obj q). split; [reflexivity|]. split.
    + simpl. rewrite lookup_alter, decide_True by reflexivity. rewrite Hs. reflexivity.
    + unfold push_sink. simpl. rewrite Hq. reflexivity.
  - exists l', s, q. split; [reflexivity|]. split; [|exact Hq].
    simpl. rewrite lookup_alter, decide_False by exact Hne. exact Hs.
Qed.

Section SignalEnd.

Variable put_ok : option loc → bool.
Hypothesis puts_succeed : ∀ p, put_ok p = true.

Lemma sink_signal_end_Ok w l :
sink_ready w (Some l) →
sink_signal_end put_ok (Some l) w =
  Ok (0, set_sinks (alter (push_sink end_of_q_sentinel) l) w).
Proof.
intros (l' & s & q & [= <-] & Hs & Hq).
unfold set_sinks. rewrite <- (alter_as_insert _ _ _ _ Hs).
unfold sink_signal_end. rewrite puts_succeed. unfold_queue. mrun.
unfold push_sink. rewrite Hq. reflexivity.
Qed.

Lemma every_sink_stack_signal_end st : ∀ w,
Forall (sink_ready w) (stack_sinks st) →
every_sink_stack (sink_signal_end put_ok) 0 st w =
  Ok (None, set_sinks (push_all end_of_q_sentinel (stack_sinks st)) w).
Proof.
induction st as [s|s n IH] using SinkStack_ind; simpl; intros w Hall.
- inversion_clear Hall as [|? ? Hs _]. pose proof Hs as (l & ? & ? & -> & _).
  unfold bind. rewrite (sink_signal_end_Ok _ _ Hs). reflexivity.
- inversion_clear Hall as [|? ? Hs Hn]. pose proof Hs as (l & ? & ? & -> & _).
  unfold bind. rewrite (sink_signal_end_Ok _ _ Hs). simpl.
  rewrite IH; [reflexivity|].
  eapply Forall_impl; [exact Hn|]. intros p. apply sink_ready_push.
Qed.

Lemma sink_ready_push_all w obj ps p :
sink_ready w p → sink_ready (set_sinks (push_all obj ps) w) p.
Proof.
revert w. induction ps as [|[l|] ps IH]; intros w Hp.
- destruct w; exact Hp.
- apply (IH (set_sinks (alter (push_sink obj) l) w)), sink_ready_push, Hp.
- apply IH, Hp.
Qed.

Lemma every_sink_map_signal_end m : ∀ w,
Forall (sink_ready w) (map_sinks m) →
every_sink_map (sink_signal_end put_ok) 0 m w =
  Ok (None, set_sinks (push_all end_of_q_sentinel (map_sinks m)) w).
Proof.
induction m as [st a b|st a b n IH] using SinkMap_ind; simpl; intros w Hall.
- rewrite app_nil_r in *. destruct st as [st|]; simpl in *.
  + unfold bind. rewrite (every_sink_stack_signal_end _ _ Hall). reflexivity.
  + destruct w; reflexivity.
- apply Forall_app in Hall as [Hst Hn].
  destruct st as [st|]; simpl in *.
  + unfold bind. rewrite (every_sink_stack_signal_end _ _ Hst).
    rewrite IH.
    * unfold set_sinks, push_all. simpl. rewrite foldl_app. reflexivity.
    * eapply Forall_impl; [exact Hn|]. intros p. apply sink_ready_push_all.
  + unfold bind, ret. apply IH, Hn.
Qed.

Lemma every_sink_signal_end_Ok w :
Forall (sink_ready w) (attached_sinks w) →
every_sink_signal_end put_ok w =
  Ok (tt, set_sinks (push_all end_of_q_sentinel (attached_sinks w)) w).
Proof.
unfold every_sink_signal_end, every_sink, attached_sinks, the_playlist, bind, ret.
destruct (sink_map (playlist w)) as [m|]; simpl.
- intros Hall. rewrite (every_sink_map_signal_end _ _ Hall). reflexivity.
- destruct w; reflexivity.
Qed.

End SignalEnd.

Lemma push_all_other obj ps (h : gmap loc GrooveSink) l :
  Some l ∉ ps → push_all obj ps h !! l = h !! l.
Proof.
  revert h. induction ps as [|[l'|] ps IH]; intros h Hnot; simpl.
  - reflexivity.
  - rewrite IH by (intros ?; apply Hnot; right; assumption).
    rewrite lookup_alter, decide_False; [reflexivity|].
    intros ->. apply Hnot. left.
  - apply IH. intros ?; apply Hnot; right; assumption.
Qed.

Lemma push_all_once obj ps (h : gmap loc GrooveSink) l :
  NoDup ps → Some l ∈ ps → push_all obj ps h !! l = push_sink obj <$> h !! l.
Proof.
  revert h. induction ps as [|p ps IH]; intros h Hnd Hin.
  - inversion Hin.
  - apply NoDup_cons in Hnd as [Hp Hnd]. apply elem_of_cons in Hin as [<-|Hin].
    + simpl. rewrite push_all_other by exact Hp.
      rewrite lookup_alter, decide_True by reflexivity. reflexivity.
    + destruct p as [l'|]; simpl.
      * rewrite IH by assumption.
        rewrite lookup_alter, decide_False; [reflexivity|].
        intros ->. contradiction.
      * apply IH; assumption.
Qed.

Section WorkerIdle.

Variable decode_one_frame : option loc → M Z.
Variable put_ok : option loc → bool.
Hypothesis puts_succeed : ∀ p, put_ok p = true.

Lemma decode_thread_body_signals w :
decode_head (playlist w) = NULL → sent_end_of_q (playlist w) = 0 →
Forall (sink_ready w) (attached_sinks w) →
decode_thread_body decode_one_frame put_ok w = Ok (tt, signalled w).
Proof.
intros Hd Hflag Hall. unfold decode_thread_body.
unfold bind at 1. unfold the_playlist at 1. rewrite Hd, Hflag. simpl.
unfold bind at 1. unfold bind at 1.
rewrite (every_sink_signal_end_Ok _ puts_succeed _ Hall). reflexivity.
Qed.

Lemma decode_thread_body_polls w :
decode_head (playlist w) = NULL → sent_end_of_q (playlist w) ≠ 0 →
decode_thread_body decode_one_frame put_ok w = Ok (tt, polled 1 w).
Proof.
intros Hd Hflag. unfold decode_thread_body.
unfold bind at 1. unfold the_playlist at 1. rewrite Hd. simpl.
destruct (Z.eqb_spec (sent_end_of_q (playlist w)) 0); [contradiction|].
reflexivity.
Qed.

(** [decode_one_frame] leaves [sent_end_of_q] alone: the field is "only
  touched by decode_thread". *)
Hypothesis decode_one_frame_keeps_sent_end_of_q : ∀ f w r w',
decode_one_frame f w = Ok (r, w') →
sent_end_of_q (playlist w') = sent_end_of_q (playlist w).

Lemma decode_thread_advance_keeps_sent_end_of_q r w w' :
decode_thread_advance r w = Ok (tt, w') →
sent_end_of_q (playlist w') = sent_end_of_q (playlist w).
Proof.
unfold decode_thread_advance, when. destruct (r <? 0); [|intros [= <-]; reflexivity].
intros H.
apply bind_inv in H as (p & w1 & [= <- <-] & H).
apply bind_inv in H as (dh & w1 & Hl & H). apply load_inv in Hl as [-> _].
apply bind_inv in H as ([] & w1 & [= <-] & H).
apply bind_inv in H as (p' & w1 & [= <- <-] & H).
destruct (negb _); [|injection H as <-; reflexivity].
apply bind_inv in H as (dh' & w1 & Hl & H). apply load_inv in Hl as [-> _].
unfold store_file in H.
apply bind_inv in H as (x & w1 & Hl & H). apply load_inv in Hl as [-> _].
destruct (file dh'); [|discriminate]. injection H as <-. reflexivity.
Qed.

Lemma decode_thread_body_clears w w' :
decode_head (playlist w) ≠ NULL →
Forall (sink_allocated w) (attached_sinks w) →
decode_thread_body decode_one_frame put_ok w = Ok (tt, w') →
sent_end_of_q (playlist w') = 0.
Proof.
intros Hd Hall.
destruct (forallb (sink_full w) (attached_sinks w)) eqn:Hfull.
- rewrite decode_thread_body_full by assumption. intros [= <-]. reflexivity.
- unfold decode_thread_body.
  unfold bind at 1. unfold the_playlist at 1.
  unfold is_null at 1. rewrite bool_decide_eq_false_2 by exact Hd.
  unfold bind at 1. unfold update_playlist at 1, modify at 1.
  unfold bind at 1.
  rewrite every_sink_full_Ok by exact Hall.
  change (attached_sinks (set_playlist (with_sent_end_of_q 0) w)) with (attached_sinks w).
  change (sink_full (set_playlist (with_sent_end_of_q 0) w)) with (sink_full w).
  rewrite Hfull. simpl. intros H.
  apply bind_inv in H as (p & w1 & [= <- <-] & H).
  apply bind_inv in H as (dh & w1 & Hl & H). apply load_inv in Hl as [-> _].
  apply bind_inv in H as ([] & w1 & [= <-] & H).
  apply bind_inv in H as ([] & w1 & [= <-] & H).
  apply bind_inv in H as (r & w1 & Hdec & H).
  apply decode_thread_advance_keeps_sent_end_of_q in H. rewrite H.
  apply decode_one_frame_keeps_sent_end_of_q in Hdec. rewrite Hdec. reflexivity.
Qed.

End WorkerIdle.

(** ** The claims about the sink queues and the worker *)

Lemma sink_full_hungry w :
  Forall (sink_allocated w) (attached_sinks w) →
  forallb (sink_full w) (attached_sinks w) = false ↔ some_sink_hungry w.
Proof.
  intros Hall. unfold some_sink_hungry.
  induction (attached_sinks w) as [|p ps IH]; simpl.
  - split; [discriminate|]. intros (l & s & Hin & _). inversion Hin.
  - apply Forall_cons in Hall as [(l & s & -> & Hs) Hps].
    rewrite andb_false_iff, (IH Hps). unfold sink_full at 1. simpl. rewrite Hs.
    rewrite Z.leb_gt. split.
    + intros [Hlt | (l' & s' & Hin & Hr)].
      * exists l, s. split; [left | split; assumption].
      * exists l', s'. split; [right; exact Hin | exact Hr].
    + intros (l' & s' & Hin & Hs' & Hlt). apply elem_of_cons in Hin as [[= ->] | Hin].
      * left. rewrite Hs in Hs'. injection Hs' as <-. exact Hlt.
      * right. exists l', s'. split; [exact Hin | split; assumption].
Qed.

(** C8: [groove_sink_get_buffer] answers YES with the dequeued buffer when
    the queue yields a buffer, END with no buffer when it yields the
    end-of-queue sentinel, and NO with no buffer when the queue yields
    nothing, as it does when it is empty and [block] is 0. *)
Theorem groove_sink_get_buffer_tristate (w : World) (l : loc) (s : GrooveSink)
    (q : GrooveQueue) (block : Z) :
  sinks w !! l = Some s → audioq s = Some q →
  (∀ b rest buf,
     q_abort_request q = 0 → q_items q = Some b :: rest → buffers w !! b = Some buf →
     ∃ w', groove_sink_get_buffer (Some l) block w = Ok ((GROOVE_BUFFER_YES, Some b), w') ∧
           q_items <$> queue_of w' l = Some rest) ∧
  (∀ rest,
     q_abort_request q = 0 → q_items q = end_of_q_sentinel :: rest →
     ∃ w', groove_sink_get_buffer (Some l) block w = Ok ((GROOVE_BUFFER_END, NULL), w') ∧
           q_items <$> queue_of w' l = Some rest) ∧
  (∀ r w',
     groove_queue_get (Some l) block w = Ok ((r, None), w') →
     groove_sink_get_buffer (Some l) block w = Ok ((GROOVE_BUFFER_NO, NULL), w')) ∧
  (q_abort_request q = 0 → q_items q = [] → block = 0 →
     groove_sink_get_buffer (Some l) block w = Ok ((GROOVE_BUFFER_NO, NULL), w)).
Proof.
  intros Hs Hq. repeat split.
  - intros b rest buf. apply (get_buffer_yes w l s q block Hs Hq).
  - intros rest. apply (get_buffer_end w l s q block Hs Hq).
  - intros r w'. apply (get_buffer_no_value w l s block Hs).
  - apply (get_buffer_no_empty w l s q block Hs Hq).
Qed.

Lemma groove_sink_get_buffer_tristate_witness :
  (∃ w', groove_sink_get_buffer (Some 1%positive) 0 (idle_world [Some 7%positive; NULL]) =
           Ok ((GROOVE_BUFFER_YES, Some 7%positive), w') ∧
         q_items <$> queue_of w' 1%positive = Some [NULL]) ∧
  groove_sink_get_buffer (Some 1%positive) 0 (idle_world []) =
    Ok ((GROOVE_BUFFER_NO, NULL), idle_world []).
Proof.
  split.
  - destruct (groove_sink_get_buffer_tristate (idle_world [Some 7%positive; NULL]) 1%positive
                (a_sink [Some 7%positive; NULL]) (mkQueue [Some 7%positive; NULL] 0) 0
                eq_refl eq_refl) as (Hyes & _).
    exact (Hyes 7%positive [NULL] (a_buffer NULL 70%positive 1) eq_refl eq_refl eq_refl).
  - destruct (groove_sink_get_buffer_tristate (idle_world []) 1%positive
                (a_sink []) (mkQueue [] 0) 0 eq_refl eq_refl) as (_ & _ & _ & Hno).
    exact (Hno eq_refl eq_refl eq_refl).
Defined.

(** C10: the end-of-queue sentinel is the null pointer.  Signalling the end
    appends a null entry to the sink's queue; the counter hooks leave the
    counters alone for the null value and for no other; and
    [groove_sink_get_buffer] answers END exactly when the dequeued entry is
    null. *)
Theorem end_of_q_sentinel_is_null (w : World) (l : loc) (s : GrooveSink) (q : GrooveQueue) :
  sinks w !! l = Some s → audioq s = Some q →
  end_of_q_sentinel = NULL ∧
  (∀ put_ok, put_ok (Some l) = true →
     sink_signal_end put_ok (Some l) w =
       Ok (0, set_sinks <[l := with_audioq (Some (push_queue NULL q)) s]> w)) ∧
  (audioq_put (Some l) NULL w = Ok (tt, w) ∧
   audioq_get (Some l) NULL w = Ok (tt, w) ∧
   audioq_cleanup (Some l) NULL w = Ok (tt, w)) ∧
  (∀ b buf, buffers w !! b = Some buf →
     audioq_put (Some l) (Some b) w =
       Ok (tt, set_sinks <[l := with_counters (wrap_int (audioq_buf_count s + 1))
                                 (wrap_int (audioq_size s + size buf)) s]> w) ∧
     audioq_get (Some l) (Some b) w =
       Ok (tt, set_sinks <[l := with_counters (wrap_int (audioq_buf_count s - 1))
                                 (wrap_int (audioq_size s - size buf)) s]> w) ∧
     audioq_cleanup (Some l) (Some b) w =
       bind (store_sink (Some l) (with_counters (wrap_int (audioq_buf_count s - 1))
                                                (wrap_int (audioq_size s - size buf))))
            (λ _, groove_buffer_unref (Some b)) w) ∧
  (∀ block obj rest,
     q_abort_request q = 0 → q_items q = obj :: rest →
     (∀ b, obj = Some b → is_Some (buffers w !! b)) →
     ∃ res out w', groove_sink_get_buffer (Some l) block w = Ok ((res, out), w') ∧
                   (res = GROOVE_BUFFER_END ↔ obj = NULL)).
Proof.
  intros Hs Hq. split; [reflexivity|]. split; [|split; [|split]].
  - intros put_ok Hput. unfold sink_signal_end. rewrite Hput. unfold_queue. mrun.
    unfold push_queue. reflexivity.
  - unfold_queue. mrun. repeat split.
  - intros b buf Hb. unfold_queue. mrun. repeat split.
  - intros block [b|] rest Ha Hi Hb.
    + destruct (Hb b eq_refl) as [buf Hbuf].
      destruct (get_buffer_yes w l s q block Hs Hq b rest buf Ha Hi Hbuf) as (w' & Hget & _).
      exists GROOVE_BUFFER_YES, (Some b), w'. split; [exact Hget|]. split; discriminate.
    + destruct (get_buffer_end w l s q block Hs Hq rest Ha Hi) as (w' & Hget & _).
      exists GROOVE_BUFFER_END, NULL, w'. split; [exact Hget|]. split; reflexivity.
Qed.

Lemma end_of_q_sentinel_is_null_witness :
  ∃ res out w',
    groove_sink_get_buffer (Some 1%positive) 1 (idle_world [NULL; Some 7%positive]) =
      Ok ((res, out), w') ∧
    (res = GROOVE_BUFFER_END ↔ (NULL : option loc) = NULL).
Proof.
  destruct (end_of_q_sentinel_is_null (idle_world [NULL; Some 7%positive]) 1%positive
              (a_sink [NULL; Some 7%positive]) (mkQueue [NULL; Some 7%positive] 0)
              eq_refl eq_refl) as (_ & _ & _ & _ & Hend).
  apply (Hend 1 NULL [Some 7%positive] eq_refl eq_refl). intros b [=].
Defined.

(** C9: with a decode head but an empty sink map, the check over all sinks
    answers its default 1, and the worker sleeps [NOOP_DELAY] without calling
    [decode_one_frame]; more generally it sleeps whenever no attached sink is
    below its threshold, and it calls [decode_one_frame] when one is. *)
Theorem decode_thread_waits_for_a_hungry_sink (decode_one_frame : option loc → M Z)
    (put_ok : option loc → bool) (w : World) :
  (sink_map (playlist w) = None → every_sink_full w = Ok (1, w)) ∧
  (decode_head (playlist w) ≠ NULL → sink_map (playlist w) = None →
     decode_thread_body decode_one_frame put_ok w = Ok (tt, slept w)) ∧
  (Forall (sink_allocated w) (attached_sinks w) →
     (∃ full, every_sink_full w = Ok (full, w) ∧ (full = 0 ↔ some_sink_hungry w)) ∧
     (decode_head (playlist w) ≠ NULL → ¬ some_sink_hungry w →
        decode_thread_body decode_one_frame put_ok w = Ok (tt, slept w)) ∧
     (∀ d i, decode_head (playlist w) = Some d → items w !! d = Some i →
        some_sink_hungry w →
        decode_thread_body decode_one_frame put_ok w =
          bind (decode_one_frame (file i)) (decode_thread_advance)
            (set_trace (λ t, t ++ [Decode (file i)])
               (set_playlist (λ p, with_p_volume (gain i * volume p)%float
                                     (with_sent_end_of_q 0 p)) w)))).
Proof.
  split; [|split].
  - intros Hm. unfold every_sink_full, every_sink, the_playlist, bind, ret.
    rewrite Hm. reflexivity.
  - intros Hd Hm. apply decode_thread_body_full; [exact Hd | |];
      unfold attached_sinks; rewrite Hm; [constructor | reflexivity].
  - intros Hall. split; [|split].
    + eexists. split; [apply every_sink_full_Ok, Hall|].
      rewrite <- (sink_full_hungry w Hall).
      destruct (forallb _ _); simpl; split; (reflexivity || discriminate).
    + intros Hd Hno. apply decode_thread_body_full; [exact Hd | exact Hall |].
      destruct (forallb _ _) eqn:E; [reflexivity|].
      destruct Hno. apply (sink_full_hungry w Hall), E.
    + intros d i Hd Hi Hh. apply (decode_thread_body_decodes _ _ w d i); try assumption.
      apply (sink_full_hungry w Hall), Hh.
Qed.


(** ** What a call leaves unchanged *)

Section Keeps.

Variable R : World → World → Prop.
Hypothesis R_frame : frame_rel R.

Lemma keeps_ret {A} (a : A) : keeps R (ret a).
Proof. intros w a' w' [= _ <-]. apply (fr_refl R R_frame). Qed.

Lemma keeps_fail {A} f : keeps R (fail f : M A).
Proof. intros w a w' [=]. Qed.

Lemma keeps_bind {A B} (c : M A) (k : A → M B) :
keeps R c → (∀ a, keeps R (k a)) → keeps R (bind c k).
Proof.
intros Hc Hk w b w' H. apply bind_inv in H as (a & w1 & H1 & H2).
eapply (fr_trans R R_frame); [eapply Hc, H1 | eapply Hk, H2].
Qed.

Lemma keeps_load {A} (heap : World → gmap loc A) p : keeps R (load heap p).
Proof. intros w a w' H. apply load_inv in H as [-> _]. apply (fr_refl R R_frame). Qed.

Lemma keeps_the_playlist : keeps R the_playlist.
Proof. intros w a w' [= _ <-]. apply (fr_refl R R_frame). Qed.

Lemma keeps_deref {A} (p : option A) : keeps R (deref p).
Proof. destruct p; [apply keeps_ret | apply keeps_fail]. Qed.

Lemma keeps_modify f : (∀ w, R w (f w)) → keeps R (modify f).
Proof. intros Hf w a w' H. injection H as H. subst w'. apply Hf. Qed.

Lemma keeps_when (c : bool) body : keeps R body → keeps R (when c body).
Proof. intros Hb. destruct c; [exact Hb | apply keeps_ret]. Qed.

End Keeps.

(** Breaks a [keeps] goal down along the structure of the computation. *)
Ltac keeps_step :=
  first
    [ apply keeps_ret; assumption
    | apply keeps_fail
    | apply keeps_load; assumption
    | apply keeps_the_playlist; assumption
    | apply keeps_deref; assumption
    | apply keeps_when; [assumption |]
    | apply keeps_modify;
      [intros ?; first [ reflexivity
                       | apply fr_sinks; assumption
                       | apply fr_buffers; assumption
                       | apply fr_trace; assumption ]]
    | match goal with H : context [keeps] |- _ => apply H end
    | apply keeps_bind; [assumption | | intros ?]
    | match goal with
      | |- keeps _ (match ?x with _ => _ end) => destruct x
      | |- keeps _ (if ?x then _ else _) => destruct x
      end ].
Ltac keeps_auto := repeat keeps_step.

Section KeepsQueues.

Variable R : World → World → Prop.
Hypothesis R_frame : frame_rel R.

Lemma store_sink_keeps p f : keeps R (store_sink p f).
Proof. unfold store_sink. keeps_auto. Qed.

Lemma store_buffer_keeps p f : keeps R (store_buffer p f).
Proof. unfold store_buffer. keeps_auto. Qed.

Lemma the_queue_keeps p : keeps R (the_queue p).
Proof. unfold the_queue. keeps_auto. Qed.

Lemma groove_buffer_unref_keeps b : keeps R (groove_buffer_unref b).
Proof.
pose proof store_buffer_keeps.
unfold groove_buffer_unref, log. keeps_auto.
Qed.

Lemma audioq_cleanup_keeps s obj : keeps R (audioq_cleanup s obj).
Proof.
pose proof store_sink_keeps. pose proof groove_buffer_unref_keeps.
unfold audioq_cleanup. keeps_auto.
Qed.

Lemma audioq_purge_keeps s obj : keeps R (audioq_purge s obj).
Proof. unfold audioq_purge. keeps_auto. Qed.

Lemma queue_cleanup_all_keeps s l : keeps R (queue_cleanup_all s l).
Proof.
pose proof audioq_cleanup_keeps.
induction l as [|obj l IH]; simpl; keeps_auto.
Qed.

Lemma queue_purge_each_keeps s l : keeps R (queue_purge_each s l).
Proof.
pose proof audioq_cleanup_keeps. pose proof audioq_purge_keeps.
induction l as [|obj l IH]; simpl; keeps_auto.
Qed.

Lemma groove_queue_purge_keeps s : keeps R (groove_queue_purge s).
Proof.
pose proof store_sink_keeps. pose proof the_queue_keeps.
pose proof queue_purge_each_keeps.
unfold groove_queue_purge, set_queue. keeps_auto.
Qed.

Lemma groove_queue_flush_keeps s : keeps R (groove_queue_flush s).
Proof.
pose proof store_sink_keeps. pose proof the_queue_keeps.
pose proof queue_cleanup_all_keeps.
unfold groove_queue_flush, set_queue. keeps_auto.
Qed.

Lemma purge_sink_keeps s : keeps R (purge_sink s).
Proof.
pose proof groove_queue_purge_keeps.
unfold purge_sink, log. keeps_auto.
Qed.

Lemma every_sink_stack_keeps func d st :
(∀ s, keeps R (func s)) → keeps R (every_sink_stack func d st).
Proof.
intros Hf. induction st as [s|s n IH] using SinkStack_ind; simpl; keeps_auto.
Qed.

Lemma every_sink_map_keeps func d m :
(∀ s, keeps R (func s)) → keeps R (every_sink_map func d m).
Proof.
intros Hf. pose proof (λ st, every_sink_stack_keeps func d st Hf).
induction m as [st a b|st a b n IH] using SinkMap_ind; simpl; keeps_auto.
Qed.

Lemma every_sink_keeps func d : (∀ s, keeps R (func s)) → keeps R (every_sink func d).
Proof.
intros Hf. pose proof (λ m, every_sink_map_keeps func d m Hf).
unfold every_sink. keeps_auto.
Qed.

End KeepsQueues.

Lemma same_rebuild_flag_frame : frame_rel same_rebuild_flag.
Proof. split; unfold same_rebuild_flag; try reflexivity. congruence. Qed.

Section RebuildFlag.

Let R_frame := same_rebuild_flag_frame.

Lemma add_sink_to_map_loop_keeps_flag sink e m :
keeps same_rebuild_flag (add_sink_to_map_loop sink e m).
Proof.
induction m as [st a b|st a b n IH] using SinkMap_ind; simpl; keeps_auto.
Qed.

Lemma add_sink_to_map_keeps_flag stack_ok map_ok sink :
keeps same_rebuild_flag (add_sink_to_map stack_ok map_ok sink).
Proof.
pose proof add_sink_to_map_loop_keeps_flag.
unfold add_sink_to_map, update_playlist, av_mallocz. keeps_auto.
Qed.

Lemma remove_sink_from_map_keeps_flag sink :
keeps same_rebuild_flag (remove_sink_from_map sink).
Proof. unfold remove_sink_from_map, update_playlist. keeps_auto. Qed.

Lemma groove_sink_attach_keeps_flag nb_channels bytes stack_ok map_ok sink pl :
keeps same_rebuild_flag (groove_sink_attach nb_channels bytes stack_ok map_ok sink pl).
Proof.
pose proof (store_sink_keeps _ R_frame). pose proof (the_queue_keeps _ R_frame).
pose proof add_sink_to_map_keeps_flag.
unfold groove_sink_attach, groove_queue_reset, set_queue. keeps_auto.
Qed.

Lemma groove_sink_detach_keeps_flag sink :
keeps same_rebuild_flag (groove_sink_detach sink).
Proof.
pose proof (store_sink_keeps _ R_frame). pose proof (groove_queue_flush_keeps _ R_frame).
pose proof (the_queue_keeps _ R_frame). pose proof remove_sink_from_map_keeps_flag.
unfold groove_sink_detach, groove_queue_abort, set_queue. keeps_auto.
Qed.

End RebuildFlag.

(** ** Attaching and detaching a sink *)

(** C1 (the code departs from the claim): neither [groove_sink_attach] nor
    [groove_sink_detach] writes [rebuild_filter_graph_flag]; whenever one of
    them returns, the flag is what it was before the call. *)
Theorem sink_attach_detach_leave_rebuild_flag (nb_channels bytes : Z → Z)
    (stack_ok map_ok : bool) (sink pl : option loc) (w : World) (r : Z) (w' : World) :
  (groove_sink_attach nb_channels bytes stack_ok map_ok sink pl w = Ok (r, w') →
   rebuild_filter_graph_flag (playlist w') = rebuild_filter_graph_flag (playlist w)) ∧
  (groove_sink_detach sink w = Ok (r, w') →
   rebuild_filter_graph_flag (playlist w') = rebuild_filter_graph_flag (playlist w)).
Proof.
  split; intros H.
  - exact (groove_sink_attach_keeps_flag _ _ _ _ _ _ _ _ _ H).
  - exact (groove_sink_detach_keeps_flag _ _ _ _ H).
Qed.

(** The failing input of C1: a sink is attached to a playlist whose graph is
    built.  The call succeeds and adds a class to the sink map, the flag stays
    0, and so the worker's [maybe_init_filter_graph] keeps the old graph: the
    new class has no output port. *)
Example attach_does_not_trigger_rebuild :
  ∃ w',
    groove_sink_attach two_channels two_bytes true true (Some 1%positive) (Some 9%positive)
      built_world = Ok (0, w') ∧
    sink_map (playlist w') = Some (one_class 1%positive) ∧
    sink_map_count (playlist w') = 1 ∧
    rebuild_filter_graph_flag (playlist w') = 0 ∧
    maybe_init_filter_graph true (λ _, 0) (Some 100%positive) w' = Ok (0, w') ∧
    abuffersink_ctx (one_class 1%positive) = NULL.
Proof. eexists. split; [vm_compute; reflexivity|]. repeat split. Qed.

(** The same for [groove_sink_detach]: the class is removed, the flag stays
    0 and the graph, still wired for one class, is kept. *)
Example detach_does_not_trigger_rebuild :
  ∃ w1 w2,
    groove_sink_attach two_channels two_bytes true true (Some 1%positive) (Some 9%positive)
      built_world = Ok (0, w1) ∧
    groove_sink_detach (Some 1%positive) w1 = Ok (0, w2) ∧
    sink_map (playlist w2) = None ∧
    rebuild_filter_graph_flag (playlist w2) = 0 ∧
    maybe_init_filter_graph true (λ _, 0) (Some 100%positive) w2 = Ok (0, w2).
Proof.
  eexists. eexists. split; [vm_compute; reflexivity|].
  split; [vm_compute; reflexivity|]. repeat split.
Qed.

(** C5 (the code departs from the claim): when the allocation of the stack
    entry fails, [add_sink_to_map] writes [stack_entry->sink] through the null
    pointer before it tests it, and so does [groove_sink_attach]; when the
    allocation of the map entry fails, [map_entry->stack_head] is written
    through the null pointer. *)
Theorem add_sink_to_map_uses_failed_allocation (nb_channels bytes : Z → Z)
    (map_ok : bool) (w : World) (l : loc) (s : GrooveSink) (pl : loc) :
  sinks w !! l = Some s →
  add_sink_to_map false map_ok (Some l) w = Fault NullDeref ∧
  groove_sink_attach nb_channels bytes false map_ok (Some l) (Some pl) w = Fault NullDeref ∧
  (sink_map (playlist w) = None →
   add_sink_to_map true false (Some l) w = Fault NullDeref ∧
   groove_sink_attach nb_channels bytes true false (Some l) (Some pl) w = Fault NullDeref).
Proof.
  intros Hs. split; [reflexivity|]. split.
  - unfold groove_sink_attach, store_sink, load, modify, bind. mrun. reflexivity.
  - intros Hm. split.
    + unfold add_sink_to_map, the_playlist, deref, update_playlist, modify, fail, ret, bind.
      mrun. reflexivity.
    + unfold groove_sink_attach, add_sink_to_map, store_sink, load, the_playlist, deref,
        update_playlist, modify, fail, ret, bind.
      mrun. reflexivity.
Qed.

Lemma add_sink_to_map_uses_failed_allocation_witness :
  add_sink_to_map false true (Some 1%positive) built_world = Fault NullDeref ∧
  groove_sink_attach two_channels two_bytes false true (Some 1%positive) (Some 9%positive)
    built_world = Fault NullDeref.
Proof.
  destruct (add_sink_to_map_uses_failed_allocation two_channels two_bytes true built_world
              1%positive (a_sink []) 9%positive eq_refl) as (H1 & H2 & _).
  split; [exact H1 | exact H2].
Defined.

(** ** The playlist's list *)

Lemma same_list_frame : frame_rel same_list.
Proof.
  split; unfold same_list; try (intros; repeat split; reflexivity).
  intros w1 w2 w3 (-> & -> & ->) (-> & -> & ->). repeat split.
Qed.

Lemma with_next_same i : with_next (next i) i = i.
Proof. destruct i; reflexivity. Qed.

Lemma store_item_inv p f w u w' :
  store_item p f w = Ok (u, w') →
  ∃ l i, p = Some l ∧ items w !! l = Some i ∧ w' = set_items <[l := f i]> w.
Proof.
  unfold store_item. intros H. destruct u.
  apply bind_inv in H as (i & w1 & Hl & H). apply load_inv in Hl as (-> & l & -> & Hi).
  injection H as <-. exists l, i. repeat split. exact Hi.
Qed.

Lemma groove_playlist_remove_inv l w w' :
  groove_playlist_remove (Some l) w = Ok (tt, w') →
  ∃ i, items w !! l = Some i ∧
       (∀ p, prev i = Some p → is_Some (items w !! p)) ∧
       (∀ n, next i = Some n → is_Some (items w !! n)) ∧
       items w' = unlinked l i (items w) ∧
       head (playlist w') = (if prev i is Some _ then head (playlist w) else next i) ∧
       tail (playlist w') = (if next i is Some _ then tail (playlist w) else prev i).
Proof.
  unfold groove_playlist_remove. intros H.
  apply bind_inv in H as (p & w1 & [= <- <-] & H).
  apply bind_inv in H as (i & w1 & Hl & H). apply load_inv in Hl as (-> & l' & [= <-] & Hi).
  exists i. split; [exact Hi|].
  apply bind_inv in H as ([] & w1 & H1 & H).
  assert (same_list w w1) as (Ei1 & Eh1 & Et1).
  { unfold when in H1. destruct (ptr_eq _ _); injection H1 as <-; repeat split. }
  clear H1.
  apply bind_inv in H as ([] & w2 & H2 & H).
  apply bind_inv in H as (i2 & w2' & Hl & H). apply load_inv in Hl as (-> & l' & [= <-] & Hi2).
  apply bind_inv in H as ([] & w3 & H3 & H).
  apply bind_inv in H as ([] & w4 & [= <-] & H).
  apply bind_inv in H as (r & w5 & H5 & H).
  apply (every_sink_keeps same_list same_list_frame purge_sink 0
           (purge_sink_keeps same_list same_list_frame)) in H5 as (Ei5 & Eh5 & Et5).
  apply bind_inv in H as ([] & w6 & [= <-] & H).
  unfold free_item in H.
  apply bind_inv in H as (i6 & w7 & Hl & H). apply load_inv in Hl as (-> & _).
  injection H as <-. simpl in *.
  unfold unlinked.
  destruct (prev i) as [p|] eqn:Ep; simpl in H2.
  - apply store_item_inv in H2 as (p' & ip & [= <-] & Hip & ->). simpl in *.
    rewrite Ei1 in Hip.
    assert (i2 = i) as ->.
    { rewrite Ei1 in Hi2. rewrite lookup_insert in Hi2. destruct (decide (p = l)) as [->|].
      - rewrite Hi in Hip. injection Hip as <-. injection Hi2 as <-. apply with_next_same.
      - congruence. }
    assert (<[p := with_next (next i) ip]> (items w) = alter (with_next (next i)) p (items w))
      as Ealter.
    { apply map_eq. intros j. rewrite lookup_alter, lookup_insert.
      destruct (decide (p = j)) as [<-|]; [rewrite Hip|]; reflexivity. }
    split; [intros p' [= <-]; eauto|].
    destruct (next i) as [n|] eqn:En; simpl in H3.
    + apply store_item_inv in H3 as (n' & inn & [= <-] & Hin & ->). simpl in *.
      rewrite Ei1, Ealter in Hin.
      split.
      { intros n' [= <-]. rewrite lookup_alter in Hin.
        destruct (decide (p = n)) as [<-|]; [rewrite Hip|]; eauto. }
      rewrite Ei5, Eh5, Et5, Ei1, Eh1, Et1, Ealter, Ep. repeat split.
      f_equal. apply map_eq. intros j. rewrite lookup_alter, lookup_insert.
      destruct (decide (n = j)) as [<-|]; [rewrite Hin|]; reflexivity.
    + injection H3 as <-. simpl in *.
      split; [intros n [=]|].
      rewrite Ei5, Eh5, Et5, Ei1, Eh1, Ealter. repeat split; assumption.
  - injection H2 as <-. simpl in *.
    assert (i2 = i) as -> by congruence.
    split; [intros p' [=]|].
    destruct (next i) as [n|] eqn:En; simpl in H3.
    + apply store_item_inv in H3 as (n' & inn & [= <-] & Hin & ->). simpl in *.
      rewrite Ei1 in Hin.
      split; [intros n' [= <-]; eauto|].
      rewrite Ei5, Eh5, Et5, Ei1, Et1, Ep. repeat split.
      f_equal. apply map_eq. intros j. rewrite lookup_alter, lookup_insert.
      destruct (decide (n = j)) as [<-|]; [rewrite Hin|]; reflexivity.
    + injection H3 as <-. simpl in *.
      split; [intros n [=]|].
      rewrite Ei5, Eh5, Et5, Ei1. repeat split; assumption.
Qed.

#[local] Set Warnings "-clear-no-such-hyp".

Lemma unlinked_lookup l i (h : gmap loc GroovePlaylistItem) a :
  unlinked l i h !! a = if decide (a = l) then None else relinked i a <$> h !! a.
Proof.
  unfold unlinked, relinked. rewrite lookup_delete.
  destruct (decide (l = a)) as [<-|Hne]; [rewrite decide_True by reflexivity; reflexivity|].
  rewrite decide_False by congruence.
  destruct (next i) as [n|], (prev i) as [p|];
    rewrite ?lookup_alter; repeat case_decide; simplify_eq;
    destruct (h !! a) as [[]|]; reflexivity.
Qed.

Lemma unlinked_lookup_Some l i (h : gmap loc GroovePlaylistItem) a ia' :
  unlinked l i h !! a = Some ia' →
  a ≠ l ∧ ∃ ia, h !! a = Some ia ∧ ia' = relinked i a ia.
Proof.
  rewrite unlinked_lookup. case_decide; [discriminate|].
  destruct (h !! a) as [ia|]; [|discriminate]. intros [= <-]. eauto.
Qed.

(** Unlinking an item keeps the invariant of the list. *)
Lemma unlinked_dll w w' l i :
  dll_links w → dll_closed w →
  items w !! l = Some i →
  items w' = unlinked l i (items w) →
  head (playlist w') = (if prev i is Some _ then head (playlist w) else next i) →
  tail (playlist w') = (if next i is Some _ then tail (playlist w) else prev i) →
  dll_links w' ∧ dll_closed w'.
Proof.
  intros [Hhead Htail Hpairs] Hclosed Hi Ei Eh Et.
  assert (Hself_n : next i ≠ Some l ∨ prev i = Some l).
  { destruct (decide (next i = Some l)) as [E|]; [right|left; assumption].
    apply (Hpairs l l i i Hi Hi), E. }
  assert (Hself_p : prev i ≠ Some l ∨ next i = Some l).
  { destruct (decide (prev i = Some l)) as [E|]; [right|left; assumption].
    apply (Hpairs l l i i Hi Hi), E. }
  split; [split|].
  - (* head *)
    intros h0. rewrite Eh, Ei. intros Hh0.
    destruct (prev i) as [p|] eqn:Ep.
    + destruct (Hhead h0 Hh0) as (i0 & Hi0 & Hp0).
      exists (relinked i h0 i0). rewrite unlinked_lookup, Hi0.
      assert (h0 ≠ l) by (intros ->; congruence).
      rewrite decide_False by assumption. split; [reflexivity|].
      unfold relinked. simpl. rewrite Ep. case_decide as En; [|exact Hp0].
      apply (Hpairs l h0 i i0 Hi Hi0) in En. congruence.
    + assert (h0 ≠ l) by (intros ->; destruct Hself_n; congruence).
      destruct (Hclosed l i h0 Hi (or_introl Hh0)) as [i0 Hi0].
      exists (relinked i h0 i0). rewrite unlinked_lookup, Hi0.
      rewrite decide_False by assumption. split; [reflexivity|].
      unfold relinked. simpl. rewrite decide_True by assumption. exact Ep.
  - (* tail *)
    intros t0. rewrite Et, Ei. intros Ht0.
    destruct (next i) as [n|] eqn:En.
    + destruct (Htail t0 Ht0) as (i0 & Hi0 & Hn0).
      exists (relinked i t0 i0). rewrite unlinked_lookup, Hi0.
      assert (t0 ≠ l) by (intros ->; congruence).
      rewrite decide_False by assumption. split; [reflexivity|].
      unfold relinked. simpl. rewrite En. case_decide as Ep; [|exact Hn0].
      apply (Hpairs t0 l i0 i Hi0 Hi) in Ep. congruence.
    + assert (t0 ≠ l) by (intros ->; destruct Hself_p; congruence).
      destruct (Hclosed l i t0 Hi (or_intror Ht0)) as [i0 Hi0].
      exists (relinked i t0 i0). rewrite unlinked_lookup, Hi0.
      rewrite decide_False by assumption. split; [reflexivity|].
      unfold relinked. simpl. rewrite decide_True by assumption. exact En.
  - (* pairs *)
    intros a b ia' ib'. rewrite Ei. intros Ha Hb.
    apply unlinked_lookup_Some in Ha as (Hal & ia & Ha & ->).
    apply unlinked_lookup_Some in Hb as (Hbl & ib & Hb & ->).
    unfold relinked. simpl.
    pose proof (Hpairs a b ia ib Ha Hb) as Hab.
    pose proof (Hpairs a l ia i Ha Hi) as Hal'.
    pose proof (Hpairs l b i ib Hi Hb) as Hlb.
    clear Hhead Htail Hclosed Ei Eh Et Ha Hb Hi Hpairs.
    repeat case_decide; naive_solver congruence.
  - (* closed *)
    intros a ia' b. rewrite Ei. intros Ha Hptr.
    apply unlinked_lookup_Some in Ha as (Hal & ia & Ha & ->).
    unfold relinked in Hptr. simpl in Hptr.
    pose proof (Hpairs a l ia i Ha Hi) as Hal'.
    pose proof (Hpairs l a i ia Hi Ha) as Hla.
    assert (b ≠ l ∧ is_Some (items w !! b)) as [Hbl [ib Hb]].
    { pose proof (Hclosed a ia b Ha) as Hca.
      pose proof (Hclosed l i b Hi) as Hcl.
      clear Hhead Htail Hclosed Ei Eh Et Ha Hi Hpairs.
      repeat case_decide; split; naive_solver congruence. }
    rewrite unlinked_lookup, decide_False, Hb by assumption. eauto.
Qed.

Lemma groove_playlist_remove_keeps_dll l w w' :
  dll_links w → dll_closed w →
  groove_playlist_remove (Some l) w = Ok (tt, w') →
  dll_links w' ∧ dll_closed w' ∧ items w' !! l = None.
Proof.
  intros Hlinks Hclosed H.
  apply groove_playlist_remove_inv in H as (i & Hi & _ & _ & Ei & Eh & Et).
  destruct (unlinked_dll w w' l i Hlinks Hclosed Hi Ei Eh Et) as [H1 H2].
  split; [exact H1|]. split; [exact H2|].
  rewrite Ei, unlinked_lookup, decide_True; reflexivity.
Qed.

Lemma insert_as_alter {A} (f : A → A) l x (h : gmap loc A) :
  h !! l = Some x → <[l := f x]> h = alter f l h.
Proof.
  intros Hx. apply map_eq. intros j. rewrite lookup_alter, lookup_insert.
  destruct (decide (l = j)) as [<-|]; [rewrite Hx|]; reflexivity.
Qed.

Lemma set_items_insert_insert l a b w :
  set_items <[l := a]> (set_items <[l := b]> w) = set_items <[l := a]> w.
Proof. unfold set_items. simpl. rewrite insert_insert_eq. reflexivity. Qed.

(** What [groove_playlist_insert] does to the list, by the place the new
    item goes to. *)
Lemma groove_playlist_insert_inv l f g nx w r w' :
  groove_playlist_insert (Some l) f g nx w = Ok (r, w') →
  r = Some l ∧
  match nx with
  | Some n =>
      ∃ inn, <[l := mkItem f g NULL nx]> (items w) !! n = Some inn ∧
        match prev inn with
        | Some p =>
            items w' = alter (with_prev (Some l)) n
                         (alter (with_next (Some l)) p
                            (<[l := mkItem f g (Some p) nx]> (items w))) ∧
            is_Some (<[l := mkItem f g (Some p) nx]> (items w) !! p) ∧
            head (playlist w') = head (playlist w) ∧
            tail (playlist w') = tail (playlist w)
        | None =>
            items w' = <[l := mkItem f g NULL nx]> (items w) ∧
            head (playlist w') = Some l ∧
            tail (playlist w') = tail (playlist w)
        end
  | None =>
      match head (playlist w) with
      | None =>
          items w' = <[l := mkItem f g NULL NULL]> (items w) ∧
          head (playlist w') = Some l ∧ tail (playlist w') = Some l ∧
          decode_head (playlist w') = Some l
      | Some _ =>
          ∃ t, tail (playlist w) = Some t ∧
               is_Some (<[l := mkItem f g (tail (playlist w)) NULL]> (items w) !! t) ∧
               items w' = alter (with_next (Some l)) t
                            (<[l := mkItem f g (tail (playlist w)) NULL]> (items w)) ∧
               head (playlist w') = head (playlist w) ∧
               tail (playlist w') = Some l
      end
  end.
Proof.
  unfold groove_playlist_insert. intros H.
  apply bind_inv in H as ([] & w1 & [= <-] & H).
  apply bind_inv in H as ([] & w1 & H1 & H).
  apply store_item_inv in H1 as (? & i1 & [= <-] & Hi1 & ->).
  simpl in Hi1. rewrite lookup_insert_eq in Hi1. injection Hi1 as <-.
  apply bind_inv in H as ([] & w1 & H1 & H).
  apply store_item_inv in H1 as (? & i1 & [= <-] & Hi1 & ->).
  simpl in Hi1. rewrite lookup_insert_eq in Hi1. injection Hi1 as <-.
  apply bind_inv in H as ([] & w1 & H1 & H).
  apply store_item_inv in H1 as (? & i1 & [= <-] & Hi1 & ->).
  simpl in Hi1. rewrite lookup_insert_eq in Hi1. injection Hi1 as <-.
  apply bind_inv in H as (fl & w1 & Hl & H). apply load_inv in Hl as (-> & _).
  apply bind_inv in H as ([] & w1 & H1 & H). injection H as <- <-.
  split; [reflexivity|].
  rewrite !set_items_insert_insert in H1.
  change (with_gain g (with_next nx (with_file f (mkItem NULL 0%float NULL NULL))))
    with (mkItem f g NULL nx) in H1.
  destruct nx as [n|]; simpl in H1.
  - apply bind_inv in H1 as (inn & w2 & Hl & H1).
    apply load_inv in Hl as (-> & ? & [= <-] & Hn). simpl in Hn.
    exists inn. split; [exact Hn|].
    destruct (prev inn) as [p|] eqn:Ep; simpl in H1.
    + apply bind_inv in H1 as ([] & w2 & H & H1).
      apply store_item_inv in H as (? & i1 & [= <-] & Hi1 & ->).
      simpl in Hi1. rewrite lookup_insert_eq in Hi1. injection Hi1 as <-.
      apply bind_inv in H1 as (i1 & w2 & Hl & H1).
      apply load_inv in Hl as (-> & ? & [= <-] & Hi1).
      simpl in Hi1. rewrite lookup_insert_eq in Hi1. injection Hi1 as <-.
      rewrite set_items_insert_insert in H1.
      change (with_prev (Some p) (mkItem f g NULL (Some n)))
        with (mkItem f g (Some p) (Some n)) in H1. simpl in H1.
      apply bind_inv in H1 as ([] & w2 & H & H1).
      apply store_item_inv in H as (? & ip & [= <-] & Hip & ->). simpl in Hip.
      apply store_item_inv in H1 as (? & in2 & [= <-] & Hin2 & ->). simpl in *.
      split; [|split; [eauto | split; reflexivity]].
      rewrite (insert_as_alter _ _ _ _ Hip) in Hin2 |- *.
      apply (insert_as_alter _ _ _ _ Hin2).
    + injection H1 as <-. simpl. repeat split.
  - apply bind_inv in H1 as (pl & w2 & [= <- <-] & H1). simpl in H1.
    destruct (head (playlist w)) as [hd|] eqn:Eh; simpl in H1.
    + apply bind_inv in H1 as ([] & w2 & H & H1).
      apply store_item_inv in H as (? & i1 & [= <-] & Hi1 & ->).
      simpl in Hi1. rewrite lookup_insert_eq in Hi1. injection Hi1 as <-.
      rewrite set_items_insert_insert in H1.
      change (with_prev (tail (playlist w)) (mkItem f g NULL NULL))
        with (mkItem f g (tail (playlist w)) NULL) in H1. simpl in H1.
      apply bind_inv in H1 as ([] & w2 & H & H1).
      apply store_item_inv in H as (t & it & Et & Hit & ->). simpl in Hit.
      injection H1 as <-. simpl. exists t. split; [exact Et|].
      split; [rewrite Et in *; eauto|]. split; [|split; [exact Eh | reflexivity]].
      apply (insert_as_alter _ _ _ _ Hit).
    + apply bind_inv in H1 as ([] & w2 & [= <-] & H1).
      apply bind_inv in H1 as ([] & w2 & [= <-] & H1).
      apply bind_inv in H1 as (pl & w2 & [= <- <-] & H1).
      apply bind_inv in H1 as ([] & w2 & [= <-] & H1).
      unfold store_file in H1.
      apply bind_inv in H1 as (x & w2 & Hl & H1). apply load_inv in Hl as (-> & _).
      destruct f; [|discriminate]. injection H1 as <-. simpl. repeat split.
Qed.

#[local] Set Warnings "-clear-no-such-hyp".

(** ** Splicing a new item in *)

Lemma fresh_not_pointed w l a ia :
  dll_closed w → items w !! l = None → items w !! a = Some ia →
  next ia ≠ Some l ∧ prev ia ≠ Some l.
Proof.
  intros Hclosed Hl Ha. split; intros E.
  - destruct (Hclosed a ia l Ha (or_introl E)). congruence.
  - destruct (Hclosed a ia l Ha (or_intror E)). congruence.
Qed.

(** Reads a lookup in an updated heap of items: [H] becomes a fact about
    the heap before the update. *)
Ltac read_items H :=
  repeat first [ rewrite lookup_alter in H | rewrite lookup_insert in H ];
  repeat case_decide; simplify_eq;
  repeat match type of H with
         | context [items ?w !! ?a] =>
             let E := fresh "Hold" in
             destruct (items w !! a) eqn:E; simpl in H; simplify_eq
         end.

(** The same for a lookup in the goal. *)
Ltac read_goal :=
  repeat first [ rewrite lookup_alter | rewrite lookup_insert ];
  repeat case_decide; simplify_eq;
  repeat match goal with
         | H : items ?w !! ?a = _ |- context [items ?w !! ?a] => rewrite H
         end;
  simpl.

(** Collects what the invariant says about the items at hand. *)
Ltac old_facts Hpairs Hclosed Hl :=
  repeat match goal with
         | Ha : items ?w !! ?a = Some ?ia |- _ =>
             lazymatch goal with
             | _ : next ia = Some a ↔ prev ia = Some a |- _ => fail
             | _ => pose proof (Hpairs a a ia ia Ha Ha)
             end
         end;
  repeat match goal with
         | Ha : items ?w !! ?a = Some ?ia, Hb : items ?w !! ?b = Some ?ib |- _ =>
             lazymatch goal with
             | _ : next ia = Some b ↔ prev ib = Some a |- _ => fail
             | _ => pose proof (Hpairs a b ia ib Ha Hb)
             end
         end;
  repeat match goal with
         | Ha : items ?w !! ?a = Some ?ia |- _ =>
             lazymatch goal with
             | _ : next ia ≠ Some _ ∧ prev ia ≠ Some _ |- _ => fail
             | _ => pose proof (fresh_not_pointed _ _ a ia Hclosed Hl Ha)
             end
         end.

(** Follows a pointer of an item of the old heap. *)
Ltac closed_ptr Hclosed :=
  try match goal with
      | Ha : items ?w !! ?a = Some ?ia, E : next ?ia = Some ?b |- _ =>
          destruct (Hclosed a ia b Ha (or_introl E))
      | Ha : items ?w !! ?a = Some ?ia, E : prev ?ia = Some ?b |- _ =>
          destruct (Hclosed a ia b Ha (or_intror E))
      end.

Lemma insert_append_dll w w' l f g t :
  dll_links w → dll_closed w → items w !! l = None →
  tail (playlist w) = Some t →
  items w' = alter (with_next (Some l)) t (<[l := mkItem f g (Some t) NULL]> (items w)) →
  head (playlist w') = head (playlist w) →
  tail (playlist w') = Some l →
  dll_links w' ∧ dll_closed w'.
Proof.
  intros [Hhead Htail Hpairs] Hclosed Hl Ht Ei Eh Et.
  destruct (Htail t Ht) as (it & Hit & Hnt).
  split; [split|].
  - intros h0. rewrite Eh, Ei. intros Hh0.
    destruct (Hhead h0 Hh0) as (i0 & Hi0 & Hp0).
    read_goal; eauto.
  - intros t0. rewrite Et, Ei. intros [= <-].
    read_goal; eauto.
  - intros a b ia ib. rewrite Ei. intros Ha Hb.
    read_items Ha; read_items Hb; old_facts Hpairs Hclosed Hl; simpl;
      clear Hhead Htail Hpairs Hclosed Ei Eh Et;
      intuition congruence.
  - intros a ia b. rewrite Ei. intros Ha Hptr.
    read_items Ha; simpl in Hptr; destruct Hptr as [E|E]; simplify_eq;
      closed_ptr Hclosed; read_goal; eauto.
Qed.

Lemma insert_first_dll w w' l f g :
  dll_links w → dll_closed w → items w !! l = None →
  items w' = <[l := mkItem f g NULL NULL]> (items w) →
  head (playlist w') = Some l →
  tail (playlist w') = Some l →
  dll_links w' ∧ dll_closed w'.
Proof.
  intros [Hhead Htail Hpairs] Hclosed Hl Ei Eh Et.
  split; [split|].
  - intros h0. rewrite Eh, Ei. intros [= <-]. read_goal; eauto.
  - intros t0. rewrite Et, Ei. intros [= <-]. read_goal; eauto.
  - intros a b ia ib. rewrite Ei. intros Ha Hb.
    read_items Ha; read_items Hb; old_facts Hpairs Hclosed Hl; simpl;
      clear Hhead Htail Hpairs Hclosed Ei Eh Et;
      intuition congruence.
  - intros a ia b. rewrite Ei. intros Ha Hptr.
    read_items Ha; simpl in Hptr; destruct Hptr as [E|E]; simplify_eq;
      closed_ptr Hclosed; read_goal; eauto.
Qed.

Lemma insert_middle_dll w w' l f g n inn p :
  dll_links w → dll_closed w → items w !! l = None →
  items w !! n = Some inn → prev inn = Some p →
  items w' = alter (with_prev (Some l)) n
               (alter (with_next (Some l)) p
                  (<[l := mkItem f g (Some p) (Some n)]> (items w))) →
  head (playlist w') = head (playlist w) →
  tail (playlist w') = tail (playlist w) →
  dll_links w' ∧ dll_closed w'.
Proof.
  intros [Hhead Htail Hpairs] Hclosed Hl Hn Hp Ei Eh Et.
  destruct (Hclosed n inn p Hn (or_intror Hp)) as [ip Hip].
  pose proof (proj2 (Hpairs p n ip inn Hip Hn) Hp) as Hpn.
  split; [split|].
  - intros h0. rewrite Eh, Ei. intros Hh0.
    destruct (Hhead h0 Hh0) as (i0 & Hi0 & Hp0).
    read_goal; eauto; congruence.
  - intros t0. rewrite Et, Ei. intros Ht0.
    destruct (Htail t0 Ht0) as (i0 & Hi0 & Hn0).
    read_goal; eauto; congruence.
  - intros a b ia ib. rewrite Ei. intros Ha Hb.
    read_items Ha; read_items Hb; old_facts Hpairs Hclosed Hl; simpl;
      clear Hhead Htail Hpairs Hclosed Ei Eh Et;
      intuition congruence.
  - intros a ia b. rewrite Ei. intros Ha Hptr.
    read_items Ha; simpl in Hptr; destruct Hptr as [E|E]; simplify_eq;
      closed_ptr Hclosed; read_goal; eauto.
Qed.

(** The new item is linked before an item that has no [prev]: the item
    is not told. *)
Lemma insert_before_first_breaks w w' l f g n inn :
  items w !! l = None → items w !! n = Some inn → prev inn = NULL →
  items w' = <[l := mkItem f g NULL (Some n)]> (items w) →
  ¬ dll_links w'.
Proof.
  intros Hl Hn Hp Ei [_ _ Hpairs].
  assert (n ≠ l) by congruence.
  assert (prev inn = Some l) as E; [|congruence].
  apply (Hpairs l n (mkItem f g NULL (Some n)) inn).
  - rewrite Ei. apply lookup_insert_eq.
  - rewrite Ei, lookup_insert_ne by congruence. exact Hn.
  - reflexivity.
Qed.

(** [groove_playlist_insert] keeps the invariant of the list when the new
    item goes to the end of the list, or before an item that has a [prev]. *)
Lemma groove_playlist_insert_keeps_dll l f g nx w r w' :
  dll_links w → dll_closed w → items w !! l = None →
  (∀ n, nx = Some n → ∃ inn, items w !! n = Some inn ∧ prev inn ≠ NULL) →
  groove_playlist_insert (Some l) f g nx w = Ok (r, w') →
  dll_links w' ∧ dll_closed w'.
Proof.
  intros Hlinks Hclosed Hl Hnx H.
  apply groove_playlist_insert_inv in H as [_ H].
  destruct nx as [n|].
  - destruct H as (inn & Hn & H).
    destruct (Hnx n eq_refl) as (inn' & Hn' & Hprev).
    rewrite lookup_insert_ne in Hn by congruence.
    assert (inn' = inn) as -> by congruence.
    destruct (prev inn) as [p|] eqn:Ep; [|contradiction].
    destruct H as (Ei & _ & Eh & Et).
    exact (insert_middle_dll w w' l f g n inn p Hlinks Hclosed Hl Hn Ep Ei Eh Et).
  - destruct (head (playlist w)) as [hd|] eqn:Ehd.
    + destruct H as (t & Ht & _ & Ei & Eh & Et). rewrite Ht in Ei. rewrite <- Ehd in Eh.
      exact (insert_append_dll w w' l f g t Hlinks Hclosed Hl Ht Ei Eh Et).
    + destruct H as (Ei & Eh & Et & _).
      exact (insert_first_dll w w' l f g Hlinks Hclosed Hl Ei Eh Et).
Qed.

(** ** The claims about the playlist *)

(** C2 (the code departs from the claim): inserting before the head makes
    the new item the head and points its [next] to the old head, but leaves
    the old head's [prev] null, so [a.next == b] no longer implies
    [b.prev == a]. *)
Theorem groove_playlist_insert_before_head_breaks_links (w : World) (l f h : loc)
    (fl : GrooveFilePrivate) (g : float) :
  dll_links w → items w !! l = None → files w !! f = Some fl →
  head (playlist w) = Some h →
  ∃ w' ih,
    groove_playlist_insert (Some l) (Some f) g (Some h) w = Ok (Some l, w') ∧
    head (playlist w') = Some l ∧
    items w' !! l = Some (mkItem (Some f) g NULL (Some h)) ∧
    items w' !! h = Some ih ∧ prev ih = NULL ∧
    ¬ dll_links w'.
Proof.
  intros Hlinks Hl Hf Hh.
  destruct (dll_head w Hlinks h Hh) as (ih & Hih & Hp).
  assert (l ≠ h) as Hne by congruence.
  exists (set_playlist (with_head (Some l))
            (set_items <[l := mkItem (Some f) g NULL (Some h)]> w)), ih.
  split; [|split; [reflexivity | split; [apply lookup_insert_eq | split; [|split]]]].
  - unfold groove_playlist_insert.
    unfold store_item, load, update_playlist, modify, ret, bind. simpl.
    repeat (first [ rewrite lookup_insert_eq | rewrite insert_insert_eq
                  | rewrite (lookup_insert_ne _ l h) by exact Hne
                  | rewrite Hf | rewrite Hih | rewrite Hp ]; simpl).
    rewrite !set_items_insert_insert. reflexivity.
  - simpl. rewrite lookup_insert_ne by exact Hne. exact Hih.
  - exact Hp.
  - apply (insert_before_first_breaks w _ l (Some f) g h ih Hl Hih Hp). reflexivity.
Qed.

Lemma groove_playlist_insert_before_head_breaks_links_witness :
  ∃ w' ih,
    groove_playlist_insert (Some 51%positive) (Some 100%positive) 1%float (Some 50%positive)
      built_world = Ok (Some 51%positive, w') ∧
    head (playlist w') = Some 51%positive ∧
    items w' !! 51%positive =
      Some (mkItem (Some 100%positive) 1%float NULL (Some 50%positive)) ∧
    items w' !! 50%positive = Some ih ∧ prev ih = NULL ∧
    ¬ dll_links w'.
Proof.
  apply (groove_playlist_insert_before_head_breaks_links built_world 51%positive 100%positive 50%positive a_file 1%float).
  - split.
    + intros h [= <-]. eexists. split; reflexivity.
    + intros t [= <-]. eexists. split; reflexivity.
    + intros a b ia ib Ha Hb.
      change (items built_world) with
        ({[ 50%positive := mkItem (Some 100%positive) 1%float NULL NULL ]}
           : gmap loc GroovePlaylistItem) in Ha, Hb.
      apply lookup_singleton_Some in Ha as [<- <-].
      apply lookup_singleton_Some in Hb as [<- <-]. simpl. split; discriminate.
  - reflexivity.
  - reflexivity.
  - reflexivity.
Defined.

Lemma groove_playlist_remove_frees l w w' :
  groove_playlist_remove (Some l) w = Ok (tt, w') → items w' !! l = None.
Proof.
  intros H. apply groove_playlist_remove_inv in H as (i & _ & _ & _ & Ei & _).
  rewrite Ei, unlinked_lookup, decide_True; reflexivity.
Qed.

(** C6 (the code departs from the claim): on a playlist that is not empty,
    [groove_playlist_clear] removes the head, which frees it, and then reads
    [node->next] from the freed item; it never returns normally. *)
Theorem groove_playlist_clear_reads_freed_item (w : World) (fuel : nat) (h : loc)
    (w1 : World) :
  head (playlist w) = Some h →
  groove_playlist_remove (Some h) w = Ok (tt, w1) →
  groove_playlist_clear (S fuel) w = Fault UseAfterFree ∧
  ∀ n w', groove_playlist_clear n w ≠ Ok (tt, w').
Proof.
  intros Hh Hrm.
  assert (∀ n, groove_playlist_clear (S n) w = Fault UseAfterFree) as Hclear.
  { intros n. unfold groove_playlist_clear, the_playlist, bind. rewrite Hh. simpl.
    unfold bind. rewrite Hrm. unfold load.
    rewrite (groove_playlist_remove_frees _ _ _ Hrm). reflexivity. }
  split; [apply Hclear|].
  intros [|n] w'; [|rewrite Hclear; discriminate].
  unfold groove_playlist_clear, the_playlist, bind. rewrite Hh. discriminate.
Qed.

Lemma groove_playlist_clear_reads_freed_item_witness :
  groove_playlist_clear 8 built_world = Fault UseAfterFree.
Proof.
  refine (proj1 (groove_playlist_clear_reads_freed_item built_world 7 50%positive _
                   eq_refl _)).
  vm_compute. reflexivity.
Defined.

(** The other half of C6: three items are inserted into the empty playlist,
    the second and the third before the first; the third insert unlinks the
    second, and [groove_playlist_count] answers 2. *)
Example insert_three_count_two :
  ∃ w',
    (let* a := groove_playlist_insert (Some 1%positive) (Some 100%positive) 1%float NULL in
     let* _ := groove_playlist_insert (Some 2%positive) (Some 100%positive) 1%float a in
     let* _ := groove_playlist_insert (Some 3%positive) (Some 100%positive) 1%float a in
     groove_playlist_count 8)
      (mkWorld ∅ {[ 100%positive := a_file ]} ∅ ∅ empty_playlist []) = Ok (2, w').
Proof. eexists. vm_compute. reflexivity. Qed.

(** ** Reference counts *)

Lemma wrap_int_small z : -2147483648 ≤ z ≤ INT_MAX → wrap_int z = z.
Proof.
  unfold wrap_int, INT_MAX. intros Hz.
  rewrite Z.mod_small by lia. lia.
Qed.

Lemma bind_assoc {A B C} (c : M A) (k1 : A → M B) (k2 : B → M C) w :
  bind (bind c k1) k2 w = bind c (λ a, bind (k1 a) k2) w.
Proof. unfold bind. destruct (c w) as [[a w']|]; reflexivity. Qed.

Lemma accepting_nonneg put_ok st : 0 ≤ accepting put_ok st.
Proof.
  induction st as [s|s n IH] using SinkStack_ind; simpl; destruct (put_ok s); lia.
Qed.

Lemma with_ref_count_same buf : with_ref_count (ref_count buf) buf = buf.
Proof. destruct buf; reflexivity. Qed.

Section RefCount.

Variable put_ok : option loc → bool.
Variable l : loc.

(** One sink of the stack: the buffer is put and, if the queue took it,
    referenced. *)
Lemma audio_decode_frame_put_ref w buf ls :
  sink_ready w (Some ls) → buffers w !! l = Some buf →
  0 ≤ ref_count buf →
  ref_count buf + (if put_ok (Some ls) then 1 else 0) ≤ INT_MAX →
  ∃ w1,
    bind (groove_queue_put (put_ok (Some ls)) (Some ls) (Some l))
      (λ r, if r <? 0 then ret tt else groove_buffer_ref (Some l)) w = Ok (tt, w1) ∧
    buffers w1 = <[l := with_ref_count (ref_count buf + (if put_ok (Some ls) then 1 else 0))
                           buf]> (buffers w) ∧
    (∀ p, sink_ready w p → sink_ready w1 p) ∧
    trace w1 = trace w ∧ items w1 = items w ∧ files w1 = files w ∧
    playlist w1 = playlist w.
Proof.
  intros (? & sk & q & [= <-] & Hs & Hq) Hb Hr Hmax.
  destruct (put_ok (Some ls)).
  - unfold groove_queue_put, the_queue, set_queue, audioq_put, groove_buffer_ref,
      store_sink, store_buffer, load, modify, ret, ptr_eq, end_of_q_sentinel, bind.
    mrun. rewrite wrap_int_small by (unfold INT_MAX in *; lia).
    eexists. split; [reflexivity|]. simpl. repeat split.
    intros p (l' & s' & q' & -> & Hs' & Hq'). unfold sink_ready. simpl.
    destruct (decide (ls = l')) as [<-|Hne].
    + eexists ls, _, _. rewrite lookup_insert_eq. repeat split.
    + exists l', s', q'. rewrite !lookup_insert_ne by exact Hne. repeat split; assumption.
  - unfold groove_queue_put, the_queue, load, ret, bind. mrun.
    eexists. split; [reflexivity|]. rewrite Z.add_0_r, with_ref_count_same.
    repeat split; [|tauto]. symmetry. apply insert_id. exact Hb.
Qed.

(** The walk down a stack adds to the count the number of sinks that took
    the buffer, and frees nothing. *)
Lemma audio_decode_frame_stack_refs st : ∀ w buf,
  Forall (sink_ready w) (stack_sinks st) →
  buffers w !! l = Some buf →
  0 ≤ ref_count buf → ref_count buf + accepting put_ok st ≤ INT_MAX →
  ∃ w1, audio_decode_frame_stack put_ok (Some l) st w = Ok (tt, w1) ∧
        buffers w1 = <[l := with_ref_count (ref_count buf + accepting put_ok st) buf]>
                       (buffers w) ∧
        trace w1 = trace w ∧ items w1 = items w ∧ files w1 = files w ∧
        playlist w1 = playlist w.
Proof.
  induction st as [s|s n IH] using SinkStack_ind; intros w buf Hall Hb Hr0 Hmax;
    simpl in *; inversion_clear Hall as [|? ? Hready Hn];
    pose proof Hready as (ls & sk & q & -> & Hs & Hq);
    pose proof (accepting_nonneg put_ok) as Hacc.
  - unfold bind at 1. rewrite (load_Ok sinks ls w sk Hs).
    destruct (audio_decode_frame_put_ref w buf ls Hready Hb Hr0)
      as (w1 & Hrun & Hbuf & _ & Htr & Hit & Hfi & Hpl); [lia|].
    rewrite <- bind_assoc, (bind_Ok _ _ _ _ _ Hrun).
    rewrite Z.add_0_r. eexists. split; [reflexivity|].
    repeat split; assumption.
  - unfold bind at 1. rewrite (load_Ok sinks ls w sk Hs).
    specialize (Hacc n).
    destruct (audio_decode_frame_put_ref w buf ls Hready Hb Hr0)
      as (w1 & Hrun & Hbuf & Hsinks & Htr & Hit & Hfi & Hpl); [lia|].
    rewrite <- bind_assoc, (bind_Ok _ _ _ _ _ Hrun).
    destruct (IH w1 (with_ref_count (ref_count buf + (if put_ok (Some ls) then 1 else 0)) buf))
      as (w2 & Hrun2 & Hbuf2 & Htr2 & Hit2 & Hfi2 & Hpl2).
    + eapply Forall_impl; [exact Hn | exact Hsinks].
    + rewrite Hbuf. apply lookup_insert_eq.
    + simpl. destruct (put_ok (Some ls)); lia.
    + simpl. lia.
    + exists w2. split; [exact Hrun2|]. simpl in Hbuf2.
      rewrite Hbuf2, Hbuf, insert_insert_eq, Z.add_assoc.
      repeat split; congruence.
Qed.

End RefCount.

Lemma frame_frees_app fr w e :
  frame_frees fr (set_trace (λ t, t ++ [e]) w) =
  (frame_frees fr w + if is_frame_free fr e then 1 else 0)%nat.
Proof.
  unfold frame_frees. simpl. rewrite List.filter_app, length_app. simpl.
  destruct (is_frame_free fr e); reflexivity.
Qed.

Lemma bind_ext {A B} (c : M A) (k1 k2 : A → M B) w :
  (∀ a w', k1 a w' = k2 a w') → bind c k1 w = bind c k2 w.
Proof. intros Hk. unfold bind. destruct (c w) as [[a w']|]; [apply Hk | reflexivity]. Qed.

Section Unref.

Variable l : loc.

Lemma groove_buffer_unref_above w buf :
  buffers w !! l = Some buf → 1 < ref_count buf ≤ INT_MAX →
  groove_buffer_unref (Some l) w =
    Ok (tt, set_buffers <[l := with_ref_count (ref_count buf - 1) buf]> w).
Proof.
  intros Hb Hr. unfold groove_buffer_unref, store_buffer, load, modify, ret, when, bind.
  mrun. rewrite wrap_int_small by (unfold INT_MAX in *; lia).
  destruct (Z.eqb_spec (ref_count buf - 1) 0); [lia | reflexivity].
Qed.

Lemma groove_buffer_unref_last w buf :
  buffers w !! l = Some buf → ref_count buf = 1 →
  ∃ w', groove_buffer_unref (Some l) w = Ok (tt, w') ∧
        buffers w' = delete l (buffers w) ∧
        trace w' = trace w ++ [FrameFree (frame buf)].
Proof.
  intros Hb Hr. unfold groove_buffer_unref, store_buffer, load, modify, ret, when, log, bind.
  mrun. eexists. split; [reflexivity|]. simpl.
  rewrite delete_insert_eq. split; reflexivity.
Qed.

(** Unrefs that do not reach zero only count down. *)
Lemma unref_times_above j : ∀ w buf,
  buffers w !! l = Some buf → Z.of_nat j < ref_count buf ≤ INT_MAX →
  unref_times j (Some l) w =
    Ok (tt, set_buffers <[l := with_ref_count (ref_count buf - Z.of_nat j) buf]> w).
Proof.
  induction j as [|j IH]; intros w buf Hb Hr.
  - simpl. unfold ret. rewrite Z.sub_0_r, with_ref_count_same.
    unfold set_buffers. rewrite insert_id by exact Hb. destruct w; reflexivity.
  - cbn [unref_times]. unfold bind.
    rewrite (groove_buffer_unref_above w buf Hb) by lia.
    rewrite (IH _ (with_ref_count (ref_count buf - 1) buf)).
    + unfold set_buffers. simpl. rewrite insert_insert_eq.
      do 4 f_equal. unfold with_ref_count. simpl. f_equal. lia.
    + simpl. apply lookup_insert_eq.
    + simpl. lia.
Qed.

(** As many unrefs as there are references free the buffer and its frame. *)
Lemma unref_times_all j w buf :
  buffers w !! l = Some buf → ref_count buf = Z.of_nat (S j) → ref_count buf ≤ INT_MAX →
  ∃ w', unref_times (S j) (Some l) w = Ok (tt, w') ∧
        buffers w' = delete l (buffers w) ∧
        trace w' = trace w ++ [FrameFree (frame buf)].
Proof.
  intros Hb Hr Hmax.
  replace (S j) with (j + 1)%nat by lia.
  assert (∀ a b w, unref_times (a + b) (Some l) w =
                   bind (unref_times a (Some l)) (λ _, unref_times b (Some l)) w) as Hsplit.
  { clear. induction a as [|a IH]; intros b w; cbn [unref_times Nat.add]; [reflexivity|].
    rewrite bind_assoc. apply bind_ext. intros _ w1. apply IH. }
  assert (Z.of_nat j < ref_count buf ≤ INT_MAX) as Hj by lia.
  rewrite Hsplit, (bind_Ok _ _ _ _ _ (unref_times_above j w buf Hb Hj)).
  cbn [unref_times].
  destruct (groove_buffer_unref_last
              (set_buffers <[l := with_ref_count (ref_count buf - Z.of_nat j) buf]> w)
              (with_ref_count (ref_count buf - Z.of_nat j) buf))
    as (w' & Hrun & Hbuf & Htr).
  - simpl. apply lookup_insert_eq.
  - simpl. lia.
  - exists w'. rewrite (bind_Ok _ _ _ _ _ Hrun). split; [reflexivity|].
    simpl in Hbuf, Htr. rewrite Hbuf, Htr, delete_insert_eq. split; reflexivity.
Qed.

End Unref.

Section Multicast.

Variables nb_channels bytes : Z → Z.
Variable put_ok : option loc → bool.
Variables (w : World) (l : loc) (st : SinkStack) (oframe : AVFrame).
Variables (dh f : loc) (di : GroovePlaylistItem) (fl : GrooveFilePrivate).

Hypothesis fresh : buffers w !! l = None.
Hypothesis ready : Forall (sink_ready w) (stack_sinks st).
Hypothesis decoding : decode_head (playlist w) = Some dh.
Hypothesis item_there : items w !! dh = Some di.
Hypothesis item_file : file di = Some f.
Hypothesis file_there : files w !! f = Some fl.
Hypothesis few_sinks : accepting put_ok st < INT_MAX.

Let nb := new_buffer nb_channels bytes (Some dh) (audio_clock fl) oframe.
Let pl := mkPull oframe (Some l) true true.

Lemma frame_to_groove_buffer_Ok :
  frame_to_groove_buffer nb_channels bytes (Some l) true true (ss_sink st) oframe w =
    Ok (Some l, set_buffers <[l := nb]> w).
Proof.
  unfold frame_to_groove_buffer, the_playlist, load, modify, ret, bind. simpl.
  rewrite decoding, item_there, item_file, file_there. reflexivity.
Qed.

(** The walk over the stack, after the buffer was made: every sink that
    takes the buffer adds a reference. *)
Lemma audio_decode_frame_stack_walk :
  ∃ w1,
    audio_decode_frame_stack put_ok (Some l) st (set_buffers <[l := nb]> w) = Ok (tt, w1) ∧
    buffers w1 = <[l := with_ref_count (accepting put_ok st) nb]> (buffers w) ∧
    trace w1 = trace w.
Proof.
  pose proof (accepting_nonneg put_ok st) as Hk.
  destruct (audio_decode_frame_stack_refs put_ok l st (set_buffers <[l := nb]> w) nb)
    as (w1 & Hrun & Hbuf & Htr & _).
  - exact ready.
  - simpl. apply lookup_insert_eq.
  - simpl. lia.
  - simpl. lia.
  - exists w1. split; [exact Hrun|]. simpl in Hbuf, Htr.
    rewrite insert_insert_eq in Hbuf. split; assumption.
Qed.

(** One harvested frame, no sink thread running in between: the buffer is
    made with no reference, every sink that takes it adds one, and the
    closing ref and unref free it exactly when no sink took it. *)
Lemma audio_decode_frame_pull_alone data_size :
  ∃ w1,
    audio_decode_frame_pull_beside (ret tt) nb_channels bytes put_ok (ss_sink st) (Some st)
      pl data_size w =
      Ok (Some (wrap_int (data_size + frame_size nb_channels bytes oframe)), w1) ∧
    (accepting put_ok st = 0 →
       buffers w1 = buffers w ∧ trace w1 = trace w ++ [FrameFree (frame_addr oframe)]) ∧
    (0 < accepting put_ok st →
       buffers w1 = <[l := with_ref_count (accepting put_ok st) nb]> (buffers w) ∧
       trace w1 = trace w).
Proof.
  pose proof (accepting_nonneg put_ok st) as Hk.
  unfold audio_decode_frame_pull_beside. cbn [pl pull_buffer pull_b_ok pull_mutex_ok pull_frame].
  rewrite (bind_Ok _ _ _ _ _ frame_to_groove_buffer_Ok).
  change (is_null (Some l)) with false. cbv iota.
  unfold bind at 1. unfold load at 1. simpl buffers. rewrite lookup_insert_eq.
  destruct audio_decode_frame_stack_walk as (w1 & Hrun & Hbuf & Htr).
  rewrite (bind_Ok _ _ _ _ _ Hrun).
  unfold groove_buffer_ref, groove_buffer_unref, store_buffer, load, modify, ret, when,
    log, bind.
  rewrite Hbuf. mrun.
  rewrite (wrap_int_small (accepting put_ok st + 1)) by (unfold INT_MAX in *; lia).
  rewrite (wrap_int_small (accepting put_ok st + 1 - 1))
    by (unfold INT_MAX in *; lia).
  replace (accepting put_ok st + 1 - 1) with (accepting put_ok st) by lia.
  destruct (Z.eqb_spec (accepting put_ok st) 0) as [E|E].
  + eexists. split; [reflexivity|]. simpl. rewrite Hbuf, Htr.
    split; [|lia]. intros _. rewrite !insert_insert_eq, delete_insert_eq.
    rewrite delete_id by exact fresh. split; reflexivity.
  + eexists. split; [reflexivity|]. simpl. rewrite Hbuf, Htr.
    split; [contradiction|]. intros _. rewrite !insert_insert_eq. split; reflexivity.
Qed.

(** The same turn when the threads of the sinks that took the buffer drop
    their references before the closing ref: the last of them frees the
    buffer, and the closing ref is made on a buffer that is gone. *)
Lemma audio_decode_frame_pull_raced data_size :
  0 < accepting put_ok st →
  (∃ w2,
     bind (audio_decode_frame_stack put_ok (Some l) st)
       (λ _, unref_times (Z.to_nat (accepting put_ok st)) (Some l))
       (set_buffers <[l := nb]> w) = Ok (tt, w2) ∧
     buffers w2 !! l = None ∧
     trace w2 = trace w ++ [FrameFree (frame_addr oframe)] ∧
     groove_buffer_ref (Some l) w2 = Fault UseAfterFree) ∧
  audio_decode_frame_pull_beside (unref_times (Z.to_nat (accepting put_ok st)) (Some l))
    nb_channels bytes put_ok (ss_sink st) (Some st) pl data_size w = Fault UseAfterFree.
Proof.
  intros Hk.
  destruct audio_decode_frame_stack_walk as (w1 & Hrun & Hbuf & Htr).
  destruct (Z.to_nat (accepting put_ok st)) as [|j] eqn:Ej; [lia|].
  destruct (unref_times_all l j w1 (with_ref_count (accepting put_ok st) nb))
    as (w2 & Hrun2 & Hbuf2 & Htr2).
  { rewrite Hbuf. apply lookup_insert_eq. }
  { simpl. lia. }
  { simpl. lia. }
  assert (buffers w2 !! l = None) as Hgone by (rewrite Hbuf2; apply lookup_delete_eq).
  assert (groove_buffer_ref (Some l) w2 = Fault UseAfterFree) as Hfault.
  { unfold groove_buffer_ref, bind, load. rewrite Hgone. reflexivity. }
  split.
  - exists w2. rewrite (bind_Ok _ _ _ _ _ Hrun). split; [exact Hrun2|].
    split; [exact Hgone|]. split; [|exact Hfault].
    rewrite Htr2, Htr. reflexivity.
  - unfold audio_decode_frame_pull_beside.
    cbn [pl pull_buffer pull_b_ok pull_mutex_ok pull_frame].
    rewrite (bind_Ok _ _ _ _ _ frame_to_groove_buffer_Ok).
    change (is_null (Some l)) with false. cbv iota.
    unfold bind at 1. unfold load at 1. simpl buffers. rewrite lookup_insert_eq.
    rewrite (bind_Ok _ _ _ _ _ Hrun), (bind_Ok _ _ _ _ _ Hrun2).
    unfold bind at 1. rewrite Hfault. reflexivity.
Qed.

End Multicast.

(** [audio_decode_frame_pulls] runs that turn for each frame, with nothing
    in between. *)
Lemma audio_decode_frame_pulls_turn nb_channels bytes put_ok example_sink stack_head' pl rest
    error data_size w :
  audio_decode_frame_pulls nb_channels bytes put_ok example_sink stack_head' (pl :: rest)
    error data_size w =
  bind (audio_decode_frame_pull_beside (ret tt) nb_channels bytes put_ok example_sink
          stack_head' pl data_size)
    (λ r, match r with
          | Some data_size' =>
              audio_decode_frame_pulls nb_channels bytes put_ok example_sink stack_head'
                rest error data_size'
          | None => ret None
          end) w.
Proof.
  cbn [audio_decode_frame_pulls]. unfold audio_decode_frame_pull_beside.
  rewrite bind_assoc. apply bind_ext. intros buffer w1.
  destruct (is_null buffer); [reflexivity|].
  rewrite bind_assoc. apply bind_ext. intros b w2.
  rewrite bind_assoc. apply bind_ext. intros [] w3.
  rewrite bind_assoc. unfold bind at 3. unfold ret at 1.
  rewrite bind_assoc. apply bind_ext. intros [] w4.
  rewrite bind_assoc. apply bind_ext. intros [] w5.
  reflexivity.
Qed.

(** C4: a buffer is made with [ref_count] 0, the walk over the sinks adds
    one reference per queue that took it, and the closing ref and unref free
    the buffer at once exactly when no queue took it.  While no thread of a
    sink runs before the closing ref, the buffer and its frame are then
    freed by the unref that brings the count to zero, not before, and once.
    But the worker holds no reference of its own during the walk: when the
    threads of the sinks that took the buffer drop their references before
    the closing ref, the last of them frees the buffer and its frame, and
    the closing [groove_buffer_ref] of line 222 is made on freed memory. *)
Theorem buffer_freed_before_closing_ref (nb_channels bytes : Z → Z)
    (put_ok : option loc → bool) (w : World) (l : loc) (st : SinkStack) (oframe : AVFrame)
    (dh f : loc) (di : GroovePlaylistItem) (fl : GrooveFilePrivate) (data_size : Z) :
  buffers w !! l = None →
  Forall (sink_ready w) (stack_sinks st) →
  decode_head (playlist w) = Some dh → items w !! dh = Some di →
  file di = Some f → files w !! f = Some fl →
  accepting put_ok st < INT_MAX →
  frame_frees (frame_addr oframe) w = 0%nat →
  (∀ rest error,
     audio_decode_frame_pulls nb_channels bytes put_ok (ss_sink st) (Some st)
       (mkPull oframe (Some l) true true :: rest) error data_size w =
     bind (audio_decode_frame_pull_beside (ret tt) nb_channels bytes put_ok (ss_sink st)
             (Some st) (mkPull oframe (Some l) true true) data_size)
       (λ r, match r with
             | Some data_size' =>
                 audio_decode_frame_pulls nb_channels bytes put_ok (ss_sink st) (Some st)
                   rest error data_size'
             | None => ret None
             end) w) ∧
  (∃ w0, frame_to_groove_buffer nb_channels bytes (Some l) true true (ss_sink st) oframe w =
           Ok (Some l, w0) ∧
         ref_count <$> buffers w0 !! l = Some 0 ∧
         (0 < accepting put_ok st →
          ∃ w2, bind (audio_decode_frame_stack put_ok (Some l) st)
                  (λ _, unref_times (Z.to_nat (accepting put_ok st)) (Some l)) w0 =
                  Ok (tt, w2) ∧
                buffers w2 !! l = None ∧
                frame_frees (frame_addr oframe) w2 = 1%nat ∧
                groove_buffer_ref (Some l) w2 = Fault UseAfterFree)) ∧
  (∃ w1,
     audio_decode_frame_pull_beside (ret tt) nb_channels bytes put_ok (ss_sink st) (Some st)
       (mkPull oframe (Some l) true true) data_size w =
       Ok (Some (wrap_int (data_size + frame_size nb_channels bytes oframe)), w1) ∧
     ∀ j : nat, Z.of_nat j ≤ accepting put_ok st →
       ∃ w2, unref_times j (Some l) w1 = Ok (tt, w2) ∧
             if decide (Z.of_nat j = accepting put_ok st)
             then buffers w2 !! l = None ∧
                  frame_frees (frame_addr oframe) w2 = 1%nat
             else ref_count <$> buffers w2 !! l = Some (accepting put_ok st - Z.of_nat j) ∧
                  frame_frees (frame_addr oframe) w2 = 0%nat) ∧
  (0 < accepting put_ok st →
   audio_decode_frame_pull_beside (unref_times (Z.to_nat (accepting put_ok st)) (Some l))
     nb_channels bytes put_ok (ss_sink st) (Some st) (mkPull oframe (Some l) true true)
     data_size w = Fault UseAfterFree).
Proof.
  intros Hfresh Hready Hdh Hdi Hfile Hfl Hfew Hnone.
  assert (is_frame_free (frame_addr oframe) (FrameFree (frame_addr oframe)) = true) as Hff
    by (simpl; apply bool_decide_eq_true_2; reflexivity).
  split; [intros rest error; apply audio_decode_frame_pulls_turn|].
  split; [|split].
  - eexists. split.
    + apply (frame_to_groove_buffer_Ok nb_channels bytes w l st oframe dh f di fl); assumption.
    + split; [simpl; rewrite lookup_insert_eq; reflexivity|].
      intros Hk.
      destruct (audio_decode_frame_pull_raced nb_channels bytes put_ok w l st oframe dh f di fl
                  Hready Hdh Hdi Hfile Hfl Hfew data_size Hk)
        as [(w2 & Hrun & Hgone & Htr & Hfault) _].
      exists w2. split; [exact Hrun|]. split; [exact Hgone|]. split; [|exact Hfault].
      unfold frame_frees in *. rewrite Htr, List.filter_app, length_app, Hnone.
      simpl. rewrite bool_decide_eq_true_2 by reflexivity. reflexivity.
  - destruct (audio_decode_frame_pull_alone nb_channels bytes put_ok w l st oframe
                dh f di fl Hfresh Hready Hdh Hdi Hfile Hfl Hfew data_size)
      as (w1 & Hrun & Hzero & Hpos).
    exists w1. split; [exact Hrun|]. intros j Hj.
    destruct (Z.eq_dec (accepting put_ok st) 0) as [E0|E0].
    + (* no sink took the buffer: it is gone already *)
      destruct (Hzero E0) as [Hbuf Htr].
      assert (j = 0%nat) as -> by lia. exists w1. split; [reflexivity|].
      rewrite decide_True by lia. rewrite Hbuf. split; [exact Hfresh|].
      unfold frame_frees in *. rewrite Htr, List.filter_app, length_app, Hnone.
      simpl. rewrite bool_decide_eq_true_2 by reflexivity. reflexivity.
    + destruct Hpos as [Hbuf Htr]; [lia|].
      set (buf := with_ref_count (accepting put_ok st)
                    (new_buffer nb_channels bytes (Some dh) (audio_clock fl) oframe)) in *.
      assert (buffers w1 !! l = Some buf) as Hl by (rewrite Hbuf; apply lookup_insert_eq).
      destruct (decide (Z.of_nat j = accepting put_ok st)) as [Ej|Ej].
      * (* the last unref *)
        destruct j as [|j]; [simpl in Ej; lia|].
        destruct (unref_times_all l j w1 buf Hl) as (w2 & Hrun2 & Hbuf2 & Htr2).
        { simpl. lia. }
        { simpl. lia. }
        exists w2. split; [exact Hrun2|]. rewrite Hbuf2. split; [apply lookup_delete_eq|].
        unfold frame_frees in *. rewrite Htr2, Htr, List.filter_app, length_app, Hnone.
        simpl. rewrite bool_decide_eq_true_2 by reflexivity. reflexivity.
      * (* references are left *)
        eexists. split.
        { apply (unref_times_above l j w1 buf Hl). simpl. lia. }
        simpl. rewrite lookup_insert_eq. simpl. split; [reflexivity|].
        unfold frame_frees in *. simpl. rewrite Htr. exact Hnone.
  - intros Hk.
    apply (audio_decode_frame_pull_raced nb_channels bytes put_ok w l st oframe dh f di fl
             Hready Hdh Hdi Hfile Hfl Hfew data_size Hk).
Qed.

Lemma buffer_freed_before_closing_ref_witness :
  audio_decode_frame_pull_beside (unref_times 2 (Some 7%positive)) two_channels two_bytes
    (λ _, true) (Some 2%positive) (Some two_sink_stack)
    (mkPull a_frame (Some 7%positive) true true) 0 two_sink_world = Fault UseAfterFree.
Proof.
  refine (proj2 (proj2 (proj2
            (buffer_freed_before_closing_ref two_channels two_bytes (λ _, true) two_sink_world
               7%positive two_sink_stack a_frame 50%positive 100%positive
               (mkItem (Some 100%positive) 1%float NULL NULL) a_file 0
               eq_refl _ eq_refl eq_refl eq_refl eq_refl eq_refl eq_refl))) _).
  - repeat constructor; eexists _, _, _; repeat split; reflexivity.
  - reflexivity.
Defined.

(** The same on the example, with the calls the threads of the two sinks
    make: alone the turn leaves the buffer at 7 with two references; when
    each sink takes the buffer out of its queue and drops its reference
    before the closing ref, the turn ends in a use after free. *)
Example audio_decode_frame_pull_beside_consumers :
  (∃ w1, audio_decode_frame_pulls two_channels two_bytes (λ _, true) (Some 2%positive)
           (Some two_sink_stack) [mkPull a_frame (Some 7%positive) true true] false 0
           two_sink_world = Ok (Some 4096, w1) ∧
         ref_count <$> buffers w1 !! 7%positive = Some 2 ∧
         frame_frees 70%positive w1 = 0%nat) ∧
  audio_decode_frame_pull_beside (consume (Some 2%positive) >> consume (Some 1%positive))
    two_channels two_bytes (λ _, true) (Some 2%positive) (Some two_sink_stack)
    (mkPull a_frame (Some 7%positive) true true) 0 two_sink_world = Fault UseAfterFree.
Proof. split; [eexists; split; [vm_compute; reflexivity|]|]; vm_compute; repeat split. Qed.

(** ** The volume of the filter graph *)

(** Comparisons of binary64 numbers, read through their specification. *)
Lemma SFcompare_antisym x y :
  SFcompare y x = option_map CompOpp (SFcompare x y).
Proof.
  destruct x as [sx|sx| |sx mx ex], y as [sy|sy| |sy my ey];
    try destruct sx; try destruct sy; try reflexivity; simpl;
    rewrite (Z.compare_antisym ex ey); destruct (ex ?= ey)%Z; simpl;
    rewrite ?Pos.compare_cont_antisym; simpl;
    rewrite ?CompOpp_involutive; try reflexivity.
Qed.

Lemma SFcompare_None x y :
  SFcompare x y = None → x = S754_nan ∨ y = S754_nan.
Proof.
  destruct x as [sx|sx| |sx mx ex], y as [sy|sy| |sy my ey];
    try destruct sx; try destruct sy; simpl; try discriminate; auto.
Qed.

Lemma not_nan_spec v : is_nan v = false → Prim2SF v ≠ S754_nan.
Proof.
  unfold is_nan. rewrite FloatAxioms.eqb_spec. intros H E. rewrite E in H. discriminate.
Qed.

(** Of a number that is not a NaN, "not below" is "at or above". *)
Lemma not_ltb_leb x y :
  is_nan x = false → is_nan y = false → (x <? y)%float = false → (y <=? x)%float = true.
Proof.
  intros Hx Hy. rewrite FloatAxioms.ltb_spec, FloatAxioms.leb_spec. unfold SFltb, SFleb.
  rewrite (SFcompare_antisym (Prim2SF x) (Prim2SF y)).
  destruct (SFcompare (Prim2SF x) (Prim2SF y)) as [[]|] eqn:E; simpl;
    try reflexivity; try discriminate.
  apply SFcompare_None in E as [E|E]; [apply not_nan_spec in Hx | apply not_nan_spec in Hy];
    contradiction.
Qed.

Lemma init_filter_graph_vol_in_range v :
  is_nan v = false →
  (0 <=? init_filter_graph_vol v)%float = true ∧
  (init_filter_graph_vol v <=? 1)%float = true.
Proof.
  intros Hv. unfold init_filter_graph_vol.
  destruct (1 <? v)%float eqn:E1.
  - split; reflexivity.
  - destruct (v <? 0)%float eqn:E0.
    + split; reflexivity.
    + split; apply not_ltb_leb; try assumption; reflexivity.
Qed.

(** A volume within the range is left as it is. *)
Lemma init_filter_graph_vol_id v :
  (0 <=? v)%float = true → (v <=? 1)%float = true → init_filter_graph_vol v = v.
Proof.
  intros H0 H1. unfold init_filter_graph_vol.
  assert ((1 <? v)%float = false) as ->.
  { revert H1. rewrite FloatAxioms.ltb_spec, FloatAxioms.leb_spec. unfold SFltb, SFleb.
    rewrite (SFcompare_antisym (Prim2SF v) (Prim2SF 1)).
    destruct (SFcompare (Prim2SF v) (Prim2SF 1)) as [[]|]; simpl; intros; congruence. }
  assert ((v <? 0)%float = false) as ->; [|reflexivity].
  revert H0. rewrite FloatAxioms.ltb_spec, FloatAxioms.leb_spec. unfold SFltb, SFleb.
  rewrite (SFcompare_antisym (Prim2SF 0) (Prim2SF v)).
  destruct (SFcompare (Prim2SF 0) (Prim2SF v)) as [[]|]; simpl; intros; congruence.
Qed.

(** A volume above the range becomes 1, one below it becomes 0. *)
Lemma init_filter_graph_vol_above v :
  (1 <? v)%float = true → init_filter_graph_vol v = 1%float.
Proof. intros H. unfold init_filter_graph_vol. rewrite H. reflexivity. Qed.

Lemma init_filter_graph_vol_below v :
  (v <? 0)%float = true → init_filter_graph_vol v = 0%float.
Proof.
  intros H. unfold init_filter_graph_vol.
  assert ((1 <? v)%float = false) as ->; [|rewrite H; reflexivity].
  revert H. rewrite !FloatAxioms.ltb_spec. unfold SFltb.
  change (Prim2SF 0) with (S754_zero false).
  change (Prim2SF 1) with (S754_finite false 4503599627370496 (-52)).
  destruct (Prim2SF v) as [[]|[]| |[] m e]; simpl; congruence.
Qed.

(** A NaN is not clamped. *)
Lemma init_filter_graph_vol_nan : init_filter_graph_vol nan = nan.
Proof. reflexivity. Qed.

Lemma same_volume_node_frame : frame_rel same_volume_node.
Proof.
  split.
  - intros w. repeat split. intros g Hg. exists g, []. rewrite app_nil_r. repeat split.
    + exact Hg.
    + constructor.
  - intros w1 w2 w3 (Hv1 & Hc1 & Hg1) (Hv2 & Hc2 & Hg2).
    split; [congruence|]. split; [congruence|].
    intros g Hg. destruct (Hg1 g Hg) as (g2 & e1 & Hg2' & Hf2 & He1).
    destruct (Hg2 g2 Hg2') as (g3 & e2 & Hg3 & Hf3 & He2).
    exists g3, (e1 ++ e2). split; [exact Hg3|]. split.
    + rewrite Hf3, Hf2, app_assoc. reflexivity.
    + apply Forall_app. split; assumption.
  - intros f w. apply (λ H, H). repeat split. intros g Hg. exists g, [].
    rewrite app_nil_r. repeat split; [exact Hg | constructor].
  - intros f w. repeat split. intros g Hg. exists g, [].
    rewrite app_nil_r. repeat split; [exact Hg | constructor].
  - intros f w. repeat split. intros g Hg. exists g, [].
    rewrite app_nil_r. repeat split; [exact Hg | constructor].
Qed.

(** A write to the playlist that touches neither the graph nor the volume
    fields. *)
Lemma same_volume_node_set_playlist f w :
  filter_volume (f (playlist w)) = filter_volume (playlist w) →
  volume_ctx (f (playlist w)) = volume_ctx (playlist w) →
  filter_graph (f (playlist w)) = filter_graph (playlist w) →
  same_volume_node w (set_playlist f w).
Proof.
  intros Hv Hc Hg. split; [exact Hv|]. split; [exact Hc|].
  intros g Eg. exists g, []. simpl. rewrite Hg, app_nil_r. repeat split; [exact Eg | constructor].
Qed.

Section GraphGrows.

Variable libav : libav_call → Z.

Lemma avfilter_graph_create_filter_keeps c flt :
  not_volume flt → keeps same_volume_node (avfilter_graph_create_filter libav c flt).
Proof.
  intros Hflt w r w' H. unfold avfilter_graph_create_filter in H.
  apply bind_inv in H as (p & w1 & [= <- <-] & H).
  apply bind_inv in H as (g & w1 & Hg & H).
  destruct (filter_graph (playlist w)) as [g0|] eqn:Eg; [|discriminate].
  injection Hg as <- <-.
  destruct (libav c <? 0).
  - injection H as _ <-. apply (fr_refl _ same_volume_node_frame).
  - apply bind_inv in H as ([] & w1 & [= <-] & H). injection H as _ <-.
    repeat split. intros g Hg. rewrite Eg in Hg. injection Hg as <-.
    eexists _, [flt]. simpl. repeat split. constructor; [exact Hflt | constructor].
Qed.

Lemma avfilter_link_keeps c src srcpad dst dstpad :
  keeps same_volume_node (avfilter_link libav c src srcpad dst dstpad).
Proof.
  intros w r w' H. unfold avfilter_link in H.
  apply bind_inv in H as (p & w1 & [= <- <-] & H).
  apply bind_inv in H as (g & w1 & Hg & H).
  destruct (filter_graph (playlist w)) as [g0|] eqn:Eg; [|discriminate].
  injection Hg as <- <-.
  apply bind_inv in H as (a & w1 & Ha & H). destruct src; [|discriminate].
  injection Ha as <- <-.
  apply bind_inv in H as (b & w1 & Hb & H). destruct dst; [|discriminate].
  injection Hb as <- <-.
  destruct (libav c <? 0).
  - injection H as _ <-. apply (fr_refl _ same_volume_node_frame).
  - apply bind_inv in H as ([] & w1 & [= <-] & H). injection H as _ <-.
    repeat split. intros g Hg. rewrite Eg in Hg. injection Hg as <-.
    eexists _, []. simpl. rewrite app_nil_r. repeat split. constructor.
Qed.

Lemma avfilter_graph_config_keeps : keeps same_volume_node (avfilter_graph_config libav).
Proof.
  intros w r w' H. unfold avfilter_graph_config in H.
  apply bind_inv in H as (p & w1 & [= <- <-] & H).
  apply bind_inv in H as (g & w1 & Hg & H).
  destruct (filter_graph (playlist w)) as [g0|] eqn:Eg; [|discriminate].
  injection Hg as <- <-.
  destruct (libav graph_config <? 0).
  - injection H as _ <-. apply (fr_refl _ same_volume_node_frame).
  - apply bind_inv in H as ([] & w1 & [= <-] & H). injection H as _ <-.
    repeat split. intros g Hg. rewrite Eg in Hg. injection Hg as <-.
    eexists _, []. simpl. rewrite app_nil_r. repeat split. constructor.
Qed.

Let R_frame := same_volume_node_frame.

Lemma init_filter_graph_loop_keeps m : ∀ src pad,
  keeps same_volume_node (init_filter_graph_loop libav src pad m).
Proof.
  pose proof avfilter_link_keeps as Hlink.
  assert (∀ c, keeps same_volume_node (avfilter_graph_create_filter libav c abuffersink))
    as Hsink by (intros c; apply avfilter_graph_create_filter_keeps; exact I).
  assert (∀ c fmt, keeps same_volume_node (avfilter_graph_create_filter libav c (aformat fmt)))
    as Hfmt by (intros c fmt; apply avfilter_graph_create_filter_keeps; exact I).
  induction m as [st a b|st a b n IH] using SinkMap_ind; intros src pad; simpl; keeps_auto.
Qed.

Lemma init_filter_graph_outputs_keeps src :
  keeps same_volume_node (init_filter_graph_outputs libav src).
Proof.
  pose proof avfilter_link_keeps as Hlink.
  pose proof init_filter_graph_loop_keeps as Hloop.
  pose proof avfilter_graph_config_keeps as Hconfig.
  assert (∀ c n, keeps same_volume_node (avfilter_graph_create_filter libav c (asplit n)))
    as Hsplit by (intros c n; apply avfilter_graph_create_filter_keeps; exact I).
  unfold init_filter_graph_outputs, update_playlist. keeps_auto.
  all: apply keeps_modify; intros w; apply same_volume_node_set_playlist; reflexivity.
Qed.

End GraphGrows.

#[local] Arguments init_filter_graph_outputs : simpl never.
#[local] Arguments init_filter_graph_vol : simpl never.
#[local] Arguments avfilter_graph_create_filter : simpl never.
#[local] Arguments avfilter_link : simpl never.

(** The end of [init_filter_graph], once the volume filter is there. *)
Lemma init_filter_graph_volume_tail_keeps libav src :
  keeps same_volume_node
    (let* p := the_playlist in
     let* err := avfilter_link libav link_volume src 0 (volume_ctx p) 0 in
     if err <? 0 then ret err
     else let* p := the_playlist in init_filter_graph_outputs libav (volume_ctx p)).
Proof.
  pose proof same_volume_node_frame as R_frame.
  pose proof (avfilter_link_keeps libav) as Hlink.
  pose proof (init_filter_graph_outputs_keeps libav) as Hout.
  keeps_auto.
Qed.

(** What a build that got its graph and its [abuffer] leaves of the
    volume, whatever the later calls answer. *)
Lemma init_filter_graph_volume_node graph_alloc_ok libav file' w r w' :
  init_filter_graph graph_alloc_ok libav file' w = Ok (r, w') →
  graph_alloc_ok = true → 0 ≤ libav create_abuffer →
  ∃ f g ext,
    load files file' w = Ok (f, w) ∧
    filter_volume (playlist w') = p_volume (playlist w) ∧
    filter_graph (playlist w') = Some g ∧ Forall not_volume ext ∧
    if (init_filter_graph_vol (p_volume (playlist w)) =? 1)%float
    then volume_ctx (playlist w') = NULL ∧ filters g = abuffer_of f :: ext
    else if libav create_volume <? 0
    then r = libav create_volume ∧ volume_ctx (playlist w') = NULL ∧
         filters g = [abuffer_of f]
    else volume_ctx (playlist w') = Some 1%nat ∧
         filters g = abuffer_of f
                       :: volume_filter
                            (snprintf_volume (init_filter_graph_vol (p_volume (playlist w))))
                       :: ext.
Proof.
  unfold init_filter_graph. intros H -> Hab0.
  apply bind_inv in H as (f & w1 & Hf & H). pose proof Hf as Hload.
  apply load_inv in Hf as (-> & _). exists f.
  apply bind_inv in H as ([] & w1 & [= <-] & H).
  apply bind_inv in H as ([] & w1 & [= <-] & H).
  apply bind_inv in H as (p & w1 & [= <- <-] & H).
  simpl in H.
  apply bind_inv in H as ([] & w1 & [= <-] & H).
  apply bind_inv in H as ([e ctx] & w1 & Hab & H).
  unfold avfilter_graph_create_filter, the_playlist, deref, update_playlist, modify, ret, bind
    in Hab. simpl in Hab.
  destruct (libav create_abuffer <? 0) eqn:Eab; [apply Z.ltb_lt in Eab; lia|].
  injection Hab as <- <- <-.
  apply bind_inv in H as ([] & w1 & [= <-] & H). simpl in H. rewrite Eab in H.
  apply bind_inv in H as (p & w1 & [= <- <-] & H).
  apply bind_inv in H as ([] & w1 & [= <-] & H). simpl in H.
  change (abuffer _ _ _ _ _) with (abuffer_of f) in H.
  destruct (init_filter_graph_vol (p_volume (playlist w)) =? 1)%float.
  - apply bind_inv in H as ([] & w1 & [= <-] & H).
    apply init_filter_graph_outputs_keeps in H as (Hv & Hc & Hg).
    destruct (Hg _ eq_refl) as (g' & ext & Hg' & Hfl & Hext).
    exists g', ext. split; [exact Hload|]. split; [exact Hv|]. split; [exact Hg'|].
    split; [exact Hext|]. split; [exact Hc | exact Hfl].
  - apply bind_inv in H as ([e ctx] & w1 & Hvol & H).
    unfold avfilter_graph_create_filter, the_playlist, deref, update_playlist, modify, ret, bind
      in Hvol. simpl in Hvol.
    destruct (libav create_volume <? 0) eqn:Evol.
    { injection Hvol as <- <- <-.
      apply bind_inv in H as ([] & w1 & [= <-] & H). simpl in H. rewrite Evol in H.
      injection H as <- <-. eexists _, []. split; [exact Hload|]. repeat split. constructor. }
    injection Hvol as <- <- <-.
    apply bind_inv in H as ([] & w1 & [= <-] & H). simpl in H. rewrite Evol in H.
    apply init_filter_graph_volume_tail_keeps in H as (Hv & Hc & Hg).
    destruct (Hg _ eq_refl) as (g' & ext & Hg' & Hfl & Hext).
    exists g', ext. split; [exact Hload|]. split; [exact Hv|]. split; [exact Hg'|].
    split; [exact Hext|]. split; [exact Hc | exact Hfl].
Qed.

(** A build that does not get its graph or its [abuffer] fails and leaves
    [filter_volume] as it was. *)
Lemma init_filter_graph_stops_early graph_alloc_ok libav file' w r w' :
  init_filter_graph graph_alloc_ok libav file' w = Ok (r, w') →
  graph_alloc_ok = false ∨ libav create_abuffer < 0 →
  r < 0 ∧ filter_volume (playlist w') = filter_volume (playlist w) ∧
  volume_ctx (playlist w') = volume_ctx (playlist w).
Proof.
  unfold init_filter_graph. intros H Hearly.
  apply bind_inv in H as (f & w1 & Hf & H).
  apply load_inv in Hf as (-> & _).
  apply bind_inv in H as ([] & w1 & [= <-] & H).
  apply bind_inv in H as ([] & w1 & [= <-] & H).
  apply bind_inv in H as (p & w1 & [= <- <-] & H).
  destruct graph_alloc_ok; simpl in H.
  - destruct Hearly as [|Hab]; [discriminate|].
    apply bind_inv in H as ([] & w1 & [= <-] & H).
    apply bind_inv in H as ([e ctx] & w1 & Hc & H).
    unfold avfilter_graph_create_filter, the_playlist, deref, update_playlist, modify, ret, bind
      in Hc. simpl in Hc.
    destruct (libav create_abuffer <? 0) eqn:Eab; [|apply Z.ltb_ge in Eab; lia].
    injection Hc as <- <- <-.
    apply bind_inv in H as ([] & w1 & [= <-] & H). simpl in H. rewrite Eab in H.
    injection H as <- <-. split; [exact Hab|split; reflexivity].
  - injection H as <- <-. split; [lia|split; reflexivity].
Qed.

(** C7, as amended: a build that gets as far as the volume (the graph is
    allocated and the abuffer filter created) records the effective volume
    in [filter_volume] as it is, whatever the later calls answer, and a
    build that stops before fails and leaves [filter_volume] alone.  The
    library is asked for a volume filter exactly when the local [vol] is not
    1.0, and that filter is the one volume filter of the graph; it is made
    from the text that [snprintf] writes for ["volume=%f"] and [vol], which
    has six decimals.  [vol] lies in [0, 1] whenever the effective volume is
    not a NaN: it is the effective volume itself when that lies in [0, 1],
    1 when that is above 1 and 0 when that is below 0. *)
Theorem init_filter_graph_clamps_volume (graph_alloc_ok : bool) (libav : libav_call → Z)
    (file' : option loc) (w : World) (r : Z) (w' : World) :
  init_filter_graph graph_alloc_ok libav file' w = Ok (r, w') →
  (graph_alloc_ok = false ∨ libav create_abuffer < 0 →
   r < 0 ∧ filter_volume (playlist w') = filter_volume (playlist w)) ∧
  (graph_alloc_ok = true → 0 ≤ libav create_abuffer →
   filter_volume (playlist w') = p_volume (playlist w) ∧
   (0 ≤ libav create_volume →
    (volume_ctx (playlist w') = NULL ↔
     (init_filter_graph_vol (p_volume (playlist w)) =? 1)%float = true)) ∧
   (libav create_volume < 0 →
    volume_ctx (playlist w') = NULL ∧
    ((init_filter_graph_vol (p_volume (playlist w)) =? 1)%float = false →
     r = libav create_volume)) ∧
   (∃ g, filter_graph (playlist w') = Some g ∧
         (∀ c, volume_ctx (playlist w') = Some c →
               filters g !! c =
               Some (volume_filter
                       (snprintf_volume (init_filter_graph_vol (p_volume (playlist w)))))) ∧
         (∀ c x, filters g !! c = Some (volume_filter x) →
                 volume_ctx (playlist w') = Some c ∧
                 x = snprintf_volume (init_filter_graph_vol (p_volume (playlist w)))))) ∧
  (is_nan (p_volume (playlist w)) = false →
   (0 <=? init_filter_graph_vol (p_volume (playlist w)))%float = true ∧
   (init_filter_graph_vol (p_volume (playlist w)) <=? 1)%float = true) ∧
  ((0 <=? p_volume (playlist w))%float = true → (p_volume (playlist w) <=? 1)%float = true →
   init_filter_graph_vol (p_volume (playlist w)) = p_volume (playlist w)) ∧
  ((1 <? p_volume (playlist w))%float = true →
   init_filter_graph_vol (p_volume (playlist w)) = 1%float) ∧
  ((p_volume (playlist w) <? 0)%float = true →
   init_filter_graph_vol (p_volume (playlist w)) = 0%float).
Proof.
  intros H.
  split; [intros Hearly; apply (init_filter_graph_stops_early _ _ _ _ _ _ H) in Hearly;
          split; apply Hearly|].
  split; [|split; [apply init_filter_graph_vol_in_range|];
              split; [apply init_filter_graph_vol_id|];
              split; [apply init_filter_graph_vol_above | apply init_filter_graph_vol_below]].
  intros Halloc Hab.
  apply init_filter_graph_volume_node in H as (f & g & ext & _ & Hv & Hg & Hext & Hnode);
    [|exact Halloc | exact Hab].
  assert (∀ c x, ext !! c = Some (volume_filter x) → False) as Hnone.
  { intros c x Hc. apply (Forall_lookup_1 _ _ _ _ Hext) in Hc. exact Hc. }
  split; [exact Hv|].
  destruct (init_filter_graph_vol (p_volume (playlist w)) =? 1)%float eqn:E.
  - destruct Hnode as [Hc Hf].
    split; [intros _; split; intros; [reflexivity | exact Hc]|].
    split; [intros _; split; [exact Hc | discriminate]|].
    exists g. split; [exact Hg|]. split.
    + intros c Hc'. congruence.
    + intros [|c] x Hx; rewrite Hf in Hx; simpl in Hx; [discriminate|].
      destruct (Hnone c x Hx).
  - destruct (libav create_volume <? 0) eqn:Evol.
    + apply Z.ltb_lt in Evol. destruct Hnode as (Hr & Hc & Hf).
      split; [intros; lia|]. split; [intros _; split; [exact Hc | intros _; exact Hr]|].
      exists g. split; [exact Hg|]. split.
      * intros c Hc'. congruence.
      * intros [|c] x Hx; rewrite Hf in Hx; simpl in Hx; discriminate.
    + apply Z.ltb_ge in Evol. destruct Hnode as [Hc Hf].
      split; [intros _; split; intros; congruence|]. split; [intros; lia|].
      exists g. split; [exact Hg|]. split.
      * intros c Hc'. rewrite Hc in Hc'. injection Hc' as <-. rewrite Hf. reflexivity.
      * intros [|[|c]] x Hx; rewrite Hf in Hx; simpl in Hx.
        -- discriminate.
        -- injection Hx as <-. split; [exact Hc | reflexivity].
        -- destruct (Hnone c x Hx).
Qed.

Lemma init_filter_graph_clamps_volume_witness :
  ∃ w', init_filter_graph true (λ _, 0) (Some 100%positive) half_world = Ok (0, w') ∧
        filter_volume (playlist w') = 0.5%float ∧
        ∃ g, filter_graph (playlist w') = Some g ∧
             ∀ c, volume_ctx (playlist w') = Some c →
                  filters g !! c = Some (volume_filter (snprintf_volume (init_filter_graph_vol 0.5))).
Proof.
  eexists. split; [vm_compute; reflexivity|].
  match goal with
  | |- filter_volume (playlist ?w') = _ ∧ _ =>
      destruct (init_filter_graph_clamps_volume true (λ _, 0) (Some 100%positive)
                  half_world 0 w') as (_ & Hreach & _)
  end.
  - vm_compute. reflexivity.
  - destruct (Hreach eq_refl) as (Hv & _ & _ & g & Hg & Hc & _); [lia|].
    split; [exact Hv|]. exists g. split; [exact Hg | exact Hc].
Defined.

(** The counterexample to C7 as it is written: the effective volume is a
    NaN; the clamp leaves it a NaN, which is neither at least 0 nor at most
    1, the build succeeds, and the volume filter is made from the text of
    that NaN. *)
Lemma init_filter_graph_passes_nan :
  ∃ w' g,
    init_filter_graph true (λ _, 0) (Some 100%positive) nan_world = Ok (0, w') ∧
    p_volume (playlist nan_world) = nan ∧
    init_filter_graph_vol nan = nan ∧
    (0 <=? nan)%float = false ∧ (nan <=? 1)%float = false ∧
    filter_graph (playlist w') = Some g ∧
    volume_ctx (playlist w') = Some 1%nat ∧
    filters g !! 1%nat = Some (volume_filter (snprintf_volume nan)).
Proof. eexists. eexists. split; [vm_compute; reflexivity|]. repeat split. Qed.

(** Six decimals: a [vol] just under 1 gives the text of 1, a small one the
    text of 0. *)
Example snprintf_volume_six_decimals :
  snprintf_volume 0.5 = "volume=0.500000"%string ∧
  snprintf_volume 0x1.fffffca501acbp-1 = "volume=1.000000"%string ∧
  (0x1.fffffca501acbp-1 =? 1)%float = false ∧
  snprintf_volume 0x1.ad7f29abcaf48p-24 = "volume=0.000000"%string ∧
  (0x1.ad7f29abcaf48p-24 =? 0)%float = false ∧
  snprintf_volume 0.0078125 = "volume=0.007812"%string ∧
  snprintf_volume (-0) = "volume=-0.000000"%string.
Proof. vm_compute. repeat split. Qed.


(** ** Counting the playlist *)

Lemma groove_playlist_count_loop_chain ls : ∀ w a c,
  chain (items w) a ls → 0 ≤ c → c + Z.of_nat (length ls) ≤ INT_MAX →
  groove_playlist_count_loop (length ls) a c w = Ok (c + Z.of_nat (length ls), w).
Proof.
  induction ls as [|l ls IH]; intros w a c Hchain Hc Hmax; simpl in Hchain.
  - subst a. simpl. rewrite Z.add_0_r. reflexivity.
  - destruct Hchain as (-> & i & Hi & Hrest).
    cbn [length groove_playlist_count_loop]. change (is_null (Some l)) with false. cbv iota.
    rewrite (bind_Ok _ _ _ _ _ (load_Ok items l w i Hi)).
    rewrite wrap_int_small by (unfold INT_MAX in *; cbn [length] in Hmax; lia).
    rewrite (IH w (next i) (c + 1) Hrest) by (cbn [length] in Hmax; lia).
    do 2 f_equal. cbn [length]. lia.
Qed.

Lemma groove_playlist_count_holds w ls :
  playlist_holds w ls → Z.of_nat (length ls) ≤ INT_MAX →
  groove_playlist_count (length ls) w = Ok (Z.of_nat (length ls), w).
Proof.
  intros (Hchain & _) Hmax. unfold groove_playlist_count, the_playlist, bind.
  apply (groove_playlist_count_loop_chain ls w _ 0 Hchain); lia.
Qed.

(** A chain in the heap stays one when a new item is linked behind its last
    node. *)
Lemma chain_append (h : gmap loc GroovePlaylistItem) l new t ls : ∀ a,
  h !! l = None → next new = NULL →
  (∀ i, h !! t = Some i → next i = NULL) →
  chain h a ls → last ls = Some t →
  chain (alter (with_next (Some l)) t (<[l := new]> h)) a (ls ++ [l]).
Proof.
  intros a Hl Hnew Ht. revert a.
  induction ls as [|x ls IH]; intros a Hchain Hlast; [discriminate|].
  destruct Hchain as (-> & i & Hi & Hrest).
  assert (x ≠ l) by congruence.
  simpl. split; [reflexivity|].
  destruct (decide (x = t)) as [->|Hxt].
  - exists (with_next (Some l) i). split.
    + rewrite lookup_alter, decide_True, lookup_insert_ne, Hi by congruence. reflexivity.
    + rewrite (Ht i Hi) in Hrest. destruct ls as [|y ls]; [|destruct Hrest; discriminate].
      simpl. split; [reflexivity|]. exists new. split; [|exact Hnew].
      rewrite lookup_alter, lookup_insert_eq.
      destruct (decide (t = l)); [congruence | reflexivity].
  - exists i. split.
    + rewrite lookup_alter, decide_False, lookup_insert_ne, Hi by congruence. reflexivity.
    + apply IH; [exact Hrest|].
      destruct ls as [|y ls]; [simpl in Hlast; congruence | exact Hlast].
Qed.

Lemma chain_allocated (h : gmap loc GroovePlaylistItem) ls : ∀ a x,
  chain h a ls → x ∈ ls → is_Some (h !! x).
Proof.
  induction ls as [|y ls IH]; intros a x Hchain Hin; [inversion Hin|].
  destruct Hchain as (-> & i & Hi & Hrest).
  apply elem_of_cons in Hin as [->|Hin]; [eauto | eapply IH; eassumption].
Qed.

(** Reads the fields of a world that was written to. *)
Ltac world_simpl :=
  cbn [items files sinks buffers playlist trace set_items set_files set_sinks set_buffers
       set_playlist set_trace head tail with_head with_tail with_decode_head].

(** Appending keeps the list and adds the new item at its end. *)
Lemma groove_playlist_insert_appends w ls l f fl g :
  playlist_holds w ls → items w !! l = None → files w !! f = Some fl →
  ∃ w', groove_playlist_insert (Some l) (Some f) g NULL w = Ok (Some l, w') ∧
        playlist_holds w' (ls ++ [l]) ∧ files w' !! f ≠ None ∧
        (∀ x, x ≠ l → items w !! x = None → items w' !! x = None).
Proof.
  intros (Hchain & Htail & Hlast) Hl Hf.
  destruct ls as [|x0 ls0] eqn:Els.
  - (* the playlist is empty *)
    simpl in Hchain, Htail.
    eexists. split.
    + unfold groove_playlist_insert, store_item, store_file, load, update_playlist,
        the_playlist, modify, ret, bind. simpl.
      repeat (first [ rewrite lookup_insert_eq | rewrite Hf | rewrite Hchain ]; simpl).
      reflexivity.
    + unfold playlist_holds. world_simpl. rewrite !insert_insert_eq. split; [|split].
      * split; [|split].
        -- split; [reflexivity|]. eexists. rewrite lookup_insert_eq. split; reflexivity.
        -- reflexivity.
        -- intros t i [= <-]. rewrite lookup_insert_eq. intros [= <-]. reflexivity.
      * rewrite lookup_insert_eq. discriminate.
      * intros x Hx Hnone. rewrite lookup_insert_ne by congruence. exact Hnone.
  - (* the new item is linked behind the tail *)
    rewrite <- Els in *. assert (ls ≠ []) as Hne by (rewrite Els; discriminate).
    destruct (last ls) as [t|] eqn:Et; [|apply last_None in Et; contradiction].
    assert (t ∈ ls) as Hin.
    { rewrite last_lookup in Et. eapply list_elem_of_lookup_2, Et. }
    destruct (chain_allocated _ _ _ _ Hchain Hin) as [it Hit].
    assert (t ≠ l) as Htl by congruence.
    assert (head (playlist w) = Some x0) as Hhead.
    { rewrite Els in Hchain. destruct Hchain as [-> _]. reflexivity. }
    eexists. split.
    + unfold groove_playlist_insert, store_item, store_file, load, update_playlist,
        the_playlist, modify, ret, bind. simpl.
      repeat (first [ rewrite lookup_insert_eq | rewrite insert_insert_eq
                    | rewrite (lookup_insert_ne _ l t) by congruence
                    | rewrite Hf | rewrite Hhead | rewrite Htail | rewrite Hit ]; simpl).
      reflexivity.
    + unfold playlist_holds. world_simpl. rewrite ?insert_insert_eq. split; [|split].
      * split; [|split].
        -- rewrite (insert_as_alter (with_next (Some l)) t it) by
             (rewrite lookup_insert_ne by congruence; exact Hit).
           apply chain_append; try assumption; [reflexivity|].
           intros i Hi. apply (Hlast t i Htail Hi).
        -- rewrite last_snoc. reflexivity.
        -- intros t' i [= <-].
           rewrite lookup_insert_ne, lookup_insert_eq by congruence.
           intros [= <-]. reflexivity.
      * rewrite Hf. discriminate.
      * intros x Hx Hnone.
        rewrite lookup_insert_ne by congruence. rewrite lookup_insert_ne by congruence.
        exact Hnone.
Qed.

(** Appending [n] items to a playlist that holds [ls] makes it hold them all. *)
Lemma append_all_holds new f g : ∀ w ls fl,
  playlist_holds w ls → files w !! f = Some fl →
  NoDup new → (∀ l, l ∈ new → items w !! l = None) →
  ∃ w', append_all new (Some f) g w = Ok (tt, w') ∧ playlist_holds w' (ls ++ new).
Proof.
  induction new as [|l new IH]; intros w ls fl Hholds Hf Hnd Hfresh.
  - exists w. rewrite app_nil_r. split; [reflexivity | exact Hholds].
  - apply NoDup_cons in Hnd as [Hl Hnd].
    destruct (groove_playlist_insert_appends w ls l f fl g Hholds)
      as (w1 & Hins & Hholds1 & Hf1 & Hkeep); [apply Hfresh; left | exact Hf|].
    destruct (files w1 !! f) as [fl1|] eqn:Ef1; [|contradiction].
    destruct (IH w1 (ls ++ [l]) fl1 Hholds1) as (w2 & Hrun & Hholds2).
    + exact Ef1.
    + exact Hnd.
    + intros x Hx. apply Hkeep; [intros ->; contradiction | apply Hfresh; right; exact Hx].
    + exists w2. cbn [append_all]. rewrite (bind_Ok _ _ _ _ _ Hins).
      rewrite <- app_assoc in Hholds2. split; [exact Hrun | exact Hholds2].
Qed.

(** Appending [n] items to an empty playlist and counting gives [n]: the
    count is short only after an insertion before the first item. *)
Lemma groove_playlist_count_after_appends new f fl g w :
  playlist_holds w [] → files w !! f = Some fl →
  NoDup new → (∀ l, l ∈ new → items w !! l = None) →
  Z.of_nat (length new) ≤ INT_MAX →
  ∃ w', (append_all new (Some f) g >> groove_playlist_count (length new)) w
        = Ok (Z.of_nat (length new), w').
Proof.
  intros Hholds Hf Hnd Hfresh Hmax.
  destruct (append_all_holds new f g w [] fl Hholds Hf Hnd Hfresh) as (w' & Hrun & Hholds').
  exists w'. rewrite (bind_Ok _ _ _ _ _ Hrun).
  apply groove_playlist_count_holds; assumption.
Qed.

(** * The rest of the file *)

(** ** The sink map as a list of classes *)

Lemma attached_sinks_classes w : attached_sinks w = concat (sink_classes w).
Proof.
  unfold attached_sinks, sink_classes. destruct (sink_map (playlist w)) as [m|]; [|reflexivity].
  simpl. induction m as [st a b|st a b n IH] using SinkMap_ind; simpl.
  - reflexivity.
  - rewrite IH. reflexivity.
Qed.

Lemma stack_sinks_not_nil st : stack_sinks st ≠ [].
Proof. destruct st. discriminate. Qed.

Lemma audio_formats_equal_eq a b : audio_formats_equal a b = true ↔ a = b.
Proof.
  unfold audio_formats_equal. rewrite !andb_true_iff, !Z.eqb_eq.
  destruct a, b; simpl. split; [intros [[-> ->] ->]; reflexivity | intros [= -> -> ->]; auto].
Qed.

(** What the inner loop of [remove_sink_from_map] does to the sinks of a
    stack. *)
Lemma remove_sink_from_stack_spec sink st :
  match remove_sink_from_stack sink st with
  | None => sink ∉ stack_sinks st
  | Some r => ∃ c1 c2, stack_sinks st = c1 ++ sink :: c2 ∧ (sink ∉ c1) ∧
                       from_option stack_sinks [] r = c1 ++ c2
  end.
Proof.
  induction st as [s|s n IH] using SinkStack_ind; simpl; unfold ptr_eq; case_bool_decide.
  - subst s. exists [], []. split; [reflexivity|]. split; [apply not_elem_of_nil | reflexivity].
  - rewrite list_elem_of_singleton. congruence.
  - subst s. exists [], (stack_sinks n). split; [reflexivity|].
    split; [apply not_elem_of_nil | reflexivity].
  - destruct (remove_sink_from_stack sink n) as [r|].
    + destruct IH as (c1 & c2 & E & Hc1 & Er).
      exists (s :: c1), c2. rewrite E. split; [reflexivity|]. split.
      * rewrite elem_of_cons. intros [->|?]; [congruence | contradiction].
      * simpl. destruct r as [r|]; simpl in *; rewrite Er; reflexivity.
    + rewrite elem_of_cons. intros [->|?]; [congruence | contradiction].
Qed.

(** What the outer loop does to the classes. *)
Lemma remove_sink_from_map_loop_spec sink m :
  match remove_sink_from_map_loop sink m with
  | None => sink ∉ map_sinks m
  | Some (m', deleted) =>
      ∃ pre c1 c2 post,
        map_classes m = pre ++ (c1 ++ sink :: c2) :: post ∧
        (sink ∉ concat pre) ∧ (sink ∉ c1) ∧
        from_option map_classes [] m' =
          (if deleted then pre ++ post else pre ++ (c1 ++ c2) :: post) ∧
        (deleted = true ↔ c1 ++ c2 = [])
  end.
Proof.
  induction m as [st a b|st a b n IH] using SinkMap_ind; simpl.
  - destruct st as [st|]; simpl.
    + pose proof (remove_sink_from_stack_spec sink st) as H.
      destruct (remove_sink_from_stack sink st) as [[r|]|].
      * destruct H as (c1 & c2 & E & Hc1 & Er). exists [], c1, c2, [].
        simpl in *. rewrite E, Er. repeat split; try done; try apply not_elem_of_nil.
        intros E2. rewrite <- Er in E2. destruct (stack_sinks_not_nil _ E2).
      * destruct H as (c1 & c2 & E & Hc1 & Er). exists [], c1, c2, [].
        simpl in *. rewrite E. repeat split; try done; try apply not_elem_of_nil; try (symmetry; exact Er).
      * rewrite app_nil_r. exact H.
    + apply not_elem_of_nil.
  - destruct st as [st|]; simpl.
    + pose proof (remove_sink_from_stack_spec sink st) as H.
      destruct (remove_sink_from_stack sink st) as [[r|]|].
      * destruct H as (c1 & c2 & E & Hc1 & Er). exists [], c1, c2, (map_classes n).
        simpl in *. rewrite E, Er. repeat split; try done; try apply not_elem_of_nil.
        intros E2. rewrite <- Er in E2. destruct (stack_sinks_not_nil _ E2).
      * destruct H as (c1 & c2 & E & Hc1 & Er). exists [], c1, c2, (map_classes n).
        simpl in *. rewrite E. repeat split; try done; try apply not_elem_of_nil; try (symmetry; exact Er).
      * destruct (remove_sink_from_map_loop sink n) as [[m' deleted]|].
        -- destruct IH as (pre & c1 & c2 & post & E & Hpre & Hc1 & Em & Hd).
           exists (stack_sinks st :: pre), c1, c2, post. rewrite E. simpl.
           split; [reflexivity|]. split; [|split; [exact Hc1|]].
           ++ rewrite elem_of_app. intros [?|?]; contradiction.
           ++ split; [|exact Hd]. destruct m' as [m'|]; simpl in *; rewrite Em;
                destruct deleted; reflexivity.
        -- rewrite elem_of_app. intros [?|?]; contradiction.
    + destruct (remove_sink_from_map_loop sink n) as [[m' deleted]|].
      * destruct IH as (pre & c1 & c2 & post & E & Hpre & Hc1 & Em & Hd).
        exists ([] :: pre), c1, c2, post. rewrite E. simpl.
        split; [reflexivity|]. split; [exact Hpre|]. split; [exact Hc1|].
        split; [|exact Hd]. destruct m' as [m'|]; simpl in *; rewrite Em;
          destruct deleted; reflexivity.
      * exact IH.
Qed.

(** What the loop of [add_sink_to_map] does to the classes: the entry goes
    on top of the first class whose example has the format of the sink. *)
Lemma add_sink_to_map_loop_spec l s entry m w :
  sinks w !! l = Some s →
  Forall (λ c, is_Some (example_format w c)) (map_classes m) →
  ∃ r, add_sink_to_map_loop (Some l) entry m w = Ok (r, w) ∧
       match r with
       | Some m' =>
           ∃ pre c post,
             map_classes m = pre ++ c :: post ∧
             map_classes m' = pre ++ (ss_sink entry :: c) :: post ∧
             Forall (λ c', example_format w c' ≠ Some (audio_format s)) pre ∧
             example_format w c = Some (audio_format s)
       | None =>
           Forall (λ c', example_format w c' ≠ Some (audio_format s)) (map_classes m)
       end.
Proof.
  intros Hs. induction m as [st a b|st a b n IH] using SinkMap_ind; simpl; intros Hall.
  - inversion_clear Hall as [|? ? Hex _].
    destruct st as [[e rest]|]; [|destruct Hex; discriminate]. simpl in *.
    unfold example_format, format_of in Hex. simpl in Hex.
    destruct e as [le|]; [|destruct Hex; discriminate]. simpl in Hex.
    destruct (sinks w !! le) as [se|] eqn:Ese; [|destruct Hex; discriminate].
    unfold bind, deref, ret, load. simpl. rewrite Ese, Hs.
    destruct (audio_formats_equal (audio_format se) (audio_format s)) eqn:Ef.
    + eexists. split; [reflexivity|]. eexists [], _, []. simpl.
      split; [reflexivity|]. split; [reflexivity|]. split; [constructor|].
      unfold example_format, format_of. simpl. rewrite Ese. simpl.
      apply audio_formats_equal_eq in Ef. congruence.
    + eexists. split; [reflexivity|]. constructor; [|constructor].
      unfold example_format, format_of. simpl. rewrite Ese. simpl.
      intros [= E]. apply audio_formats_equal_eq in E. congruence.
  - inversion_clear Hall as [|? ? Hex Hn].
    destruct st as [[e rest]|]; [|destruct Hex; discriminate]. simpl in *.
    unfold example_format, format_of in Hex. simpl in Hex.
    destruct e as [le|]; [|destruct Hex; discriminate]. simpl in Hex.
    destruct (sinks w !! le) as [se|] eqn:Ese; [|destruct Hex; discriminate].
    unfold bind, deref, ret, load. simpl. rewrite Ese, Hs.
    destruct (audio_formats_equal (audio_format se) (audio_format s)) eqn:Ef.
    + eexists. split; [reflexivity|]. eexists [], _, _. simpl.
      split; [reflexivity|]. split; [reflexivity|]. split; [constructor|].
      unfold example_format, format_of. simpl. rewrite Ese. simpl.
      apply audio_formats_equal_eq in Ef. congruence.
    + destruct (IH Hn) as (r & Hr & Hspec). rewrite Hr.
      assert (example_format w (Some le :: from_option stack_sinks [] rest)
              ≠ Some (audio_format s)) as Hne.
      { unfold example_format, format_of. simpl. rewrite Ese. simpl.
        intros [= E]. apply audio_formats_equal_eq in E. congruence. }
      destruct r as [m'|].
      * eexists. split; [reflexivity|].
        destruct Hspec as (pre & c & post & E & E' & Hpre & Hc).
        eexists (_ :: pre), c, post. simpl. rewrite E, E'.
        split; [reflexivity|]. split; [reflexivity|]. split; [|exact Hc].
        constructor; [exact Hne | exact Hpre].
      * eexists. split; [reflexivity|]. constructor; [exact Hne | exact Hspec].
Qed.

(** [add_sink_to_map] when both allocations succeed. *)
Lemma add_sink_to_map_spec l s w :
  sinks w !! l = Some s →
  Forall (λ c, is_Some (example_format w c)) (sink_classes w) →
  ∃ m' n',
    add_sink_to_map true true (Some l) w =
      Ok (0, set_playlist (with_sink_map (Some m') n') w) ∧
    ((∃ pre c post,
        sink_classes w = pre ++ c :: post ∧
        map_classes m' = pre ++ (Some l :: c) :: post ∧
        Forall (λ c', example_format w c' ≠ Some (audio_format s)) pre ∧
        example_format w c = Some (audio_format s) ∧
        n' = sink_map_count (playlist w)) ∨
     (Forall (λ c', example_format w c' ≠ Some (audio_format s)) (sink_classes w) ∧
      map_classes m' = [Some l] :: sink_classes w ∧
      n' = wrap_int (sink_map_count (playlist w) + 1))).
Proof.
  intros Hs Hall. unfold add_sink_to_map, sink_classes in *.
  unfold bind at 1. unfold the_playlist at 1. simpl. unfold bind at 1. simpl.
  destruct (sink_map (playlist w)) as [m|] eqn:Em; simpl in *.
  - destruct (add_sink_to_map_loop_spec l s (mkSinkStack (Some l) None) m w Hs Hall)
      as (r & Hr & Hspec).
    unfold bind at 1. rewrite Hr. destruct r as [m'|].
    + exists m', (sink_map_count (playlist w)). split; [reflexivity|]. left.
      destruct Hspec as (pre & c & post & E & E' & Hpre & Hc).
      exists pre, c, post. repeat split; assumption.
    + eexists _, _. split; [reflexivity|]. right. simpl.
      split; [exact Hspec|]. split; reflexivity.
  - eexists _, _. split; [reflexivity|]. right. simpl.
    split; [constructor|]. split; reflexivity.
Qed.

(** ** Classes by format *)

Section ClassesOk.

Variable fmt : option loc → option GrooveAudioFormat.

Lemma class_example_format c f :
c ≠ [] → Forall (λ p, fmt p = Some f) c → c !! 0%nat ≫= fmt = Some f.
Proof.
destruct c as [|x c]; [congruence|]. intros _ Hall.
inversion_clear Hall. simpl. assumption.
Qed.

Lemma classes_ok_example cs c :
classes_ok fmt cs → c ∈ cs → is_Some (c !! 0%nat ≫= fmt).
Proof.
intros [Hall _] Hc. rewrite Forall_forall in Hall.
destruct (Hall c Hc) as (Hne & f & Hf). rewrite (class_example_format c f Hne Hf). eauto.
Qed.

(** A sink joins the class of its format. *)
Lemma classes_ok_push pre c post x :
classes_ok fmt (pre ++ c :: post) → fmt x = c !! 0%nat ≫= fmt →
classes_ok fmt (pre ++ (x :: c) :: post).
Proof.
intros [Hall Hnd] Hx. split.
- apply Forall_app in Hall as [Hpre Hc]. apply Forall_cons in Hc as [(Hne & f & Hf) Hpost].
  apply Forall_app. split; [exact Hpre|]. constructor; [|exact Hpost].
  split; [discriminate|]. exists f. constructor; [|exact Hf].
  rewrite Hx. apply class_example_format; assumption.
- rewrite fmap_app, fmap_cons in *. simpl. rewrite Hx. exact Hnd.
Qed.

(** A sink of a new format makes a class of its own. *)
Lemma classes_ok_new cs x f :
classes_ok fmt cs → fmt x = Some f →
Forall (λ c, c !! 0%nat ≫= fmt ≠ Some f) cs →
classes_ok fmt ([x] :: cs).
Proof.
intros [Hall Hnd] Hx Hnew. split.
- constructor; [|exact Hall]. split; [discriminate|]. exists f. repeat constructor. exact Hx.
- rewrite fmap_cons. simpl. constructor; [|exact Hnd].
  rewrite Hx. rewrite list_elem_of_fmap. intros (c & Hc & Hin).
  rewrite Forall_forall in Hnew. apply (Hnew c Hin). congruence.
Qed.

(** A sink leaves its class, which stays. *)
Lemma classes_ok_pull pre c1 x c2 post :
classes_ok fmt (pre ++ (c1 ++ x :: c2) :: post) → c1 ++ c2 ≠ [] →
classes_ok fmt (pre ++ (c1 ++ c2) :: post).
Proof.
intros [Hall Hnd] Hne.
apply Forall_app in Hall as [Hpre Hc]. apply Forall_cons in Hc as [(_ & f & Hf) Hpost].
assert (Forall (λ p, fmt p = Some f) (c1 ++ c2)) as Hf'.
{ apply Forall_app in Hf as [H1 H2]. apply Forall_cons in H2 as [_ H2].
  apply Forall_app. split; assumption. }
split.
- apply Forall_app. split; [exact Hpre|]. constructor; [|exact Hpost].
  split; [exact Hne|]. exists f. exact Hf'.
- rewrite fmap_app, fmap_cons in *.
  rewrite (class_example_format _ f Hne Hf').
  rewrite (class_example_format (c1 ++ x :: c2) f) in Hnd; [exact Hnd | | exact Hf].
  destruct c1; discriminate.
Qed.

(** A class goes. *)
Lemma classes_ok_drop pre c post :
classes_ok fmt (pre ++ c :: post) → classes_ok fmt (pre ++ post).
Proof.
intros [Hall Hnd]. split.
- apply Forall_app in Hall as [Hpre Hc]. apply Forall_cons in Hc as [_ Hpost].
  apply Forall_app. split; assumption.
- rewrite fmap_app, fmap_cons in *. apply NoDup_app in Hnd as (H1 & H2 & H3).
  apply NoDup_cons in H3 as [_ H3]. apply NoDup_app. repeat split; [exact H1 | | exact H3].
  intros y Hy Hy'. apply (H2 y Hy). right. exact Hy'.
Qed.

End ClassesOk.

(** The invariant looks at the formats of the sinks only. *)
Lemma classes_ok_ext fmt fmt' cs :
  (∀ p, fmt' p = fmt p) → classes_ok fmt cs → classes_ok fmt' cs.
Proof.
  intros Hext [Hall Hnd]. split.
  - eapply Forall_impl; [exact Hall|]. intros c (Hne & f & Hf). split; [exact Hne|].
    exists f. eapply Forall_impl; [exact Hf|]. intros p Hp. simpl in *. rewrite Hext. exact Hp.
  - erewrite list_fmap_ext; [exact Hnd|]. intros i c _. simpl.
    destruct (c !! 0%nat); simpl; [apply Hext | reflexivity].
Qed.

Lemma format_of_insert w w' l s s' p :
  sinks w !! l = Some s → sinks w' = <[l := s']> (sinks w) →
  audio_format s' = audio_format s → format_of w' p = format_of w p.
Proof.
  intros Hs Hw Hf. unfold format_of. destruct p as [x|]; [|reflexivity]. simpl.
  rewrite Hw. destruct (decide (x = l)) as [->|Hne].
  - rewrite lookup_insert_eq, Hs. simpl. congruence.
  - rewrite lookup_insert_ne by congruence. reflexivity.
Qed.

(** ** Attaching a sink *)

Lemma sink_classes_set_sinks f w : sink_classes (set_sinks f w) = sink_classes w.
Proof. reflexivity. Qed.

Lemma attached_sinks_perm_push (pre : list (list (option loc))) c post x :
  concat (pre ++ (x :: c) :: post) ≡ₚ x :: concat (pre ++ c :: post).
Proof.
  rewrite !concat_app. simpl. symmetry. apply Permutation_middle.
Qed.

(** Running [groove_sink_attach] when both allocations succeed. *)
Lemma groove_sink_attach_run nb_channels bytes w l s q pl :
  sinks w !! l = Some s → audioq s = Some q →
  Forall (λ c, is_Some (example_format w c)) (sink_classes w) →
  ∃ m' n',
    groove_sink_attach nb_channels bytes true true (Some l) (Some pl) w =
      Ok (0, set_sinks
               <[l := with_sink_playlist (Some pl)
                        (with_audioq (Some (mkQueue (q_items q) 0))
                           (cached_sink nb_channels bytes s))]>
               (set_playlist (with_sink_map (Some m') n') w)) ∧
    add_sink_to_map true true (Some l)
      (set_sinks <[l := cached_sink nb_channels bytes s]> w) =
      Ok (0, set_playlist (with_sink_map (Some m') n')
               (set_sinks <[l := cached_sink nb_channels bytes s]> w)) ∧
    ((∃ pre c post,
        sink_classes w = pre ++ c :: post ∧
        map_classes m' = pre ++ (Some l :: c) :: post ∧
        Forall (λ c', example_format w c' ≠ Some (audio_format s)) pre ∧
        example_format w c = Some (audio_format s) ∧
        n' = sink_map_count (playlist w)) ∨
     (Forall (λ c', example_format w c' ≠ Some (audio_format s)) (sink_classes w) ∧
      map_classes m' = [Some l] :: sink_classes w ∧
      n' = wrap_int (sink_map_count (playlist w) + 1))).
Proof.
  intros Hs Hq Hall.
  set (s1 := cached_sink nb_channels bytes s).
  set (w1 := set_sinks <[l := s1]> w).
  assert (∀ p, format_of w1 p = format_of w p) as Hfmt.
  { intros p. apply (format_of_insert w w1 l s s1); [exact Hs | reflexivity | reflexivity]. }
  assert (Forall (λ c, is_Some (example_format w1 c)) (sink_classes w1)) as Hall1.
  { eapply Forall_impl; [exact Hall|]. intros c Hc. unfold example_format in *.
    destruct (c !! 0%nat); simpl in *; [rewrite Hfmt; exact Hc | exact Hc]. }
  assert (sinks w1 !! l = Some s1) as Hs1 by (simpl; apply lookup_insert_eq).
  destruct (add_sink_to_map_spec l s1 w1 Hs1 Hall1) as (m' & n' & Hadd & Hspec).
  exists m', n'. split.
  - unfold groove_sink_attach. unfold bind at 1. rewrite (load_Ok sinks l w s Hs).
    unfold bind at 1. unfold store_sink at 1. unfold bind at 1.
    rewrite (load_Ok sinks l w s Hs). unfold modify at 1.
    fold (cached_sink nb_channels bytes s). fold s1. fold w1. unfold bind at 1. simpl deref. unfold ret at 1.
    unfold bind at 1. rewrite Hadd. simpl.
    unfold groove_queue_reset, the_queue, set_queue, store_sink, load, bind, modify, ret. simpl.
    rewrite !lookup_insert_eq. simpl. rewrite Hq. simpl.
    unfold set_sinks, set_playlist. simpl.
    repeat (rewrite ?lookup_insert_eq, ?insert_insert_eq; simpl). reflexivity.
  - split; [exact Hadd|].
    assert (∀ c, example_format w1 c = example_format w c) as Hex.
    { intros c. unfold example_format. destruct (c !! 0%nat); simpl; [apply Hfmt | reflexivity]. }
    destruct Hspec as [(pre & c & post & E & E' & Hpre & Hc & En)|(Hnew & E' & En)].
    + left. exists pre, c, post. repeat split; try assumption.
      * eapply Forall_impl; [exact Hpre|]. intros c'. simpl. rewrite Hex. auto.
      * rewrite <- Hex. exact Hc.
    + right. repeat split; try assumption.
      eapply Forall_impl; [exact Hnew|]. intros c'. simpl. rewrite Hex. auto.
Qed.

(** X1: [groove_sink_attach], when its allocations succeed, returns 0 and
    keeps the invariant of the sink map.  The sink is added once: on top of
    the first class whose example sink has its audio format, the classes
    before and after it staying as they are and [sink_map_count] too; or, if
    no class has that format, as a new class in front of the others, and
    [sink_map_count] is one more.  The sink then points to the playlist, its
    queue is no longer aborted, and nothing else changes. *)
Theorem groove_sink_attach_keeps_sink_map (nb_channels bytes : Z → Z) (w : World)
    (l pl : loc) (s : GrooveSink) (q : GrooveQueue) :
  sinks w !! l = Some s → audioq s = Some q →
  sink_map_wf w → sink_map_count (playlist w) < INT_MAX →
  ∃ w' s',
    groove_sink_attach nb_channels bytes true true (Some l) (Some pl) w = Ok (0, w') ∧
    sink_map_wf w' ∧
    attached_sinks w' ≡ₚ Some l :: attached_sinks w ∧
    ((∃ pre c post,
        sink_classes w = pre ++ c :: post ∧
        sink_classes w' = pre ++ (Some l :: c) :: post ∧
        Forall (λ c', example_format w c' ≠ Some (audio_format s)) pre ∧
        example_format w c = Some (audio_format s) ∧
        sink_map_count (playlist w') = sink_map_count (playlist w)) ∨
     (Forall (λ c', example_format w c' ≠ Some (audio_format s)) (sink_classes w) ∧
      sink_classes w' = [Some l] :: sink_classes w ∧
      sink_map_count (playlist w') = sink_map_count (playlist w) + 1)) ∧
    (∀ p, format_of w' p = format_of w p) ∧
    sinks w' = <[l := s']> (sinks w) ∧
    sink_playlist s' = Some pl ∧
    audioq s' = Some (mkQueue (q_items q) 0) ∧
    items w' = items w ∧ files w' = files w ∧ buffers w' = buffers w ∧
    trace w' = trace w.
Proof.
  intros Hs Hq [[Hcount Hmax0] Hok] Hmax.
  assert (Forall (λ c, is_Some (example_format w c)) (sink_classes w)) as Hall.
  { apply Forall_forall. intros c Hc. exact (classes_ok_example _ _ _ Hok Hc). }
  destruct (groove_sink_attach_run nb_channels bytes w l s q pl Hs Hq Hall)
    as (m' & n' & Hrun & _ & Hspec).
  eexists _, _. split; [exact Hrun|].
  assert (∀ p, format_of
                 (set_sinks
                    <[l := with_sink_playlist (Some pl)
                             (with_audioq (Some (mkQueue (q_items q) 0))
                                (cached_sink nb_channels bytes s))]>
                    (set_playlist (with_sink_map (Some m') n') w)) p = format_of w p) as Hfmt.
  { intros p. eapply (format_of_insert w _ l s); [exact Hs | reflexivity | reflexivity]. }
  assert (format_of w (Some l) = Some (audio_format s)) as Hl.
  { unfold format_of. simpl. rewrite Hs. reflexivity. }
  assert (0 ≤ sink_map_count (playlist w)) as Hnonneg by (rewrite Hcount; lia).
  split; [|split; [|split; [|split; [exact Hfmt|]]]].
  - split.
    + unfold sink_classes. simpl.
      destruct Hspec as [(pre & c & post & E & E' & _ & _ & ->)|(_ & E' & ->)]; rewrite E'.
      * split; [|lia]. rewrite Hcount, E. rewrite !length_app. reflexivity.
      * rewrite wrap_int_small by (unfold INT_MAX in *; lia).
        split; [|lia]. rewrite Hcount. simpl length. lia.
    + apply (classes_ok_ext (format_of w)); [exact Hfmt|].
      unfold sink_classes at 1. simpl.
      destruct Hspec as [(pre & c & post & E & E' & _ & Hc & _)|(Hnew & E' & _)]; rewrite E'.
      * rewrite E in Hok. apply classes_ok_push; [exact Hok|].
        rewrite Hl. symmetry. exact Hc.
      * apply (classes_ok_new _ _ _ (audio_format s)); [exact Hok | exact Hl | exact Hnew].
  - rewrite !attached_sinks_classes. unfold sink_classes at 1. simpl.
    destruct Hspec as [(pre & c & post & E & E' & _)|(_ & E' & _)]; rewrite E'.
    + rewrite E. apply attached_sinks_perm_push.
    + reflexivity.
  - unfold sink_classes at 2 4. cbn [playlist set_sinks set_playlist sink_map with_sink_map
                                      sink_map_count from_option].
    destruct Hspec as [(pre & c & post & E & E' & Hpre & Hc & ->)|(Hnew & E' & ->)].
    + left. exists pre, c, post. repeat split; assumption.
    + right. split; [exact Hnew|]. split; [exact E'|].
      apply wrap_int_small. unfold INT_MAX in *. lia.
  - repeat split; reflexivity.
Qed.

(** The sink at 1 is attached; a sink at 2 with the same format is not. *)
Lemma groove_sink_attach_keeps_sink_map_witness :
  ∃ w', groove_sink_attach two_channels two_bytes true true (Some 2%positive)
          (Some 9%positive) (set_sinks <[2%positive := a_sink []]> (idle_world [])) =
          Ok (0, w') ∧
        sink_map_wf w' ∧ attached_sinks w' ≡ₚ [Some 2%positive; Some 1%positive] ∧
        sink_classes w' = [[Some 2%positive; Some 1%positive]] ∧
        sink_map_count (playlist w') = 1.
Proof.
  destruct (groove_sink_attach_keeps_sink_map two_channels two_bytes
              (set_sinks <[2%positive := a_sink []]> (idle_world []))
              2%positive 9%positive (a_sink []) (mkQueue [] 0))
    as (w' & s' & Hrun & Hwf & Hperm & _).
  - reflexivity.
  - reflexivity.
  - split; [split; [reflexivity | discriminate]|]. split.
    + constructor; [|constructor]. split; [discriminate|].
      exists a_format. constructor; [reflexivity | constructor].
    + apply NoDup_singleton.
  - reflexivity.
  - exists w'. split; [exact Hrun|]. split; [exact Hwf|]. split; [exact Hperm|].
    assert (groove_sink_attach two_channels two_bytes true true (Some 2%positive)
              (Some 9%positive) (set_sinks <[2%positive := a_sink []]> (idle_world [])) =
            Ok (0, w')) as Hrun' by exact Hrun.
    vm_compute in Hrun'. injection Hrun' as <-. split; reflexivity.
Defined.

(** ** Flushing a queue *)

Lemma groove_buffer_unref_Ok w b buf :
  buffers w !! b = Some buf →
  ∃ w', groove_buffer_unref (Some b) w = Ok (tt, w') ∧
        items w' = items w ∧ files w' = files w ∧ sinks w' = sinks w ∧
        playlist w' = playlist w ∧
        (∀ b', b' ≠ b → buffers w' !! b' = buffers w !! b').
Proof.
  intros Hb. unfold groove_buffer_unref, store_buffer, load, modify, ret, when, log, bind.
  mrun. destruct (wrap_int (ref_count buf - 1) =? 0); simpl.
  - eexists. split; [reflexivity|]. simpl. repeat split.
    intros b' Hne. rewrite lookup_delete_ne, lookup_insert_ne by congruence. reflexivity.
  - eexists. split; [reflexivity|]. simpl. repeat split.
    intros b' Hne. rewrite lookup_insert_ne by congruence. reflexivity.
Qed.

Lemma with_counters_with_counters a b c d s :
  with_counters a b (with_counters c d s) = with_counters a b s.
Proof. reflexivity. Qed.

Lemma with_counters_same s : with_counters (audioq_buf_count s) (audioq_size s) s = s.
Proof. destruct s; reflexivity. Qed.

Lemma audioq_cleanup_Ok w l s obj :
  sinks w !! l = Some s → (∀ b, obj = Some b → is_Some (buffers w !! b)) →
  ∃ w' c1 c2, audioq_cleanup (Some l) obj w = Ok (tt, w') ∧
        sinks w' = <[l := with_counters c1 c2 s]> (sinks w) ∧
        items w' = items w ∧ files w' = files w ∧ playlist w' = playlist w ∧
        (∀ b', obj ≠ Some b' → buffers w' !! b' = buffers w !! b').
Proof.
  intros Hs Hobj. unfold audioq_cleanup. unfold bind at 1. rewrite (load_Ok sinks l w s Hs).
  destruct obj as [b|]; simpl.
  - destruct (Hobj b eq_refl) as [buf Hb].
    unfold bind at 1. rewrite (load_Ok buffers b w buf Hb).
    unfold bind at 1. unfold store_sink, bind at 1. rewrite (load_Ok sinks l w s Hs).
    unfold modify at 1.
    destruct (groove_buffer_unref_Ok
                (set_sinks <[l := with_counters (wrap_int (audioq_buf_count s - 1))
                                               (wrap_int (audioq_size s - size buf)) s]> w)
                b buf Hb) as (w' & Hrun & Hi & Hf & Hsk & Hp & Hbuf).
    exists w', (wrap_int (audioq_buf_count s - 1)), (wrap_int (audioq_size s - size buf)).
    split; [exact Hrun|]. split; [exact Hsk|]. repeat split; try assumption.
    intros b' Hne. apply Hbuf. congruence.
  - exists w, (audioq_buf_count s), (audioq_size s). split; [reflexivity|].
    rewrite with_counters_same, insert_id by exact Hs. repeat split.
Qed.

(** [queue_cleanup_all] goes through on a sound queue, and touches nothing
    but the counters of the sink and the buffers that were queued. *)
Lemma queue_cleanup_all_Ok l objs : ∀ w s,
  sinks w !! l = Some s → queue_sound w objs →
  ∃ w' c1 c2, queue_cleanup_all (Some l) objs w = Ok (tt, w') ∧
        sinks w' = <[l := with_counters c1 c2 s]> (sinks w) ∧
        items w' = items w ∧ files w' = files w ∧ playlist w' = playlist w ∧
        (∀ b', Some b' ∉ objs → buffers w' !! b' = buffers w !! b').
Proof.
  induction objs as [|obj objs IH]; intros w s Hs [Hnd Hall].
  - exists w, (audioq_buf_count s), (audioq_size s). split; [reflexivity|].
    rewrite with_counters_same, insert_id by exact Hs. repeat split.
  - cbn [queue_cleanup_all].
    destruct (audioq_cleanup_Ok w l s obj Hs) as (w1 & a & b & Hrun & Hsk & Hi & Hf & Hp & Hbuf).
    { intros x ->. apply Hall. left. }
    rewrite (bind_Ok _ _ _ _ _ Hrun).
    destruct (IH w1 (with_counters a b s)) as (w' & c1 & c2 & Hrun' & Hsk' & Hi' & Hf' & Hp' & Hbuf').
    { rewrite Hsk. apply lookup_insert_eq. }
    { split.
      - destruct obj; simpl in Hnd; [apply NoDup_cons in Hnd as [_ Hnd]|]; exact Hnd.
      - intros x Hx. rewrite Hbuf; [apply Hall; right; exact Hx|].
        intros ->. simpl in Hnd. apply NoDup_cons in Hnd as [Hnot _].
        apply Hnot. apply list_elem_of_omap. exists (Some x). split; [exact Hx | reflexivity]. }
    exists w', c1, c2. split; [exact Hrun'|].
    split; [rewrite Hsk', Hsk, insert_insert_eq; reflexivity|].
    repeat split; try congruence.
    intros b' Hb'. apply not_elem_of_cons in Hb' as [Hne Hb'].
    rewrite Hbuf' by exact Hb'. apply Hbuf. congruence.
Qed.

(** ** Detaching a sink *)

Lemma groove_queue_abort_flush_Ok w l s q :
  sinks w !! l = Some s → audioq s = Some q → queue_sound w (q_items q) →
  ∃ w' c1 c2,
    bind (groove_queue_abort (Some l)) (λ _, groove_queue_flush (Some l)) w = Ok (tt, w') ∧
    sinks w' = <[l := with_counters c1 c2 (with_audioq (Some (mkQueue [] 1)) s)]> (sinks w) ∧
    items w' = items w ∧ files w' = files w ∧ playlist w' = playlist w.
Proof.
  intros Hs Hq Hsound.
  destruct (queue_cleanup_all_Ok l (q_items q)
              (set_sinks <[l := with_audioq (Some (mkQueue [] 1)) s]> w)
              (with_audioq (Some (mkQueue [] 1)) s))
    as (w' & c1 & c2 & Hrun & Hsk & Hi & Hf & Hp & _);
    [apply lookup_insert_eq | exact Hsound |].
  exists w', c1, c2. split.
  - unfold groove_queue_abort, groove_queue_flush, the_queue, set_queue, store_sink, load,
      modify, ret, bind. unfold set_sinks in *. simpl in *.
    repeat (first [rewrite Hs | rewrite Hq | rewrite lookup_insert_eq
                  | rewrite insert_insert_eq]; simpl).
    exact Hrun.
  - simpl in *. rewrite Hsk, insert_insert_eq. repeat split; assumption.
Qed.

Lemma sink_map_wf_ext w w' :
  playlist w' = playlist w → (∀ p, format_of w' p = format_of w p) →
  sink_map_wf w → sink_map_wf w'.
Proof.
  intros Hp Hfmt [Hcount Hok]. unfold sink_map_wf, sink_classes in *. rewrite Hp.
  split; [exact Hcount|]. apply (classes_ok_ext (format_of w)); assumption.
Qed.

(** [remove_sink_from_map] on a sink that points to a playlist. *)
Lemma remove_sink_from_map_spec w l s pl :
  sinks w !! l = Some s → sink_playlist s = Some pl → sink_map_wf w →
  ∃ r w',
    remove_sink_from_map (Some l) w = Ok (r, w') ∧
    items w' = items w ∧ files w' = files w ∧ sinks w' = sinks w ∧
    buffers w' = buffers w ∧ trace w' = trace w ∧
    sink_map_wf w' ∧
    (Some l ∈ attached_sinks w →
       r = 0 ∧ attached_sinks w ≡ₚ Some l :: attached_sinks w') ∧
    (Some l ∉ attached_sinks w → r = -1 ∧ w' = w).
Proof.
  intros Hs Hpl [[Hcount Hmax] Hok].
  unfold remove_sink_from_map. unfold bind at 1. rewrite (load_Ok sinks l w s Hs).
  rewrite Hpl. simpl. unfold bind at 1. simpl. unfold bind at 1. simpl.
  unfold attached_sinks, sink_classes in *.
  destruct (sink_map (playlist w)) as [m|] eqn:Em; simpl in *.
  - pose proof (remove_sink_from_map_loop_spec (Some l) m) as Hspec.
    destruct (remove_sink_from_map_loop (Some l) m) as [[m' deleted]|].
    + destruct Hspec as (pre & c1 & c2 & post & E & Hpre & Hc1 & Em' & Hd).
      eexists _, _. split; [reflexivity|]. simpl.
      do 5 (split; [reflexivity|]).
      assert (map_sinks m = concat (map_classes m)) as Econcat.
      { pose proof (attached_sinks_classes w) as H.
        unfold attached_sinks, sink_classes in H. rewrite Em in H. exact H. }
      assert (from_option map_sinks [] m' = concat (from_option map_classes [] m')) as Econcat'.
      { pose proof (attached_sinks_classes (set_playlist (with_sink_map m' 0) w)) as H.
        unfold attached_sinks, sink_classes in H. simpl in H. exact H. }
      split; [|split].
      * unfold sink_map_wf, sink_classes. simpl. rewrite Em', E in *.
        destruct deleted.
        -- split.
           ++ rewrite !length_app in *. simpl length in *.
              rewrite wrap_int_small by (unfold INT_MAX in *; lia). split; lia.
           ++ apply (classes_ok_drop _ pre (c1 ++ Some l :: c2) post). exact Hok.
        -- split.
           ++ split; [|exact Hmax]. rewrite Hcount, !length_app. reflexivity.
           ++ apply (classes_ok_pull _ pre c1 (Some l) c2 post); [exact Hok|]. intros Hnil. apply Hd in Hnil. discriminate.
      * intros _. split; [reflexivity|].
        rewrite Econcat, Econcat', Em', E. destruct deleted.
        -- assert (c1 ++ c2 = []) as Hnil by (apply Hd; reflexivity).
           apply app_eq_nil in Hnil as [-> ->]. rewrite !concat_app. simpl.
           symmetry. apply Permutation_middle.
        -- rewrite !concat_app. simpl. rewrite <- !app_assoc. simpl.
           rewrite !(app_assoc (concat pre) c1). symmetry. apply Permutation_middle.
      * intros Hnot. destruct Hnot. rewrite Econcat, E, concat_app. simpl.
        rewrite !elem_of_app, elem_of_cons. right. left. right. left. reflexivity.
    + eexists _, _. split; [reflexivity|]. do 5 (split; [reflexivity|]).
      split; [unfold sink_map_wf, sink_classes; rewrite Em; simpl;
              split; [split; assumption | assumption]|].
      split; [intros Hin; contradiction|].
      intros _. split; reflexivity.
  - eexists _, _. split; [reflexivity|]. do 5 (split; [reflexivity|]).
    split; [unfold sink_map_wf, sink_classes; rewrite Em; simpl;
              split; [split; assumption | assumption]|].
    split; [intros Hin; inversion Hin|].
    intros _. split; reflexivity.
Qed.

(** X2: [groove_sink_detach] of a sink that points to a playlist aborts and
    empties the sink's queue, takes the sink out of the sink map once and
    clears [sink->playlist].  It returns 0 when the sink was in the map and -1
    when it was not, and the sink map keeps its invariant. *)
Theorem groove_sink_detach_keeps_sink_map (w : World) (l pl : loc) (s : GrooveSink)
    (q : GrooveQueue) :
  sinks w !! l = Some s → sink_playlist s = Some pl → audioq s = Some q →
  queue_sound w (q_items q) → sink_map_wf w →
  ∃ r w' s',
    groove_sink_detach (Some l) w = Ok (r, w') ∧
    sink_map_wf w' ∧
    (Some l ∈ attached_sinks w →
       r = 0 ∧ attached_sinks w ≡ₚ Some l :: attached_sinks w') ∧
    (Some l ∉ attached_sinks w → r = -1 ∧ playlist w' = playlist w) ∧
    sinks w' = <[l := s']> (sinks w) ∧
    sink_playlist s' = NULL ∧ audioq s' = Some (mkQueue [] 1) ∧
    audio_format s' = audio_format s ∧
    items w' = items w ∧ files w' = files w.
Proof.
  intros Hs Hpl Hq Hsound Hwf.
  destruct (groove_queue_abort_flush_Ok w l s q Hs Hq Hsound)
    as (w1 & c1 & c2 & Hflush & Hsk1 & Hi1 & Hf1 & Hp1).
  set (s1 := with_counters c1 c2 (with_audioq (Some (mkQueue [] 1)) s)) in *.
  assert (sinks w1 !! l = Some s1) as Hs1 by (rewrite Hsk1; apply lookup_insert_eq).
  assert (∀ p, format_of w1 p = format_of w p) as Hfmt1.
  { intros p. apply (format_of_insert w w1 l s s1); [exact Hs | exact Hsk1 | reflexivity]. }
  assert (sink_map_wf w1) as Hwf1 by (apply (sink_map_wf_ext w); assumption).
  destruct (remove_sink_from_map_spec w1 l s1 pl Hs1 Hpl Hwf1)
    as (r & w2 & Hrm & Hi2 & Hf2 & Hsk2 & Hb2 & Ht2 & Hwf2 & Hin & Hout).
  assert (attached_sinks w1 = attached_sinks w) as Ea by (unfold attached_sinks; rewrite Hp1; reflexivity).
  exists r, (set_sinks <[l := with_sink_playlist NULL s1]> w2), (with_sink_playlist NULL s1).
  split.
  - unfold groove_sink_detach. unfold bind at 1. rewrite (load_Ok sinks l w s Hs).
    rewrite Hpl. simpl. rewrite Hq. unfold bind at 1. unfold when.
    rewrite bool_decide_true by discriminate.
    unfold bind in Hflush. unfold bind at 1. rewrite Hflush.
    unfold bind at 1. rewrite Hrm.
    unfold store_sink, load, modify, bind. rewrite Hsk2, Hs1. reflexivity.
  - split.
    + apply (sink_map_wf_ext w2); [reflexivity | | exact Hwf2].
      intros p. eapply (format_of_insert w2 _ l s1); [rewrite Hsk2; exact Hs1 | reflexivity | reflexivity].
    + rewrite Ea in *. split; [exact Hin|]. split.
      * intros Hnot. destruct (Hout Hnot) as [-> ->]. split; [reflexivity | exact Hp1].
      * simpl. rewrite Hsk2, Hsk1, insert_insert_eq.
        repeat split; congruence.
Qed.

Lemma groove_sink_detach_keeps_sink_map_witness :
  ∃ r w', groove_sink_detach (Some 1%positive)
            (set_sinks <[1%positive := with_sink_playlist (Some 9%positive) (a_sink [])]>
               (set_playlist (with_sink_map (Some (one_class 1%positive)) 1) built_world))
          = Ok (r, w') ∧ r = 0 ∧ sink_map_wf w'.
Proof.
  destruct (groove_sink_detach_keeps_sink_map
              (set_sinks <[1%positive := with_sink_playlist (Some 9%positive) (a_sink [])]>
                 (set_playlist (with_sink_map (Some (one_class 1%positive)) 1) built_world))
              1%positive 9%positive (with_sink_playlist (Some 9%positive) (a_sink []))
              (mkQueue [] 0))
    as (r & w' & s' & Hrun & Hwf & Hin & _).
  - reflexivity.
  - reflexivity.
  - reflexivity.
  - split; [constructor | intros b Hb; inversion Hb].
  - split; [split; [reflexivity | discriminate]|].
    split; [|repeat constructor; intros Hx; inversion Hx].
    repeat constructor; [discriminate|]. exists a_format. repeat constructor.
  - exists r, w'. split; [exact Hrun|]. split; [|exact Hwf].
    apply Hin. left.
Defined.

(** ** Attaching and then detaching *)

Lemma add_sink_to_map_loop_world sink entry m w r w' :
  add_sink_to_map_loop sink entry m w = Ok (r, w') → w' = w.
Proof.
  revert r w'. induction m as [st a b|st a b n IH] using SinkMap_ind; simpl; intros r w' H.
  - apply bind_inv in H as (top & w1 & H1 & H). destruct st; [|discriminate].
    injection H1 as <- <-.
    apply bind_inv in H as (e & w1 & H1 & H). apply load_inv in H1 as [-> _].
    apply bind_inv in H as (sk & w1 & H1 & H). apply load_inv in H1 as [-> _].
    destruct (audio_formats_equal _ _); injection H as _ <-; reflexivity.
  - apply bind_inv in H as (top & w1 & H1 & H). destruct st; [|discriminate].
    injection H1 as <- <-.
    apply bind_inv in H as (e & w1 & H1 & H). apply load_inv in H1 as [-> _].
    apply bind_inv in H as (sk & w1 & H1 & H). apply load_inv in H1 as [-> _].
    destruct (audio_formats_equal _ _); [injection H as _ <-; reflexivity|].
    apply bind_inv in H as (r' & w1 & H1 & H). apply IH in H1 as ->.
    injection H as _ <-. reflexivity.
Qed.

(** The entry that the loop of [add_sink_to_map] pushed is the first that
    the loops of [remove_sink_from_map] find. *)
Lemma remove_after_add sink m : ∀ w m' w',
  sink ∉ map_sinks m →
  add_sink_to_map_loop sink (mkSinkStack sink None) m w = Ok (Some m', w') →
  remove_sink_from_map_loop sink m' = Some (Some m, false).
Proof.
  induction m as [st a b|st a b n IH] using SinkMap_ind; simpl; intros w m' w' Hnot H.
  - apply bind_inv in H as (top & w1 & H1 & H). destruct st as [st|]; [|discriminate].
    injection H1 as <- <-.
    apply bind_inv in H as (e & w1 & H1 & H). apply load_inv in H1 as [-> _].
    apply bind_inv in H as (sk & w1 & H1 & H). apply load_inv in H1 as [-> _].
    destruct (audio_formats_equal _ _); [|discriminate].
    injection H as <- _. simpl. unfold ptr_eq. rewrite bool_decide_true by reflexivity.
    reflexivity.
  - apply bind_inv in H as (top & w1 & H1 & H). destruct st as [st|]; [|discriminate].
    injection H1 as <- <-.
    apply bind_inv in H as (e & w1 & H1 & H). apply load_inv in H1 as [-> _].
    apply bind_inv in H as (sk & w1 & H1 & H). apply load_inv in H1 as [-> _].
    simpl in Hnot. apply not_elem_of_app in Hnot as [Hst Hn].
    destruct (audio_formats_equal _ _).
    + injection H as <- _. simpl. unfold ptr_eq. rewrite bool_decide_true by reflexivity.
      reflexivity.
    + apply bind_inv in H as (r' & w1 & H1 & H).
      destruct r' as [m''|]; [|discriminate]. injection H as <- _.
      simpl. pose proof (remove_sink_from_stack_spec sink st) as Hspec.
      destruct (remove_sink_from_stack sink st) as [x|].
      * destruct Hspec as (c1 & c2 & E & _). destruct Hst. rewrite E.
        rewrite elem_of_app, elem_of_cons. right. left. reflexivity.
      * rewrite (IH _ _ _ Hn H1). reflexivity.
Qed.

Lemma with_sink_map_same p : with_sink_map (sink_map p) (sink_map_count p) p = p.
Proof. destruct p; reflexivity. Qed.

Lemma with_sink_map_with_sink_map a b c d p :
  with_sink_map a b (with_sink_map c d p) = with_sink_map a b p.
Proof. reflexivity. Qed.

(** [remove_sink_from_map] undoes [add_sink_to_map]. *)
Lemma add_then_remove l w m' n' :
  Some l ∉ attached_sinks w → 0 ≤ sink_map_count (playlist w) < INT_MAX →
  add_sink_to_map true true (Some l) w = Ok (0, set_playlist (with_sink_map (Some m') n') w) →
  ∃ deleted,
    remove_sink_from_map_loop (Some l) m' = Some (sink_map (playlist w), deleted) ∧
    (if deleted then wrap_int (n' - 1) else n') = sink_map_count (playlist w).
Proof.
  intros Hnot Hc. unfold add_sink_to_map, attached_sinks in *.
  unfold bind at 1. unfold the_playlist at 1. simpl. unfold bind at 1. simpl.
  destruct (sink_map (playlist w)) as [m|] eqn:Em; simpl in *.
  - intros H. apply bind_inv in H as (r & w1 & H1 & H).
    pose proof (add_sink_to_map_loop_world _ _ _ _ _ _ H1) as ->.
    destruct r as [m2|].
    + simpl in H. unfold bind, update_playlist, modify, ret in H. simpl in H.
      simplify_eq. exists false. split; [|reflexivity].
      exact (remove_after_add _ _ _ _ _ Hnot H1).
    + simpl in H. unfold bind, update_playlist, modify, ret in H. simpl in H.
      simplify_eq. exists true. simpl. unfold ptr_eq.
      rewrite bool_decide_true by reflexivity. split; [reflexivity|].
      rewrite (wrap_int_small (_ + 1)) by (unfold INT_MAX in *; lia).
      rewrite wrap_int_small by (unfold INT_MAX in *; lia). lia.
  - intros H. unfold bind, update_playlist, modify, ret in H. simpl in H.
    simplify_eq. exists true. simpl. unfold ptr_eq.
    rewrite bool_decide_true by reflexivity. split; [reflexivity|].
    rewrite (wrap_int_small (_ + 1)) by (unfold INT_MAX in *; lia).
    rewrite wrap_int_small by (unfold INT_MAX in *; lia). lia.
Qed.

Lemma remove_sink_from_map_found w l s pl m m' deleted :
  sinks w !! l = Some s → sink_playlist s = Some pl →
  sink_map (playlist w) = Some m →
  remove_sink_from_map_loop (Some l) m = Some (m', deleted) →
  remove_sink_from_map (Some l) w =
    Ok (0, set_playlist
             (with_sink_map m' (if deleted then wrap_int (sink_map_count (playlist w) - 1)
                                else sink_map_count (playlist w))) w).
Proof.
  intros Hs Hpl Hm Hrm. unfold remove_sink_from_map. unfold bind at 1.
  rewrite (load_Ok sinks l w s Hs). rewrite Hpl. simpl. unfold bind at 1. simpl.
  unfold bind at 1. simpl. rewrite Hm. simpl. rewrite Hrm. reflexivity.
Qed.

(** X3: attaching a sink that is not in the sink map and detaching it again
    puts the playlist back as it was: the sink map, with the filter contexts
    of its classes, and [sink_map_count]. *)
Theorem groove_sink_attach_detach_round_trip (nb_channels bytes : Z → Z) (w : World)
    (l pl : loc) (s : GrooveSink) (q : GrooveQueue) :
  sinks w !! l = Some s → audioq s = Some q → queue_sound w (q_items q) →
  sink_map_wf w → sink_map_count (playlist w) < INT_MAX →
  Some l ∉ attached_sinks w →
  ∃ w1 w2,
    groove_sink_attach nb_channels bytes true true (Some l) (Some pl) w = Ok (0, w1) ∧
    groove_sink_detach (Some l) w1 = Ok (0, w2) ∧
    playlist w2 = playlist w ∧ items w2 = items w ∧ files w2 = files w ∧
    (∀ l', l' ≠ l → sinks w2 !! l' = sinks w !! l').
Proof.
  intros Hs Hq Hsound Hwf Hmax Hnot.
  assert (Forall (λ c, is_Some (example_format w c)) (sink_classes w)) as Hall.
  { destruct Hwf as [_ Hok]. apply Forall_forall. intros c Hc.
    exact (classes_ok_example _ _ _ Hok Hc). }
  destruct (groove_sink_attach_run nb_channels bytes w l s q pl Hs Hq Hall)
    as (m' & n' & Hrun & Hadd & _).
  destruct (add_then_remove l (set_sinks <[l := cached_sink nb_channels bytes s]> w) m' n')
    as (deleted & Hrm & Hn).
  { exact Hnot. }
  { destruct Hwf as [[Hc _] _]. simpl. rewrite Hc in *. lia. }
  { exact Hadd. }
  set (s1 := with_sink_playlist (Some pl)
               (with_audioq (Some (mkQueue (q_items q) 0)) (cached_sink nb_channels bytes s)))
    in *.
  set (w1 := set_sinks <[l := s1]> (set_playlist (with_sink_map (Some m') n') w)) in *.
  destruct (groove_queue_abort_flush_Ok w1 l s1 (mkQueue (q_items q) 0))
    as (w1' & c1 & c2 & Hflush & Hsk & Hi & Hf & Hp);
    [apply lookup_insert_eq | reflexivity | exact Hsound |].
  eexists w1, _. split; [exact Hrun|]. split.
  - unfold groove_sink_detach. unfold bind at 1.
    rewrite (load_Ok sinks l w1 s1) by apply lookup_insert_eq.
    simpl. unfold bind at 1. unfold when.
    unfold bind in Hflush. unfold bind at 1. rewrite Hflush.
    unfold bind at 1.
    simpl in Hrm, Hn.
    rewrite (remove_sink_from_map_found w1' l
               (with_counters c1 c2 (with_audioq (Some (mkQueue [] 1)) s1)) pl m'
               (sink_map (playlist w)) deleted);
      [| rewrite Hsk; apply lookup_insert_eq | reflexivity | rewrite Hp; reflexivity
       | exact Hrm].
    unfold store_sink, load, modify, ret, bind. simpl. rewrite Hsk, lookup_insert_eq.
    rewrite Hp. simpl. simpl in Hn. rewrite Hn. reflexivity.
  - simpl. rewrite Hp, Hi, Hf, Hsk. simpl.
    split; [destruct (playlist w); reflexivity|].
    do 2 (split; [reflexivity|]). intros l' Hne. rewrite !lookup_insert_ne by congruence. reflexivity.
Qed.

Lemma groove_sink_attach_detach_round_trip_witness :
  ∃ w1 w2,
    groove_sink_attach two_channels two_bytes true true (Some 1%positive) (Some 9%positive)
      built_world = Ok (0, w1) ∧
    groove_sink_detach (Some 1%positive) w1 = Ok (0, w2) ∧
    playlist w2 = playlist built_world.
Proof.
  destruct (groove_sink_attach_detach_round_trip two_channels two_bytes built_world
              1%positive 9%positive (a_sink []) (mkQueue [] 0))
    as (w1 & w2 & H1 & H2 & Hp & _).
  - reflexivity.
  - reflexivity.
  - split; [constructor | intros b Hb; inversion Hb].
  - split; [split; [reflexivity | discriminate]|]. split; constructor.
  - reflexivity.
  - intros Hx. inversion Hx.
  - exists w1, w2. split; [exact H1|]. split; [exact H2 | exact Hp].
Defined.

(** ** Removing an item *)

Lemma same_memory_refl w : same_memory w w.
Proof. repeat split. Qed.

Lemma same_memory_trans w1 w2 w3 : same_memory w1 w2 → same_memory w2 w3 → same_memory w1 w3.
Proof. unfold same_memory. intros H1 H2. intuition congruence. Qed.

Lemma sink_free_of_same_memory w w' l p :
  same_memory w w' → sink_free_of w l p → sink_free_of w' l p.
Proof.
  intros (_ & _ & Hs & Hb & _) (ls & s & q & pl & -> & Hls & Hq & Hpl & Hfree).
  exists ls, s, q, pl. rewrite Hs. repeat split; try assumption.
  unfold queue_free_of in *. rewrite Hb. exact Hfree.
Qed.

(** The purge hook keeps every object of a queue that holds nothing of the
    item. *)
Lemma queue_purge_each_free w ls s pl l objs :
  sinks w !! ls = Some s → sink_playlist s = Some pl →
  purge_item (playlist w) = Some l → queue_free_of w l objs →
  queue_purge_each (Some ls) objs w = Ok (objs, w).
Proof.
  intros Hs Hpl Hp. induction objs as [|obj objs IH]; intros Hfree; [reflexivity|].
  apply Forall_cons in Hfree as [(b & buf & -> & Hb & Hitem) Hfree].
  cbn [queue_purge_each]. unfold audioq_purge. unfold bind at 1. unfold bind at 1.
  rewrite (load_Ok sinks ls w s Hs). rewrite Hpl. unfold bind at 1. simpl.
  unfold bind at 1. rewrite (load_Ok buffers b w buf Hb). simpl.
  unfold ptr_eq. rewrite Hp, bool_decide_false by exact Hitem.
  unfold bind. rewrite (IH Hfree). reflexivity.
Qed.

Lemma with_audioq_same s q : audioq s = Some q →
  with_audioq (Some (mkQueue (q_items q) (q_abort_request q))) s = s.
Proof. destruct s, q. simpl. intros ->. reflexivity. Qed.

Lemma set_sinks_same w : set_sinks (λ _, sinks w) w = w.
Proof. destruct w; reflexivity. Qed.

Lemma purge_sink_free w l p :
  purge_item (playlist w) = Some l → sink_free_of w l p →
  ∃ w', purge_sink p w = Ok (0, w') ∧ same_memory w w'.
Proof.
  intros Hp (ls & s & q & pl & -> & Hs & Hq & Hpl & Hfree).
  unfold purge_sink. unfold bind at 1. rewrite (load_Ok sinks ls w s Hs).
  unfold bind at 1. unfold groove_queue_purge. unfold bind at 1.
  unfold the_queue at 1. unfold bind at 1. rewrite (load_Ok sinks ls w s Hs). rewrite Hq.
  unfold ret at 1. unfold bind at 1.
  rewrite (queue_purge_each_free w ls s pl l _ Hs Hpl Hp Hfree).
  unfold bind at 1. unfold the_queue at 1. unfold bind at 1.
  rewrite (load_Ok sinks ls w s Hs). rewrite Hq. unfold ret at 1.
  unfold set_queue, store_sink. unfold bind at 1. rewrite (load_Ok sinks ls w s Hs).
  unfold modify at 1. rewrite (with_audioq_same s q Hq).
  replace (set_sinks <[ls := s]> w) with w.
  2:{ rewrite <- (set_sinks_same w) at 1. unfold set_sinks. rewrite insert_id by exact Hs.
      reflexivity. }
  unfold bind at 1. rewrite (load_Ok sinks ls w s Hs). rewrite Hpl.
  unfold the_playlist, log, when, modify, ret, bind.
  destruct (purge s); eexists; (split; [reflexivity | repeat split]).
Qed.

Lemma every_sink_stack_purge_free l st : ∀ w,
  purge_item (playlist w) = Some l → Forall (sink_free_of w l) (stack_sinks st) →
  ∃ w', every_sink_stack purge_sink 0 st w = Ok (None, w') ∧ same_memory w w'.
Proof.
  induction st as [s|s n IH] using SinkStack_ind; intros w Hp Hall; simpl.
  - inversion_clear Hall as [|? ? Hs _].
    destruct (purge_sink_free w l s Hp Hs) as (w' & Hrun & Hsame).
    exists w'. unfold bind. rewrite Hrun. split; [reflexivity | exact Hsame].
  - inversion_clear Hall as [|? ? Hs Hn].
    destruct (purge_sink_free w l s Hp Hs) as (w1 & Hrun & Hsame).
    destruct (IH w1) as (w' & Hrun' & Hsame').
    + destruct Hsame as (_ & _ & _ & _ & ->). exact Hp.
    + eapply Forall_impl; [exact Hn|]. intros p. apply sink_free_of_same_memory, Hsame.
    + exists w'. unfold bind. rewrite Hrun. simpl. split; [exact Hrun'|].
      eapply same_memory_trans; eassumption.
Qed.

Lemma every_sink_map_purge_free l m : ∀ w,
  purge_item (playlist w) = Some l → Forall (sink_free_of w l) (map_sinks m) →
  ∃ w', every_sink_map purge_sink 0 m w = Ok (None, w') ∧ same_memory w w'.
Proof.
  induction m as [st a b|st a b n IH] using SinkMap_ind; intros w Hp Hall; simpl in *.
  - rewrite app_nil_r in Hall. destruct st as [st|]; simpl in *.
    + destruct (every_sink_stack_purge_free l st w Hp Hall) as (w' & Hrun & Hsame).
      exists w'. unfold bind. rewrite Hrun. split; [reflexivity | exact Hsame].
    + exists w. split; [reflexivity | apply same_memory_refl].
  - apply Forall_app in Hall as [Hst Hn]. destruct st as [st|]; simpl in *.
    + destruct (every_sink_stack_purge_free l st w Hp Hst) as (w1 & Hrun & Hsame).
      destruct (IH w1) as (w' & Hrun' & Hsame').
      * destruct Hsame as (_ & _ & _ & _ & ->). exact Hp.
      * eapply Forall_impl; [exact Hn|]. intros p. apply sink_free_of_same_memory, Hsame.
      * exists w'. unfold bind. rewrite Hrun. split; [exact Hrun'|].
        eapply same_memory_trans; eassumption.
    + destruct (IH w Hp Hn) as (w' & Hrun' & Hsame').
      exists w'. split; [exact Hrun' | exact Hsame'].
Qed.

Lemma every_sink_purge_free l w :
  purge_item (playlist w) = Some l → Forall (sink_free_of w l) (attached_sinks w) →
  ∃ w', every_sink purge_sink 0 w = Ok (0, w') ∧ same_memory w w'.
Proof.
  intros Hp Hall. unfold every_sink, attached_sinks in *. unfold bind at 1. simpl.
  destruct (sink_map (playlist w)) as [m|]; simpl in *.
  - destruct (every_sink_map_purge_free l m w Hp Hall) as (w' & Hrun & Hsame).
    exists w'. unfold bind. rewrite Hrun. split; [reflexivity | exact Hsame].
  - exists w. split; [reflexivity | apply same_memory_refl].
Qed.

Lemma store_item_Ok w a x f :
  items w !! a = Some x → store_item (Some a) f w = Ok (tt, set_items <[a := f x]> w).
Proof. intros Hx. unfold store_item, bind. rewrite (load_Ok items a w x Hx). reflexivity. Qed.

(** X4: [groove_playlist_remove] of an item, while the queue of every
    attached sink holds allocated buffers only (no end-of-queue sentinel)
    and none of them was cut from the item, returns, unlinks the item and
    frees it, and keeps the links of the list sound.  If the item was being
    decoded, [decode_head] moves to its [next]; otherwise [decode_head]
    stays.  No file, sink or buffer is touched, and [purge_item] is null
    again. *)
Theorem groove_playlist_remove_unlinks (w : World) (l : loc) (i : GroovePlaylistItem) :
  dll_links w → dll_closed w → items w !! l = Some i →
  Forall (sink_free_of w l) (attached_sinks w) →
  ∃ w',
    groove_playlist_remove (Some l) w = Ok (tt, w') ∧
    dll_links w' ∧ dll_closed w' ∧ items w' !! l = None ∧
    decode_head (playlist w') =
      (if decide (decode_head (playlist w) = Some l) then next i
       else decode_head (playlist w)) ∧
    purge_item (playlist w') = NULL ∧
    sink_map (playlist w') = sink_map (playlist w) ∧
    files w' = files w ∧ sinks w' = sinks w ∧ buffers w' = buffers w.
Proof.
  intros Hlinks Hclosed Hi Hfree.
  assert (∃ w', groove_playlist_remove (Some l) w = Ok (tt, w') ∧
                decode_head (playlist w') =
                  (if decide (decode_head (playlist w) = Some l) then next i
                   else decode_head (playlist w)) ∧
                purge_item (playlist w') = NULL ∧
                sink_map (playlist w') = sink_map (playlist w) ∧
                files w' = files w ∧ sinks w' = sinks w ∧ buffers w' = buffers w)
    as (w' & Hrun & Hrest).
  { unfold groove_playlist_remove. unfold bind at 1. unfold the_playlist at 1.
    unfold bind at 1. rewrite (load_Ok items l w i Hi).
    (* the decode head *)
    set (w1 := if decide (decode_head (playlist w) = Some l)
               then set_playlist (with_decode_head (next i)) w else w).
    assert (when (ptr_eq (Some l) (decode_head (playlist w)))
              (update_playlist (with_decode_head (next i))) w = Ok (tt, w1)) as H1.
    { unfold when, ptr_eq, w1. case_bool_decide; case_decide; try congruence; reflexivity. }
    unfold bind at 1. rewrite H1.
    assert (items w1 = items w ∧ files w1 = files w ∧ sinks w1 = sinks w ∧
            buffers w1 = buffers w ∧ sink_map (playlist w1) = sink_map (playlist w) ∧
            decode_head (playlist w1) =
              (if decide (decode_head (playlist w) = Some l) then next i
               else decode_head (playlist w)))
      as (Ei1 & Ef1 & Es1 & Eb1 & Em1 & Ed1).
    { unfold w1. case_decide; repeat split. }
    clearbody w1. clear H1.
    (* the link before *)
    assert (∃ w2, (if negb (is_null (prev i)) then store_item (prev i) (with_next (next i))
                   else update_playlist (with_head (next i))) w1 = Ok (tt, w2) ∧
                  (∃ i2, items w2 !! l = Some i2 ∧ next i2 = next i ∧ prev i2 = prev i) ∧
                  (∀ a, is_Some (items w !! a) → is_Some (items w2 !! a)) ∧
                  files w2 = files w ∧ sinks w2 = sinks w ∧ buffers w2 = buffers w ∧
                  sink_map (playlist w2) = sink_map (playlist w) ∧
                  decode_head (playlist w2) = decode_head (playlist w1))
      as (w2 & H2 & (i2 & Hi2 & En2 & Ep2) & Ha2 & Ef2 & Es2 & Eb2 & Em2 & Ed2).
    { destruct (prev i) as [pr|] eqn:Epr; simpl.
      - destruct (Hclosed l i pr Hi) as [ipr Hpr]; [right; exact Epr|].
        rewrite (store_item_Ok w1 pr ipr) by (rewrite Ei1; exact Hpr).
        eexists. split; [reflexivity|]. simpl. rewrite Ei1. split.
        + destruct (decide (pr = l)) as [->|Hne].
          * rewrite lookup_insert_eq. eexists. split; [reflexivity|].
            rewrite Hi in Hpr. injection Hpr as <-. split; [reflexivity | exact Epr].
          * rewrite lookup_insert_ne by exact Hne. exists i. repeat split; assumption.
        + split; [|repeat split; assumption].
          intros a Ha. destruct (decide (pr = a)) as [->|Hne].
          * rewrite lookup_insert_eq. eauto.
          * rewrite lookup_insert_ne by exact Hne. exact Ha.
      - eexists. split; [reflexivity|]. simpl. rewrite Ei1.
        split; [exists i; repeat split; assumption|].
        split; [auto|]. repeat split; assumption. }
    unfold bind at 1. rewrite H2. clear H2.
    unfold bind at 1. rewrite (load_Ok items l w2 i2 Hi2).
    (* the link behind *)
    assert (∃ w3, (if negb (is_null (next i2)) then store_item (next i2) (with_prev (prev i2))
                   else update_playlist (with_tail (prev i2))) w2 = Ok (tt, w3) ∧
                  is_Some (items w3 !! l) ∧
                  files w3 = files w ∧ sinks w3 = sinks w ∧ buffers w3 = buffers w ∧
                  sink_map (playlist w3) = sink_map (playlist w) ∧
                  decode_head (playlist w3) = decode_head (playlist w1))
      as (w3 & H3 & Hl3 & Ef3 & Es3 & Eb3 & Em3 & Ed3).
    { rewrite En2. destruct (next i) as [nx|] eqn:Enx; simpl.
      - destruct (Hclosed l i nx Hi) as [inx Hnx]; [left; exact Enx|].
        destruct (Ha2 nx (mk_is_Some _ _ Hnx)) as [inx2 Hnx2].
        rewrite (store_item_Ok w2 nx inx2 _ Hnx2).
        eexists. split; [reflexivity|]. simpl. split; [|repeat split; assumption].
        destruct (decide (nx = l)) as [->|Hne].
        + rewrite lookup_insert_eq. eauto.
        + rewrite lookup_insert_ne by exact Hne. eauto.
      - eexists. split; [reflexivity|]. simpl. split; [eauto|]. repeat split; assumption. }
    unfold bind at 1. rewrite H3. clear H3.
    (* the purge *)
    unfold bind at 1. unfold update_playlist at 1, modify at 1.
    destruct (every_sink_purge_free l (set_playlist (with_purge_item (Some l)) w3))
      as (w5 & H5 & (Ei5 & Ef5 & Es5 & Eb5 & Ep5)).
    { reflexivity. }
    { unfold attached_sinks. simpl. rewrite Em3.
      eapply Forall_impl; [exact Hfree|].
      intros p (ls & s & q & pl & -> & Hs & Hq & Hpl & Hq').
      exists ls, s, q, pl. simpl. rewrite Es3. repeat split; try assumption.
      unfold queue_free_of in *. simpl. rewrite Eb3. exact Hq'. }
    unfold bind at 1. rewrite H5.
    unfold bind at 1. unfold update_playlist at 1, modify at 1.
    unfold free_item, bind. destruct Hl3 as [i3 Hl3].
    rewrite (load_Ok items l _ i3) by (simpl; rewrite Ei5; exact Hl3).
    eexists. split; [reflexivity|]. simpl. rewrite Ep5, Ef5, Es5, Eb5. simpl.
    rewrite Ed3, Ed1. repeat split; assumption. }
  exists w'. split; [exact Hrun|].
  destruct (groove_playlist_remove_keeps_dll l w w' Hlinks Hclosed Hrun) as (H1 & H2 & H3).
  split; [exact H1|]. split; [exact H2|]. split; [exact H3 | exact Hrest].
Qed.

(** The example worlds are sound lists of one item. *)
Lemma built_world_links : dll_links built_world.
Proof.
  split.
  - intros h [= <-]. eexists. split; reflexivity.
  - intros t [= <-]. eexists. split; reflexivity.
  - intros a b ia ib Ha Hb.
    change (items built_world) with
      ({[ 50%positive := mkItem (Some 100%positive) 1%float NULL NULL ]}
         : gmap loc GroovePlaylistItem) in Ha, Hb.
    apply lookup_singleton_Some in Ha as [<- <-].
    apply lookup_singleton_Some in Hb as [<- <-]. simpl. split; discriminate.
Qed.

Lemma built_world_closed : dll_closed built_world.
Proof.
  intros a ia b Ha.
  change (items built_world) with
    ({[ 50%positive := mkItem (Some 100%positive) 1%float NULL NULL ]}
       : gmap loc GroovePlaylistItem) in Ha.
  apply lookup_singleton_Some in Ha as [<- <-]. simpl. intros [?|?]; discriminate.
Qed.

Lemma listening_world_links : dll_links listening_world.
Proof.
  split.
  - intros h [= <-]. eexists. split; reflexivity.
  - intros t [= <-]. eexists. split; reflexivity.
  - intros a b ia ib Ha Hb.
    change (items listening_world) with
      ({[ 50%positive := mkItem (Some 100%positive) 1%float NULL NULL ]}
         : gmap loc GroovePlaylistItem) in Ha, Hb.
    apply lookup_singleton_Some in Ha as [<- <-].
    apply lookup_singleton_Some in Hb as [<- <-]. simpl. split; discriminate.
Qed.

Lemma listening_world_closed : dll_closed listening_world.
Proof.
  intros a ia b Ha.
  change (items listening_world) with
    ({[ 50%positive := mkItem (Some 100%positive) 1%float NULL NULL ]}
       : gmap loc GroovePlaylistItem) in Ha.
  apply lookup_singleton_Some in Ha as [<- <-]. simpl. intros [?|?]; discriminate.
Qed.

Lemma groove_playlist_remove_unlinks_witness :
  ∃ w', groove_playlist_remove (Some 50%positive) listening_world = Ok (tt, w') ∧
        items w' !! 50%positive = None ∧ decode_head (playlist w') = NULL ∧
        q_items <$> queue_of w' 1%positive = Some [Some 7%positive].
Proof.
  destruct (groove_playlist_remove_unlinks listening_world 50%positive
              (mkItem (Some 100%positive) 1%float NULL NULL))
    as (w' & Hrun & _ & _ & Hfree & Hd & _ & _ & _ & Hsinks & _).
  - exact listening_world_links.
  - exact listening_world_closed.
  - reflexivity.
  - constructor; [|constructor].
    eexists 1%positive, _, (mkQueue [Some 7%positive] 0), 9%positive.
    split; [reflexivity|]. split; [reflexivity|]. split; [reflexivity|].
    split; [reflexivity|]. constructor; [|constructor].
    exists 7%positive, (a_buffer NULL 70%positive 1).
    split; [reflexivity|]. split; [reflexivity|]. discriminate.
  - exists w'. split; [exact Hrun|]. split; [exact Hfree|]. split; [exact Hd|].
    unfold queue_of. rewrite Hsinks. reflexivity.
Defined.

(** ** Inserting an item *)

(** Follows the reads and writes of a run through the heap of items. *)
Ltac run_heap :=
  repeat (first [ rewrite insert_insert_eq
                | rewrite lookup_insert_eq
                | rewrite lookup_insert_ne by congruence
                | match goal with H : _ !! _ = Some _ |- _ => rewrite H end ];
          simpl).

(** [groove_playlist_insert] returns when the pointers it follows are
    sound. *)
Lemma groove_playlist_insert_Ok w l f fl g nx :
  dll_links w → dll_closed w → items w !! l = None → files w !! f = Some fl →
  (head (playlist w) ≠ NULL → tail (playlist w) ≠ NULL) →
  (∀ n, nx = Some n → is_Some (items w !! n)) →
  ∃ w', groove_playlist_insert (Some l) (Some f) g nx w = Ok (Some l, w') ∧
        sinks w' = sinks w ∧ buffers w' = buffers w ∧ trace w' = trace w ∧
        (nx = NULL → head (playlist w) = NULL →
           decode_head (playlist w') = Some l ∧
           files w' = <[f := with_seek 0 0 fl]> (files w)) ∧
        (nx ≠ NULL ∨ head (playlist w) ≠ NULL →
           decode_head (playlist w') = decode_head (playlist w) ∧ files w' = files w).
Proof.
  intros Hlinks Hclosed Hl Hf Hends Hnx.
  unfold groove_playlist_insert, store_item, store_file, load, update_playlist,
    the_playlist, modify, ret, bind, set_items, set_files, set_playlist. simpl.
  run_heap.
  destruct nx as [n|]; simpl.
  - destruct (Hnx n eq_refl) as [inn Hn].
    assert (n ≠ l) as Hnl by congruence.
    run_heap.
    destruct (prev inn) as [p|] eqn:Ep; simpl;
      [|eexists; repeat split; intros; try reflexivity; try discriminate; intuition congruence].
    destruct (Hclosed n inn p Hn) as [ip Hp]; [right; exact Ep|].
    assert (p ≠ l) as Hpl by congruence.
    run_heap.
    destruct (decide (p = n)) as [->|Hpn]; run_heap; eexists;
      repeat split; intros; try reflexivity; try discriminate; intuition congruence.
  - destruct (head (playlist w)) as [h|] eqn:Eh; simpl.
    + destruct (tail (playlist w)) as [t|] eqn:Et; [|destruct Hends; congruence].
      destruct (dll_tail w Hlinks t Et) as (it & Ht & _).
      assert (t ≠ l) as Htl by congruence.
      run_heap. eexists. repeat split; intros; try reflexivity; try discriminate; intuition congruence.
    + run_heap. eexists. repeat split; intros; try reflexivity; try discriminate; intuition congruence.
Qed.

(** X5: [groove_playlist_insert] at the end of the list, or before an item
    that has a [prev], returns the new item and keeps the links of the list
    sound; the new item carries the file and the gain and sits between the
    [prev] of [next] (the old tail when [next] is null) and [next]. *)
Theorem groove_playlist_insert_links (w : World) (l f : loc) (fl : GrooveFilePrivate)
    (g : float) (nx : option loc) :
  dll_links w → dll_closed w → dll_ends w →
  items w !! l = None → files w !! f = Some fl →
  (∀ n, nx = Some n → ∃ inn, items w !! n = Some inn ∧ prev inn ≠ NULL) →
  ∃ w',
    groove_playlist_insert (Some l) (Some f) g nx w = Ok (Some l, w') ∧
    dll_links w' ∧ dll_closed w' ∧ dll_ends w' ∧
    items w' !! l =
      Some (mkItem (Some f) g
              (match nx with
               | Some n => items w !! n ≫= prev
               | None => tail (playlist w)
               end) nx) ∧
    tail (playlist w') = (if nx is Some _ then tail (playlist w) else Some l) ∧
    head (playlist w') =
      (match nx, head (playlist w) with
       | None, None => Some l
       | _, h => h
       end).
Proof.
  intros Hlinks Hclosed Hends Hl Hf Hnx.
  destruct (groove_playlist_insert_Ok w l f fl g nx Hlinks Hclosed Hl Hf)
    as (w' & Hrun & _).
  { intros Hne Ht. apply Hends in Ht. contradiction. }
  { intros n Hn. destruct (Hnx n Hn) as (inn & Hinn & _). eauto. }
  exists w'. split; [exact Hrun|].
  destruct (groove_playlist_insert_keeps_dll l (Some f) g nx w _ w' Hlinks Hclosed Hl Hnx Hrun)
    as [H1 H2].
  split; [exact H1|]. split; [exact H2|].
  apply groove_playlist_insert_inv in Hrun as [_ H].
  unfold dll_ends in *.
  destruct nx as [n|].
  - destruct H as (inn & Hn & H). destruct (Hnx n eq_refl) as (inn' & Hn' & Hprev).
    assert (n ≠ l) as Hnl by congruence.
    rewrite lookup_insert_ne in Hn by congruence.
    assert (inn' = inn) as -> by congruence.
    destruct (prev inn) as [p|] eqn:Ep; [|contradiction].
    destruct H as (Ei & Hp & Eh & Et).
    assert (p ≠ l) as Hpl.
    { intros ->. destruct (Hclosed n inn l Hn) as [x Hx]; [right; exact Ep | congruence]. }
    split; [rewrite Eh, Et; exact Hends|].
    split; [|split; [exact Et | rewrite Eh; destruct (head (playlist w)); reflexivity]].
    rewrite Ei, !lookup_alter, !decide_False, lookup_insert_eq by congruence.
    rewrite Hn. simpl. rewrite Ep. reflexivity.
  - destruct (head (playlist w)) as [hd|] eqn:Ehd.
    + destruct H as (t & Ht & _ & Ei & Eh & Et).
      assert (t ≠ l) as Htl.
      { intros ->. destruct (dll_tail w Hlinks l Ht) as (x & Hx & _). congruence. }
      split; [rewrite Eh, Et; split; discriminate|].
      split; [|split; [exact Et | exact Eh]].
      rewrite Ei, lookup_alter, decide_False, lookup_insert_eq by congruence. reflexivity.
    + destruct H as (Ei & Eh & Et & _).
      split; [rewrite Eh, Et; split; discriminate|].
      split; [|split; [exact Et | exact Eh]].
      rewrite Ei, lookup_insert_eq.
      rewrite (proj1 Hends eq_refl). reflexivity.
Qed.

Lemma groove_playlist_insert_links_witness :
  ∃ w', groove_playlist_insert (Some 51%positive) (Some 100%positive) 1%float NULL
          built_world = Ok (Some 51%positive, w') ∧
        dll_links w' ∧ tail (playlist w') = Some 51%positive.
Proof.
  destruct (groove_playlist_insert_links built_world 51%positive 100%positive a_file
              1%float NULL)
    as (w' & Hrun & Hlinks & _ & _ & _ & Ht & _).
  - exact built_world_links.
  - exact built_world_closed.
  - split; discriminate.
  - reflexivity.
  - reflexivity.
  - intros n [=].
  - exists w'. split; [exact Hrun|]. split; [exact Hlinks | exact Ht].
Defined.

(** X6: an insert into an empty playlist makes the new item the decode head
    and rewinds its file ([seek_pos] 0, [seek_flush] 0).  An insert into a
    playlist that has items changes neither [decode_head] nor any file: an
    item that is added after the worker reached the end of the list is not
    scheduled by the insert. *)
Theorem groove_playlist_insert_decode_head (w : World) (l f : loc) (fl : GrooveFilePrivate)
    (g : float) (nx : option loc) :
  dll_links w → dll_closed w → dll_ends w →
  items w !! l = None → files w !! f = Some fl →
  (∀ n, nx = Some n → is_Some (items w !! n)) →
  ∃ w',
    groove_playlist_insert (Some l) (Some f) g nx w = Ok (Some l, w') ∧
    (nx = NULL → head (playlist w) = NULL →
       decode_head (playlist w') = Some l ∧
       files w' = <[f := with_seek 0 0 fl]> (files w)) ∧
    (nx ≠ NULL ∨ head (playlist w) ≠ NULL →
       decode_head (playlist w') = decode_head (playlist w) ∧ files w' = files w) ∧
    sinks w' = sinks w ∧ buffers w' = buffers w ∧ trace w' = trace w.
Proof.
  intros Hlinks Hclosed Hends Hl Hf Hnx.
  destruct (groove_playlist_insert_Ok w l f fl g nx Hlinks Hclosed Hl Hf)
    as (w' & Hrun & Hs & Hb & Ht & Hempty & Hfull); [|exact Hnx|].
  { intros Hne Htl. apply Hends in Htl. contradiction. }
  exists w'. repeat split; try assumption; [apply Hempty | apply Hempty | apply Hfull | apply Hfull];
    assumption.
Qed.

Lemma groove_playlist_insert_decode_head_witness :
  ∃ w', groove_playlist_insert (Some 51%positive) (Some 100%positive) 1%float NULL
          (set_playlist (with_decode_head NULL) built_world) = Ok (Some 51%positive, w') ∧
        decode_head (playlist w') = NULL.
Proof.
  destruct (groove_playlist_insert_decode_head
              (set_playlist (with_decode_head NULL) built_world)
              51%positive 100%positive a_file 1%float NULL)
    as (w' & Hrun & _ & Hfull & _).
  - destruct built_world_links as [H1 H2 H3]. split; assumption.
  - exact built_world_closed.
  - split; discriminate.
  - reflexivity.
  - reflexivity.
  - intros n [=].
  - exists w'. split; [exact Hrun|]. apply Hfull. right. discriminate.
Defined.

(** ** Counting *)

Lemma groove_playlist_count_loop_fuel ls : ∀ fuel w a c,
  chain (items w) a ls → (length ls ≤ fuel)%nat →
  0 ≤ c → c + Z.of_nat (length ls) ≤ INT_MAX →
  groove_playlist_count_loop fuel a c w = Ok (c + Z.of_nat (length ls), w).
Proof.
  induction ls as [|l ls IH]; intros fuel w a c Hchain Hfuel Hc Hmax; simpl in Hchain.
  - subst a. destruct fuel; simpl; rewrite Z.add_0_r; reflexivity.
  - destruct Hchain as (-> & i & Hi & Hrest).
    destruct fuel as [|fuel]; [simpl in Hfuel; lia|].
    cbn [length groove_playlist_count_loop]. change (is_null (Some l)) with false. cbv iota.
    rewrite (bind_Ok _ _ _ _ _ (load_Ok items l w i Hi)).
    rewrite wrap_int_small by (unfold INT_MAX in *; cbn [length] in Hmax; lia).
    rewrite (IH fuel w (next i) (c + 1) Hrest) by (cbn [length] in *; lia).
    do 2 f_equal. cbn [length]. lia.
Qed.

(** X7: on a playlist whose items, followed from [head] through [next], are
    [ls], [groove_playlist_count] returns the length of [ls] and changes
    nothing; appending items one after the other to such a playlist makes it
    hold them behind [ls], in the order of the calls. *)
Theorem groove_playlist_count_is_length (w : World) (ls new : list loc) (f : loc)
    (fl : GrooveFilePrivate) (g : float) (fuel : nat) :
  playlist_holds w ls → files w !! f = Some fl →
  NoDup new → (∀ l, l ∈ new → items w !! l = None) →
  (length (ls ++ new) ≤ fuel)%nat → Z.of_nat (length (ls ++ new)) ≤ INT_MAX →
  groove_playlist_count fuel w = Ok (Z.of_nat (length ls), w) ∧
  ∃ w', append_all new (Some f) g w = Ok (tt, w') ∧
        playlist_holds w' (ls ++ new) ∧
        groove_playlist_count fuel w' = Ok (Z.of_nat (length (ls ++ new)), w').
Proof.
  intros Hholds Hf Hnd Hfresh Hfuel Hmax. rewrite length_app in Hfuel, Hmax.
  assert (∀ w ls, playlist_holds w ls → (length ls ≤ fuel)%nat →
                  Z.of_nat (length ls) ≤ INT_MAX →
                  groove_playlist_count fuel w = Ok (Z.of_nat (length ls), w)) as Hcount.
  { intros w0 ls0 (Hchain & _) Hfuel0 Hmax0. unfold groove_playlist_count, the_playlist, bind.
    apply (groove_playlist_count_loop_fuel ls0 fuel w0 _ 0 Hchain); lia. }
  split; [apply Hcount; [exact Hholds | lia | lia]|].
  destruct (append_all_holds new f g w ls fl Hholds Hf Hnd Hfresh) as (w' & Hrun & Hholds').
  exists w'. split; [exact Hrun|]. split; [exact Hholds'|].
  apply Hcount; [exact Hholds' | |]; rewrite length_app; lia.
Qed.

Lemma groove_playlist_count_is_length_witness :
  ∃ w', append_all [51%positive; 52%positive] (Some 100%positive) 1%float built_world
          = Ok (tt, w') ∧
        groove_playlist_count 8 w' = Ok (3, w').
Proof.
  destruct (groove_playlist_count_is_length built_world [50%positive]
              [51%positive; 52%positive] 100%positive a_file 1%float 8)
    as (_ & w' & Hrun & _ & Hcount).
  - split; [|split].
    + split; [reflexivity|]. eexists. split; [reflexivity|]. reflexivity.
    + reflexivity.
    + intros t i [= <-] [= <-]. reflexivity.
  - reflexivity.
  - repeat constructor; rewrite ?elem_of_cons, ?elem_of_nil; intuition discriminate.
  - intros l Hl. apply elem_of_cons in Hl as [->|Hl]; [reflexivity|].
    apply list_elem_of_singleton in Hl as ->. reflexivity.
  - simpl. lia.
  - simpl. unfold INT_MAX. lia.
  - exists w'. split; [exact Hrun | exact Hcount].
Defined.

(** ** What a call leaves unchanged, for any preorder on worlds *)

Section KeepsPreorder.

Variable R : World → World → Prop.
Hypothesis R_refl : ∀ w, R w w.
Hypothesis R_trans : ∀ w1 w2 w3, R w1 w2 → R w2 w3 → R w1 w3.

Lemma pk_ret {A} (a : A) : keeps R (ret a).
Proof. intros w a' w' [= _ <-]. apply R_refl. Qed.

Lemma pk_fail {A} f : keeps R (fail f : M A).
Proof. intros w a w' [=]. Qed.

Lemma pk_bind {A B} (c : M A) (k : A → M B) :
keeps R c → (∀ a, keeps R (k a)) → keeps R (bind c k).
Proof.
intros Hc Hk w b w' H. apply bind_inv in H as (a & w1 & H1 & H2).
eapply R_trans; [eapply Hc, H1 | eapply Hk, H2].
Qed.

Lemma pk_load {A} (heap : World → gmap loc A) p : keeps R (load heap p).
Proof. intros w a w' H. apply load_inv in H as [-> _]. apply R_refl. Qed.

Lemma pk_the_playlist : keeps R the_playlist.
Proof. intros w a w' [= _ <-]. apply R_refl. Qed.

Lemma pk_deref {A} (p : option A) : keeps R (deref p).
Proof. destruct p; [apply pk_ret | apply pk_fail]. Qed.

Lemma pk_modify f : (∀ w, R w (f w)) → keeps R (modify f).
Proof. intros Hf w a w' H. injection H as H. subst w'. apply Hf. Qed.

Lemma pk_when (c : bool) body : keeps R body → keeps R (when c body).
Proof. intros Hb. destruct c; [exact Hb | apply pk_ret]. Qed.

End KeepsPreorder.

(** Breaks a [keeps] goal down; [tac] shows that a write keeps the
    relation. *)
Ltac pk_step tac :=
  first
    [ apply pk_ret; assumption
    | apply pk_fail
    | apply pk_load; assumption
    | apply pk_the_playlist; assumption
    | apply pk_deref; assumption
    | apply pk_when; [assumption |]
    | apply pk_modify; [intros ?; tac]
    | match goal with H : context [keeps] |- _ => apply H end
    | apply pk_bind; [assumption | | intros ?]
    | match goal with
      | |- keeps _ (match ?x with _ => _ end) => destruct x
      | |- keeps _ (if ?x then _ else _) => destruct x
      | |- keeps _ (let '(_, _) := ?x in _) => destruct x
      end ].
Ltac pk_auto tac := repeat (pk_step tac).

(** ** The purge hook and the end-of-queue sentinel *)

Lemma audioq_purge_sentinel sink w r : audioq_purge sink end_of_q_sentinel w ≠ Ok r.
Proof.
  unfold audioq_purge, end_of_q_sentinel, load, the_playlist, bind, fail.
  destruct sink as [l|]; [|discriminate].
  destruct (sinks w !! l) as [s|]; [|discriminate].
  destruct (sink_playlist s); discriminate.
Qed.

Lemma queue_purge_each_sentinel sink objs : ∀ w r,
  end_of_q_sentinel ∈ objs → queue_purge_each sink objs w ≠ Ok r.
Proof.
  induction objs as [|obj objs IH]; intros w r Hin; [inversion Hin|].
  cbn [queue_purge_each]. intros H. apply bind_inv in H as (hit & w1 & H1 & H).
  apply elem_of_cons in Hin as [<-|Hin]; [exact (audioq_purge_sentinel _ _ _ H1)|].
  destruct hit.
  - apply bind_inv in H as (u & w2 & _ & H). exact (IH _ _ Hin H).
  - apply bind_inv in H as (kept & w2 & H2 & _). exact (IH _ _ Hin H2).
Qed.

Lemma purge_sink_sentinel w ls s q r :
  sinks w !! ls = Some s → audioq s = Some q → end_of_q_sentinel ∈ q_items q →
  purge_sink (Some ls) w ≠ Ok r.
Proof.
  intros Hs Hq Hin H. unfold purge_sink in H.
  apply bind_inv in H as (s0 & w0 & H0 & H). apply load_inv in H0 as [-> _].
  apply bind_inv in H as (u & w1 & H1 & _). unfold groove_queue_purge in H1.
  apply bind_inv in H1 as (q0 & w0 & H0 & H1). unfold the_queue in H0.
  rewrite (bind_Ok _ _ _ _ _ (load_Ok sinks ls w s Hs)), Hq in H0. injection H0 as <- <-.
  apply bind_inv in H1 as (kept & w2 & H2 & _).
  exact (queue_purge_each_sentinel _ _ _ _ Hin H2).
Qed.

Section SinksBut.

Variable l : loc.

Let R_refl : ∀ w, sinks_but l w w.
Proof. intros w x _. reflexivity. Qed.

Let R_trans : ∀ w1 w2 w3, sinks_but l w1 w2 → sinks_but l w2 w3 → sinks_but l w1 w3.
Proof. intros w1 w2 w3 H1 H2 x Hx. rewrite (H2 x Hx). apply H1, Hx. Qed.

Ltac sinks_write :=
intros ? ?; simpl; rewrite ?lookup_insert_ne by congruence; reflexivity.

Lemma store_sink_but f : keeps (sinks_but l) (store_sink (Some l) f).
Proof. unfold store_sink. pk_auto sinks_write. Qed.

Lemma store_buffer_but p f : keeps (sinks_but l) (store_buffer p f).
Proof. unfold store_buffer. pk_auto sinks_write. Qed.

Lemma groove_buffer_unref_but b : keeps (sinks_but l) (groove_buffer_unref b).
Proof.
pose proof store_buffer_but. unfold groove_buffer_unref, log. pk_auto sinks_write.
Qed.

Lemma audioq_cleanup_but obj : keeps (sinks_but l) (audioq_cleanup (Some l) obj).
Proof.
pose proof store_sink_but. pose proof groove_buffer_unref_but.
unfold audioq_cleanup. pk_auto sinks_write.
Qed.

Lemma audioq_purge_but obj : keeps (sinks_but l) (audioq_purge (Some l) obj).
Proof. unfold audioq_purge. pk_auto sinks_write. Qed.

Lemma queue_purge_each_but objs : keeps (sinks_but l) (queue_purge_each (Some l) objs).
Proof.
pose proof audioq_cleanup_but. pose proof audioq_purge_but.
induction objs as [|obj objs IH]; simpl; pk_auto sinks_write.
Qed.

Lemma the_queue_but p : keeps (sinks_but l) (the_queue p).
Proof. unfold the_queue. pk_auto sinks_write. Qed.

Lemma groove_queue_purge_but : keeps (sinks_but l) (groove_queue_purge (Some l)).
Proof.
pose proof store_sink_but. pose proof the_queue_but. pose proof queue_purge_each_but.
unfold groove_queue_purge, set_queue. pk_auto sinks_write.
Qed.

Lemma purge_sink_but : keeps (sinks_but l) (purge_sink (Some l)).
Proof.
pose proof groove_queue_purge_but. unfold purge_sink, log. pk_auto sinks_write.
Qed.

End SinksBut.

Lemma purge_sink_zero p w v w' : purge_sink p w = Ok (v, w') → v = 0.
Proof.
  unfold purge_sink. intros H.
  apply bind_inv in H as (s0 & w0 & _ & H).
  apply bind_inv in H as (u & w1 & _ & H).
  apply bind_inv in H as (s1 & w2 & _ & H).
  destruct (sink_playlist s1); [|discriminate].
  apply bind_inv in H as (p0 & w3 & _ & H).
  apply bind_inv in H as (u' & w4 & _ & H). injection H as <- _. reflexivity.
Qed.

Lemma sentinel_queued_purge w w' p v q :
  purge_sink p w = Ok (v, w') → sentinel_queued w q → sentinel_queued w' q.
Proof.
  intros H (ls & s & qu & -> & Hs & Hq & Hin).
  destruct p as [l|].
  - destruct (decide (l = ls)) as [->|Hne].
    + destruct (purge_sink_sentinel w ls s qu _ Hs Hq Hin H).
    + exists ls, s, qu. split; [reflexivity|]. split; [|split; assumption].
      rewrite (purge_sink_but l w v w' H ls) by congruence. exact Hs.
  - unfold purge_sink, load, bind in H. discriminate.
Qed.

Lemma every_sink_stack_purge_sentinel st : ∀ w r,
  Exists (sentinel_queued w) (stack_sinks st) →
  every_sink_stack purge_sink 0 st w ≠ Ok r.
Proof.
  induction st as [s|s n IH] using SinkStack_ind; intros w r Hex H; simpl in *.
  - apply Exists_cons in Hex as [(ls & sk & q & -> & Hs & Hq & Hin)|Hex]; [|inversion Hex].
    apply bind_inv in H as (v & w1 & H1 & _).
    exact (purge_sink_sentinel w ls sk q _ Hs Hq Hin H1).
  - apply bind_inv in H as (v & w1 & H1 & H).
    apply Exists_cons in Hex as [(ls & sk & q & -> & Hs & Hq & Hin)|Hex].
    + exact (purge_sink_sentinel w ls sk q _ Hs Hq Hin H1).
    + rewrite (purge_sink_zero _ _ _ _ H1) in H. simpl in H.
      apply (IH w1 r); [|exact H].
      eapply Exists_impl; [exact Hex|]. intros q. apply (sentinel_queued_purge _ _ _ _ _ H1).
Qed.

Lemma every_sink_stack_purge_keeps st : ∀ w r w' q,
  every_sink_stack purge_sink 0 st w = Ok (r, w') →
  sentinel_queued w q → sentinel_queued w' q.
Proof.
  induction st as [s|s n IH] using SinkStack_ind; intros w r w' q H Hq; simpl in *.
  - apply bind_inv in H as (v & w1 & H1 & H).
    destruct (negb (v =? 0)); injection H as _ <-;
      exact (sentinel_queued_purge _ _ _ _ _ H1 Hq).
  - apply bind_inv in H as (v & w1 & H1 & H).
    pose proof (sentinel_queued_purge _ _ _ _ _ H1 Hq) as Hq1.
    destruct (negb (v =? 0)); [injection H as _ <-; exact Hq1|].
    exact (IH _ _ _ _ H Hq1).
Qed.

Lemma every_sink_stack_purge_none st : ∀ w r w',
  every_sink_stack purge_sink 0 st w = Ok (r, w') → r = None.
Proof.
  induction st as [s|s n IH] using SinkStack_ind; intros w r w' H; simpl in *.
  - apply bind_inv in H as (v & w1 & H1 & H).
    rewrite (purge_sink_zero _ _ _ _ H1) in H. injection H as <- _. reflexivity.
  - apply bind_inv in H as (v & w1 & H1 & H).
    rewrite (purge_sink_zero _ _ _ _ H1) in H. simpl in H. exact (IH _ _ _ H).
Qed.

Lemma every_sink_map_purge_sentinel m : ∀ w r,
  Exists (sentinel_queued w) (map_sinks m) →
  every_sink_map purge_sink 0 m w ≠ Ok r.
Proof.
  induction m as [st a b|st a b n IH] using SinkMap_ind; intros w r Hex H; simpl in *.
  - rewrite app_nil_r in Hex. destruct st as [st|]; simpl in *; [|inversion Hex].
    apply bind_inv in H as (v & w1 & H1 & _).
    exact (every_sink_stack_purge_sentinel st w _ Hex H1).
  - apply Exists_app in Hex as [Hex|Hex].
    + destruct st as [st|]; simpl in *; [|inversion Hex].
      apply bind_inv in H as (v & w1 & H1 & _).
      exact (every_sink_stack_purge_sentinel st w _ Hex H1).
    + destruct st as [st|]; simpl in *.
      * apply bind_inv in H as (v & w1 & H1 & H).
        pose proof (every_sink_stack_purge_none _ _ _ _ H1) as ->.
        apply (IH w1 r); [|exact H].
        eapply Exists_impl; [exact Hex|]. intros q.
        apply (every_sink_stack_purge_keeps _ _ _ _ _ H1).
      * unfold bind, ret in H. exact (IH w r Hex H).
Qed.

Lemma every_sink_purge_sentinel w r :
  Exists (sentinel_queued w) (attached_sinks w) → every_sink purge_sink 0 w ≠ Ok r.
Proof.
  unfold every_sink, attached_sinks. intros Hex H.
  apply bind_inv in H as (p & w0 & [= <- <-] & H).
  destruct (sink_map (playlist w)) as [m|]; simpl in *; [|inversion Hex].
  apply bind_inv in H as (v & w1 & H1 & _).
  exact (every_sink_map_purge_sentinel m w _ Hex H1).
Qed.

Section SameSinks.

Let R_refl : ∀ w, same_sinks w w.
Proof. intros w. split; reflexivity. Qed.

Let R_trans : ∀ w1 w2 w3, same_sinks w1 w2 → same_sinks w2 w3 → same_sinks w1 w3.
Proof. intros w1 w2 w3 [H1 H2] [H3 H4]. split; congruence. Qed.

Ltac same_sinks_write := split; reflexivity.

Lemma store_item_same_sinks p f : keeps same_sinks (store_item p f).
Proof. unfold store_item. pk_auto same_sinks_write. Qed.

Lemma groove_playlist_remove_unlink_same_sinks (item : option loc) (i : GroovePlaylistItem)
  (dh : option loc) :
keeps same_sinks
  (bind (when (ptr_eq item dh) (update_playlist (with_decode_head (next i))))
     (λ _, if negb (is_null (prev i)) then store_item (prev i) (with_next (next i))
           else update_playlist (with_head (next i)))).
Proof.
pose proof store_item_same_sinks. unfold update_playlist. pk_auto same_sinks_write.
Qed.

Lemma groove_playlist_remove_relink_same_sinks (item : option loc) (i : GroovePlaylistItem) :
keeps same_sinks
  (bind (if negb (is_null (next i)) then store_item (next i) (with_prev (prev i))
         else update_playlist (with_tail (prev i)))
     (λ _, update_playlist (with_purge_item item))).
Proof.
pose proof store_item_same_sinks. unfold update_playlist. pk_auto same_sinks_write.
Qed.

End SameSinks.

Lemma groove_playlist_remove_sentinel_not_Ok (w : World) (item : option loc) :
  Exists (sentinel_queued w) (attached_sinks w) →
  (∀ sink w0 r, audioq_purge sink end_of_q_sentinel w0 ≠ Ok r) ∧
  ∀ r, groove_playlist_remove item w ≠ Ok r.
Proof.
  intros Hex. split; [intros sink w0 r; apply audioq_purge_sentinel|].
  intros r H. unfold groove_playlist_remove in H.
  apply bind_inv in H as (p & w0 & [= <- <-] & H).
  apply bind_inv in H as (i & w0 & H0 & H). apply load_inv in H0 as [-> _].
  apply bind_inv in H as (u1 & w1 & H1 & H).
  apply bind_inv in H as (u2 & w2 & H2 & H).
  apply bind_inv in H as (i2 & w0 & H0 & H). apply load_inv in H0 as [-> _].
  apply bind_inv in H as (u3 & w3 & H3 & H).
  apply bind_inv in H as (u4 & w4 & H4 & H).
  apply bind_inv in H as (v & w5 & H5 & _).
  assert (same_sinks w w2) as [Es2 Em2].
  { apply (groove_playlist_remove_unlink_same_sinks item i (decode_head (playlist w)) w u2 w2).
    unfold bind. rewrite H1. exact H2. }
  assert (same_sinks w2 w4) as [Es4 Em4].
  { apply (groove_playlist_remove_relink_same_sinks item i2 w2 u4 w4).
    unfold bind. rewrite H3. exact H4. }
  apply (every_sink_purge_sentinel w4 (v, w5)); [|exact H5].
  unfold attached_sinks in *. rewrite Em4, Em2.
  eapply Exists_impl; [exact Hex|].
  intros q (ls & s & qu & -> & Hs & Hq & Hin). exists ls, s, qu.
  rewrite Es4, Es2. repeat split; assumption.
Qed.

(** X8: [audioq_purge] reads [buffer->item] of every object it is asked
    about, the end-of-queue sentinel included, which is null: unlike the
    other three hooks it does not skip the sentinel.  So
    [groove_playlist_remove] faults, and does not return, while the queue of
    an attached sink still holds the sentinel. *)
Theorem groove_playlist_remove_sentinel_queued (w : World) (item : option loc) :
  Exists (sentinel_queued w) (attached_sinks w) →
  (∀ sink w0, ∃ f, audioq_purge sink end_of_q_sentinel w0 = Fault f) ∧
  ∃ f, groove_playlist_remove item w = Fault f.
Proof.
  intros Hex. destruct (groove_playlist_remove_sentinel_not_Ok w item Hex) as [Hp Hr].
  split.
  - intros sink w0. destruct (audioq_purge sink end_of_q_sentinel w0) as [r|f] eqn:E.
    + destruct (Hp sink w0 r E).
    + exists f. reflexivity.
  - destruct (groove_playlist_remove item w) as [r|f] eqn:E.
    + destruct (Hr r). reflexivity.
    + exists f. reflexivity.
Qed.

Lemma groove_playlist_remove_sentinel_queued_witness :
  ∃ f, groove_playlist_remove (Some 50%positive)
         (set_sinks <[1%positive := with_sink_playlist (Some 9%positive) (a_sink [NULL])]>
            (set_playlist (with_sink_map (Some (one_class 1%positive)) 1) built_world))
       = Fault f.
Proof.
  apply (groove_playlist_remove_sentinel_queued
           (set_sinks <[1%positive := with_sink_playlist (Some 9%positive) (a_sink [NULL])]>
              (set_playlist (with_sink_map (Some (one_class 1%positive)) 1) built_world))
           (Some 50%positive)).
  left. exists 1%positive, (with_sink_playlist (Some 9%positive) (a_sink [NULL])),
          (mkQueue [NULL] 0).
  repeat split. left.
Defined.

(** ** Building the filter graph *)

Lemma class_links_S src base pad n :
  class_links src base pad (S n) =
    [(src, pad, base, 0); (base, 0, S base, 0)] ++
    class_links src (S (S base)) (pad + 1) n.
Proof.
  unfold class_links. cbn [seq flat_map app].
  rewrite Nat.mul_0_r, Nat.add_0_r, Z.add_0_r, Nat.add_1_r. do 2 f_equal.
  rewrite <- seq_shift, flat_map_concat_map, List.map_map, <- flat_map_concat_map.
  apply flat_map_ext. intros j. cbv beta.
  replace (base + 2 * S j)%nat with (S (S base) + 2 * j)%nat by lia.
  replace (pad + Z.of_nat (S j)) with (pad + 1 + Z.of_nat j) by lia.
  reflexivity.
Qed.

Lemma class_ctxs_S base n :
  class_ctxs base (S n) = (Some base, Some (S base)) :: class_ctxs (S (S base)) n.
Proof.
  unfold class_ctxs. cbn [seq fmap list_fmap].
  rewrite Nat.mul_0_r, Nat.add_0_r, Nat.add_1_r. f_equal.
  rewrite <- seq_shift. change (list_fmap _ _ ?f (map S ?l)) with (map f (map S l)).
  rewrite List.map_map. apply List.map_ext. intros j. cbv beta.
  replace (base + 2 * S j)%nat with (S (S base) + 2 * j)%nat by lia.
  reflexivity.
Qed.

Lemma bind_update_playlist {B} f (k : unit → M B) w :
  bind (update_playlist f) k w = k tt (set_playlist f w).
Proof. reflexivity. Qed.

Lemma bind_the_playlist {B} (k : GroovePlaylist → M B) w :
  bind the_playlist k w = k (playlist w) w.
Proof. reflexivity. Qed.

Lemma bind_ret {A B} (v : A) (k : A → M B) w : bind (ret v) k w = k v w.
Proof. reflexivity. Qed.

Lemma set_graph_twice a b w :
  set_playlist (with_filter_graph a) (set_playlist (with_filter_graph b) w) =
  set_playlist (with_filter_graph a) w.
Proof. destruct w as [p ? ? ? ? ?]. destruct p. reflexivity. Qed.

Section GraphBuild.

Variable libav : libav_call → Z.
Hypothesis libav_ok : ∀ c, 0 ≤ libav c.

Lemma libav_not_neg c : (libav c <? 0) = false.
Proof. apply Z.ltb_ge, libav_ok. Qed.

Lemma avfilter_graph_create_filter_Ok c flt w g :
filter_graph (playlist w) = Some g →
avfilter_graph_create_filter libav c flt w =
  Ok ((libav c, Some (length (filters g))),
      set_playlist
        (with_filter_graph (Some (mkGraph (filters g ++ [flt]) (links g) (configured g))))
        w).
Proof.
intros Hg. unfold avfilter_graph_create_filter, the_playlist, deref, update_playlist,
  modify, ret, bind. rewrite Hg, libav_not_neg. reflexivity.
Qed.

Lemma avfilter_link_Ok c a pa b pb w g :
filter_graph (playlist w) = Some g →
avfilter_link libav c (Some a) pa (Some b) pb w =
  Ok (libav c,
      set_playlist
        (with_filter_graph
           (Some (mkGraph (filters g) (links g ++ [(a, pa, b, pb)]) (configured g))))
        w).
Proof.
intros Hg. unfold avfilter_link, the_playlist, deref, update_playlist,
  modify, ret, bind. rewrite Hg, libav_not_neg. reflexivity.
Qed.

Lemma avfilter_graph_create_filter_bind {B} c flt (k : Z * option nat → M B) w g :
filter_graph (playlist w) = Some g →
bind (avfilter_graph_create_filter libav c flt) k w =
  k (libav c, Some (length (filters g)))
    (set_playlist
       (with_filter_graph (Some (mkGraph (filters g ++ [flt]) (links g) (configured g))))
       w).
Proof. intros Hg. apply bind_Ok, avfilter_graph_create_filter_Ok, Hg. Qed.

Lemma avfilter_link_bind {B} c a pa b pb (k : Z → M B) w g :
filter_graph (playlist w) = Some g →
bind (avfilter_link libav c (Some a) pa (Some b) pb) k w =
  k (libav c)
    (set_playlist
       (with_filter_graph
          (Some (mkGraph (filters g) (links g ++ [(a, pa, b, pb)]) (configured g))))
       w).
Proof. intros Hg. apply bind_Ok, avfilter_link_Ok, Hg. Qed.

Ltac graph_step Hg :=
first [ erewrite avfilter_graph_create_filter_bind by (first [exact Hg | reflexivity])
      | erewrite avfilter_link_bind by (first [exact Hg | reflexivity]) ];
cbn [fst snd]; rewrite ?libav_not_neg, ?set_graph_twice.

Lemma set_playlist_set_playlist f g w :
set_playlist f (set_playlist g w) = set_playlist (λ p, f (g p)) w.
Proof. reflexivity. Qed.

Lemma with_filter_graph_twice a b p :
with_filter_graph a (with_filter_graph b p) = with_filter_graph a p.
Proof. reflexivity. Qed.

(** The loop over the sink map adds the output branch of every class. *)
Lemma init_filter_graph_loop_Ok src m : ∀ pad w g fmts,
filter_graph (playlist w) = Some g →
Forall2 (λ c fmt, example_format w c = Some fmt) (map_classes m) fmts →
0 ≤ pad → pad + Z.of_nat (length fmts) ≤ INT_MAX →
∃ m',
  init_filter_graph_loop libav (Some src) pad m w =
    Ok ((0, m'),
        set_playlist
          (with_filter_graph
             (Some (mkGraph (filters g ++ class_filters fmts)
                            (links g ++ class_links src (length (filters g)) pad
                                        (length fmts))
                            (configured g))))
          w) ∧
  map_classes m' = map_classes m ∧
  map_ctxs m' = class_ctxs (length (filters g)) (length fmts).
Proof.
assert (∀ (st : option SinkStack) w fmt,
          example_format w (from_option stack_sinks [] st) = Some fmt →
          ∃ top e, st = Some top ∧ load sinks (ss_sink top) w = Ok (e, w) ∧
                   audio_format e = fmt) as Hexample.
{ intros st w fmt Hex. destruct st as [[s rest]|]; [|discriminate].
  unfold example_format, format_of in Hex. simpl in Hex.
  destruct s as [ls|]; [|discriminate]. simpl in Hex.
  destruct (sinks w !! ls) as [e|] eqn:Ee; [|discriminate]. injection Hex as <-.
  eexists _, e. split; [reflexivity|]. split; [|reflexivity].
  simpl. apply load_Ok, Ee. }
induction m as [st a b|st a b n IH] using SinkMap_ind; intros pad w g fmts Hg Hall Hpad Hmax.
- simpl in Hall. apply Forall2_cons_inv_l in Hall as (fmt & rest & Hex & Hrest & ->).
  apply Forall2_nil_inv_l in Hrest as ->.
  destruct (Hexample st w fmt Hex) as (top & e & -> & He & <-).
  exists (mkSinkMap (Some top) (Some (length (filters g)))
                    (Some (length (filters g ++ [aformat (audio_format e)]))) None).
  split; [|split; [reflexivity|]].
  2:{ simpl. rewrite length_app. simpl. rewrite class_ctxs_S, Nat.add_1_r. reflexivity. }
  cbn [init_filter_graph_loop deref]. unfold ret at 1. unfold bind at 1.
  rewrite (bind_Ok _ _ _ _ _ He).
  do 4 graph_step Hg. unfold ret.
  unfold ret. cbn [filters links configured length]. rewrite class_links_S.
  rewrite !length_app, <- !app_assoc. simpl. rewrite Nat.add_1_r. reflexivity.
- simpl in Hall. apply Forall2_cons_inv_l in Hall as (fmt & rest & Hex & Hrest & ->).
  destruct (Hexample st w fmt Hex) as (top & e & -> & He & <-).
  cbn [length] in Hmax.
  set (g1 := mkGraph (filters g ++ [aformat (audio_format e); abuffersink])
                     (links g ++ [(src, pad, length (filters g), 0);
                                  (length (filters g), 0, S (length (filters g)), 0)])
                     (configured g)).
  destruct (IH (wrap_int (pad + 1)) (set_playlist (with_filter_graph (Some g1)) w) g1 rest)
    as (m' & Hrun & Hcl & Hctx).
  { reflexivity. }
  { exact Hrest. }
  { rewrite wrap_int_small by (unfold INT_MAX in *; lia). lia. }
  { rewrite wrap_int_small by (unfold INT_MAX in *; lia). lia. }
  exists (mkSinkMap (Some top) (Some (length (filters g)))
                    (Some (length (filters g ++ [aformat (audio_format e)]))) (Some m')).
  split; [|split].
  + cbn [init_filter_graph_loop deref]. unfold ret at 1. unfold bind at 1.
    rewrite (bind_Ok _ _ _ _ _ He).
    do 4 graph_step Hg.
    cbn [filters links configured]. rewrite !length_app, <- !app_assoc.
    cbn [length app]. rewrite Nat.add_1_r.
    fold g1. rewrite (bind_Ok _ _ _ _ _ Hrun). unfold ret. cbn [fst snd].
    rewrite set_graph_twice. unfold g1. cbn [filters links configured].
    rewrite !length_app, <- !app_assoc. cbn [length app].
    rewrite wrap_int_small by (unfold INT_MAX in *; lia).
    rewrite class_links_S.
    replace (length (filters g) + 2)%nat with (S (S (length (filters g)))) by lia.
    reflexivity.
  + simpl. rewrite Hcl. reflexivity.
  + simpl. rewrite Hctx. unfold g1. cbn [filters]. rewrite !length_app. cbn [length].
    rewrite class_ctxs_S.
    replace (length (filters g) + 2)%nat with (S (S (length (filters g)))) by lia.
    rewrite Nat.add_1_r. reflexivity.
Qed.

Lemma avfilter_graph_config_Ok w g :
filter_graph (playlist w) = Some g →
avfilter_graph_config libav w =
  Ok (libav graph_config,
      set_playlist (with_filter_graph (Some (mkGraph (filters g) (links g) true))) w).
Proof.
intros Hg. unfold avfilter_graph_config, the_playlist, deref, update_playlist,
  modify, ret, bind. rewrite Hg, libav_not_neg. reflexivity.
Qed.

(** The second half of [init_filter_graph]: the split filter when there are
  two classes or more, the branches of the classes, and the check of the
  graph. *)
Lemma init_filter_graph_outputs_Ok src w g fmts :
filter_graph (playlist w) = Some g →
Forall2 (λ c fmt, example_format w c = Some fmt) (sink_classes w) fmts →
sink_map_count (playlist w) = Z.of_nat (length fmts) →
sink_map_count (playlist w) ≤ INT_MAX →
let n := sink_map_count (playlist w) in
let split := if n <? 2 then [] else [asplit n] in
∃ m',
  init_filter_graph_outputs libav (Some src) w =
    Ok (0,
        set_playlist
          (λ p,
             with_rebuild_filter_graph_flag 0
               (with_sink_map m' n
                  (with_asplit_ctx (if n <? 2 then NULL else Some (length (filters g)))
                     (with_filter_graph
                        (Some (mkGraph
                                 (filters g ++ split ++ class_filters fmts)
                                 (links g ++
                                  (if n <? 2 then [] else [(src, 0, length (filters g), 0)]) ++
                                  class_links (if n <? 2 then src else length (filters g))
                                    (length (filters g ++ split)) 0 (length fmts))
                                 true))
                        p))))
          w) ∧
  from_option map_classes [] m' = sink_classes w ∧
  from_option map_ctxs [] m' = class_ctxs (length (filters g ++ split)) (length fmts).
Proof.
intros Hg Hall Hn Hmax n split. subst split.
unfold init_filter_graph_outputs.
unfold the_playlist at 1. unfold bind at 1. fold n.
destruct (n <? 2) eqn:En.
- unfold update_playlist at 1, modify at 1, ret at 1, bind at 1 2.
  cbn [fst snd]. change (0 <? 0) with false. cbv iota.
  unfold the_playlist at 1, bind at 1.
  cbn [playlist set_playlist sink_map with_asplit_ctx].
  unfold sink_classes in Hall.
  destruct (sink_map (playlist w)) as [m|] eqn:Em.
  + edestruct (init_filter_graph_loop_Ok src m 0
                 (set_playlist (with_asplit_ctx NULL) w) g fmts)
      as (m' & Hrun & Hcl & Hctx); [exact Hg|exact Hall|lia|lia|].
    change (mkWorld (items w) (files w) (sinks w) (buffers w)
              (mkPlaylist _ _ _ _ _ _ _ _ _ _ _ _ _ _ _ _ _ _ _ _ _ _) (trace w))
      with (set_playlist (with_asplit_ctx NULL) w).
    exists (Some m').
    split; [|split; [unfold sink_classes; rewrite Em; exact Hcl
                    |rewrite app_nil_r; exact Hctx]].
    unfold bind. rewrite Hrun. unfold update_playlist, modify, ret. cbn [fst snd].
    cbv beta iota. cbn [fst snd]. change (0 <? 0) with false. cbv beta iota.
    erewrite avfilter_graph_config_Ok by reflexivity. rewrite libav_not_neg.
    cbv beta iota. rewrite !app_nil_r. reflexivity.
  + exists None. apply Forall2_nil_inv_l in Hall as ->.
    split; [|split; [unfold sink_classes; rewrite Em; reflexivity|reflexivity]].
    unfold ret at 1. unfold bind at 1. change (0 <? 0) with false. cbv iota.
    unfold bind. erewrite avfilter_graph_config_Ok by (cbn; exact Hg).
    rewrite libav_not_neg. unfold update_playlist, modify, ret. cbv beta iota.
    rewrite !app_nil_r. unfold set_playlist, with_sink_map, with_rebuild_filter_graph_flag,
      with_asplit_ctx, with_filter_graph. cbn. rewrite Em. reflexivity.
- unfold sink_classes in Hall.
  destruct (sink_map (playlist w)) as [m|] eqn:Em.
  2:{ apply Forall2_nil_inv_l in Hall as ->. apply Z.ltb_ge in En.
      unfold n in En. rewrite Hn in En. simpl in En. lia. }
  set (g1 := mkGraph (filters g ++ [asplit n])
                     (links g ++ [(src, 0, length (filters g), 0)]) (configured g)).
  set (w1 := set_playlist
               (λ p, with_filter_graph (Some g1) (with_asplit_ctx (Some (length (filters g))) p))
               w).
  edestruct (init_filter_graph_loop_Ok (length (filters g)) m 0 w1 g1 fmts)
    as (m' & Hrun & Hcl & Hctx); [reflexivity|exact Hall|lia|lia|].
  exists (Some m').
  split; [|split; [unfold sink_classes; rewrite Em; exact Hcl|exact Hctx]].
  unfold bind at 1 2. cbv beta.
  erewrite avfilter_graph_create_filter_Ok by exact Hg. cbv beta iota.
  unfold update_playlist at 1, modify at 1, bind at 1. cbn [fst snd].
  rewrite libav_not_neg.
  unfold bind at 1. erewrite avfilter_link_Ok by (cbn; reflexivity).
  rewrite libav_not_neg. unfold ret at 1. cbv beta iota. cbn [fst snd].
  change (0 <? 0) with false. cbv iota.
  match goal with |- bind _ _ ?wc = _ => change wc with w1 end.
  unfold the_playlist at 1, bind at 1.
  change (sink_map (playlist w1)) with (sink_map (playlist w)). rewrite Em.
  change (sink_map_count (playlist w1)) with n.
  unfold bind. rewrite Hrun. unfold update_playlist, modify, ret. cbn [fst snd].
  cbv beta iota. cbn [fst snd]. change (0 <? 0) with false. cbv beta iota.
  erewrite avfilter_graph_config_Ok by reflexivity. rewrite libav_not_neg.
  cbv beta iota. unfold w1, g1. cbn [filters links configured].
  rewrite <- !app_assoc. reflexivity.
Qed.

(** A run of [init_filter_graph] in which the library refuses nothing. *)
Lemma init_filter_graph_run l f w fmts :
files w !! l = Some f →
Forall2 (λ c fmt, example_format w c = Some fmt) (sink_classes w) fmts →
sink_map_count (playlist w) = Z.of_nat (length fmts) →
sink_map_count (playlist w) ≤ INT_MAX →
let vol := init_filter_graph_vol (p_volume (playlist w)) in
let n := sink_map_count (playlist w) in
∃ m',
  init_filter_graph true libav (Some l) w =
    Ok (0,
        set_playlist
          (λ p,
             with_rebuild_filter_graph_flag 0
               (with_sink_map m' n
                  (with_asplit_ctx
                     (if n <? 2 then NULL
                      else Some (if (vol =? 1)%float then 1 else 2)%nat)
                     (with_volume_ctx (if (vol =? 1)%float then NULL else Some 1%nat)
                        (with_filter_volume (p_volume p)
                           (with_abuffer_ctx (Some 0%nat)
                              (with_in_format (codec_sample_rate f) (codec_channel_layout f)
                                 (codec_sample_fmt f) (time_base f)
                                 (with_filter_graph (Some (built_graph f vol n fmts))
                                    p))))))))
          w) ∧
  from_option map_classes [] m' = sink_classes w ∧
  from_option map_ctxs [] m' =
    class_ctxs (length (graph_head f vol n)) (length fmts).
Proof.
intros Hf Hall Hn Hmax vol n.
unfold init_filter_graph.
rewrite (bind_Ok _ _ _ _ _ (load_Ok files l w f Hf)).
rewrite !bind_update_playlist, bind_the_playlist.
cbn [av_mallocz playlist set_playlist filter_graph with_filter_graph].
rewrite bool_decide_false by discriminate.
rewrite bind_update_playlist.
erewrite avfilter_graph_create_filter_bind by reflexivity. cbn [fst snd filters length].
rewrite bind_update_playlist, libav_not_neg, bind_the_playlist, bind_update_playlist.
cbn [playlist set_playlist p_volume with_abuffer_ctx with_filter_graph with_in_format
     abuffer_ctx].
fold vol.
destruct (vol =? 1)%float eqn:Ev.
- rewrite bind_update_playlist.
  match goal with
  | |- context [init_filter_graph_outputs _ _ ?wc = _] =>
      edestruct (init_filter_graph_outputs_Ok 0 wc) as (m' & Hrun & Hcl & Hctx);
        [reflexivity|exact Hall|exact Hn|exact Hmax|]
  end.
  exists m'. split; [|split; [exact Hcl|]].
  + rewrite Hrun. unfold built_graph, graph_head. rewrite Ev.
    cbn [playlist set_playlist sink_map_count with_volume_ctx with_filter_volume
         with_abuffer_ctx with_filter_graph with_in_format filters links configured
         app length].
    fold n. destruct (n <? 2); reflexivity.
  + rewrite Hctx. unfold graph_head. rewrite Ev.
    cbn [playlist set_playlist sink_map_count with_volume_ctx with_filter_volume
         with_abuffer_ctx with_filter_graph with_in_format filters links configured
         app length].
    fold n. destruct (n <? 2); reflexivity.
- erewrite avfilter_graph_create_filter_bind by reflexivity. cbn [fst snd filters length].
  rewrite bind_update_playlist, libav_not_neg, bind_the_playlist.
  cbn [playlist set_playlist volume_ctx with_volume_ctx].
  erewrite avfilter_link_bind by reflexivity. rewrite libav_not_neg, bind_the_playlist.
  cbn [playlist set_playlist volume_ctx with_volume_ctx with_filter_graph
       filters links configured app length].
  match goal with
  | |- context [init_filter_graph_outputs _ _ ?wc = _] =>
      edestruct (init_filter_graph_outputs_Ok 1 wc) as (m' & Hrun & Hcl & Hctx);
        [reflexivity|exact Hall|exact Hn|exact Hmax|]
  end.
  exists m'. split; [|split; [exact Hcl|]].
  + rewrite Hrun. unfold built_graph, graph_head. rewrite Ev.
    cbn [playlist set_playlist sink_map_count with_volume_ctx with_filter_volume
         with_abuffer_ctx with_filter_graph with_in_format filters links configured
         app length].
    fold n. destruct (n <? 2); reflexivity.
  + rewrite Hctx. unfold graph_head. rewrite Ev.
    cbn [playlist set_playlist sink_map_count with_volume_ctx with_filter_volume
         with_abuffer_ctx with_filter_graph with_in_format filters links configured
         app length].
    fold n. destruct (n <? 2); reflexivity.
Qed.

End GraphBuild.

(** ** What a build of the filter graph gives *)

Lemma class_formats_Forall2 w :
  classes_ok (format_of w) (sink_classes w) →
  Forall2 (λ c fmt, example_format w c = Some fmt) (sink_classes w) (class_formats w).
Proof.
  intros [Hall _]. unfold class_formats.
  induction Hall as [|c cs (Hne & f & Hf) _ IH]; [constructor|].
  destruct c as [|p c]; [contradiction|].
  apply Forall_cons in Hf as [Hp _].
  assert (example_format w (p :: c) = Some f) as Hex by exact Hp.
  simpl. rewrite Hex. constructor; [exact Hex | exact IH].
Qed.

(** X9: when the allocation succeeds and the library refuses no call,
    init_filter_graph on a well-formed sink map returns 0 and leaves the
    graph drawn above it: the abuffer of the file, a volume filter made from
    the text "volume=%f" of the clamped volume unless that volume is 1, an
    asplit when there are two classes or more, and for each class an aformat
    of the example's format feeding an abuffersink, linked in a chain and to
    the pads 0, 1, ... of the last filter of the head; the classes keep
    their sinks and hold the contexts of their branch, the graph is
    configured and the rebuild flag is 0. *)
Theorem init_filter_graph_builds_graph (libav : libav_call → Z) l f w :
  (∀ c, 0 ≤ libav c) →
  files w !! l = Some f →
  sink_map_wf w →
  let vol := init_filter_graph_vol (p_volume (playlist w)) in
  let n := sink_map_count (playlist w) in
  ∃ w',
    init_filter_graph true libav (Some l) w = Ok (0, w') ∧
    filter_graph (playlist w') = Some (built_graph f vol n (class_formats w)) ∧
    Forall2 (λ c fmt, example_format w c = Some fmt) (sink_classes w) (class_formats w) ∧
    sink_classes w' = sink_classes w ∧
    from_option map_ctxs [] (sink_map (playlist w')) =
      class_ctxs (length (graph_head f vol n)) (length (sink_classes w)) ∧
    abuffer_ctx (playlist w') = Some 0%nat ∧
    rebuild_filter_graph_flag (playlist w') = 0 ∧
    sinks w' = sinks w ∧ files w' = files w.
Proof.
  intros Hok Hf [[Hn Hmax] Hcl] vol n.
  pose proof (class_formats_Forall2 w Hcl) as Hall.
  pose proof (Forall2_length _ _ _ Hall) as Hlen.
  destruct (init_filter_graph_run libav Hok l f w (class_formats w) Hf Hall)
    as (m' & Hrun & Hcl' & Hctx).
  { rewrite Hn, Hlen. reflexivity. }
  { exact Hmax. }
  eexists. split; [exact Hrun|].
  split; [reflexivity|]. split; [exact Hall|].
  split; [exact Hcl'|]. split; [rewrite Hlen; exact Hctx|].
  repeat split.
Qed.

Lemma idle_world_wf : sink_map_wf (idle_world []).
Proof.
  split; [split; [reflexivity | discriminate]|].
  split.
  - constructor; [|constructor]. split; [discriminate|].
    exists a_format. constructor; [reflexivity | constructor].
  - apply NoDup_singleton.
Qed.

Lemma split_world_wf : sink_map_wf split_world.
Proof.
  split; [split; [reflexivity | discriminate]|].
  split.
  - constructor; [|constructor; [|constructor]].
    + split; [discriminate|]. exists a_format. constructor; [reflexivity | constructor].
    + split; [discriminate|]. exists (mkFormat 48000 3 1).
      constructor; [reflexivity | constructor].
  - apply NoDup_cons. split; [|apply NoDup_singleton].
    intros Hin. apply list_elem_of_singleton in Hin. discriminate Hin.
Qed.

Lemma init_filter_graph_builds_graph_witness :
  ∃ w', init_filter_graph true (λ _, 0) (Some 100%positive) split_world = Ok (0, w') ∧
        filter_graph (playlist w') =
          Some (mkGraph [abuffer_of a_file; volume_filter "volume=0.500000"; asplit 2;
                         aformat a_format; abuffersink;
                         aformat (mkFormat 48000 3 1); abuffersink]
                        [(0%nat, 0, 1%nat, 0); (1%nat, 0, 2%nat, 0);
                         (2%nat, 0, 3%nat, 0); (3%nat, 0, 4%nat, 0);
                         (2%nat, 1, 5%nat, 0); (5%nat, 0, 6%nat, 0)] true).
Proof.
  destruct (init_filter_graph_builds_graph (λ _, 0) 100%positive a_file split_world)
    as (w' & Hrun & Hg & _).
  - intros c. lia.
  - reflexivity.
  - exact split_world_wf.
  - exists w'. split; [exact Hrun | exact Hg].
Defined.

(** ** After a build, [maybe_init_filter_graph] has nothing to do *)

Lemma same_build_input_frame : frame_rel same_build_input.
Proof.
  split; unfold same_build_input; try (intros; repeat split; reflexivity).
  intros w1 w2 w3 H1 H2. intuition congruence.
Qed.

Section BuildInput.

Variable libav : libav_call → Z.

Let R_frame := same_build_input_frame.

Lemma same_build_input_graph g w :
same_build_input w (set_playlist (with_filter_graph g) w).
Proof. repeat split. Qed.

Lemma avfilter_graph_create_filter_input c flt :
keeps same_build_input (avfilter_graph_create_filter libav c flt).
Proof.
unfold avfilter_graph_create_filter, update_playlist. keeps_auto.
apply keeps_modify. intros w. apply same_build_input_graph.
Qed.

Lemma avfilter_link_input c src srcpad dst dstpad :
keeps same_build_input (avfilter_link libav c src srcpad dst dstpad).
Proof.
unfold avfilter_link, update_playlist. keeps_auto.
apply keeps_modify. intros w. apply same_build_input_graph.
Qed.

Lemma avfilter_graph_config_input : keeps same_build_input (avfilter_graph_config libav).
Proof.
unfold avfilter_graph_config, update_playlist. keeps_auto.
apply keeps_modify. intros w. apply same_build_input_graph.
Qed.

Lemma init_filter_graph_loop_input m : ∀ src pad,
keeps same_build_input (init_filter_graph_loop libav src pad m).
Proof.
pose proof avfilter_link_input as Hlink.
pose proof avfilter_graph_create_filter_input as Hcreate.
induction m as [st a b|st a b n IH] using SinkMap_ind; intros src pad; simpl; keeps_auto.
Qed.

Lemma init_filter_graph_outputs_input src :
keeps same_build_input (init_filter_graph_outputs libav src).
Proof.
pose proof avfilter_link_input as Hlink.
pose proof avfilter_graph_create_filter_input as Hcreate.
pose proof init_filter_graph_loop_input as Hloop.
pose proof avfilter_graph_config_input as Hconfig.
unfold init_filter_graph_outputs, update_playlist. keeps_auto.
all: apply keeps_modify; intros w; repeat split.
Qed.

(** Only the last line of [init_filter_graph] returns 0: the graph is
  there and the flag is cleared. *)
Lemma init_filter_graph_outputs_done src w w' :
init_filter_graph_outputs libav src w = Ok (0, w') →
rebuild_filter_graph_flag (playlist w') = 0 ∧ filter_graph (playlist w') ≠ None.
Proof.
unfold init_filter_graph_outputs. intros H.
apply bind_inv in H as (p & w1 & _ & H).
apply bind_inv in H as (r & w2 & _ & H).
destruct (fst r <? 0) eqn:Er.
{ injection H as H _. rewrite H in Er. discriminate. }
apply bind_inv in H as (p2 & w3 & _ & H).
apply bind_inv in H as (err & w4 & _ & H).
destruct (err <? 0) eqn:Ee.
{ injection H as H _. rewrite H in Ee. discriminate. }
apply bind_inv in H as (err2 & w5 & Hc & H).
destruct (err2 <? 0) eqn:Ee2.
{ injection H as H _. rewrite H in Ee2. discriminate. }
injection H as <-. split; [reflexivity|]. simpl.
unfold avfilter_graph_config, the_playlist, deref, update_playlist, modify, ret, fail, bind in Hc.
destruct (filter_graph (playlist w4)) as [g|] eqn:Eg; [|discriminate].
destruct (libav graph_config <? 0); injection Hc as _ <-; simpl; [|discriminate].
rewrite Eg. discriminate.
Qed.

End BuildInput.

#[local] Arguments init_filter_graph_outputs : simpl never.
#[local] Arguments init_filter_graph_vol : simpl never.
#[local] Arguments avfilter_graph_create_filter : simpl never.
#[local] Arguments avfilter_link : simpl never.

(** What a build that returned 0 recorded in the playlist. *)
Lemma init_filter_graph_done graph_alloc_ok libav l f w w' :
  files w !! l = Some f →
  init_filter_graph graph_alloc_ok libav (Some l) w = Ok (0, w') →
  files w' = files w ∧
  p_volume (playlist w') = p_volume (playlist w) ∧
  filter_volume (playlist w') = p_volume (playlist w) ∧
  in_sample_rate (playlist w') = codec_sample_rate f ∧
  in_channel_layout (playlist w') = codec_channel_layout f ∧
  in_sample_fmt (playlist w') = codec_sample_fmt f ∧
  in_time_base (playlist w') = time_base f ∧
  rebuild_filter_graph_flag (playlist w') = 0 ∧
  filter_graph (playlist w') ≠ None.
Proof.
  pose proof same_build_input_frame as R_frame.
  intros Hf H. unfold init_filter_graph in H.
  rewrite (bind_Ok _ _ _ _ _ (load_Ok files l w f Hf)) in H.
  apply bind_inv in H as ([] & w1 & [= <-] & H).
  apply bind_inv in H as ([] & w1 & [= <-] & H).
  apply bind_inv in H as (p & w1 & [= <- <-] & H).
  destruct graph_alloc_ok; simpl in H; [|discriminate].
  apply bind_inv in H as ([] & w1 & [= <-] & H).
  apply bind_inv in H as ([e ctx] & w1 & Hab & H).
  apply avfilter_graph_create_filter_input in Hab.
  apply bind_inv in H as ([] & w2 & [= <-] & H). cbn [fst snd] in H.
  destruct (e <? 0) eqn:Ee.
  { injection H as H _. rewrite H in Ee. discriminate. }
  apply bind_inv in H as (p & w2 & [= <- <-] & H).
  apply bind_inv in H as ([] & w2 & [= <-] & H).
  assert (∃ w3, same_build_input
                  (set_playlist (with_filter_volume (p_volume (playlist w1)))
                     (set_playlist (with_abuffer_ctx ctx) w1)) w3 ∧
                rebuild_filter_graph_flag (playlist w') = 0 ∧
                filter_graph (playlist w') ≠ None ∧ same_build_input w3 w')
    as (w3 & H3 & Hflag & Hgraph & H4).
  { simpl in H.
    destruct (init_filter_graph_vol _ =? 1)%float.
    - apply bind_inv in H as ([] & w3 & [= <-] & H).
      eexists. split; [|split; [|split]].
      4: exact (init_filter_graph_outputs_input _ _ _ _ _ H).
      + repeat split.
      + apply (init_filter_graph_outputs_done _ _ _ _ H).
      + apply (init_filter_graph_outputs_done _ _ _ _ H).
    - apply bind_inv in H as ([e2 ctx2] & w3 & Hvol & H).
      apply avfilter_graph_create_filter_input in Hvol.
      apply bind_inv in H as ([] & w4 & [= <-] & H). cbn [fst snd] in H.
      destruct (e2 <? 0) eqn:Ee2.
      { injection H as H _. rewrite H in Ee2. discriminate. }
      apply bind_inv in H as (p & w4 & [= <- <-] & H).
      apply bind_inv in H as (err & w4 & Hlink & H).
      apply avfilter_link_input in Hlink.
      destruct (err <? 0) eqn:Eerr.
      { injection H as H _. rewrite H in Eerr. discriminate. }
      apply bind_inv in H as (p & w5 & [= <- <-] & H).
      exists w4. split; [|split; [|split]].
      4: exact (init_filter_graph_outputs_input _ _ _ _ _ H).
      + eapply (fr_trans _ R_frame); [exact Hvol|].
        eapply (fr_trans _ R_frame); [|exact Hlink]. repeat split.
      + apply (init_filter_graph_outputs_done _ _ _ _ H).
      + apply (init_filter_graph_outputs_done _ _ _ _ H). }
  pose proof (fr_trans _ R_frame _ _ _ H3 H4) as (E1 & E2 & E3 & E4 & E5 & E6 & E7).
  destruct Hab as (A1 & A2 & A3 & A4 & A5 & A6 & A7).
  simpl in *.
  repeat split; try assumption; congruence.
Qed.


(** X10: after init_filter_graph returned 0 for a file, the next
    maybe_init_filter_graph builds nothing and returns 0 when the file it
    is asked about has the same sample rate, channel layout, sample format
    and time base and the effective volume is a number; when the codec
    parameters differ, or the volume is a NaN, which is not equal to
    itself, it runs init_filter_graph again. *)
Theorem maybe_init_filter_graph_after_build graph_alloc_ok libav l f w w'
    graph_alloc_ok' libav' l2 f2 :
  files w !! l = Some f →
  files w !! l2 = Some f2 →
  init_filter_graph graph_alloc_ok libav (Some l) w = Ok (0, w') →
  (same_codec f f2 → is_nan (p_volume (playlist w)) = false →
   maybe_init_filter_graph graph_alloc_ok' libav' (Some l2) w' = Ok (0, w')) ∧
  (¬ same_codec f f2 ∨ is_nan (p_volume (playlist w)) = true →
   maybe_init_filter_graph graph_alloc_ok' libav' (Some l2) w' =
     init_filter_graph graph_alloc_ok' libav' (Some l2) w').
Proof.
  intros Hf Hf2 Hrun.
  destruct (init_filter_graph_done _ _ _ _ _ _ Hf Hrun)
    as (Efiles & Epv & Efv & Er & El & Es & Et & Eflag & Egraph).
  assert (files w' !! l2 = Some f2) as Hf2' by (rewrite Efiles; exact Hf2).
  unfold maybe_init_filter_graph.
  rewrite bind_the_playlist, (bind_Ok _ _ _ _ _ (load_Ok files l2 w' f2 Hf2')).
  rewrite Er, El, Es, Et, Eflag, Epv, Efv.
  rewrite bool_decide_false by exact Egraph. cbn [orb negb Z.eqb].
  assert ((p_volume (playlist w) =? p_volume (playlist w))%float =
          negb (is_nan (p_volume (playlist w)))) as Env.
  { unfold is_nan. rewrite negb_involutive. reflexivity. }
  rewrite Env. split.
  - intros (-> & -> & -> & ->) ->. rewrite !Z.eqb_refl. reflexivity.
  - intros [Hne | ->]; [|rewrite !orb_true_r; reflexivity].
    destruct (Z.eqb_spec (codec_sample_rate f) (codec_sample_rate f2)) as [E1|]; [|reflexivity].
    destruct (Z.eqb_spec (codec_channel_layout f) (codec_channel_layout f2)) as [E2|];
      [|reflexivity].
    destruct (Z.eqb_spec (codec_sample_fmt f) (codec_sample_fmt f2)) as [E3|]; [|reflexivity].
    destruct (Z.eqb_spec (fst (time_base f)) (fst (time_base f2))) as [E4|]; [|reflexivity].
    destruct (Z.eqb_spec (snd (time_base f)) (snd (time_base f2))) as [E5|]; [|reflexivity].
    exfalso. apply Hne. repeat split; try congruence.
    destruct (time_base f), (time_base f2). simpl in *. congruence.
Qed.

Lemma maybe_init_filter_graph_after_build_witness :
  ∃ w', init_filter_graph true (λ _, 0) (Some 100%positive) (idle_world []) = Ok (0, w') ∧
        maybe_init_filter_graph false (λ _, -1) (Some 100%positive) w' = Ok (0, w').
Proof.
  destruct (init_filter_graph_run (λ _, 0) ltac:(intros; lia) 100%positive a_file
              (idle_world []) [a_format]) as (m' & Hrun & _).
  - reflexivity.
  - repeat constructor.
  - reflexivity.
  - discriminate.
  - eexists. split; [exact Hrun|].
    refine (proj1 (maybe_init_filter_graph_after_build true (λ _, 0) 100%positive a_file
                     (idle_world []) _ false (λ _, -1) 100%positive a_file
                     eq_refl eq_refl Hrun) _ eq_refl).
    repeat split.
Defined.

(** ** What [decode_one_frame] leaves alone *)

Lemma same_stream_refl f : same_stream f f.
Proof. repeat split. Qed.

Lemma same_stream_trans f1 f2 f3 : same_stream f1 f2 → same_stream f2 f3 → same_stream f1 f3.
Proof. unfold same_stream. intuition congruence. Qed.

Lemma same_schedule_frame fa : frame_rel (same_schedule fa).
Proof.
  split.
  - intros w. repeat split. intros f Hf. exists f. split; [exact Hf | apply same_stream_refl].
  - intros w1 w2 w3 H12 H23.
    destruct H12 as (A1 & A2 & A3 & A4 & A5 & A6 & A7 & A8 & A9 & A10 & A11 & A12 & A13 & A14).
    destruct H23 as (B1 & B2 & B3 & B4 & B5 & B6 & B7 & B8 & B9 & B10 & B11 & B12 & B13 & B14).
    repeat split; try congruence.
    + intros x Hx. rewrite B2, A2 by exact Hx. reflexivity.
    + intros f Hf. destruct (A3 f Hf) as (f2 & Hf2 & S12).
      destruct (B3 f2 Hf2) as (f3 & Hf3 & S23).
      exists f3. split; [exact Hf3 | exact (same_stream_trans _ _ _ S12 S23)].
  - intros g w. repeat split. intros f Hf. exists f. split; [exact Hf | apply same_stream_refl].
  - intros g w. repeat split. intros f Hf. exists f. split; [exact Hf | apply same_stream_refl].
  - intros g w. repeat split. intros f Hf. exists f. split; [exact Hf | apply same_stream_refl].
Qed.

(** A write to the playlist that leaves the schedule alone. *)
Lemma same_schedule_set_playlist fa g w :
  head (g (playlist w)) = head (playlist w) →
  tail (g (playlist w)) = tail (playlist w) →
  decode_head (g (playlist w)) = decode_head (playlist w) →
  volume (g (playlist w)) = volume (playlist w) →
  p_volume (g (playlist w)) = p_volume (playlist w) →
  paused (g (playlist w)) = paused (playlist w) →
  abort_request (g (playlist w)) = abort_request (playlist w) →
  sent_end_of_q (g (playlist w)) = sent_end_of_q (playlist w) →
  purge_item (g (playlist w)) = purge_item (playlist w) →
  sink_map_count (g (playlist w)) = sink_map_count (playlist w) →
  from_option map_classes [] (sink_map (g (playlist w))) = sink_classes w →
  same_schedule fa w (set_playlist g w).
Proof.
  intros. unfold same_schedule. simpl.
  split; [reflexivity|]. split; [reflexivity|].
  split; [intros f Hf; exists f; split; [exact Hf | apply same_stream_refl]|].
  repeat split; assumption.
Qed.

(** A write to the position of the file at [fa]. *)
Lemma same_schedule_store_file fa g :
  (∀ f, same_stream f (g f)) → keeps (same_schedule fa) (store_file (Some fa) g).
Proof.
  intros Hg w a w' H. unfold store_file in H.
  apply bind_inv in H as (f & w1 & Hf & H). apply load_inv in Hf as (-> & l & [= <-] & Hf).
  injection H as _ <-. unfold same_schedule. simpl.
  split; [reflexivity|]. split; [|split; [|repeat split]].
  - intros x Hx. apply lookup_insert_ne. congruence.
  - intros f0 Hf0. exists (g f). rewrite lookup_insert_eq. split; [reflexivity|].
    rewrite Hf in Hf0. injection Hf0 as <-. apply Hg.
Qed.

Section ScheduleGraph.

Variable fa : loc.
Variable libav : libav_call → Z.

Let R_frame := same_schedule_frame fa.

Ltac playlist_write :=
apply keeps_modify; intros ?; apply same_schedule_set_playlist; reflexivity.

Lemma avfilter_graph_create_filter_schedule c flt :
keeps (same_schedule fa) (avfilter_graph_create_filter libav c flt).
Proof. unfold avfilter_graph_create_filter, update_playlist. keeps_auto. playlist_write. Qed.

Lemma avfilter_link_schedule c src srcpad dst dstpad :
keeps (same_schedule fa) (avfilter_link libav c src srcpad dst dstpad).
Proof. unfold avfilter_link, update_playlist. keeps_auto. playlist_write. Qed.

Lemma avfilter_graph_config_schedule : keeps (same_schedule fa) (avfilter_graph_config libav).
Proof. unfold avfilter_graph_config, update_playlist. keeps_auto. playlist_write. Qed.

Lemma init_filter_graph_loop_schedule m : ∀ src pad,
keeps (same_schedule fa) (init_filter_graph_loop libav src pad m).
Proof.
pose proof avfilter_link_schedule as Hlink.
pose proof avfilter_graph_create_filter_schedule as Hcreate.
induction m as [st a b|st a b n IH] using SinkMap_ind; intros src pad; simpl; keeps_auto.
Qed.

(** The loop stores contexts in the map and leaves its stacks alone. *)
Lemma init_filter_graph_loop_classes m : ∀ src pad w e m' w',
init_filter_graph_loop libav src pad m w = Ok ((e, m'), w') →
map_classes m' = map_classes m.
Proof.
induction m as [st a b|st a b n IH] using SinkMap_ind; intros src pad w e m' w' H;
  cbn [init_filter_graph_loop] in H.
- apply bind_inv in H as (top & w1 & _ & H).
  apply bind_inv in H as (ex & w2 & _ & H).
  apply bind_inv in H as (r1 & w3 & _ & H).
  destruct (fst r1 <? 0); [injection H as _ <- _; reflexivity|].
  apply bind_inv in H as (e1 & w4 & _ & H).
  destruct (e1 <? 0); [injection H as _ <- _; reflexivity|].
  apply bind_inv in H as (r2 & w5 & _ & H).
  destruct (fst r2 <? 0); [injection H as _ <- _; reflexivity|].
  apply bind_inv in H as (e2 & w6 & _ & H).
  destruct (e2 <? 0); injection H as _ <- _; reflexivity.
- apply bind_inv in H as (top & w1 & _ & H).
  apply bind_inv in H as (ex & w2 & _ & H).
  apply bind_inv in H as (r1 & w3 & _ & H).
  destruct (fst r1 <? 0); [injection H as _ <- _; reflexivity|].
  apply bind_inv in H as (e1 & w4 & _ & H).
  destruct (e1 <? 0); [injection H as _ <- _; reflexivity|].
  apply bind_inv in H as (r2 & w5 & _ & H).
  destruct (fst r2 <? 0); [injection H as _ <- _; reflexivity|].
  apply bind_inv in H as (e2 & w6 & _ & H).
  destruct (e2 <? 0); [injection H as _ <- _; reflexivity|].
  apply bind_inv in H as ([e3 m3] & w7 & Hrec & H).
  injection H as _ <- _. simpl. f_equal. eapply IH, Hrec.
Qed.

Lemma init_filter_graph_outputs_schedule src :
keeps (same_schedule fa) (init_filter_graph_outputs libav src).
Proof.
pose proof avfilter_link_schedule as Hlink.
pose proof avfilter_graph_create_filter_schedule as Hcreate.
pose proof avfilter_graph_config_schedule as Hconfig.
intros w r w' H. unfold init_filter_graph_outputs in H.
apply bind_inv in H as (p & w1 & [= <- <-] & H).
apply bind_inv in H as (r1 & w2 & H1 & H).
assert (same_schedule fa w w2) as R1.
{ set (n := sink_map_count (playlist w)) in H1.
  match type of H1 with
  | ?c w = _ => assert (keeps (same_schedule fa) c) as K
  end.
  { unfold update_playlist. keeps_auto; playlist_write. }
  exact (K _ _ _ H1). }
eapply (fr_trans _ R_frame); [exact R1|].
destruct (fst r1 <? 0); [injection H as _ <-; apply (fr_refl _ R_frame)|].
apply bind_inv in H as (p2 & w3 & [= <- <-] & H).
apply bind_inv in H as (err & w4 & H2 & H).
assert (same_schedule fa w2 w4) as R2.
{ destruct (sink_map (playlist w2)) as [m|] eqn:Em.
  - apply bind_inv in H2 as ([e3 m3] & w5 & Hloop & H2).
    pose proof (init_filter_graph_loop_classes _ _ _ _ _ _ _ Hloop) as Hcl.
    apply init_filter_graph_loop_schedule in Hloop.
    apply bind_inv in H2 as ([] & w6 & [= <-] & H2). injection H2 as _ <-.
    eapply (fr_trans _ R_frame); [exact Hloop|].
    destruct Hloop as (_ & _ & _ & _ & _ & _ & _ & _ & _ & _ & _ & _ & Hcount & Hclasses).
    apply same_schedule_set_playlist; try reflexivity.
    + simpl. symmetry. exact Hcount.
    + simpl. rewrite Hcl, Hclasses. unfold sink_classes. rewrite Em. reflexivity.
  - injection H2 as _ <-. apply (fr_refl _ R_frame). }
eapply (fr_trans _ R_frame); [exact R2|].
destruct (err <? 0); [injection H as _ <-; apply (fr_refl _ R_frame)|].
match type of H with
| ?c w4 = _ => assert (keeps (same_schedule fa) c) as K
end.
{ unfold update_playlist. keeps_auto; playlist_write. }
exact (K _ _ _ H).
Qed.

Lemma init_filter_graph_schedule graph_alloc_ok file' :
keeps (same_schedule fa) (init_filter_graph graph_alloc_ok libav file').
Proof.
pose proof avfilter_link_schedule as Hlink.
pose proof avfilter_graph_create_filter_schedule as Hcreate.
pose proof init_filter_graph_outputs_schedule as Hout.
unfold init_filter_graph, update_playlist. keeps_auto; playlist_write.
Qed.

Lemma maybe_init_filter_graph_schedule graph_alloc_ok file' :
keeps (same_schedule fa) (maybe_init_filter_graph graph_alloc_ok libav file').
Proof.
pose proof init_filter_graph_schedule as Hinit.
unfold maybe_init_filter_graph. keeps_auto.
Qed.

End ScheduleGraph.

Section ScheduleDecode.

Variable fa : loc.
Variables nb_channels bytes : Z → Z.
Variable graph_alloc_ok : bool.
Variable libav : libav_call → Z.
Variable put_ok : option loc → bool.
Variable env : DecodeEnv.

Let R_frame := same_schedule_frame fa.

Lemma groove_buffer_ref_schedule b : keeps (same_schedule fa) (groove_buffer_ref b).
Proof.
pose proof (store_buffer_keeps _ R_frame).
unfold groove_buffer_ref. keeps_auto.
Qed.

Lemma groove_queue_put_schedule ok s obj :
keeps (same_schedule fa) (groove_queue_put ok s obj).
Proof.
pose proof (store_sink_keeps _ R_frame). pose proof (the_queue_keeps _ R_frame).
unfold groove_queue_put, set_queue, audioq_put. keeps_auto.
Qed.

Lemma audio_decode_frame_stack_schedule b st :
keeps (same_schedule fa) (audio_decode_frame_stack put_ok b st).
Proof.
pose proof groove_queue_put_schedule. pose proof groove_buffer_ref_schedule.
induction st as [s|s n IH] using SinkStack_ind; simpl; keeps_auto.
Qed.

Lemma frame_to_groove_buffer_schedule b b_ok mutex_ok s fr :
keeps (same_schedule fa) (frame_to_groove_buffer nb_channels bytes b b_ok mutex_ok s fr).
Proof. unfold frame_to_groove_buffer. keeps_auto. Qed.

Lemma audio_decode_frame_pulls_schedule ex st pulls : ∀ error data_size,
keeps (same_schedule fa)
  (audio_decode_frame_pulls nb_channels bytes put_ok ex st pulls error data_size).
Proof.
pose proof frame_to_groove_buffer_schedule. pose proof audio_decode_frame_stack_schedule.
pose proof groove_buffer_ref_schedule. pose proof (groove_buffer_unref_keeps _ R_frame).
induction pulls as [|pl rest IH]; intros error data_size; simpl; keeps_auto.
Qed.

Lemma audio_decode_frame_map_schedule m : ∀ n max_data_size clock_adjustment,
keeps (same_schedule fa)
  (audio_decode_frame_map nb_channels bytes put_ok env n m max_data_size clock_adjustment).
Proof.
pose proof audio_decode_frame_pulls_schedule.
induction m as [st a b|st a b nx IH] using SinkMap_ind; intros n mx adj; simpl; keeps_auto.
Qed.

Lemma store_audio_clock_schedule v :
keeps (same_schedule fa) (store_file (Some fa) (with_audio_clock v)).
Proof. apply same_schedule_store_file. intros f. repeat split. Qed.

Lemma audio_decode_frame_loop_schedule answers pkt : ∀ data size new_packet,
keeps (same_schedule fa)
  (audio_decode_frame_loop nb_channels bytes put_ok env answers pkt (Some fa)
     data size new_packet).
Proof.
pose proof audio_decode_frame_map_schedule. pose proof store_audio_clock_schedule.
induction answers as [|[len1 got] rest IH]; intros data size new_packet; simpl; keeps_auto.
Qed.

Lemma audio_decode_frame_schedule pkt :
keeps (same_schedule fa)
  (audio_decode_frame nb_channels bytes put_ok env pkt (Some fa)).
Proof.
pose proof audio_decode_frame_loop_schedule. pose proof store_audio_clock_schedule.
unfold audio_decode_frame. keeps_auto.
Qed.

Lemma sink_flush_schedule s : keeps (same_schedule fa) (sink_flush s).
Proof.
pose proof (groove_queue_flush_keeps _ R_frame).
unfold sink_flush, log. keeps_auto.
Qed.

Lemma decode_one_frame_schedule :
keeps (same_schedule fa)
  (decode_one_frame nb_channels bytes graph_alloc_ok libav put_ok env (Some fa)).
Proof.
pose proof (maybe_init_filter_graph_schedule fa libav graph_alloc_ok) as Hinit.
pose proof audio_decode_frame_schedule as Hdec.
pose proof (every_sink_keeps _ R_frame sink_flush 0 sink_flush_schedule) as Hflush.
assert (∀ v, keeps (same_schedule fa) (store_file (Some fa) (with_seek_pos v))) as Hpos.
{ intros v. apply same_schedule_store_file. intros f. repeat split. }
assert (∀ v, keeps (same_schedule fa) (store_file (Some fa) (with_eof v))) as Heof.
{ intros v. apply same_schedule_store_file. intros f. repeat split. }
unfold decode_one_frame, every_sink_flush, update_playlist. keeps_auto.
apply keeps_modify; intros ?; apply same_schedule_set_playlist; reflexivity.
Qed.

End ScheduleDecode.

Lemma returns_ret {A} (P : A → Prop) a : P a → returns P (ret a).
Proof. intros HP w a' w' [= <- _]. exact HP. Qed.

Lemma returns_bind {A B} (P : B → Prop) (c : M A) (k : A → M B) :
  (∀ a, returns P (k a)) → returns P (bind c k).
Proof. intros Hk w b w' H. apply bind_inv in H as (a & w1 & _ & H). exact (Hk a _ _ _ H). Qed.

Lemma decode_one_frame_returns nb_channels bytes graph_alloc_ok libav put_ok env file' :
  returns (λ r, r = 0 ∨ r = -1)
    (decode_one_frame nb_channels bytes graph_alloc_ok libav put_ok env file').
Proof.
  unfold decode_one_frame.
  repeat first
    [ apply returns_ret; (left; reflexivity) || (right; reflexivity)
    | apply returns_bind; intros ?
    | match goal with |- returns _ (if ?c then _ else _) => destruct c end ].
Qed.

(** X11: whatever the libraries answer, a call of decode_one_frame that
    returns gives 0 or -1 and leaves the schedule alone: the items and
    their links, head, tail and decode_head, volume and effective volume,
    the pause and abort requests, sent_end_of_q, purge_item, the number of
    classes and the sinks of each class.  Of the files only the decoded one
    is written, and only its seek_pos, eof and audio_clock. *)
Theorem decode_one_frame_keeps_schedule (nb_channels bytes : Z → Z) (graph_alloc_ok : bool)
    (libav : libav_call → Z) (put_ok : option loc → bool) (env : DecodeEnv)
    (fa : loc) (w w' : World) (r : Z) :
  decode_one_frame nb_channels bytes graph_alloc_ok libav put_ok env (Some fa) w = Ok (r, w') →
  same_schedule fa w w' ∧ (r = 0 ∨ r = -1).
Proof.
  intros H. split.
  - exact (decode_one_frame_schedule fa nb_channels bytes graph_alloc_ok libav put_ok env
             _ _ _ H).
  - exact (decode_one_frame_returns _ _ _ _ _ _ _ _ _ _ H).
Qed.

Lemma decode_one_frame_keeps_schedule_witness :
  ∃ w', decode_one_frame two_channels two_bytes true (λ _, 0) (λ _, true) eof_env
          (Some 100%positive) (idle_world []) = Ok (0, w') ∧
        same_schedule 100%positive (idle_world []) w'.
Proof.
  assert (∃ w', decode_one_frame two_channels two_bytes true (λ _, 0) (λ _, true) eof_env
                  (Some 100%positive) (idle_world []) = Ok (0, w')) as [w' Hrun].
  { eexists. vm_compute. reflexivity. }
  exists w'. split; [exact Hrun|].
  exact (proj1 (decode_one_frame_keeps_schedule _ _ _ _ _ _ _ _ _ _ Hrun)).
Defined.

(** ** The end of a file *)

Lemma maybe_init_filter_graph_fresh graph_alloc_ok libav l f w :
  files w !! l = Some f → graph_fresh (playlist w) f →
  maybe_init_filter_graph graph_alloc_ok libav (Some l) w = Ok (0, w).
Proof.
  intros Hf (Hg & Hflag & Hr & Hl & Hs & Ht & Hv).
  unfold maybe_init_filter_graph.
  rewrite bind_the_playlist, (bind_Ok _ _ _ _ _ (load_Ok files l w f Hf)).
  rewrite bool_decide_false by exact Hg.
  rewrite Hflag, Hr, Hl, Hs, Ht, Hv, !Z.eqb_refl. reflexivity.
Qed.

Lemma store_file_Ok w a x f :
  files w !! a = Some x → store_file (Some a) f w = Ok (tt, set_files <[a := f x]> w).
Proof. intros Hx. unfold store_file, bind. rewrite (load_Ok files a w x Hx). reflexivity. Qed.

Lemma pause_noted_files w : files (pause_noted w) = files w.
Proof. unfold pause_noted. destruct (_ =? _); reflexivity. Qed.

Lemma pause_noted_again w : pause_noted (pause_noted w) = pause_noted w.
Proof.
  unfold pause_noted at 1. destruct (Z.eqb_spec (paused (playlist (pause_noted w)))
                                       (last_paused (playlist (pause_noted w)))) as [E|E];
    [reflexivity|].
  destruct E. unfold pause_noted.
  destruct (Z.eqb_spec (paused (playlist w)) (last_paused (playlist w))) as [E|E];
    [exact E | reflexivity].
Qed.

Section EndOfFile.

Variables nb_channels bytes : Z → Z.
Variable graph_alloc_ok : bool.
Variable libav : libav_call → Z.
Variable put_ok : option loc → bool.

(** The start of [decode_one_frame] on a file that is not aborted, while the
  graph is fresh: the pause request is noted. *)
Lemma decode_one_frame_start env fa f w :
files w !! fa = Some f → graph_fresh (playlist w) f → f_abort_request f = 0 →
decode_one_frame nb_channels bytes graph_alloc_ok libav put_ok env (Some fa) w =
  (let* f := load files (Some fa) in
   when (0 <=? seek_pos f)
     ((if seek_frame_result env <? 0 then ret tt
       else when (negb (seek_flush f =? 0)) every_sink_flush) >>
      store_file (Some fa) (with_seek_pos (-1)) >>
      store_file (Some fa) (with_eof 0)) >>
   let* f := load files (Some fa) in
   if negb (eof f =? 0) then
     if codec_cap_delay env then
       let* r := audio_decode_frame nb_channels bytes put_ok env
                   (mkPacket AV_NOPTS_VALUE 0 0 (audio_stream_index env)) (Some fa) in
       if 0 <? r then ret 0 else ret (-1)
     else ret (-1)
   else
     let err := read_frame_result env in
     if err <? 0 then store_file (Some fa) (with_eof 1) >> ret 0
     else
       let pkt := read_packet env in
       if negb (pkt_stream_index pkt =? audio_stream_index env) then ret 0
       else let* _ := audio_decode_frame nb_channels bytes put_ok env pkt (Some fa) in ret 0)
    (pause_noted w).
Proof.
intros Hf Hfresh Habort. unfold decode_one_frame.
rewrite (bind_Ok _ _ _ _ _ (maybe_init_filter_graph_fresh _ _ _ _ _ Hf Hfresh)).
change (0 <? 0) with false. cbv iota.
rewrite (bind_Ok _ _ _ _ _ (load_Ok files fa w f Hf)).
rewrite Habort. change (negb (0 =? 0)) with false. cbv iota.
rewrite bind_the_playlist. unfold pause_noted.
destruct (paused (playlist w) =? last_paused (playlist w)); reflexivity.
Qed.

(** [av_read_frame] fails: the file is marked, and 0 is returned. *)
Lemma decode_one_frame_read_error env fa f w :
files w !! fa = Some f → graph_fresh (playlist w) f → f_abort_request f = 0 →
seek_pos f < 0 → eof f = 0 → read_frame_result env < 0 →
decode_one_frame nb_channels bytes graph_alloc_ok libav put_ok env (Some fa) w =
  Ok (0, set_files <[fa := with_eof 1 f]> (pause_noted w)).
Proof.
intros Hf Hfresh Habort Hseek Heof Herr.
rewrite (decode_one_frame_start env fa f w Hf Hfresh Habort).
assert (files (pause_noted w) !! fa = Some f) as Hf' by (rewrite pause_noted_files; exact Hf).
rewrite (bind_Ok _ _ _ _ _ (load_Ok files fa _ f Hf')).
rewrite (proj2 (Z.leb_gt 0 (seek_pos f)) Hseek). unfold when at 1. cbv iota. rewrite bind_ret.
rewrite (bind_Ok _ _ _ _ _ (load_Ok files fa _ f Hf')).
rewrite Heof. change (negb (0 =? 0)) with false. cbv iota zeta.
rewrite (proj2 (Z.ltb_lt _ 0) Herr).
rewrite (bind_Ok _ _ _ _ _ (store_file_Ok _ fa f _ Hf')). reflexivity.
Qed.

(** The empty packet that drains the decoder, when the decoder has no
  frame left. *)
Lemma audio_decode_frame_drained env fa f w len1 rest idx :
files w !! fa = Some f →
decode_answers env = (len1, false) :: rest → len1 ≤ INT_MAX →
∃ r, r ≤ 0 ∧
     audio_decode_frame nb_channels bytes put_ok env (mkPacket AV_NOPTS_VALUE 0 0 idx)
       (Some fa) w = Ok (r, w).
Proof.
intros Hf Hans Hlen. unfold audio_decode_frame.
rewrite (bind_Ok _ _ _ _ _ (load_Ok files fa _ f Hf)).
cbn [pkt_pts pkt_data pkt_size]. rewrite Z.eqb_refl. cbn [negb when]. rewrite bind_ret.
rewrite Hans. cbn [audio_decode_frame_loop]. cbn [Z.ltb Z.eqb Z.compare orb andb].
destruct (Z.ltb_spec len1 0) as [Hneg|Hpos]; [exists (-1); split; [lia | reflexivity]|].
cbn [negb]. rewrite Z.add_0_l.
destruct (Z.eqb_spec len1 0) as [->|Hne].
- destruct (codec_cap_delay env); cbn [andb].
  + exists 0. split; [lia | reflexivity].
  + destruct rest as [|a rest]; cbn [audio_decode_frame_loop];
      exists 0; (split; [lia | reflexivity]).
- cbn [andb].
  assert (wrap_int (0 - len1) = - len1) as ->.
  { rewrite wrap_int_small by (unfold INT_MAX in *; lia). lia. }
  destruct rest as [|a rest]; cbn [audio_decode_frame_loop];
    rewrite andb_false_r, orb_false_r, (proj2 (Z.ltb_ge 0 (- len1))) by lia;
    exists 0; (split; [lia | reflexivity]).
Qed.

(** The file is marked and no seek is pending: -1, unless the codec has a
  delay and still gives a frame. *)
Lemma decode_one_frame_at_eof env fa f w :
files w !! fa = Some f → graph_fresh (playlist w) f → f_abort_request f = 0 →
seek_pos f < 0 → eof f ≠ 0 →
(codec_cap_delay env = false ∨
 ∃ len1 rest, decode_answers env = (len1, false) :: rest ∧ len1 ≤ INT_MAX) →
decode_one_frame nb_channels bytes graph_alloc_ok libav put_ok env (Some fa) w =
  Ok (-1, pause_noted w).
Proof.
intros Hf Hfresh Habort Hseek Heof Henv.
rewrite (decode_one_frame_start env fa f w Hf Hfresh Habort).
assert (files (pause_noted w) !! fa = Some f) as Hf' by (rewrite pause_noted_files; exact Hf).
rewrite (bind_Ok _ _ _ _ _ (load_Ok files fa _ f Hf')).
rewrite (proj2 (Z.leb_gt 0 (seek_pos f)) Hseek). unfold when at 1. cbv iota. rewrite bind_ret.
rewrite (bind_Ok _ _ _ _ _ (load_Ok files fa _ f Hf')).
destruct (Z.eqb_spec (eof f) 0) as [E|_]; [contradiction|]. cbn [negb].
destruct (codec_cap_delay env) eqn:Ecap; [|reflexivity].
destruct Henv as [[=]|(len1 & rest & Hans & Hlen)].
destruct (audio_decode_frame_drained env fa f _ len1 rest (audio_stream_index env)
            Hf' Hans Hlen) as (r & Hr & Hrun).
rewrite (bind_Ok _ _ _ _ _ Hrun), (proj2 (Z.ltb_ge 0 r)) by lia. reflexivity.
Qed.

(** A packet of another stream is dropped. *)
Lemma decode_one_frame_other_stream env fa f w :
files w !! fa = Some f → graph_fresh (playlist w) f → f_abort_request f = 0 →
seek_pos f < 0 → eof f = 0 → 0 ≤ read_frame_result env →
pkt_stream_index (read_packet env) ≠ audio_stream_index env →
decode_one_frame nb_channels bytes graph_alloc_ok libav put_ok env (Some fa) w =
  Ok (0, pause_noted w).
Proof.
intros Hf Hfresh Habort Hseek Heof Herr Hidx.
rewrite (decode_one_frame_start env fa f w Hf Hfresh Habort).
assert (files (pause_noted w) !! fa = Some f) as Hf' by (rewrite pause_noted_files; exact Hf).
rewrite (bind_Ok _ _ _ _ _ (load_Ok files fa _ f Hf')).
rewrite (proj2 (Z.leb_gt 0 (seek_pos f)) Hseek). unfold when at 1. cbv iota. rewrite bind_ret.
rewrite (bind_Ok _ _ _ _ _ (load_Ok files fa _ f Hf')).
rewrite Heof. change (negb (0 =? 0)) with false. cbv iota zeta.
rewrite (proj2 (Z.ltb_ge _ 0) Herr).
destruct (Z.eqb_spec (pkt_stream_index (read_packet env)) (audio_stream_index env));
  [contradiction | reflexivity].
Qed.

(** The file is being destroyed. *)
Lemma decode_one_frame_aborted env fa f w :
files w !! fa = Some f → graph_fresh (playlist w) f → f_abort_request f ≠ 0 →
decode_one_frame nb_channels bytes graph_alloc_ok libav put_ok env (Some fa) w = Ok (-1, w).
Proof.
intros Hf Hfresh Habort. unfold decode_one_frame.
rewrite (bind_Ok _ _ _ _ _ (maybe_init_filter_graph_fresh _ _ _ _ _ Hf Hfresh)).
change (0 <? 0) with false. cbv iota.
rewrite (bind_Ok _ _ _ _ _ (load_Ok files fa w f Hf)).
destruct (Z.eqb_spec (f_abort_request f) 0); [contradiction | reflexivity].
Qed.

End EndOfFile.

Lemma with_last_paused_same p : with_last_paused (last_paused p) p = p.
Proof. destruct p. reflexivity. Qed.

Lemma pause_noted_eq w :
  pause_noted w = set_playlist (with_last_paused (paused (playlist w))) w.
Proof.
  unfold pause_noted. destruct (Z.eqb_spec (paused (playlist w)) (last_paused (playlist w)))
    as [E|E]; [|reflexivity].
  rewrite E. destruct w as [i f s b p t]. unfold set_playlist. simpl.
  rewrite with_last_paused_same. reflexivity.
Qed.

Lemma pause_noted_set_files g w : pause_noted (set_files g w) = set_files g (pause_noted w).
Proof. unfold pause_noted. simpl. destruct (_ =? _); reflexivity. Qed.

Lemma graph_fresh_pause_noted w f :
  graph_fresh (playlist w) f → graph_fresh (playlist (pause_noted w)) f.
Proof. rewrite pause_noted_eq. exact (λ H, H). Qed.

(** X12: the return codes of decode_one_frame while the graph is fresh
    and no seek is pending.  A file that is being destroyed gives -1 and
    nothing is written.  Otherwise the pause request is noted; a read error
    of any kind marks the file (eof = 1) and gives 0; a packet of any
    stream but the audio stream is dropped and gives 0; and a call on a
    marked file gives -1 when the codec has no delay or its decoder has no
    frame left.  So the end of a file takes two calls. *)
Theorem decode_one_frame_end_of_file (nb_channels bytes : Z → Z) (graph_alloc_ok : bool)
    (libav : libav_call → Z) (put_ok : option loc → bool) (env env2 : DecodeEnv)
    (fa : loc) (f : GrooveFilePrivate) (w : World) :
  files w !! fa = Some f → graph_fresh (playlist w) f →
  let run e := decode_one_frame nb_channels bytes graph_alloc_ok libav put_ok e (Some fa) in
  (f_abort_request f ≠ 0 → run env w = Ok (-1, w)) ∧
  (f_abort_request f = 0 → seek_pos f < 0 → eof f = 0 →
     (read_frame_result env < 0 →
        run env w = Ok (0, set_files <[fa := with_eof 1 f]> (pause_noted w)) ∧
        ((codec_cap_delay env2 = false ∨
          ∃ len1 rest, decode_answers env2 = (len1, false) :: rest ∧ len1 ≤ INT_MAX) →
         run env2 (set_files <[fa := with_eof 1 f]> (pause_noted w)) =
           Ok (-1, set_files <[fa := with_eof 1 f]> (pause_noted w)))) ∧
     (0 ≤ read_frame_result env →
      pkt_stream_index (read_packet env) ≠ audio_stream_index env →
        run env w = Ok (0, pause_noted w))).
Proof.
  intros Hf Hfresh run. split; [|intros Habort Hseek Heof; split; [intros Herr; split|]].
  - intros Habort. apply (decode_one_frame_aborted _ _ _ _ _ _ _ f); assumption.
  - apply decode_one_frame_read_error; assumption.
  - intros Henv2. unfold run.
    rewrite (decode_one_frame_at_eof nb_channels bytes graph_alloc_ok libav put_ok env2 fa
               (with_eof 1 f)).
    + rewrite pause_noted_set_files, pause_noted_again. reflexivity.
    + simpl. apply lookup_insert_eq.
    + apply graph_fresh_pause_noted in Hfresh. exact Hfresh.
    + exact Habort.
    + exact Hseek.
    + discriminate.
    + exact Henv2.
  - intros Herr Hidx. apply (decode_one_frame_other_stream _ _ _ _ _ _ _ f); assumption.
Qed.

Lemma fresh_world_fresh : graph_fresh (playlist fresh_world) a_file.
Proof. repeat split. discriminate. Qed.

Lemma decode_one_frame_end_of_file_witness :
  decode_one_frame two_channels two_bytes true (λ _, 0) (λ _, true) eof_env
    (Some 100%positive) fresh_world = Ok (0, ended_world) ∧
  decode_one_frame two_channels two_bytes true (λ _, 0) (λ _, true) eof_env
    (Some 100%positive) ended_world = Ok (-1, ended_world).
Proof.
  destruct (decode_one_frame_end_of_file two_channels two_bytes true (λ _, 0) (λ _, true)
              eof_env eof_env 100%positive a_file fresh_world eq_refl fresh_world_fresh)
    as [_ [H _]].
  - reflexivity.
  - reflexivity.
  - reflexivity.
  - destruct H as [H1 H2]; [reflexivity|]. split; [exact H1|]. apply H2. left. reflexivity.
Defined.

(** ** The worker at the end of a file *)

Section WorkerEndOfFile.

Variables nb_channels bytes : Z → Z.
Variable graph_alloc_ok : bool.
Variable libav : libav_call → Z.
Variable put_ok : option loc → bool.

Let run env := decode_one_frame nb_channels bytes graph_alloc_ok libav put_ok env.

(** What the worker leaves when [decode_one_frame] returned [-1] without
  writing anything: the decode head moves on, and the file of the next
  item is rewound. *)
Lemma decode_thread_advance_next w d i :
decode_head (playlist w) = Some d → items w !! d = Some i →
(∀ n, next i = Some n →
      ∃ i2 fb, items w !! n = Some i2 ∧ file i2 = Some fb ∧ is_Some (files w !! fb)) →
∃ w',
  decode_thread_advance (-1) w = Ok (tt, w') ∧
  decode_head (playlist w') = next i ∧
  (next i = NULL → files w' = files w) ∧
  (∀ n i2 fb x, next i = Some n → items w !! n = Some i2 → file i2 = Some fb →
                files w !! fb = Some x → files w' = <[fb := with_seek 0 0 x]> (files w)) ∧
  items w' = items w ∧ sinks w' = sinks w ∧ buffers w' = buffers w ∧ trace w' = trace w ∧
  sent_end_of_q (playlist w') = sent_end_of_q (playlist w).
Proof.
intros Hd Hi Hnext. unfold decode_thread_advance. cbn [Z.ltb Z.compare when].
rewrite bind_the_playlist, Hd, (bind_Ok _ _ _ _ _ (load_Ok items d w i Hi)).
rewrite bind_update_playlist, bind_the_playlist.
cbn [playlist set_playlist decode_head with_decode_head].
destruct (next i) as [n|] eqn:En.
- destruct (Hnext n eq_refl) as (i2 & fb & Hi2 & Hfb & [x Hx]).
  change (is_null (Some n)) with false. cbn [negb when].
  rewrite (bind_Ok _ _ _ _ _ (load_Ok items n (set_playlist _ w) i2 Hi2)).
  rewrite Hfb.
  rewrite (store_file_Ok (set_playlist (with_decode_head (Some n)) w) fb x _ Hx).
  eexists. split; [reflexivity|]. split; [reflexivity|]. split; [discriminate|].
  split; [|repeat split].
  intros n' i2' fb' x' [= <-] Hi2' Hfb' Hx'. rewrite Hi2 in Hi2'. injection Hi2' as <-.
  rewrite Hfb in Hfb'. injection Hfb' as <-. rewrite Hx in Hx'. injection Hx' as <-.
  reflexivity.
- eexists. split; [reflexivity|]. repeat split. intros ? ? ? ? [=].
Qed.

(** A turn of the worker that decodes. *)
Lemma decode_thread_body_turn env w d i :
decode_head (playlist w) = Some d → items w !! d = Some i →
Forall (sink_allocated w) (attached_sinks w) → some_sink_hungry w →
decode_thread_body (run env) put_ok w =
  bind (run env (file i)) decode_thread_advance
    (set_trace (λ t, t ++ [Decode (file i)])
       (set_playlist (λ p, with_p_volume (gain i * volume p)%float
                             (with_sent_end_of_q 0 p)) w)).
Proof.
intros Hd Hi Hall Hh. apply (decode_thread_body_decodes _ _ w d i); try assumption.
apply (sink_full_hungry w Hall), Hh.
Qed.

End WorkerEndOfFile.

(** X13: the worker at the end of a file.  With a hungry sink, a fresh
    graph and no seek pending, the turn in which av_read_frame fails only
    marks the file; the next turn (the codec has no delay, or its decoder
    has no frame left) moves decode_head to the next item and, if there is
    one, rewinds its file (seek_pos 0, seek_flush 0).  No sink and no
    buffer is touched in either turn, and no end-of-queue sentinel is sent
    by them. *)
Theorem decode_thread_end_of_file (nb_channels bytes : Z → Z) (graph_alloc_ok : bool)
    (libav : libav_call → Z) (put_ok : option loc → bool) (env env2 : DecodeEnv)
    (w : World) (d fa : loc) (i : GroovePlaylistItem) (f : GrooveFilePrivate) :
  decode_head (playlist w) = Some d → items w !! d = Some i → file i = Some fa →
  files w !! fa = Some f →
  Forall (sink_allocated w) (attached_sinks w) → some_sink_hungry w →
  graph_fresh (with_p_volume (gain i * volume (playlist w)) (playlist w)) f →
  f_abort_request f = 0 → seek_pos f < 0 → eof f = 0 →
  read_frame_result env < 0 →
  (codec_cap_delay env2 = false ∨
   ∃ len1 rest, decode_answers env2 = (len1, false) :: rest ∧ len1 ≤ INT_MAX) →
  (∀ n, next i = Some n →
        ∃ i2 fb, items w !! n = Some i2 ∧ file i2 = Some fb ∧ is_Some (files w !! fb)) →
  let turn e :=
    decode_thread_body
      (decode_one_frame nb_channels bytes graph_alloc_ok libav put_ok e) put_ok in
  ∃ w1 w2,
    turn env w = Ok (tt, w1) ∧
    decode_head (playlist w1) = Some d ∧
    files w1 = <[fa := with_eof 1 f]> (files w) ∧
    turn env2 w1 = Ok (tt, w2) ∧
    decode_head (playlist w2) = next i ∧
    (next i = NULL → files w2 = files w1) ∧
    (∀ n i2 fb x, next i = Some n → items w !! n = Some i2 → file i2 = Some fb →
                  files w1 !! fb = Some x → files w2 = <[fb := with_seek 0 0 x]> (files w1)) ∧
    items w2 = items w ∧ sinks w2 = sinks w ∧ buffers w2 = buffers w ∧
    sent_end_of_q (playlist w2) = 0 ∧
    trace w2 = trace w ++ [Decode (Some fa); Decode (Some fa)].
Proof.
  intros Hd Hi Hfile Hf Hall Hh Hfresh Habort Hseek Heof Herr Henv2 Hnext turn.
  (* the first turn *)
  set (wd := set_trace (λ t, t ++ [Decode (Some fa)])
               (set_playlist (λ p, with_p_volume (gain i * volume p)%float
                                     (with_sent_end_of_q 0 p)) w)).
  set (w1 := set_files <[fa := with_eof 1 f]>
               (set_playlist (with_last_paused (paused (playlist wd))) wd)).
  assert (turn env w = Ok (tt, w1)) as H1.
  { unfold turn.
    rewrite (decode_thread_body_turn _ _ _ _ _ env w d i Hd Hi Hall Hh), Hfile.
    fold wd.
    rewrite (bind_Ok _ _ _ _ _
               (decode_one_frame_read_error nb_channels bytes graph_alloc_ok libav put_ok
                  env fa f wd Hf Hfresh Habort Hseek Heof Herr)).
    rewrite pause_noted_eq. reflexivity. }
  (* the second turn *)
  set (wd1 := set_trace (λ t, t ++ [Decode (Some fa)])
                (set_playlist (λ p, with_p_volume (gain i * volume p)%float
                                      (with_sent_end_of_q 0 p)) w1)).
  assert (files wd1 !! fa = Some (with_eof 1 f)) as Hf1 by apply lookup_insert_eq.
  assert (decode_one_frame nb_channels bytes graph_alloc_ok libav put_ok env2 (Some fa) wd1 =
            Ok (-1, set_playlist (with_last_paused (paused (playlist wd1))) wd1)) as Hrun2.
  { rewrite <- pause_noted_eq.
    apply (decode_one_frame_at_eof nb_channels bytes graph_alloc_ok libav put_ok env2 fa
             (with_eof 1 f) wd1 Hf1); try assumption.
    discriminate. }
  destruct (decode_thread_advance_next
              (set_playlist (with_last_paused (paused (playlist wd1))) wd1) d i Hd Hi)
    as (w2 & Hadv & Hhead & Hnone & Hsome & Hitems & Hsinks & Hbuffers & Htrace & Hsent).
  { intros n Hn. destruct (Hnext n Hn) as (i2 & fb & Hi2 & Hfb & [x Hx]).
    exists i2, fb. split; [exact Hi2|]. split; [exact Hfb|].
    change (is_Some ((<[fa := with_eof 1 f]> (files w)) !! fb)).
    destruct (decide (fb = fa)) as [->|Hne].
    - rewrite lookup_insert_eq. eauto.
    - rewrite lookup_insert_ne by congruence. eauto. }
  exists w1, w2. split; [exact H1|]. split; [exact Hd|]. split; [reflexivity|].
  split.
  { unfold turn.
    rewrite (decode_thread_body_turn _ _ _ _ _ env2 w1 d i Hd Hi Hall Hh), Hfile.
    fold wd1. rewrite (bind_Ok _ _ _ _ _ Hrun2). exact Hadv. }
  split; [exact Hhead|]. split; [exact Hnone|]. split; [exact Hsome|].
  split; [exact Hitems|]. split; [exact Hsinks|]. split; [exact Hbuffers|].
  split; [exact Hsent|].
  rewrite Htrace. simpl. rewrite <- app_assoc. reflexivity.
Qed.

Lemma decode_thread_end_of_file_witness :
  ∃ w1 w2,
    decode_thread_body
      (decode_one_frame two_channels two_bytes true (λ _, 0) (λ _, true) eof_env)
      (λ _, true) playing_world = Ok (tt, w1) ∧
    decode_thread_body
      (decode_one_frame two_channels two_bytes true (λ _, 0) (λ _, true) eof_env)
      (λ _, true) w1 = Ok (tt, w2) ∧
    decode_head (playlist w2) = NULL.
Proof.
  destruct (decode_thread_end_of_file two_channels two_bytes true (λ _, 0) (λ _, true)
              eof_env eof_env playing_world 50%positive 100%positive
              (mkItem (Some 100%positive) 1%float NULL NULL) a_file)
    as (w1 & w2 & H1 & _ & _ & H2 & Hhead & _).
  - reflexivity.
  - reflexivity.
  - reflexivity.
  - reflexivity.
  - repeat constructor. exists 1%positive, (with_cached 176400 4096 (a_sink [])).
    split; reflexivity.
  - exists 1%positive, (with_cached 176400 4096 (a_sink [])).
    split; [left|]. split; [reflexivity|]. simpl. lia.
  - repeat split. discriminate.
  - reflexivity.
  - reflexivity.
  - reflexivity.
  - reflexivity.
  - left. reflexivity.
  - intros n [=].
  - exists w1, w2. split; [exact H1|]. split; [exact H2 | exact Hhead].
Defined.

(** ** A pending seek *)

Lemma same_files_playlist_frame : frame_rel same_files_playlist.
Proof.
  split; unfold same_files_playlist; try (intros; split; reflexivity).
  intros w1 w2 w3 [-> ->] [-> ->]. split; reflexivity.
Qed.

Lemma every_sink_flush_same_files_playlist :
  keeps same_files_playlist every_sink_flush.
Proof.
  pose proof same_files_playlist_frame as R_frame.
  pose proof (groove_queue_flush_keeps _ R_frame).
  assert (∀ s, keeps same_files_playlist (sink_flush s)) as Hflush.
  { intros s. unfold sink_flush, log. keeps_auto. }
  pose proof (every_sink_keeps _ R_frame sink_flush 0 Hflush).
  unfold every_sink_flush. keeps_auto.
Qed.

Lemma pause_noted_fixed w :
  paused (playlist w) = last_paused (playlist w) → pause_noted w = w.
Proof. intros E. unfold pause_noted. rewrite E, Z.eqb_refl. reflexivity. Qed.

Lemma pause_noted_synced w :
  paused (playlist (pause_noted w)) = last_paused (playlist (pause_noted w)).
Proof.
  unfold pause_noted.
  destruct (Z.eqb_spec (paused (playlist w)) (last_paused (playlist w))) as [E|E];
    [exact E | reflexivity].
Qed.

Lemma set_files_insert_insert l a b w :
  set_files <[l := a]> (set_files <[l := b]> w) = set_files <[l := a]> w.
Proof. unfold set_files. simpl. rewrite insert_insert_eq. reflexivity. Qed.

Lemma bind_ext_on {A B} (c : M A) (k1 k2 : A → M B) w :
  (∀ a w', c w = Ok (a, w') → k1 a w' = k2 a w') → bind c k1 w = bind c k2 w.
Proof.
  intros Hk. unfold bind. destruct (c w) as [[a w']|]; [apply Hk; reflexivity | reflexivity].
Qed.

Lemma bind_modify {B} g (k : unit → M B) w : bind (modify g) k w = k tt (g w).
Proof. reflexivity. Qed.

Section PendingSeek.

Variables nb_channels bytes : Z → Z.
Variable graph_alloc_ok : bool.
Variable libav : libav_call → Z.
Variable put_ok : option loc → bool.
Variable env : DecodeEnv.

Let run := decode_one_frame nb_channels bytes graph_alloc_ok libav put_ok env.

(** After the request was cleared, in a world that noted the pause request,
  [decode_one_frame] goes straight to the packet. *)
Lemma decode_one_frame_cleared fa f w :
files w !! fa = Some f → graph_fresh (playlist w) f → f_abort_request f = 0 →
seek_pos f < 0 → paused (playlist w) = last_paused (playlist w) →
run (Some fa) w =
  (let* f := load files (Some fa) in
   if negb (eof f =? 0) then
     if codec_cap_delay env then
       let* r := audio_decode_frame nb_channels bytes put_ok env
                   (mkPacket AV_NOPTS_VALUE 0 0 (audio_stream_index env)) (Some fa) in
       if 0 <? r then ret 0 else ret (-1)
     else ret (-1)
   else
     let err := read_frame_result env in
     if err <? 0 then store_file (Some fa) (with_eof 1) >> ret 0
     else
       let pkt := read_packet env in
       if negb (pkt_stream_index pkt =? audio_stream_index env) then ret 0
       else let* _ := audio_decode_frame nb_channels bytes put_ok env pkt (Some fa) in ret 0)
    w.
Proof.
intros Hf Hfresh Habort Hseek Hsync. unfold run.
rewrite (decode_one_frame_start nb_channels bytes graph_alloc_ok libav put_ok env fa f w
           Hf Hfresh Habort).
rewrite (pause_noted_fixed w Hsync).
rewrite (bind_Ok _ _ _ _ _ (load_Ok files fa _ f Hf)).
rewrite (proj2 (Z.leb_gt 0 (seek_pos f)) Hseek). unfold when at 1. cbv iota.
rewrite bind_ret. reflexivity.
Qed.

End PendingSeek.

(** X14: a pending seek (seek_pos >= 0) on a file that is not aborted,
    while the graph is up to date: decode_one_frame notes the pause
    request, flushes every sink exactly when av_seek_frame succeeded and
    seek_flush is set, clears the request (seek_pos = -1) and the
    end-of-file mark whether or not the seek worked, and then goes on as a
    call without a pending seek does. *)
Theorem decode_one_frame_pending_seek (nb_channels bytes : Z → Z) (graph_alloc_ok : bool)
    (libav : libav_call → Z) (put_ok : option loc → bool) (env : DecodeEnv)
    (fa : loc) (f : GrooveFilePrivate) (w : World) :
  files w !! fa = Some f → graph_fresh (playlist w) f → f_abort_request f = 0 →
  0 ≤ seek_pos f →
  decode_one_frame nb_channels bytes graph_alloc_ok libav put_ok env (Some fa) w =
    (let* _ := if (seek_frame_result env <? 0) || (seek_flush f =? 0) then ret tt
               else every_sink_flush in
     modify (set_files <[fa := with_eof 0 (with_seek_pos (-1) f)]>) >>
     decode_one_frame nb_channels bytes graph_alloc_ok libav put_ok env (Some fa))
      (pause_noted w).
Proof.
  intros Hf Hfresh Habort Hseek.
  rewrite (decode_one_frame_start nb_channels bytes graph_alloc_ok libav put_ok env fa f w
             Hf Hfresh Habort).
  assert (files (pause_noted w) !! fa = Some f) as Hf' by (rewrite pause_noted_files; exact Hf).
  rewrite (bind_Ok _ _ _ _ _ (load_Ok files fa _ f Hf')).
  rewrite (proj2 (Z.leb_le 0 (seek_pos f)) Hseek). unfold when at 1. cbv iota.
  rewrite !bind_assoc.
  assert ((if seek_frame_result env <? 0 then ret tt
           else when (negb (seek_flush f =? 0)) every_sink_flush) =
          (if (seek_frame_result env <? 0) || (seek_flush f =? 0) then ret tt
           else every_sink_flush)) as ->.
  { destruct (seek_frame_result env <? 0), (seek_flush f =? 0); reflexivity. }
  set (flush := if (seek_frame_result env <? 0) || (seek_flush f =? 0) then ret tt
                else every_sink_flush).
  assert (keeps same_files_playlist flush) as Hkeeps.
  { unfold flush. destruct (_ || _).
    - apply keeps_ret, same_files_playlist_frame.
    - apply every_sink_flush_same_files_playlist. }
  apply bind_ext_on. intros [] w1 E.
  apply Hkeeps in E as [Efiles Eplaylist].
  assert (files w1 !! fa = Some f) as Hf1 by (rewrite Efiles; exact Hf').
  rewrite bind_assoc.
  rewrite (bind_Ok _ _ _ _ _ (store_file_Ok w1 fa f _ Hf1)).
  assert (files (set_files <[fa := with_seek_pos (-1) f]> w1) !! fa =
          Some (with_seek_pos (-1) f)) as Hf2 by apply lookup_insert_eq.
  rewrite (bind_Ok _ _ _ _ _ (store_file_Ok _ fa _ _ Hf2)).
  rewrite set_files_insert_insert, bind_modify.
  symmetry. apply (decode_one_frame_cleared _ _ _ _ _ _ fa (with_eof 0 (with_seek_pos (-1) f))).
  - apply lookup_insert_eq.
  - simpl. rewrite Eplaylist. apply graph_fresh_pause_noted in Hfresh. exact Hfresh.
  - exact Habort.
  - simpl. lia.
  - simpl. rewrite Eplaylist. apply pause_noted_synced.
Qed.

Lemma decode_one_frame_pending_seek_witness :
  decode_one_frame two_channels two_bytes true (λ _, 0) (λ _, true) eof_env
    (Some 100%positive) rewound_world =
  bind (ret tt)
    (λ _, bind (modify (set_files <[100%positive := with_eof 0 (with_seek_pos (-1)
                                                       (with_seek 0 0 a_file))]>))
            (λ _, decode_one_frame two_channels two_bytes true (λ _, 0) (λ _, true) eof_env
                    (Some 100%positive)))
    (pause_noted rewound_world).
Proof.
  apply (decode_one_frame_pending_seek two_channels two_bytes true (λ _, 0) (λ _, true)
           eof_env 100%positive (with_seek 0 0 a_file) rewound_world).
  - reflexivity.
  - repeat split. discriminate.
  - reflexivity.
  - simpl. lia.
Defined.

(** X15: groove_playlist_seek leaves a request on the file of the item
    (seek_pos = the target, seek_flush = 1) and makes the item the decode
    head, touching nothing else.  When the target is not negative and
    av_seek_frame succeeds, the next decode_one_frame on the file flushes
    every sink, clears the request and the end-of-file mark, and decodes on:
    a file that had ended plays again.  A negative target is no request at
    all: a file that had ended stays ended, and decode_one_frame answers -1.  *)
Theorem groove_playlist_seek_then_decode (double_to_int64 : float → Z) (start_time : Z)
    (seconds : float) (nb_channels bytes : Z → Z) (graph_alloc_ok : bool)
    (libav : libav_call → Z) (put_ok : option loc → bool) (env : DecodeEnv)
    (it fa : loc) (i : GroovePlaylistItem) (f : GrooveFilePrivate) (w : World) :
  items w !! it = Some i → file i = Some fa → files w !! fa = Some f →
  graph_fresh (playlist w) f → f_abort_request f = 0 →
  let ts := seek_target double_to_int64 start_time f seconds in
  let ws := set_playlist (with_decode_head (Some it))
              (set_files <[fa := with_seek ts 1 f]> w) in
  let run := decode_one_frame nb_channels bytes graph_alloc_ok libav put_ok env (Some fa) in
  groove_playlist_seek double_to_int64 start_time (Some it) seconds w = Ok (tt, ws) ∧
  (0 ≤ ts → 0 ≤ seek_frame_result env →
     run ws = (every_sink_flush >>
               modify (set_files <[fa := with_eof 0 (with_seek (-1) 1 f)]>) >>
               run) (pause_noted ws)) ∧
  (ts < 0 → eof f ≠ 0 → codec_cap_delay env = false → run ws = Ok (-1, pause_noted ws)).
Proof.
  intros Hi Hfile Hf Hfresh Habort ts ws run.
  assert (files ws !! fa = Some (with_seek ts 1 f)) as Hfs by apply lookup_insert_eq.
  split; [|split].
  - unfold groove_playlist_seek.
    rewrite (bind_Ok _ _ _ _ _ (load_Ok items it w i Hi)), Hfile.
    rewrite (bind_Ok _ _ _ _ _ (load_Ok files fa w f Hf)).
    cbv zeta. rewrite (bind_Ok _ _ _ _ _ (store_file_Ok w fa f _ Hf)). reflexivity.
  - intros Hts Hseek. unfold run.
    rewrite (decode_one_frame_pending_seek nb_channels bytes graph_alloc_ok libav put_ok env
               fa (with_seek ts 1 f) ws Hfs Hfresh Habort Hts).
    rewrite (proj2 (Z.ltb_ge _ 0) Hseek). reflexivity.
  - intros Hts Heof Hcap. unfold run.
    apply (decode_one_frame_at_eof nb_channels bytes graph_alloc_ok libav put_ok env fa
             (with_seek ts 1 f) ws Hfs Hfresh Habort Hts Heof).
    left. exact Hcap.
Qed.

Lemma groove_playlist_seek_then_decode_witness :
  groove_playlist_seek (λ _, 0) AV_NOPTS_VALUE (Some 50%positive) 0%float playing_world =
    Ok (tt, set_playlist (with_decode_head (Some 50%positive))
              (set_files <[100%positive := with_seek 0 1 a_file]> playing_world)).
Proof.
  refine (proj1 (groove_playlist_seek_then_decode (λ _, 0) AV_NOPTS_VALUE 0%float
                   two_channels two_bytes true (λ _, 0) (λ _, true) eof_env
                   50%positive 100%positive (mkItem (Some 100%positive) 1%float NULL NULL)
                   a_file playing_world eq_refl eq_refl eq_refl _ eq_refl)).
  repeat split. discriminate.
Defined.

(** ** Volume and gain *)

Lemma float_mul_comm (x y : float) : (x * y = y * x)%float.
Proof.
  apply FloatAxioms.Prim2SF_inj. rewrite !FloatAxioms.mul_spec.
  unfold SF64mul, SpecFloat.SFmul.
  destruct (Prim2SF x) as [sx|sx| |sx mx ex], (Prim2SF y) as [sy|sy| |sy my ey];
    try reflexivity; rewrite (xorb_comm sx sy); try reflexivity.
  rewrite (Pos.mul_comm mx my), (Z.add_comm ex ey). reflexivity.
Qed.

Lemma with_p_volume_same p : with_p_volume (p_volume p) p = p.
Proof. destruct p. reflexivity. Qed.

(** X16: groove_playlist_set_volume and groove_playlist_set_gain store in
    the effective volume the product the worker computes before it decodes
    (gain of the decode head times volume), so the worker's own assignment
    in its next decoding turn changes nothing.  Without a decode head the
    effective volume is the volume itself; the gain of an item that is not
    the decode head changes that item only. *)
Theorem volume_changes_anticipate_worker (decode_one_frame : option loc → M Z)
    (put_ok : option loc → bool) (w : World) (v g : float) :
  (decode_head (playlist w) = NULL →
     groove_playlist_set_volume v w =
       Ok (tt, set_playlist (λ p, with_p_volume v (with_volume v p)) w)) ∧
  (∀ x ix, items w !! x = Some ix → decode_head (playlist w) ≠ Some x →
     groove_playlist_set_gain (Some x) g w = Ok (tt, set_items <[x := with_gain g ix]> w)) ∧
  (∀ d i, decode_head (playlist w) = Some d → items w !! d = Some i →
     ∃ w1 w2,
       groove_playlist_set_volume v w = Ok (tt, w1) ∧
       groove_playlist_set_gain (Some d) g w = Ok (tt, w2) ∧
       volume (playlist w1) = v ∧
       p_volume (playlist w1) = (gain i * v)%float ∧
       items w2 = <[d := with_gain g i]> (items w) ∧
       p_volume (playlist w2) = (g * volume (playlist w))%float ∧
       (Forall (sink_allocated w) (attached_sinks w) → some_sink_hungry w →
          decode_thread_body decode_one_frame put_ok w1 =
            bind (decode_one_frame (file i)) decode_thread_advance
              (set_trace (λ t, t ++ [Decode (file i)])
                 (set_playlist (with_sent_end_of_q 0) w1)) ∧
          decode_thread_body decode_one_frame put_ok w2 =
            bind (decode_one_frame (file i)) decode_thread_advance
              (set_trace (λ t, t ++ [Decode (file i)])
                 (set_playlist (with_sent_end_of_q 0) w2)))).
Proof.
  split; [|split].
  - intros Hd. unfold groove_playlist_set_volume.
    rewrite bind_update_playlist, bind_the_playlist.
    cbn [playlist set_playlist decode_head with_volume]. rewrite Hd. reflexivity.
  - intros x ix Hx Hne. unfold groove_playlist_set_gain.
    rewrite (bind_Ok _ _ _ _ _ (store_item_Ok w x ix _ Hx)), bind_the_playlist.
    cbn [playlist set_items]. unfold ptr_eq.
    rewrite bool_decide_eq_false_2 by congruence. reflexivity.
  - intros d i Hd Hi.
    exists (set_playlist (λ p, with_p_volume (v * gain i) (with_volume v p)) w),
           (set_playlist (λ p, with_p_volume (volume p * g) p)
              (set_items <[d := with_gain g i]> w)).
    split; [|split; [|split; [|split; [|split; [|split]]]]].
    + unfold groove_playlist_set_volume.
      rewrite bind_update_playlist, bind_the_playlist.
      cbn [playlist set_playlist decode_head with_volume]. rewrite Hd.
      change (is_null (Some d)) with false. cbn [negb].
      rewrite (bind_Ok _ _ _ _ _ (load_Ok items d (set_playlist (with_volume v) w) i Hi)).
      reflexivity.
    + unfold groove_playlist_set_gain.
      rewrite (bind_Ok _ _ _ _ _ (store_item_Ok w d i _ Hi)), bind_the_playlist.
      cbn [playlist set_items]. rewrite Hd. unfold ptr_eq.
      rewrite bool_decide_eq_true_2 by reflexivity. cbn [when].
      assert (items (set_items <[d := with_gain g i]> w) !! d = Some (with_gain g i)) as Hi'
        by apply lookup_insert_eq.
      rewrite (bind_Ok _ _ _ _ _ (load_Ok items d _ _ Hi')). reflexivity.
    + reflexivity.
    + simpl. apply float_mul_comm.
    + reflexivity.
    + simpl. apply float_mul_comm.
    + intros Hall Hh.
      pose proof (proj2 (sink_full_hungry w Hall) Hh) as Hfull. split.
      * rewrite (decode_thread_body_decodes decode_one_frame put_ok
                   (set_playlist (λ p, with_p_volume (v * gain i) (with_volume v p)) w)
                   d i Hd Hall Hfull Hi).
        do 2 f_equal. unfold set_playlist. simpl. f_equal.
        rewrite (float_mul_comm (gain i) v). reflexivity.
      * assert (items (set_playlist (λ p, with_p_volume (volume p * g) p)
                         (set_items <[d := with_gain g i]> w)) !! d = Some (with_gain g i))
          as Hi' by apply lookup_insert_eq.
        rewrite (decode_thread_body_decodes decode_one_frame put_ok
                   (set_playlist (λ p, with_p_volume (volume p * g) p)
                      (set_items <[d := with_gain g i]> w))
                   d (with_gain g i) Hd Hall Hfull Hi').
        do 2 f_equal. unfold set_playlist. simpl. f_equal.
        rewrite (float_mul_comm g (volume (playlist w))). reflexivity.
Qed.

(** ** One frame for each packet *)

Lemma audio_decode_frame_loop_first_frame nb_channels bytes put_ok env pkt file' answers :
  ∀ data size new_packet,
    audio_decode_frame_loop nb_channels bytes put_ok env answers pkt file'
      data size new_packet =
    audio_decode_frame_loop nb_channels bytes put_ok env (first_frame answers) pkt file'
      data size new_packet.
Proof.
  induction answers as [|[len1 got] rest IH]; intros data size new_packet; [reflexivity|].
  cbn [first_frame]. destruct (len1 <? 0) eqn:Elen.
  - cbn [orb audio_decode_frame_loop]. rewrite Elen. reflexivity.
  - destruct got.
    + cbn [orb audio_decode_frame_loop]. rewrite Elen. reflexivity.
    + cbn [orb audio_decode_frame_loop]. rewrite Elen. cbn [negb].
      rewrite (IH (data + len1) (wrap_int (size - len1)) false). reflexivity.
Qed.

Section OtherAnswers.

Variables nb_channels bytes : Z → Z.
Variable put_ok : option loc → bool.
Variable env : DecodeEnv.
Variable a : list (Z * bool).

Lemma audio_decode_frame_map_answers m : ∀ n mx adj w,
audio_decode_frame_map nb_channels bytes put_ok (with_decode_answers a env) n m mx adj w =
audio_decode_frame_map nb_channels bytes put_ok env n m mx adj w.
Proof.
induction m as [st c1 c2|st c1 c2 nx IH] using SinkMap_ind; intros n mx adj w;
  cbn [audio_decode_frame_map with_decode_answers buffersink_frames]; [reflexivity|].
apply bind_ext. intros top w1. apply bind_ext. intros r w2.
destruct r as [ds|]; [|reflexivity].
apply bind_ext. intros m w3. apply IH.
Qed.

Lemma audio_decode_frame_loop_answers answers pkt file' : ∀ data size new_packet w,
audio_decode_frame_loop nb_channels bytes put_ok (with_decode_answers a env) answers
  pkt file' data size new_packet w =
audio_decode_frame_loop nb_channels bytes put_ok env answers pkt file'
  data size new_packet w.
Proof.
induction answers as [|[len1 got] rest IH]; intros data size new_packet w; [reflexivity|].
cbn [audio_decode_frame_loop with_decode_answers codec_cap_delay buffersrc_result].
destruct (_ || _); [|reflexivity].
destruct (len1 <? 0); [reflexivity|].
destruct got; cbn [negb].
- destruct (buffersrc_result env <? 0); [reflexivity|].
  rewrite !bind_the_playlist.
  destruct (sink_map (playlist w)) as [m|]; [|reflexivity].
  unfold bind at 1 3. rewrite audio_decode_frame_map_answers. reflexivity.
- destruct (_ && _); [reflexivity|]. apply IH.
Qed.

End OtherAnswers.

(** X17: audio_decode_frame returns from inside its while loop as soon
    as the decoder gave a frame (or an error): what the decoder would
    answer for the rest of the packet is never asked for, however many
    bytes of the packet are left.  So of a packet that holds several frames
    only the first is decoded; decode_one_frame then drops the packet. *)
Theorem audio_decode_frame_first_frame_only (nb_channels bytes : Z → Z)
    (graph_alloc_ok : bool) (libav : libav_call → Z) (put_ok : option loc → bool)
    (env : DecodeEnv) (pkt : AVPacket) (file' : option loc) (w : World) :
  audio_decode_frame nb_channels bytes put_ok env pkt file' w =
    audio_decode_frame nb_channels bytes put_ok
      (with_decode_answers (first_frame (decode_answers env)) env) pkt file' w ∧
  decode_one_frame nb_channels bytes graph_alloc_ok libav put_ok env file' w =
    decode_one_frame nb_channels bytes graph_alloc_ok libav put_ok
      (with_decode_answers (first_frame (decode_answers env)) env) file' w.
Proof.
  assert (∀ pkt file' w,
            audio_decode_frame nb_channels bytes put_ok env pkt file' w =
            audio_decode_frame nb_channels bytes put_ok
              (with_decode_answers (first_frame (decode_answers env)) env) pkt file' w)
    as Haudio.
  { intros pkt0 file0 w0. unfold audio_decode_frame.
    cbn [decode_answers with_decode_answers].
    apply bind_ext. intros f w1. apply bind_ext. intros [] w2.
    rewrite audio_decode_frame_loop_first_frame.
    symmetry. apply audio_decode_frame_loop_answers. }
  split; [apply Haudio|].
  unfold decode_one_frame. cbn [with_decode_answers seek_frame_result codec_cap_delay
    audio_stream_index read_frame_result read_packet].
  apply bind_ext. intros r w1. destruct (r <? 0); [reflexivity|].
  apply bind_ext. intros f w2. destruct (negb _); [reflexivity|].
  apply bind_ext. intros p w3. apply bind_ext. intros [] w4.
  apply bind_ext. intros f2 w5. apply bind_ext. intros [] w6.
  apply bind_ext. intros f3 w7.
  destruct (negb _).
  - destruct (codec_cap_delay env); [|reflexivity].
    unfold bind. rewrite <- Haudio. reflexivity.
  - destruct (read_frame_result env <? 0); [reflexivity|].
    destruct (negb _); [reflexivity|]. unfold bind. rewrite <- Haudio. reflexivity.
Qed.

(** ** The frames of a packet reach the sinks *)

Lemma wrap_int_add_l a b : wrap_int (wrap_int a + b) = wrap_int (a + b).
Proof.
  unfold wrap_int.
  replace ((a + 2147483648) mod 4294967296 - 2147483648 + b + 2147483648)
    with ((a + 2147483648) mod 4294967296 + b) by lia.
  replace (a + b + 2147483648) with (a + 2147483648 + b) by lia.
  rewrite Zplus_mod_idemp_l. reflexivity.
Qed.

Lemma alter_all_other {A} (f : A → A) ps (h : gmap loc A) l :
  Some l ∉ ps → alter_all f ps h !! l = h !! l.
Proof.
  revert h. induction ps as [|[l'|] ps IH]; intros h Hnot; simpl.
  - reflexivity.
  - unfold alter_all in *. simpl. rewrite IH by (intros ?; apply Hnot; right; assumption).
    rewrite lookup_alter, decide_False; [reflexivity|].
    intros ->. apply Hnot. left.
  - unfold alter_all in *. simpl. apply IH. intros ?; apply Hnot; right; assumption.
Qed.

Lemma alter_all_once {A} (f : A → A) ps (h : gmap loc A) l :
  NoDup ps → Some l ∈ ps → alter_all f ps h !! l = f <$> h !! l.
Proof.
  revert h. induction ps as [|p ps IH]; intros h Hnd Hin.
  - inversion Hin.
  - apply NoDup_cons in Hnd as [Hp Hnd]. apply elem_of_cons in Hin as [<-|Hin].
    + unfold alter_all. simpl. fold (alter_all f ps (alter f l h)).
      rewrite alter_all_other by exact Hp.
      rewrite lookup_alter, decide_True by reflexivity. reflexivity.
    + destruct p as [l'|]; unfold alter_all; simpl.
      * fold (alter_all f ps (alter f l' h)). rewrite IH by assumption.
        rewrite lookup_alter, decide_False; [reflexivity|].
        intros ->. contradiction.
      * apply IH; assumption.
Qed.

Lemma sink_ready_took w l sz x p :
  sink_ready w p → sink_ready (set_sinks (alter (took l sz) x) w) p.
Proof.
  intros (l' & s & q & -> & Hs & Hq). destruct (decide (x = l')) as [<-|Hne].
  - exists x, (took l sz s), (push_queue (Some l) q). split; [reflexivity|]. split.
    + simpl. rewrite lookup_alter, decide_True by reflexivity. rewrite Hs. reflexivity.
    + unfold took, push_sink. simpl. rewrite Hq. reflexivity.
  - exists l', s, q. split; [reflexivity|]. split; [|exact Hq].
    simpl. rewrite lookup_alter, decide_False by exact Hne. exact Hs.
Qed.

Lemma groove_buffer_ref_Ok w l buf :
  buffers w !! l = Some buf → 0 ≤ ref_count buf < INT_MAX →
  groove_buffer_ref (Some l) w =
    Ok (tt, set_buffers <[l := with_ref_count (ref_count buf + 1) buf]> w).
Proof.
  intros Hb Hr. unfold groove_buffer_ref.
  rewrite (bind_Ok _ _ _ _ _ (load_Ok buffers l w buf Hb)).
  unfold store_buffer. rewrite (bind_Ok _ _ _ _ _ (load_Ok buffers l w buf Hb)).
  rewrite wrap_int_small by (unfold INT_MAX in *; lia). reflexivity.
Qed.

Section Deliver.

Variables nb_channels bytes : Z → Z.
Variable put_ok : option loc → bool.

(** One sink takes the buffer. *)
Lemma audio_decode_frame_put_took w l buf ls :
sink_ready w (Some ls) → buffers w !! l = Some buf → put_ok (Some ls) = true →
0 ≤ ref_count buf → ref_count buf + 1 ≤ INT_MAX →
bind (groove_queue_put (put_ok (Some ls)) (Some ls) (Some l))
  (λ r, if r <? 0 then ret tt else groove_buffer_ref (Some l)) w =
  Ok (tt, set_buffers <[l := with_ref_count (ref_count buf + 1) buf]>
            (set_sinks (alter (took l (size buf)) ls) w)).
Proof.
intros (? & sk & q & [= <-] & Hs & Hq) Hb Hput Hr Hmax. rewrite Hput.
unfold groove_queue_put, the_queue, set_queue, audioq_put, groove_buffer_ref,
  store_sink, store_buffer, load, modify, ret, ptr_eq, end_of_q_sentinel, bind.
mrun. rewrite wrap_int_small by (unfold INT_MAX in *; lia).
do 2 f_equal. unfold set_buffers, set_sinks. simpl. f_equal.
rewrite insert_insert_eq, <- (alter_as_insert (took l (size buf)) ls sk (sinks w) Hs).
unfold took, push_sink, push_queue. rewrite Hq. reflexivity.
Qed.

(** The walk down a stack: every sink takes the buffer. *)
Lemma audio_decode_frame_stack_took l st : ∀ w buf,
Forall (sink_ready w) (stack_sinks st) →
(∀ p, p ∈ stack_sinks st → put_ok p = true) →
buffers w !! l = Some buf →
0 ≤ ref_count buf → ref_count buf + Z.of_nat (length (stack_sinks st)) ≤ INT_MAX →
audio_decode_frame_stack put_ok (Some l) st w =
  Ok (tt, set_buffers
            <[l := with_ref_count (ref_count buf + Z.of_nat (length (stack_sinks st))) buf]>
            (set_sinks (alter_all (took l (size buf)) (stack_sinks st)) w)).
Proof.
induction st as [s|s n IH] using SinkStack_ind; intros w buf Hall Hput Hb Hr0 Hmax;
  simpl in *; inversion_clear Hall as [|? ? Hready Hn];
  pose proof Hready as (ls & sk & q & -> & Hs & Hq).
- unfold bind at 1. rewrite (load_Ok sinks ls w sk Hs).
  rewrite <- bind_assoc.
  rewrite (bind_Ok _ _ _ _ _
             (audio_decode_frame_put_took w l buf ls Hready Hb (Hput _ ltac:(left)) Hr0
                ltac:(lia))).
  reflexivity.
- unfold bind at 1. rewrite (load_Ok sinks ls w sk Hs).
  rewrite <- bind_assoc.
  rewrite (bind_Ok _ _ _ _ _
             (audio_decode_frame_put_took w l buf ls Hready Hb (Hput _ ltac:(left)) Hr0
                ltac:(lia))).
  rewrite (IH _ (with_ref_count (ref_count buf + 1) buf)).
  + do 2 f_equal. unfold set_buffers, set_sinks. simpl. f_equal.
    rewrite insert_insert_eq. f_equal. unfold with_ref_count. simpl. f_equal. lia.
  + eapply Forall_impl; [exact Hn|]. intros p Hp.
    apply (sink_ready_took w l (size buf) ls p) in Hp. exact Hp.
  + intros p Hp. apply Hput. right. exact Hp.
  + simpl. apply lookup_insert_eq.
  + simpl. lia.
  + simpl. lia.
Qed.

Lemma sink_ready_took_all w l sz ps p :
sink_ready w p → sink_ready (set_sinks (alter_all (took l sz) ps) w) p.
Proof.
revert w. induction ps as [|[x|] ps IH]; intros w Hp.
- destruct w. exact Hp.
- apply (sink_ready_took w l sz x p), (IH _) in Hp. exact Hp.
- apply (IH w Hp).
Qed.

Section OnePull.

Variables (w : World) (l : loc) (st : SinkStack) (pl : Pull).
Variables (dh fa : loc) (di : GroovePlaylistItem) (fl : GrooveFilePrivate).

Hypothesis alloc : pull_buffer pl = Some l ∧ pull_b_ok pl = true ∧ pull_mutex_ok pl = true.
Hypothesis ready : Forall (sink_ready w) (stack_sinks st).
Hypothesis taking : ∀ p, p ∈ stack_sinks st → put_ok p = true.
Hypothesis decoding : decode_head (playlist w) = Some dh.
Hypothesis item_there : items w !! dh = Some di.
Hypothesis item_file : file di = Some fa.
Hypothesis file_there : files w !! fa = Some fl.
Hypothesis few_sinks : Z.of_nat (length (stack_sinks st)) < INT_MAX.

Let nb := new_buffer nb_channels bytes (Some dh) (audio_clock fl) (pull_frame pl).

(** One turn of the [for (;;)] loop. *)
Lemma audio_decode_frame_pull_took ex rest error d :
  audio_decode_frame_pulls nb_channels bytes put_ok ex (Some st) (pl :: rest) error d w =
  audio_decode_frame_pulls nb_channels bytes put_ok ex (Some st) rest error
(wrap_int (d + size nb))
(set_buffers <[l := with_ref_count (Z.of_nat (length (stack_sinks st))) nb]>
   (set_sinks (alter_all (took l (size nb)) (stack_sinks st)) w)).
Proof.
  destruct alloc as (Hl & Hb & Hm).
  assert (0 < Z.of_nat (length (stack_sinks st))) as Hk.
  { destruct st as [s [n|]]; simpl; lia. }
  cbn [audio_decode_frame_pulls].
  assert (frame_to_groove_buffer nb_channels bytes (pull_buffer pl) (pull_b_ok pl)
        (pull_mutex_ok pl) ex (pull_frame pl) w =
      Ok (Some l, set_buffers <[l := nb]> w)) as Hmake.
  { rewrite Hl, Hb, Hm.
unfold frame_to_groove_buffer, the_playlist, load, modify, ret, bind. simpl.
rewrite decoding, item_there, item_file, file_there. reflexivity. }
  rewrite (bind_Ok _ _ _ _ _ Hmake).
  change (is_null (Some l)) with false. cbv iota.
  assert (buffers (set_buffers <[l := nb]> w) !! l = Some nb) as Hnb by apply lookup_insert_eq.
  rewrite (bind_Ok _ _ _ _ _ (load_Ok buffers l _ nb Hnb)).
  rewrite (bind_Ok _ _ _ _ _
         (audio_decode_frame_stack_took l st (set_buffers <[l := nb]> w) nb
            ready taking Hnb ltac:(simpl; lia) ltac:(simpl; lia))).
  set (k := Z.of_nat (length (stack_sinks st))) in *.
  set (w1 := set_sinks (alter_all (took l (size nb)) (stack_sinks st))
           (set_buffers <[l := nb]> w)).
  assert (buffers (set_buffers <[l := with_ref_count (ref_count nb + k) nb]> w1) !! l =
      Some (with_ref_count (ref_count nb + k) nb)) as H1 by apply lookup_insert_eq.
  rewrite (bind_Ok _ _ _ _ _ (groove_buffer_ref_Ok _ l _ H1 ltac:(simpl; lia))).
  assert (buffers (set_buffers
        <[l := with_ref_count (ref_count (with_ref_count (ref_count nb + k) nb) + 1)
                 (with_ref_count (ref_count nb + k) nb)]>
        (set_buffers <[l := with_ref_count (ref_count nb + k) nb]> w1)) !! l =
      Some (with_ref_count (ref_count (with_ref_count (ref_count nb + k) nb) + 1)
              (with_ref_count (ref_count nb + k) nb))) as H2 by apply lookup_insert_eq.
  rewrite (bind_Ok _ _ _ _ _ (groove_buffer_unref_above l _ _ H2 ltac:(simpl; lia))).
  f_equal. unfold w1, set_buffers, set_sinks. simpl. f_equal.
  rewrite !insert_insert_eq. f_equal. unfold with_ref_count. simpl. f_equal. lia.
Qed.

End OnePull.

(** The [for (;;)] loop over the frames of one class. *)
Lemma audio_decode_frame_pulls_run st dh fa di fl ex pulls ls : ∀ w d,
Forall2 (λ pl l, pull_buffer pl = Some l ∧ pull_b_ok pl = true ∧ pull_mutex_ok pl = true)
  pulls ls →
Forall (sink_ready w) (stack_sinks st) →
(∀ p, p ∈ stack_sinks st → put_ok p = true) →
decode_head (playlist w) = Some dh → items w !! dh = Some di → file di = Some fa →
files w !! fa = Some fl →
Z.of_nat (length (stack_sinks st)) < INT_MAX →
let bufs := pull_bufs nb_channels bytes (Some dh) (audio_clock fl) pulls ls in
audio_decode_frame_pulls nb_channels bytes put_ok ex (Some st) pulls false d w =
  Ok (Some (foldl (λ d lb, wrap_int (d + size (snd lb))) d bufs),
      set_buffers (deliver_buffers (Z.of_nat (length (stack_sinks st))) bufs)
        (set_sinks (deliver_sinks (stack_sinks st) bufs) w)).
Proof.
intros w d Hpulls. revert w d.
induction Hpulls as [|pl l pulls ls Hpl _ IH];
  intros w d Hready Hput Hdh Hdi Hfile Hfl Hfew bufs.
- destruct w. reflexivity.
- rewrite (audio_decode_frame_pull_took w l st pl dh fa di fl Hpl Hready Hput Hdh Hdi
             Hfile Hfl Hfew).
  rewrite IH; try assumption.
  + reflexivity.
  + eapply Forall_impl; [exact Hready|]. intros p Hp.
    exact (sink_ready_took_all w l _ (stack_sinks st) p Hp).
Qed.

End Deliver.

(** *** What the folds say of one sink and of one buffer *)

Lemma wrap_int_idemp a : wrap_int (wrap_int a) = wrap_int a.
Proof.
  pose proof (wrap_int_add_l a 0) as H. rewrite !Z.add_0_r in H. exact H.
Qed.

Lemma foldl_wrap_sum bufs : ∀ d,
  wrap_int d = d →
  foldl (λ d (lb : loc * GrooveBuffer), wrap_int (d + size (snd lb))) d bufs =
    wrap_int (d + sum_sizes bufs).
Proof.
  induction bufs as [|lb bufs IH]; intros d Hd; simpl.
  - rewrite Z.add_0_r. symmetry. exact Hd.
  - rewrite IH by apply wrap_int_idemp. rewrite wrap_int_add_l. f_equal. lia.
Qed.

Lemma deliver_sinks_other ps bufs : ∀ (h : gmap loc GrooveSink) x,
  Some x ∉ ps → deliver_sinks ps bufs h !! x = h !! x.
Proof.
  induction bufs as [|lb bufs IH]; intros h x Hx; [reflexivity|].
  unfold deliver_sinks in *. simpl. rewrite IH by exact Hx.
  apply alter_all_other, Hx.
Qed.

Lemma deliver_sinks_once ps bufs : ∀ (h : gmap loc GrooveSink) x,
  NoDup ps → Some x ∈ ps →
  deliver_sinks ps bufs h !! x =
    (λ s, foldl (λ s lb, took (fst lb) (size (snd lb)) s) s bufs) <$> h !! x.
Proof.
  induction bufs as [|lb bufs IH]; intros h x Hnd Hx.
  - simpl. destruct (h !! x); reflexivity.
  - unfold deliver_sinks in *. simpl. rewrite IH by assumption.
    rewrite alter_all_once by assumption. destruct (h !! x); reflexivity.
Qed.

(** A sink that took the buffers [bufs] one after the other. *)
Lemma took_fold bufs : ∀ s q,
  audioq s = Some q →
  let s' := foldl (λ s (lb : loc * GrooveBuffer), took (fst lb) (size (snd lb)) s) s bufs in
  audioq s' = Some (mkQueue (q_items q ++ (Some ∘ fst <$> bufs)) (q_abort_request q)) ∧
  wrap_int (audioq_buf_count s') = wrap_int (audioq_buf_count s + Z.of_nat (length bufs)) ∧
  wrap_int (audioq_size s') = wrap_int (audioq_size s + sum_sizes bufs) ∧
  audio_format s' = audio_format s ∧ bytes_per_sec s' = bytes_per_sec s ∧
  min_audioq_size s' = min_audioq_size s ∧ sink_playlist s' = sink_playlist s.
Proof.
  induction bufs as [|[l b] bufs IH]; intros s q Hq; cbn [foldl].
  - cbn [length sum_sizes foldr fmap list_fmap]. rewrite app_nil_r, !Z.add_0_r.
    destruct q. repeat split. exact Hq.
  - destruct (IH (took l (size b) s) (push_queue (Some l) q))
      as (Hq' & Hc & Hs & Hf & Hb & Hm & Hp).
    { unfold took, push_sink. simpl. rewrite Hq. reflexivity. }
    cbn zeta in *. cbn [fst snd] in *. rewrite Hq', Hc, Hs, Hf, Hb, Hm, Hp.
    split; [|split; [|split; [|repeat split]]].
    + simpl. rewrite <- app_assoc. reflexivity.
    + unfold took. simpl. rewrite wrap_int_add_l. f_equal. lia.
    + unfold took. simpl. rewrite wrap_int_add_l. f_equal. lia.
Qed.

Lemma deliver_buffers_other k bufs : ∀ (h : gmap loc GrooveBuffer) x,
  x ∉ fst <$> bufs → deliver_buffers k bufs h !! x = h !! x.
Proof.
  induction bufs as [|[l b] bufs IH]; intros h x Hx; [reflexivity|].
  unfold deliver_buffers in *. simpl. rewrite IH.
  - apply lookup_insert_ne. intros ->. apply Hx. left.
  - intros Hin. apply Hx. right. exact Hin.
Qed.

Lemma deliver_buffers_at k bufs : ∀ (h : gmap loc GrooveBuffer) l b,
  NoDup (fst <$> bufs) → (l, b) ∈ bufs →
  deliver_buffers k bufs h !! l = Some (with_ref_count k b).
Proof.
  induction bufs as [|[l0 b0] bufs IH]; intros h l b Hnd Hin; [inversion Hin|].
  simpl in Hnd. apply NoDup_cons in Hnd as [Hnot Hnd].
  unfold deliver_buffers in *. simpl.
  apply elem_of_cons in Hin as [[= -> ->]|Hin].
  - fold (deliver_buffers k bufs (<[l0 := with_ref_count k b0]> h)).
    rewrite deliver_buffers_other by exact Hnot. apply lookup_insert_eq.
  - apply IH; assumption.
Qed.

Lemma pull_bufs_fst nb_channels bytes dh clock pulls ls :
  length pulls = length ls →
  fst <$> pull_bufs nb_channels bytes dh clock pulls ls = ls.
Proof.
  intros Hlen. unfold pull_bufs. apply fst_zip. rewrite length_fmap. lia.
Qed.

Lemma alter_all_bytes_per_sec l sz ps : ∀ (h : gmap loc GrooveSink) x s,
  h !! x = Some s →
  ∃ s', alter_all (took l sz) ps h !! x = Some s' ∧ bytes_per_sec s' = bytes_per_sec s.
Proof.
  induction ps as [|[y|] ps IH]; intros h x s Hs.
  - exists s. split; [exact Hs | reflexivity].
  - unfold alter_all in *. simpl. destruct (decide (y = x)) as [->|Hne].
    + destruct (IH (alter (took l sz) x h) x (took l sz s)) as (s' & Hs' & Hb).
      { rewrite lookup_alter, decide_True by reflexivity. rewrite Hs. reflexivity. }
      exists s'. split; [exact Hs' | exact Hb].
    + apply IH. rewrite lookup_alter, decide_False by exact Hne. exact Hs.
  - unfold alter_all in *. simpl. apply IH, Hs.
Qed.

Lemma deliver_sinks_bytes_per_sec ps bufs : ∀ (h : gmap loc GrooveSink) x s,
  h !! x = Some s →
  ∃ s', deliver_sinks ps bufs h !! x = Some s' ∧ bytes_per_sec s' = bytes_per_sec s.
Proof.
  induction bufs as [|[l b] bufs IH]; intros h x s Hs.
  - exists s. split; [exact Hs | reflexivity].
  - unfold deliver_sinks in *. simpl.
    destruct (alter_all_bytes_per_sec l (size b) ps h x s Hs) as (s1 & Hs1 & Hb1).
    destruct (IH _ x s1 Hs1) as (s' & Hs' & Hb).
    exists s'. split; [exact Hs' | congruence].
Qed.

Section DeliverPacket.

Variables nb_channels bytes : Z → Z.
Variable put_ok : option loc → bool.
Variable env : DecodeEnv.

(** The sink map has one class: the loop over the map makes one turn. *)
Lemma audio_decode_frame_map_one st a b dh fa di fl pulls ls ex es w :
buffersink_frames env 0 = (pulls, false) →
Forall2 (λ pl l, pull_buffer pl = Some l ∧ pull_b_ok pl = true ∧ pull_mutex_ok pl = true)
  pulls ls →
Forall (sink_ready w) (stack_sinks st) →
(∀ p, p ∈ stack_sinks st → put_ok p = true) →
ss_sink st = Some ex → sinks w !! ex = Some es →
decode_head (playlist w) = Some dh → items w !! dh = Some di → file di = Some fa →
files w !! fa = Some fl →
Z.of_nat (length (stack_sinks st)) < INT_MAX →
let bufs := pull_bufs nb_channels bytes (Some dh) (audio_clock fl) pulls ls in
let data := wrap_int (sum_sizes bufs) in
audio_decode_frame_map nb_channels bytes put_ok env 0 (mkSinkMap (Some st) a b None)
  0 0%float w =
  Ok (Some (if 0 <? data
            then (data, (int_to_double data / int_to_double (bytes_per_sec es))%float)
            else (0, 0%float)),
      set_buffers (deliver_buffers (Z.of_nat (length (stack_sinks st))) bufs)
        (set_sinks (deliver_sinks (stack_sinks st) bufs) w)).
Proof.
intros Henv Hpulls Hready Hput Hex Hes Hdh Hdi Hfile Hfl Hfew bufs data.
cbn [audio_decode_frame_map deref]. rewrite bind_ret, Henv. cbn [fst snd].
rewrite (bind_Ok _ _ _ _ _
           (audio_decode_frame_pulls_run nb_channels bytes put_ok st dh fa di fl
              (ss_sink st) pulls ls w 0 Hpulls Hready Hput Hdh Hdi Hfile Hfl Hfew)).
rewrite foldl_wrap_sum by reflexivity. rewrite Z.add_0_l. fold bufs. fold data.
destruct (0 <? data) eqn:Edata; [|reflexivity].
rewrite Hex.
assert (∃ es', sinks (set_buffers (deliver_buffers (Z.of_nat (length (stack_sinks st))) bufs)
                        (set_sinks (deliver_sinks (stack_sinks st) bufs) w)) !! ex = Some es' ∧
               bytes_per_sec es' = bytes_per_sec es) as (es' & Hes' & Hbps).
{ apply deliver_sinks_bytes_per_sec, Hes. }
rewrite (bind_Ok _ _ _ _ _ (bind_Ok _ _ _ _ _ (load_Ok sinks ex _ es' Hes'))).
rewrite Hbps. reflexivity.
Qed.

End DeliverPacket.

(** The sinks and the buffers after a delivery. *)
Lemma delivered_facts (ps : list (option loc)) (bufs : list (loc * GrooveBuffer))
    (ls : list loc) (k : Z) (hs : gmap loc GrooveSink) (hb : gmap loc GrooveBuffer) :
  NoDup ps → NoDup ls → fst <$> bufs = ls →
  (∀ x s q, Some x ∈ ps → hs !! x = Some s → audioq s = Some q →
     ∃ s', deliver_sinks ps bufs hs !! x = Some s' ∧
           audioq s' = Some (mkQueue (q_items q ++ (Some <$> ls)) (q_abort_request q)) ∧
           wrap_int (audioq_buf_count s') =
             wrap_int (audioq_buf_count s + Z.of_nat (length ls)) ∧
           wrap_int (audioq_size s') = wrap_int (audioq_size s + sum_sizes bufs)) ∧
  (∀ x, Some x ∉ ps → deliver_sinks ps bufs hs !! x = hs !! x) ∧
  (∀ l buf, (l, buf) ∈ bufs → deliver_buffers k bufs hb !! l = Some (with_ref_count k buf)) ∧
  (∀ x, x ∉ ls → deliver_buffers k bufs hb !! x = hb !! x).
Proof.
  intros Hnd Hndl Hfst. split; [|split; [|split]].
  - intros x s q Hx Hs Hq.
    pose proof (took_fold bufs s q Hq) as (Hq' & Hc & Hsz & _).
    eexists. split; [rewrite (deliver_sinks_once ps bufs hs x Hnd Hx), Hs; reflexivity|].
    rewrite Hq', Hc, Hsz, <- Hfst, length_fmap, <- list_fmap_compose. repeat split.
  - intros x Hx. apply deliver_sinks_other, Hx.
  - intros l buf Hin. apply deliver_buffers_at; [rewrite Hfst; exact Hndl | exact Hin].
  - intros x Hx. apply deliver_buffers_other. rewrite Hfst. exact Hx.
Qed.

(** A packet that decodes to a frame, while the sink map has one class. *)
Lemma audio_decode_frame_run (nb_channels bytes : Z → Z) (put_ok : option loc → bool)
    (env : DecodeEnv) (pkt : AVPacket) (w : World) (st : SinkStack) (a b : option nat)
    (dh fa ex : loc) (di : GroovePlaylistItem) (fl : GrooveFilePrivate) (es : GrooveSink)
    (pulls : list Pull) (ls : list loc) (len1 : Z) (rest : list (Z * bool)) :
  sink_map (playlist w) = Some (mkSinkMap (Some st) a b None) →
  Forall (sink_ready w) (stack_sinks st) → NoDup (stack_sinks st) →
  (∀ p, p ∈ stack_sinks st → put_ok p = true) →
  Z.of_nat (length (stack_sinks st)) < INT_MAX →
  ss_sink st = Some ex → sinks w !! ex = Some es →
  decode_head (playlist w) = Some dh → items w !! dh = Some di → file di = Some fa →
  files w !! fa = Some fl →
  0 < pkt_size pkt ∨ pkt_data pkt = 0 →
  decode_answers env = (len1, true) :: rest → 0 ≤ len1 → 0 ≤ buffersrc_result env →
  buffersink_frames env 0 = (pulls, false) →
  Forall2 (λ pl l, pull_buffer pl = Some l ∧ pull_b_ok pl = true ∧ pull_mutex_ok pl = true)
    pulls ls →
  NoDup ls →
  let no_pts := pkt_pts pkt =? AV_NOPTS_VALUE in
  let clock := if no_pts then audio_clock fl
               else (av_q2d (time_base fl) * int_to_double (pkt_pts pkt))%float in
  let bufs := pull_bufs nb_channels bytes (Some dh) clock pulls ls in
  let data := wrap_int (sum_sizes bufs) in
  ∃ w',
    audio_decode_frame nb_channels bytes put_ok env pkt (Some fa) w =
      Ok ((if 0 <? data then data else 0), w') ∧
    (∀ x s q, Some x ∈ stack_sinks st → sinks w !! x = Some s → audioq s = Some q →
       ∃ s', sinks w' !! x = Some s' ∧
             audioq s' = Some (mkQueue (q_items q ++ (Some <$> ls)) (q_abort_request q)) ∧
             wrap_int (audioq_buf_count s') =
               wrap_int (audioq_buf_count s + Z.of_nat (length ls)) ∧
             wrap_int (audioq_size s') = wrap_int (audioq_size s + sum_sizes bufs)) ∧
    (∀ x, Some x ∉ stack_sinks st → sinks w' !! x = sinks w !! x) ∧
    (∀ l buf, (l, buf) ∈ bufs →
       buffers w' !! l = Some (with_ref_count (Z.of_nat (length (stack_sinks st))) buf)) ∧
    (∀ x, x ∉ ls → buffers w' !! x = buffers w !! x) ∧
    files w' =
      <[fa := with_audio_clock
                (if no_pts && (0 <? data)
                 then (clock + int_to_double data / int_to_double (bytes_per_sec es))%float
                 else if no_pts then (clock + 0)%float else clock) fl]> (files w) ∧
    items w' = items w ∧ playlist w' = playlist w ∧ trace w' = trace w.
Proof.
  intros Hmap Hready Hnd Hput Hfew Hex Hes Hdh Hdi Hfile Hfl Hpkt Hans Hlen Hsrc Henv
    Hpulls Hndl no_pts clock bufs data.
  pose proof (Forall2_length _ _ _ Hpulls) as Hlength.
  pose proof (pull_bufs_fst nb_channels bytes (Some dh) clock pulls ls Hlength) as Hfst.
  fold bufs in Hfst.
  set (k := Z.of_nat (length (stack_sinks st))).
  set (final := if no_pts && (0 <? data)
                then (clock + int_to_double data / int_to_double (bytes_per_sec es))%float
                else if no_pts then (clock + 0)%float else clock).
  exists (set_files <[fa := with_audio_clock final fl]>
            (set_buffers (deliver_buffers k bufs)
               (set_sinks (deliver_sinks (stack_sinks st) bufs) w))).
  split.
  2:{ destruct (delivered_facts (stack_sinks st) bufs ls k (sinks w) (buffers w) Hnd Hndl Hfst)
        as (H1 & H2 & H3 & H4).
      split; [exact H1|]. split; [exact H2|]. split; [exact H3|]. split; [exact H4|].
      repeat split. }
  (* the clock is stamped *)
  set (w0 := if no_pts then w else set_files <[fa := with_audio_clock clock fl]> w).
  assert (files w0 !! fa = Some (with_audio_clock clock fl)) as Hfl0.
  { unfold w0, clock. destruct no_pts.
    - rewrite Hfl. destruct fl. reflexivity.
    - apply lookup_insert_eq. }
  assert (audio_decode_frame nb_channels bytes put_ok env pkt (Some fa) w =
          audio_decode_frame_loop nb_channels bytes put_ok env (decode_answers env) pkt
            (Some fa) (pkt_data pkt) (pkt_size pkt) true w0) as ->.
  { unfold audio_decode_frame. rewrite (bind_Ok _ _ _ _ _ (load_Ok files fa w fl Hfl)).
    unfold w0, clock. fold no_pts. destruct no_pts; cbn [negb when].
    - rewrite bind_ret. reflexivity.
    - rewrite (bind_Ok _ _ _ _ _ (store_file_Ok w fa fl _ Hfl)). reflexivity. }
  assert (sinks w0 = sinks w ∧ buffers w0 = buffers w ∧ items w0 = items w ∧
          playlist w0 = playlist w ∧ trace w0 = trace w) as (Es0 & Eb0 & Ei0 & Ep0 & Et0).
  { unfold w0. destruct no_pts; repeat split. }
  (* the decoder gives a frame *)
  rewrite Hans. cbn [audio_decode_frame_loop].
  assert ((0 <? pkt_size pkt) || (pkt_data pkt =? 0) && true = true) as ->.
  { destruct Hpkt as [H|H].
    - rewrite (proj2 (Z.ltb_lt 0 _) H). reflexivity.
    - rewrite H. cbn. apply orb_true_r. }
  rewrite (proj2 (Z.ltb_ge len1 0) Hlen). cbn [negb].
  rewrite (proj2 (Z.ltb_ge _ 0) Hsrc).
  rewrite bind_the_playlist, Ep0, Hmap.
  assert (Forall (sink_ready w0) (stack_sinks st)) as Hready0.
  { eapply Forall_impl; [exact Hready|]. intros p (x & s & q & -> & Hs & Hq).
    exists x, s, q. rewrite Es0. repeat split; assumption. }
  rewrite (bind_Ok _ _ _ _ _
             (audio_decode_frame_map_one nb_channels bytes put_ok env st a b dh fa di
                (with_audio_clock clock fl) pulls ls ex es w0 Henv Hpulls
                Hready0 Hput Hex
                ltac:(rewrite Es0; exact Hes) ltac:(rewrite Ep0; exact Hdh)
                ltac:(rewrite Ei0; exact Hdi) Hfile Hfl0 Hfew)).
  cbn [audio_clock with_audio_clock]. fold bufs. fold data. fold k.
  set (w1 := set_buffers (deliver_buffers k bufs)
               (set_sinks (deliver_sinks (stack_sinks st) bufs) w0)).
  assert (files w1 !! fa = Some (with_audio_clock clock fl)) as Hfl1 by exact Hfl0.
  fold no_pts. unfold final, w1, w0. clear Hfl1 Hfl0 Hready0 Es0 Eb0 Ei0 Ep0 Et0.
  clear w1 w0 final.
  destruct (0 <? data); destruct no_pts eqn:Enp; cbn [when andb].
  - rewrite bind_assoc.
    assert (files (set_buffers (deliver_buffers k bufs)
                     (set_sinks (deliver_sinks (stack_sinks st) bufs) w)) !! fa = Some fl)
      as Hfl1 by exact Hfl.
    rewrite (bind_Ok _ _ _ _ _ (load_Ok files fa _ _ Hfl1)).
    rewrite (bind_Ok _ _ _ _ _ (store_file_Ok _ fa _ _ Hfl1)). reflexivity.
  - rewrite bind_ret. reflexivity.
  - rewrite bind_assoc.
    assert (files (set_buffers (deliver_buffers k bufs)
                     (set_sinks (deliver_sinks (stack_sinks st) bufs) w)) !! fa = Some fl)
      as Hfl1 by exact Hfl.
    rewrite (bind_Ok _ _ _ _ _ (load_Ok files fa _ _ Hfl1)).
    rewrite (bind_Ok _ _ _ _ _ (store_file_Ok _ fa _ _ Hfl1)). reflexivity.
  - rewrite bind_ret. reflexivity.
Qed.

(** X18: a packet that decodes to a frame, while the sink map has one
    class.  audio_decode_frame stamps the clock of the file with the pts of
    the packet (if it has one), makes one buffer of every frame the
    buffersink gives, and appends the buffers, in order, to the queue of
    every sink of the class; each buffer carries the decode head, the clock
    and the byte size of its frame and ends with one reference per sink;
    audioq_buf_count and audioq_size of each sink grow by the number and
    the bytes of the buffers (as C ints).  The result is the number of
    bytes delivered; without a pts the clock advances by these bytes over
    bytes_per_sec of the example sink.  Nothing else is written, and no
    frame is freed. *)
Theorem audio_decode_frame_delivers (nb_channels bytes : Z → Z) (put_ok : option loc → bool)
    (env : DecodeEnv) (pkt : AVPacket) (w : World) (st : SinkStack) (a b : option nat)
    (dh fa ex : loc) (di : GroovePlaylistItem) (fl : GrooveFilePrivate) (es : GrooveSink)
    (pulls : list Pull) (ls : list loc) (len1 : Z) (rest : list (Z * bool)) :
  sink_map (playlist w) = Some (mkSinkMap (Some st) a b None) →
  Forall (sink_ready w) (stack_sinks st) → NoDup (stack_sinks st) →
  (∀ p, p ∈ stack_sinks st → put_ok p = true) →
  Z.of_nat (length (stack_sinks st)) < INT_MAX →
  ss_sink st = Some ex → sinks w !! ex = Some es →
  decode_head (playlist w) = Some dh → items w !! dh = Some di → file di = Some fa →
  files w !! fa = Some fl →
  0 < pkt_size pkt ∨ pkt_data pkt = 0 →
  decode_answers env = (len1, true) :: rest → 0 ≤ len1 → 0 ≤ buffersrc_result env →
  buffersink_frames env 0 = (pulls, false) →
  Forall2 (λ pl l, pull_buffer pl = Some l ∧ pull_b_ok pl = true ∧ pull_mutex_ok pl = true)
    pulls ls →
  NoDup ls →
  let no_pts := pkt_pts pkt =? AV_NOPTS_VALUE in
  let clock := if no_pts then audio_clock fl
               else (av_q2d (time_base fl) * int_to_double (pkt_pts pkt))%float in
  let bufs := pull_bufs nb_channels bytes (Some dh) clock pulls ls in
  let data := wrap_int (sum_sizes bufs) in
  ∃ w',
    audio_decode_frame nb_channels bytes put_ok env pkt (Some fa) w =
      Ok ((if 0 <? data then data else 0), w') ∧
    (∀ x s q, Some x ∈ stack_sinks st → sinks w !! x = Some s → audioq s = Some q →
       ∃ s', sinks w' !! x = Some s' ∧
             audioq s' = Some (mkQueue (q_items q ++ (Some <$> ls)) (q_abort_request q)) ∧
             wrap_int (audioq_buf_count s') =
               wrap_int (audioq_buf_count s + Z.of_nat (length ls)) ∧
             wrap_int (audioq_size s') = wrap_int (audioq_size s + sum_sizes bufs)) ∧
    (∀ x, Some x ∉ stack_sinks st → sinks w' !! x = sinks w !! x) ∧
    (∀ l buf, (l, buf) ∈ bufs →
       buffers w' !! l = Some (with_ref_count (Z.of_nat (length (stack_sinks st))) buf)) ∧
    (∀ x, x ∉ ls → buffers w' !! x = buffers w !! x) ∧
    files w' =
      <[fa := with_audio_clock
                (if no_pts && (0 <? data)
                 then (clock + int_to_double data / int_to_double (bytes_per_sec es))%float
                 else if no_pts then (clock + 0)%float else clock) fl]> (files w) ∧
    items w' = items w ∧ playlist w' = playlist w ∧ trace w' = trace w.
Proof.
  exact (audio_decode_frame_run nb_channels bytes put_ok env pkt w st a b dh fa ex di fl es
           pulls ls len1 rest).
Qed.


Lemma audio_decode_frame_delivers_witness :
  ∃ r w',
    audio_decode_frame two_channels two_bytes (λ _, true) frame_env (read_packet frame_env)
      (Some 100%positive) playing_world = Ok (r, w') ∧
    q_items <$> queue_of w' 1%positive = Some [Some 8%positive] ∧
    ref_count <$> buffers w' !! 8%positive = Some 1.
Proof.
  destruct (audio_decode_frame_delivers two_channels two_bytes (λ _, true) frame_env
              (read_packet frame_env) playing_world
              (mkSinkStack (Some 1%positive) None) None None
              50%positive 100%positive 1%positive
              (mkItem (Some 100%positive) 1%float NULL NULL) a_file
              (with_cached 176400 4096 (a_sink []))
              [mkPull a_frame (Some 8%positive) true true] [8%positive] 4 [])
    as (w' & Hrun & Hsink & _ & Hbuf & _).
  - reflexivity.
  - repeat constructor.
    exists 1%positive, (with_cached 176400 4096 (a_sink [])), (mkQueue [] 0).
    repeat split.
  - repeat constructor. intros H. inversion H.
  - reflexivity.
  - simpl. unfold INT_MAX. lia.
  - reflexivity.
  - reflexivity.
  - reflexivity.
  - reflexivity.
  - reflexivity.
  - reflexivity.
  - left. simpl. lia.
  - reflexivity.
  - lia.
  - simpl. lia.
  - reflexivity.
  - repeat constructor.
  - repeat constructor. intros H. inversion H.
  - eexists _, w'. split; [exact Hrun|]. split.
    + destruct (Hsink 1%positive (with_cached 176400 4096 (a_sink [])) (mkQueue [] 0))
        as (s' & Hs' & Hq' & _); [left | reflexivity | reflexivity |].
      unfold queue_of. rewrite Hs'. simpl. rewrite Hq'. reflexivity.
    + erewrite Hbuf; [reflexivity | left].
Defined.

(** ** The counters of a sink track its queue *)

Lemma wrap_int_congr a b k : wrap_int a = wrap_int b → wrap_int (a + k) = wrap_int (b + k).
Proof. intros H. rewrite <- (wrap_int_add_l a), <- (wrap_int_add_l b), H. reflexivity. Qed.

Lemma queued_count_Some l rest : queued_count (Some l :: rest) = 1 + queued_count rest.
Proof.
  unfold queued_count. change (omap id (Some l :: rest)) with (l :: omap id rest).
  rewrite length_cons. lia.
Qed.

Lemma queued_count_None rest : queued_count (None :: rest) = queued_count rest.
Proof. reflexivity. Qed.

Lemma store_sink_Ok w a x f :
  sinks w !! a = Some x → store_sink (Some a) f w = Ok (tt, set_sinks <[a := f x]> w).
Proof. intros Hx. unfold store_sink, bind. rewrite (load_Ok sinks a w x Hx). reflexivity. Qed.

Lemma counters_track_get x block w r w' :
  groove_sink_get_buffer (Some x) block w = Ok (r, w') →
  counters_track w x → counters_track w' x.
Proof.
  intros H (s & q & Hs & Hq & Halloc & Hc & Hb).
  unfold groove_sink_get_buffer in H.
  rewrite (bind_Ok _ _ _ _ _ (load_Ok sinks x w s Hs)) in H.
  apply bind_inv in H as (r1 & w1 & Hget & H).
  assert (counters_track w1 x) as Hgoal.
  { unfold groove_queue_get, the_queue in Hget.
    rewrite bind_assoc, (bind_Ok _ _ _ _ _ (load_Ok sinks x w s Hs)), Hq in Hget.
    rewrite bind_ret in Hget.
    destruct (negb (q_abort_request q =? 0)).
    { injection Hget as _ <-. exists s, q. repeat split; assumption. }
    destruct (q_items q) as [|obj rest] eqn:Eq.
    { destruct (block =? 0); [|discriminate]. injection Hget as _ <-.
      exists s, q. rewrite Eq. repeat split; assumption. }
    unfold set_queue in Hget.
    rewrite (bind_Ok _ _ _ _ _ (store_sink_Ok w x s _ Hs)) in Hget.
    apply bind_inv in Hget as ([] & w2 & Hhook & Hget). injection Hget as _ <-.
    unfold audioq_get in Hhook.
    assert (sinks (set_sinks <[x := with_audioq (Some (mkQueue rest (q_abort_request q))) s]> w)
              !! x = Some (with_audioq (Some (mkQueue rest (q_abort_request q))) s)) as Hs1
      by apply lookup_insert_eq.
    rewrite (bind_Ok _ _ _ _ _ (load_Ok sinks x _ _ Hs1)) in Hhook.
    destruct obj as [l|].
    - change (ptr_eq (Some l) end_of_q_sentinel) with false in Hhook. cbv iota in Hhook.
      apply bind_inv in Hhook as (b & w3 & Hload & Hhook).
      apply load_inv in Hload as (-> & ? & [= <-] & Hl). simpl in Hl.
      rewrite (store_sink_Ok _ x _ _ Hs1) in Hhook. injection Hhook as <-.
      eexists _, (mkQueue rest (q_abort_request q)).
      split; [apply lookup_insert_eq|]. split; [reflexivity|]. simpl.
      split; [intros l' Hl'; apply Halloc; right; exact Hl'|].
      split.
      + rewrite wrap_int_idemp.
        replace (queued_count rest) with (queued_count (Some l :: rest) + -1)
          by (rewrite queued_count_Some; lia).
        apply (wrap_int_congr _ _ (-1)), Hc.
      + rewrite wrap_int_idemp.
        replace (queued_bytes (buffers w) rest)
          with (queued_bytes (buffers w) (Some l :: rest) + - size b)
          by (simpl; rewrite Hl; simpl; lia).
        apply (wrap_int_congr _ _ (- size b)), Hb.
    - change (ptr_eq None end_of_q_sentinel) with true in Hhook. injection Hhook as <-.
      eexists _, (mkQueue rest (q_abort_request q)).
      split; [apply lookup_insert_eq|]. split; [reflexivity|]. simpl.
      split; [intros l' Hl'; apply Halloc; right; exact Hl'|].
      split; assumption. }
  destruct r1 as [[| [] |] [obj|]]; try (injection H as _ <-; exact Hgoal).
  destruct (ptr_eq obj end_of_q_sentinel); injection H as _ <-; exact Hgoal.
Qed.

Lemma store_buffer_Ok w a x f :
  buffers w !! a = Some x → store_buffer (Some a) f w = Ok (tt, set_buffers <[a := f x]> w).
Proof. intros Hx. unfold store_buffer, bind. rewrite (load_Ok buffers a w x Hx). reflexivity. Qed.

Lemma groove_buffer_unref_sizes hb0 l w u w' :
  groove_buffer_unref (Some l) w = Ok (u, w') →
  sizes_from hb0 (buffers w) →
  sinks w' = sinks w ∧ sizes_from hb0 (buffers w').
Proof.
  intros H Hsz. unfold groove_buffer_unref in H.
  apply bind_inv in H as (b & w1 & Hload & H).
  apply load_inv in Hload as (-> & ? & [= <-] & Hb).
  rewrite (bind_Ok _ _ _ _ _ (store_buffer_Ok w l b _ Hb)) in H.
  assert (buffers (set_buffers <[l := with_ref_count (wrap_int (ref_count b - 1)) b]> w) !! l =
          Some (with_ref_count (wrap_int (ref_count b - 1)) b)) as Hb1 by apply lookup_insert_eq.
  rewrite (bind_Ok _ _ _ _ _ (load_Ok buffers l _ _ Hb1)) in H.
  assert (sizes_from hb0 (<[l := with_ref_count (wrap_int (ref_count b - 1)) b]> (buffers w)))
    as Hsz1.
  { intros l' b' Hl'. destruct (decide (l' = l)) as [->|Hne].
    - rewrite lookup_insert_eq in Hl'. injection Hl' as <-. apply (Hsz l b Hb).
    - rewrite lookup_insert_ne in Hl' by congruence. apply (Hsz l' b' Hl'). }
  destruct (ref_count _ =? 0); cbn [when] in H.
  - unfold log, modify, bind in H. injection H as _ <-. simpl. split; [reflexivity|].
    intros l' b' Hl'. apply lookup_delete_Some in Hl' as [_ Hl']. apply (Hsz1 l' b' Hl').
  - injection H as _ <-. split; [reflexivity | exact Hsz1].
Qed.

Lemma queue_cleanup_all_counts x hb0 objs : ∀ w s w',
  queue_cleanup_all (Some x) objs w = Ok (tt, w') →
  sinks w !! x = Some s → sizes_from hb0 (buffers w) →
  ∃ s', sinks w' !! x = Some s' ∧ audioq s' = audioq s ∧
        wrap_int (audioq_buf_count s') = wrap_int (audioq_buf_count s - queued_count objs) ∧
        wrap_int (audioq_size s') = wrap_int (audioq_size s - queued_bytes hb0 objs).
Proof.
  induction objs as [|obj objs IH]; intros w s w' H Hs Hsz.
  - injection H as <-. exists s. unfold queued_count. simpl. rewrite !Z.sub_0_r.
    repeat split. exact Hs.
  - cbn [queue_cleanup_all] in H. apply bind_inv in H as ([] & w1 & Hhook & H).
    unfold audioq_cleanup in Hhook.
    rewrite (bind_Ok _ _ _ _ _ (load_Ok sinks x w s Hs)) in Hhook.
    destruct obj as [l|].
    + change (ptr_eq (Some l) end_of_q_sentinel) with false in Hhook. cbv iota in Hhook.
      apply bind_inv in Hhook as (b & w2 & Hload & Hhook).
      apply load_inv in Hload as (-> & ? & [= <-] & Hl).
      rewrite (bind_Ok _ _ _ _ _ (store_sink_Ok w x s _ Hs)) in Hhook.
      apply (groove_buffer_unref_sizes hb0) in Hhook as [Hsinks Hsz1]; [|exact Hsz].
      destruct (IH w1 (with_counters (wrap_int (audioq_buf_count s - 1))
                         (wrap_int (audioq_size s - size b)) s) w' H)
        as (s' & Hs' & Hq' & Hc' & Hb'); [|exact Hsz1|].
      { rewrite Hsinks. apply lookup_insert_eq. }
      destruct (Hsz l b Hl) as (b0 & Hb0 & Hsize).
      exists s'. split; [exact Hs'|]. split; [exact Hq'|]. simpl in Hc', Hb'. split.
      * rewrite Hc', <- Z.add_opp_r, wrap_int_add_l, queued_count_Some. f_equal. lia.
      * rewrite Hb', <- Z.add_opp_r, wrap_int_add_l. simpl. rewrite Hb0. simpl. f_equal. lia.
    + change (ptr_eq None end_of_q_sentinel) with true in Hhook. injection Hhook as <-.
      apply (IH w s w' H Hs Hsz).
Qed.

Lemma counters_track_flush x w r w' :
  sink_flush (Some x) w = Ok (r, w') →
  counters_track w x →
  counters_track w' x ∧ q_items <$> queue_of w' x = Some [].
Proof.
  intros H (s & q & Hs & Hq & Halloc & Hc & Hb).
  unfold sink_flush in H.
  rewrite (bind_Ok _ _ _ _ _ (load_Ok sinks x w s Hs)) in H.
  apply bind_inv in H as ([] & w1 & Hflush & H).
  unfold groove_queue_flush, the_queue in Hflush.
  rewrite bind_assoc, (bind_Ok _ _ _ _ _ (load_Ok sinks x w s Hs)), Hq, bind_ret in Hflush.
  unfold set_queue in Hflush.
  rewrite (bind_Ok _ _ _ _ _ (store_sink_Ok w x s _ Hs)) in Hflush.
  destruct (queue_cleanup_all_counts x (buffers w) (q_items q) _
              (with_audioq (Some (mkQueue [] (q_abort_request q))) s) w1 Hflush)
    as (s' & Hs' & Hq' & Hc' & Hb').
  { apply lookup_insert_eq. }
  { intros l b Hl. exists b. split; [exact Hl | reflexivity]. }
  assert (sinks w' = sinks w1) as Hsinks.
  { apply bind_inv in H as ([] & w2 & Hhook & H). injection H as _ <-.
    destruct (flush s); cbn [when] in Hhook.
    - unfold log in Hhook. injection Hhook as <-. reflexivity.
    - injection Hhook as <-. reflexivity. }
  simpl in Hq', Hc', Hb'. split.
  - exists s', (mkQueue [] (q_abort_request q)). rewrite Hsinks.
    split; [exact Hs'|]. split; [exact Hq'|].
    split; [intros l Hl; inversion Hl|]. simpl. split.
    + rewrite Hc', <- Z.add_opp_r.
      rewrite (wrap_int_congr _ _ (- queued_count (q_items q)) Hc). f_equal.
      unfold queued_count. simpl. lia.
    + rewrite Hb', <- Z.add_opp_r.
      rewrite (wrap_int_congr _ _ (- queued_bytes (buffers w) (q_items q)) Hb). f_equal. lia.
  - unfold queue_of. rewrite Hsinks, Hs'. simpl. rewrite Hq'. reflexivity.
Qed.

Lemma queued_count_app a b : queued_count (a ++ b) = queued_count a + queued_count b.
Proof. unfold queued_count. rewrite omap_app, length_app. lia. Qed.

Lemma queued_count_new (ls : list loc) : queued_count (Some <$> ls) = Z.of_nat (length ls).
Proof.
  unfold queued_count. f_equal. induction ls as [|l ls IH]; [reflexivity|].
  simpl. f_equal. exact IH.
Qed.

Lemma queued_bytes_app hb a b :
  queued_bytes hb (a ++ b) = queued_bytes hb a + queued_bytes hb b.
Proof. induction a as [|[l|] a IH]; simpl; lia. Qed.

Lemma queued_bytes_ext hb hb' objs :
  (∀ l, Some l ∈ objs → hb' !! l = hb !! l) → queued_bytes hb' objs = queued_bytes hb objs.
Proof.
  induction objs as [|[l|] objs IH]; intros H; simpl.
  - reflexivity.
  - rewrite (H l) by left. rewrite IH; [reflexivity|]. intros l' Hl'. apply H. right. exact Hl'.
  - apply IH. intros l' Hl'. apply H. right. exact Hl'.
Qed.

Lemma queued_bytes_new hb k (bufs : list (loc * GrooveBuffer)) :
  (∀ l b, (l, b) ∈ bufs → hb !! l = Some (with_ref_count k b)) →
  queued_bytes hb (Some ∘ fst <$> bufs) = sum_sizes bufs.
Proof.
  induction bufs as [|[l b] bufs IH]; intros H; [reflexivity|].
  rewrite fmap_cons. cbn [queued_bytes compose fst sum_sizes foldr snd].
  rewrite (H l b) by left. cbn [from_option size with_ref_count]. f_equal.
  apply IH. intros l' b' Hin. apply H. right. exact Hin.
Qed.

(** What a delivery does to a sink that tracked its queue. *)
Lemma counters_track_delivered w w' x s q s' (bufs : list (loc * GrooveBuffer)) ls k :
  sinks w !! x = Some s → audioq s = Some q →
  (∀ l, Some l ∈ q_items q → is_Some (buffers w !! l)) →
  wrap_int (audioq_buf_count s) = wrap_int (queued_count (q_items q)) →
  wrap_int (audioq_size s) = wrap_int (queued_bytes (buffers w) (q_items q)) →
  fst <$> bufs = ls → Forall (λ l, buffers w !! l = None) ls →
  sinks w' !! x = Some s' →
  audioq s' = Some (mkQueue (q_items q ++ (Some <$> ls)) (q_abort_request q)) →
  wrap_int (audioq_buf_count s') = wrap_int (audioq_buf_count s + Z.of_nat (length ls)) →
  wrap_int (audioq_size s') = wrap_int (audioq_size s + sum_sizes bufs) →
  (∀ l b, (l, b) ∈ bufs → buffers w' !! l = Some (with_ref_count k b)) →
  (∀ l, l ∉ ls → buffers w' !! l = buffers w !! l) →
  counters_track w' x.
Proof.
  intros Hs Hq Halloc Hc Hb Hfst Hfresh Hs' Hq' Hc' Hb' Hnew Hold.
  rewrite Forall_forall in Hfresh.
  assert (∀ l, Some l ∈ q_items q → l ∉ ls) as Hnotin.
  { intros l Hl Hin. destruct (Halloc l Hl) as [b E]. rewrite (Hfresh l Hin) in E.
    discriminate. }
  exists s', (mkQueue (q_items q ++ (Some <$> ls)) (q_abort_request q)).
  split; [exact Hs'|]. split; [exact Hq'|]. simpl. split; [|split].
  - intros l Hl. apply elem_of_app in Hl as [Hl|Hl].
    + rewrite Hold by (apply Hnotin, Hl). apply Halloc, Hl.
    + apply list_elem_of_fmap in Hl as (l' & [= <-] & Hl').
      rewrite <- Hfst in Hl'. apply list_elem_of_fmap in Hl' as ([l2 b] & -> & Hin).
      simpl. rewrite (Hnew l2 b Hin). eauto.
  - rewrite Hc', queued_count_app, queued_count_new. apply wrap_int_congr, Hc.
  - rewrite Hb', queued_bytes_app.
    rewrite (queued_bytes_ext (buffers w) (buffers w') (q_items q))
      by (intros l Hl; apply Hold, Hnotin, Hl).
    rewrite <- Hfst, <- list_fmap_compose, (queued_bytes_new (buffers w') k bufs Hnew).
    apply wrap_int_congr, Hb.
Qed.

(** X19: audioq_buf_count and audioq_size of a sink are, as C ints, the
    number and the bytes of the buffers in its queue (the end-of-queue
    sentinel counts for nothing), and this is kept when
    groove_sink_get_buffer takes the oldest object out, when sink_flush
    empties the queue, and when audio_decode_frame appends the buffers of a
    packet to the queues of a map with one class. *)
Theorem sink_counters_track_queue (nb_channels bytes : Z → Z) (put_ok : option loc → bool)
    (w : World) (x : loc) :
  counters_track w x →
  (∀ block r w', groove_sink_get_buffer (Some x) block w = Ok (r, w') →
                 counters_track w' x) ∧
  (∀ r w', sink_flush (Some x) w = Ok (r, w') →
           counters_track w' x ∧ q_items <$> queue_of w' x = Some []) ∧
  (∀ env pkt st a b dh fa ex di fl es pulls ls len1 rest r w',
     sink_map (playlist w) = Some (mkSinkMap (Some st) a b None) →
     Forall (sink_ready w) (stack_sinks st) → NoDup (stack_sinks st) →
     (∀ p, p ∈ stack_sinks st → put_ok p = true) →
     Z.of_nat (length (stack_sinks st)) < INT_MAX →
     ss_sink st = Some ex → sinks w !! ex = Some es →
     decode_head (playlist w) = Some dh → items w !! dh = Some di → file di = Some fa →
     files w !! fa = Some fl →
     0 < pkt_size pkt ∨ pkt_data pkt = 0 →
     decode_answers env = (len1, true) :: rest → 0 ≤ len1 → 0 ≤ buffersrc_result env →
     buffersink_frames env 0 = (pulls, false) →
     Forall2 (λ pl l, pull_buffer pl = Some l ∧ pull_b_ok pl = true ∧ pull_mutex_ok pl = true)
       pulls ls →
     NoDup ls → Forall (λ l, buffers w !! l = None) ls →
     Some x ∈ stack_sinks st →
     audio_decode_frame nb_channels bytes put_ok env pkt (Some fa) w = Ok (r, w') →
     counters_track w' x).
Proof.
  intros Htrack. split; [|split].
  - intros block r w' H. exact (counters_track_get x block w r w' H Htrack).
  - intros r w' H. exact (counters_track_flush x w r w' H Htrack).
  - intros env pkt st a b dh fa ex di fl es pulls ls len1 rest r w'
      Hmap Hready Hnd Hput Hfew Hex Hes Hdh Hdi Hfile Hfl Hpkt Hans Hlen Hsrc Henv
      Hpulls Hndl Hfresh Hx Hrun.
    destruct (audio_decode_frame_run nb_channels bytes put_ok env pkt w st a b dh fa ex di fl
                es pulls ls len1 rest Hmap Hready Hnd Hput Hfew Hex Hes Hdh Hdi Hfile Hfl
                Hpkt Hans Hlen Hsrc Henv Hpulls Hndl)
      as (w2 & Hrun2 & Hsink & _ & Hnew & Hold & _).
    rewrite Hrun in Hrun2. injection Hrun2 as _ <-.
    destruct Htrack as (s & q & Hs & Hq & Halloc & Hc & Hb).
    destruct (Hsink x s q Hx Hs Hq) as (s' & Hs' & Hq' & Hc' & Hb').
    eapply (counters_track_delivered w w' x s q s' _ ls); try eassumption.
    apply pull_bufs_fst. exact (Forall2_length _ _ _ Hpulls).
Qed.

Lemma purging_world_tracks : counters_track purging_world 1%positive.
Proof.
  eexists _, (mkQueue [Some 7%positive; Some 8%positive] 0).
  split; [reflexivity|]. split; [reflexivity|]. split; [|split; reflexivity].
  intros l Hl. apply elem_of_cons in Hl as [[= ->]|Hl]; [eexists; reflexivity|].
  apply elem_of_cons in Hl as [[= ->]|Hl]; [eexists; reflexivity|]. inversion Hl.
Qed.

Lemma sink_counters_track_queue_witness :
  ∃ w', groove_sink_get_buffer (Some 1%positive) 0 purging_world =
          Ok ((GROOVE_BUFFER_YES, Some 7%positive), w') ∧
        counters_track w' 1%positive.
Proof.
  eexists. split; [vm_compute; reflexivity|].
  apply (proj1 (sink_counters_track_queue two_channels two_bytes (λ _, true) _ _
                  purging_world_tracks) 0 (GROOVE_BUFFER_YES, Some 7%positive)).
  vm_compute. reflexivity.
Defined.

(** ** Purging a queue *)

Lemma groove_buffer_unref_fields hb0 l w u w' :
  groove_buffer_unref (Some l) w = Ok (u, w') →
  fields_from hb0 (buffers w) →
  sinks w' = sinks w ∧ playlist w' = playlist w ∧ fields_from hb0 (buffers w') ∧
  (∀ l', l' ≠ l → buffers w' !! l' = buffers w !! l').
Proof.
  intros H Hsz. unfold groove_buffer_unref in H.
  apply bind_inv in H as (b & w1 & Hload & H).
  apply load_inv in Hload as (-> & ? & [= <-] & Hb).
  rewrite (bind_Ok _ _ _ _ _ (store_buffer_Ok w l b _ Hb)) in H.
  assert (buffers (set_buffers <[l := with_ref_count (wrap_int (ref_count b - 1)) b]> w) !! l =
          Some (with_ref_count (wrap_int (ref_count b - 1)) b)) as Hb1 by apply lookup_insert_eq.
  rewrite (bind_Ok _ _ _ _ _ (load_Ok buffers l _ _ Hb1)) in H.
  assert (fields_from hb0 (<[l := with_ref_count (wrap_int (ref_count b - 1)) b]> (buffers w)))
    as Hsz1.
  { intros l' b' Hl'. destruct (decide (l' = l)) as [->|Hne].
    - rewrite lookup_insert_eq in Hl'. injection Hl' as <-. apply (Hsz l b Hb).
    - rewrite lookup_insert_ne in Hl' by congruence. apply (Hsz l' b' Hl'). }
  destruct (ref_count _ =? 0); cbn [when] in H.
  - unfold log, modify, bind in H. injection H as _ <-. simpl.
    split; [reflexivity|]. split; [reflexivity|]. split.
    + intros l' b' Hl'. apply lookup_delete_Some in Hl' as [_ Hl']. apply (Hsz1 l' b' Hl').
    + intros l' Hne. rewrite lookup_delete_ne, lookup_insert_ne by congruence. reflexivity.
  - injection H as _ <-. split; [reflexivity|]. split; [reflexivity|].
    split; [exact Hsz1|]. intros l' Hne. simpl. rewrite lookup_insert_ne by congruence.
    reflexivity.
Qed.

Section Purge.

Variables (x : loc) (hb0 : gmap loc GrooveBuffer) (pi : option loc).

(** The state of a purge under way. *)
Let purging (w : World) (s : GrooveSink) : Prop :=
sinks w !! x = Some s ∧ purge_item (playlist w) = pi ∧
fields_from hb0 (buffers w) ∧
(∀ l, cut_from hb0 pi (Some l) = false → buffers w !! l = hb0 !! l).

Lemma queue_purge_each_counts objs : ∀ w s kept w',
queue_purge_each (Some x) objs w = Ok (kept, w') →
purging w s →
kept = List.filter (λ obj, negb (cut_from hb0 pi obj)) objs ∧
∃ s', purging w' s' ∧ audioq s' = audioq s ∧ sink_playlist s' = sink_playlist s ∧
      wrap_int (audioq_buf_count s') =
        wrap_int (audioq_buf_count s - queued_count (List.filter (cut_from hb0 pi) objs)) ∧
      wrap_int (audioq_size s') =
        wrap_int (audioq_size s - queued_bytes hb0 (List.filter (cut_from hb0 pi) objs)).
Proof.
induction objs as [|obj objs IH]; intros w s kept w' H Hp.
- injection H as <- <-. split; [reflexivity|]. exists s.
  unfold queued_count. simpl. rewrite !Z.sub_0_r. split; [exact Hp|]. repeat split.
- destruct Hp as (Hs & Hpi & Hf & Hmiss).
  cbn [queue_purge_each] in H. apply bind_inv in H as (hit & w1 & Hhit & H).
  unfold audioq_purge in Hhit.
  rewrite (bind_Ok _ _ _ _ _ (load_Ok sinks x w s Hs)) in Hhit.
  destruct (sink_playlist s) as [pl|] eqn:Hpl; [|discriminate Hhit].
  rewrite bind_the_playlist in Hhit.
  apply bind_inv in Hhit as (b & w2 & Hload & Hhit).
  apply load_inv in Hload as (-> & l & -> & Hl). injection Hhit as <- <-.
  destruct (Hf l b Hl) as (b0 & Hb0 & Hsize & Hitem).
  assert (cut_from hb0 pi (Some l) = ptr_eq (item b) (purge_item (playlist w))) as Hcut.
  { unfold cut_from. simpl. rewrite Hb0, Hitem, Hpi. reflexivity. }
  cbn [List.filter]. rewrite Hcut.
  destruct (ptr_eq (item b) (purge_item (playlist w))) eqn:Ehit; cbn [negb].
  + apply bind_inv in H as ([] & w3 & Hclean & H).
    unfold audioq_cleanup in Hclean.
    rewrite (bind_Ok _ _ _ _ _ (load_Ok sinks x w s Hs)) in Hclean.
    change (ptr_eq (Some l) end_of_q_sentinel) with false in Hclean. cbv iota in Hclean.
    rewrite (bind_Ok _ _ _ _ _ (load_Ok buffers l w b Hl)) in Hclean.
    rewrite (bind_Ok _ _ _ _ _ (store_sink_Ok w x s _ Hs)) in Hclean.
    apply (groove_buffer_unref_fields hb0) in Hclean as (Hsinks & Hplay & Hf3 & Hother);
      [|exact Hf].
    destruct (IH w3 (with_counters (wrap_int (audioq_buf_count s - 1))
                       (wrap_int (audioq_size s - size b)) s) kept w' H)
      as (Hkept & s' & Hp' & Hq' & Hpl' & Hc' & Hb').
    { split; [rewrite Hsinks; apply lookup_insert_eq|].
      split; [rewrite Hplay; exact Hpi|]. split; [exact Hf3|].
      intros l' Hl'. rewrite Hother.
      - simpl. apply Hmiss, Hl'.
      - intros ->. rewrite Hcut in Hl'. discriminate. }
    split; [exact Hkept|]. exists s'. split; [exact Hp'|]. split; [exact Hq'|].
    split; [rewrite Hpl'; exact Hpl|].
    simpl in Hc', Hb'. split.
    * rewrite Hc', <- Z.add_opp_r, wrap_int_add_l, queued_count_Some. f_equal. lia.
    * rewrite Hb', <- Z.add_opp_r, wrap_int_add_l. simpl. rewrite Hb0. simpl. f_equal. lia.
  + apply bind_inv in H as (kept' & w3 & Hrest & H). injection H as <- <-.
    destruct (IH w s kept' w3 Hrest) as (Hkept & s' & Hp' & Hq' & Hpl' & Hc' & Hb').
    { exact (conj Hs (conj Hpi (conj Hf Hmiss))). }
    split; [rewrite Hkept; reflexivity|]. exists s'.
    split; [exact Hp'|]. split; [exact Hq'|]. split; [rewrite Hpl'; exact Hpl|].
    exact (conj Hc' Hb').
Qed.

End Purge.

Lemma queued_count_filter (f : option loc → bool) objs :
  queued_count objs =
  queued_count (List.filter f objs) + queued_count (List.filter (λ o, negb (f o)) objs).
Proof.
  induction objs as [|[l|] objs IH].
  - reflexivity.
  - cbn [List.filter]. destruct (f (Some l)); cbn [negb]; rewrite !queued_count_Some; lia.
  - cbn [List.filter]. destruct (f None); cbn [negb]; rewrite !queued_count_None; lia.
Qed.

Lemma queued_bytes_filter hb (f : option loc → bool) objs :
  queued_bytes hb objs =
  queued_bytes hb (List.filter f objs) + queued_bytes hb (List.filter (λ o, negb (f o)) objs).
Proof.
  induction objs as [|[l|] objs IH].
  - reflexivity.
  - cbn [List.filter queued_bytes]. destruct (f (Some l)); cbn [negb queued_bytes]; lia.
  - cbn [List.filter queued_bytes]. destruct (f None); cbn [negb queued_bytes]; lia.
Qed.

(** X20: [purge_sink] takes out of the queue of the sink exactly the buffers
    that were cut from the item being removed, and leaves the other buffers as
    they were: no buffer left in the queue refers to that item, and the
    counters of the sink still agree with the queue. *)
Theorem purge_sink_drops_item_buffers x w r w' :
  purge_sink (Some x) w = Ok (r, w') →
  counters_track w x →
  counters_track w' x ∧
  ∃ s q s' q', sinks w !! x = Some s ∧ audioq s = Some q ∧
    sinks w' !! x = Some s' ∧ audioq s' = Some q' ∧
    q_items q' = List.filter (λ obj, negb (cut_from (buffers w) (purge_item (playlist w)) obj))
                             (q_items q) ∧
    ∀ l, Some l ∈ q_items q' →
         buffers w' !! l = buffers w !! l ∧
         ∃ b, buffers w !! l = Some b ∧ item b ≠ purge_item (playlist w).
Proof.
  intros H (s & q & Hs & Hq & Hlive & Hc & Hb).
  unfold purge_sink in H.
  rewrite (bind_Ok _ _ _ _ _ (load_Ok sinks x w s Hs)) in H.
  apply bind_inv in H as ([] & w2 & Hpurge & H).
  unfold groove_queue_purge, the_queue in Hpurge.
  rewrite bind_assoc, (bind_Ok _ _ _ _ _ (load_Ok sinks x w s Hs)), Hq, bind_ret in Hpurge.
  apply bind_inv in Hpurge as (kept & w1 & Heach & Hpurge).
  destruct (queue_purge_each_counts x (buffers w) (purge_item (playlist w)) _ w s kept w1 Heach)
    as (Hkept & s1 & (Hs1 & Hpi1 & Hf1 & Hmiss1) & Hq1 & Hpl1 & Hc1 & Hb1).
  { split; [exact Hs|]. split; [reflexivity|]. split.
    - intros l b Hl. exists b. repeat split. exact Hl.
    - reflexivity. }
  rewrite bind_assoc, (bind_Ok _ _ _ _ _ (load_Ok sinks x w1 s1 Hs1)), Hq1, Hq, bind_ret
    in Hpurge.
  unfold set_queue in Hpurge. rewrite (store_sink_Ok w1 x s1 _ Hs1) in Hpurge.
  injection Hpurge as <-.
  set (s2 := with_audioq (Some (mkQueue kept (q_abort_request q))) s1) in *.
  assert (sinks (set_sinks <[x := s2]> w1) !! x = Some s2) as Hs2 by apply lookup_insert_eq.
  rewrite (bind_Ok _ _ _ _ _ (load_Ok sinks x _ s2 Hs2)) in H.
  destruct (sink_playlist s2) as [pl|]; [|discriminate H].
  rewrite bind_the_playlist in H.
  assert (sinks w' = <[x := s2]> (sinks w1) ∧ buffers w' = buffers w1) as [Hsw Hbw].
  { destruct (purge s2); cbn [when] in H; unfold log, modify, bind in H;
      injection H as _ <-; split; reflexivity. }
  assert (∀ l, Some l ∈ kept → ∃ b, buffers w !! l = Some b ∧ item b ≠ purge_item (playlist w) ∧
                                   buffers w1 !! l = Some b) as Hkeptb.
  { intros l Hl. rewrite Hkept in Hl. apply list_elem_of_In, filter_In in Hl as [Hin Hcut].
    apply list_elem_of_In in Hin. destruct (Hlive l Hin) as [b Hlb].
    exists b. split; [exact Hlb|]. apply negb_true_iff in Hcut. split.
    - unfold cut_from in Hcut. simpl in Hcut. rewrite Hlb in Hcut.
      apply bool_decide_eq_false in Hcut. exact Hcut.
    - rewrite (Hmiss1 l Hcut). exact Hlb. }
  split.
  - exists s2, (mkQueue kept (q_abort_request q)). rewrite Hsw, Hbw.
    split; [apply lookup_insert_eq|]. split; [reflexivity|]. split.
    { intros l Hl. destruct (Hkeptb l Hl) as (b & _ & _ & Hb1'). eauto. }
    assert (queued_bytes (buffers w1) kept = queued_bytes (buffers w) kept) as Hsame.
    { apply queued_bytes_ext. intros l Hl. destruct (Hkeptb l Hl) as (b & Hlb & _ & Hlb1).
      rewrite Hlb, Hlb1. reflexivity. }
    cbn [q_items]. rewrite Hsame. subst s2. cbn [audioq_buf_count audioq_size with_audioq].
    rewrite Hc1, Hb1, Hkept. split.
    + rewrite <- Z.add_opp_r, <- wrap_int_add_l, Hc, wrap_int_add_l. f_equal.
      rewrite (queued_count_filter (cut_from (buffers w) (purge_item (playlist w))) (q_items q)).
      lia.
    + rewrite <- Z.add_opp_r, <- wrap_int_add_l, Hb, wrap_int_add_l. f_equal.
      rewrite (queued_bytes_filter (buffers w) (cut_from (buffers w) (purge_item (playlist w)))
                 (q_items q)) at 1.
      lia.
  - exists s, q, s2, (mkQueue kept (q_abort_request q)). rewrite Hsw, Hbw.
    split; [exact Hs|]. split; [exact Hq|]. split; [apply lookup_insert_eq|].
    split; [reflexivity|]. split; [exact Hkept|].
    intros l Hl. destruct (Hkeptb l Hl) as (b & Hlb & Hit & Hlb1).
    split; [rewrite Hlb, Hlb1; reflexivity|]. exists b. split; assumption.
Qed.

Lemma purge_sink_drops_item_buffers_witness :
  purge_sink (Some 1%positive) purging_world = Ok (0, purged_world) ∧
  counters_track purged_world 1%positive ∧
  (sinks purged_world !! 1%positive) ≫= audioq = Some (mkQueue [Some 8%positive] 0).
Proof.
  assert (purge_sink (Some 1%positive) purging_world = Ok (0, purged_world)) as H
    by (vm_compute; reflexivity).
  split; [exact H|]. split; [|vm_compute; reflexivity].
  apply (proj1 (purge_sink_drops_item_buffers 1%positive purging_world 0 _ H
                  purging_world_tracks)).
Defined.

(** ** The end of the queue, beside the client *)

Lemma same_sent_end_of_q_frame : frame_rel same_sent_end_of_q.
Proof. split; unfold same_sent_end_of_q; try reflexivity. congruence. Qed.

Lemma sink_ready_unpush w obj l p :
  sink_ready (set_sinks (alter (push_sink obj) l) w) p → sink_ready w p.
Proof.
  intros (l' & s & q & -> & Hs & Hq). simpl in Hs. rewrite lookup_alter in Hs.
  destruct (decide (l = l')) as [<-|Hne].
  - destruct (sinks w !! l) as [s0|] eqn:Es; [|discriminate].
    injection Hs as <-. unfold push_sink in Hq. simpl in Hq.
    destruct (audioq s0) as [q0|] eqn:Eq; [|discriminate].
    exists l, s0, q0. repeat split; assumption.
  - exists l', s, q. repeat split; assumption.
Qed.

Lemma sink_ready_unpush_all obj ps p : ∀ w,
  sink_ready (set_sinks (push_all obj ps) w) p → sink_ready w p.
Proof.
  induction ps as [|[l|] ps IH]; intros w Hp.
  - destruct w; exact Hp.
  - apply (sink_ready_unpush w obj l), (IH (set_sinks (alter (push_sink obj) l) w)), Hp.
  - apply IH, Hp.
Qed.

Section SignalEndReturns.

Variable put_ok : option loc → bool.
Hypothesis puts_succeed : ∀ p, put_ok p = true.

Lemma sink_signal_end_ready p w r w' :
sink_signal_end put_ok p w = Ok (r, w') → sink_ready w p.
Proof.
unfold sink_signal_end. intros H.
apply bind_inv in H as (s & w1 & Hs & H).
apply load_inv in Hs as (-> & l & -> & Hl).
apply bind_inv in H as (x & w1 & Hput & _).
unfold groove_queue_put in Hput.
apply bind_inv in Hput as (q & w2 & Hq & _).
unfold the_queue in Hq. rewrite (bind_Ok _ _ _ _ _ (load_Ok sinks l w s Hl)) in Hq.
destruct (audioq s) as [q0|] eqn:Eq; [|discriminate].
exists l, s, q0. repeat split; assumption.
Qed.

Lemma every_sink_stack_signal_end_ready st : ∀ w r w',
every_sink_stack (sink_signal_end put_ok) 0 st w = Ok (r, w') →
Forall (sink_ready w) (stack_sinks st).
Proof.
induction st as [s|s n IH] using SinkStack_ind; simpl; intros w r w' H.
- apply bind_inv in H as (v & w1 & Hs & _).
  constructor; [exact (sink_signal_end_ready _ _ _ _ Hs) | constructor].
- apply bind_inv in H as (v & w1 & Hs & H).
  pose proof (sink_signal_end_ready _ _ _ _ Hs) as Hready.
  pose proof Hready as (l & ? & ? & -> & _).
  rewrite (sink_signal_end_Ok put_ok puts_succeed _ _ Hready) in Hs.
  injection Hs as <- <-. simpl in H.
  constructor; [exact Hready|].
  eapply Forall_impl; [exact (IH _ _ _ H)|]. intros p. apply sink_ready_unpush.
Qed.

Lemma every_sink_map_signal_end_ready m : ∀ w r w',
every_sink_map (sink_signal_end put_ok) 0 m w = Ok (r, w') →
Forall (sink_ready w) (map_sinks m).
Proof.
induction m as [st a b|st a b n IH] using SinkMap_ind; simpl; intros w r w' H.
- rewrite app_nil_r. destruct st as [st|]; simpl; [|constructor].
  apply bind_inv in H as (v & w1 & Hst & _).
  exact (every_sink_stack_signal_end_ready _ _ _ _ Hst).
- apply Forall_app. destruct st as [st|]; simpl.
  + apply bind_inv in H as (v & w1 & Hst & H).
    pose proof (every_sink_stack_signal_end_ready _ _ _ _ Hst) as Hready.
    rewrite (every_sink_stack_signal_end put_ok puts_succeed _ _ Hready) in Hst.
    injection Hst as <- <-.
    split; [exact Hready|].
    eapply Forall_impl; [exact (IH _ _ _ H)|]. intros p. apply sink_ready_unpush_all.
  + split; [constructor|]. apply bind_inv in H as (v & w1 & [= <- <-] & H).
    exact (IH _ _ _ H).
Qed.

Lemma every_sink_signal_end_ready w r w' :
every_sink_signal_end put_ok w = Ok (r, w') → Forall (sink_ready w) (attached_sinks w).
Proof.
unfold every_sink_signal_end, every_sink, attached_sinks. intros H.
apply bind_inv in H as (v & w1 & H & _).
rewrite bind_the_playlist in H.
destruct (sink_map (playlist w)) as [m|]; simpl; [|constructor].
apply bind_inv in H as (x & w2 & H & _).
exact (every_sink_map_signal_end_ready _ _ _ _ H).
Qed.

End SignalEndReturns.

Lemma sentinel_delivered_signalled w : sentinel_delivered w (signalled w).
Proof.
  split.
  - intros Hnd l Hin. unfold queue_of. simpl.
    rewrite (push_all_once _ _ _ _ Hnd Hin).
    destruct (sinks w !! l) as [s|]; simpl; [|reflexivity].
    destruct (audioq s); reflexivity.
  - intros l Hin. simpl. apply push_all_other, Hin.
Qed.

Section WorkerBesideClient.

Variable decode_one_frame : option loc → M Z.
Variable put_ok : option loc → bool.
Hypothesis puts_succeed : ∀ p, put_ok p = true.
Hypothesis decode_one_frame_keeps : ∀ f, keeps same_sent_end_of_q (decode_one_frame f).

Let body := decode_thread_body decode_one_frame put_ok.

(** A turn that finds no decode head, when it returns. *)
Lemma decode_thread_body_none w w' :
body w = Ok (tt, w') → decode_head (playlist w) = NULL →
Forall (sink_ready w) (attached_sinks w) ∧ w' = signalled w ∧
  sent_end_of_q (playlist w) = 0 ∨
w' = polled 1 w ∧ sent_end_of_q (playlist w) ≠ 0.
Proof.
intros H Hd. destruct (Z.eq_dec (sent_end_of_q (playlist w)) 0) as [Hflag|Hflag].
- left.
  assert (Forall (sink_ready w) (attached_sinks w)) as Hready.
  { unfold body, decode_thread_body in H. rewrite bind_the_playlist, Hd in H.
    change (is_null NULL) with true in H. cbv iota in H. rewrite Hflag in H.
    change (0 =? 0) with true in H. cbn [when] in H.
    apply bind_inv in H as (u & w1 & H & _).
    apply bind_inv in H as (u' & w2 & H & _).
    exact (every_sink_signal_end_ready put_ok puts_succeed _ _ _ H). }
  split; [exact Hready|]. split; [|exact Hflag].
  unfold body in H.
  rewrite (decode_thread_body_signals decode_one_frame put_ok puts_succeed w Hd Hflag Hready)
    in H.
  injection H as <-. reflexivity.
- right. split; [|exact Hflag]. unfold body in H.
  rewrite (decode_thread_body_polls decode_one_frame put_ok w Hd Hflag) in H.
  injection H as <-. reflexivity.
Qed.

(** A turn that finds a decode head leaves [sent_end_of_q] clear. *)
Lemma decode_thread_body_some w w' :
body w = Ok (tt, w') → decode_head (playlist w) ≠ NULL →
sent_end_of_q (playlist w') = 0.
Proof.
intros H Hd. unfold body, decode_thread_body in H. rewrite bind_the_playlist in H.
destruct (decode_head (playlist w)) as [d|] eqn:Ed; [|contradiction].
change (is_null (Some d)) with false in H. cbv iota in H.
rewrite bind_update_playlist in H.
pose proof same_sent_end_of_q_frame as R_frame.
pose proof (decode_thread_advance_keeps_sent_end_of_q) as Hadv.
match type of H with
| ?c ?w0 = _ => assert (keeps same_sent_end_of_q c) as K
end.
{ pose proof (every_sink_keeps _ R_frame sink_is_full 1) as Hfull.
  assert (∀ r, keeps same_sent_end_of_q (decode_thread_advance r)) as Hadv'.
  { intros r w1 [] w2 Hr. exact (Hadv r w1 w2 Hr). }
  assert (∀ s, keeps same_sent_end_of_q (sink_is_full s)) as Hs.
  { intros s. unfold sink_is_full. keeps_auto. }
  specialize (Hfull Hs).
  unfold every_sink_full, update_playlist, log. keeps_auto. }
rewrite (K _ _ _ H). reflexivity.
Qed.

Lemma decode_thread_run clients : ∀ w r w',
decode_thread decode_one_frame put_ok clients w = Ok (r, w') →
r = 0 ∧ abort_request (playlist w') ≠ 0 ∧
∃ turns, worker_turns body clients w turns w'.
Proof.
induction clients as [|c clients IH]; intros w r w' H; cbn [decode_thread] in H;
  rewrite bind_the_playlist in H;
  destruct (Z.eqb_spec (abort_request (playlist w)) 0) as [Ha|Ha]; cbn [negb] in H.
- discriminate H.
- injection H as <- <-. split; [reflexivity|]. split; [exact Ha|]. exists []. reflexivity.
- apply bind_inv in H as ([] & b & Hbody & H).
  apply bind_inv in H as ([] & w1 & Hc & H).
  destruct (IH _ _ _ H) as (Hr & Hab & turns & Hturns).
  split; [exact Hr|]. split; [exact Hab|].
  exists ((w, b) :: turns). cbn [worker_turns].
  split; [reflexivity|]. split; [exact Hbody|]. exists w1. split; [exact Hc | exact Hturns].
- injection H as <- <-. split; [reflexivity|]. split; [exact Ha|]. exists []. reflexivity.
Qed.

Lemma worker_turns_first clients w turns w' a b :
worker_turns body clients w turns w' → turns !! 0%nat = Some (a, b) →
a = w ∧ body a = Ok (tt, b).
Proof.
destruct turns as [|[a0 b0] turns]; [discriminate|]. intros H [= -> ->].
destruct clients as [|c clients]; [destruct H|].
destruct H as (Ha & Hb & _). split; assumption.
Qed.

Lemma worker_turns_adjacent (R : World → World → Prop) turns : ∀ clients w w' i a b a2 b2,
Forall (keeps R) clients →
worker_turns body clients w turns w' →
turns !! i = Some (a, b) → turns !! S i = Some (a2, b2) →
body a = Ok (tt, b) ∧ R b a2 ∧ body a2 = Ok (tt, b2).
Proof.
induction turns as [|[a0 b0] turns IH]; intros clients w w' i a b a2 b2 Hk H Hi Hj;
  [discriminate|].
destruct clients as [|c clients]; [destruct H|].
destruct H as (-> & Hbody & w1 & Hc & Hrest).
apply Forall_cons in Hk as [Hkc Hk].
destruct i as [|i].
- injection Hi as -> ->. cbn in Hj.
  destruct (worker_turns_first _ _ _ _ _ _ Hrest Hj) as [-> Hb2].
  split; [exact Hbody|]. split; [exact (Hkc _ _ _ Hc) | exact Hb2].
- exact (IH clients w1 w' i a b a2 b2 Hk Hrest Hi Hj).
Qed.

End WorkerBesideClient.

(** C3, as amended.  A turn of the worker's loop that finds [decode_head]
    null puts the end-of-queue sentinel at the end of the queue of every
    attached sink, once each, if [sent_end_of_q] is clear, and puts nothing
    anywhere if it is set; it then has [sent_end_of_q] set, decodes
    nothing and sleeps [NOOP_DELAY] before it polls again.  A turn that
    finds a decode head leaves [sent_end_of_q] clear.  So in a run of
    [decode_thread] beside clients that do not write [sent_end_of_q], of
    consecutive turns that find [decode_head] null the first one delivers
    the sentinel and the following ones deliver nothing: the first turn of
    the run if [sent_end_of_q] was clear, and every turn that follows a turn
    with a decode head.  A [decode_head] that becomes null and is set again
    before the worker's next turn is not seen by the worker. *)
Theorem decode_thread_end_of_q (decode_one_frame : option loc → M Z)
    (put_ok : option loc → bool) :
  (∀ p, put_ok p = true) →
  (∀ f, keeps same_sent_end_of_q (decode_one_frame f)) →
  (∀ w w', decode_thread_body decode_one_frame put_ok w = Ok (tt, w') →
           decode_head (playlist w) = NULL →
           (if sent_end_of_q (playlist w) =? 0 then sentinel_delivered w w'
            else sinks w' = sinks w) ∧
           sent_end_of_q (playlist w') ≠ 0 ∧
           decode_head (playlist w') = NULL ∧
           buffers w' = buffers w ∧ items w' = items w ∧ files w' = files w ∧
           trace w' = trace w ++ [Delay NOOP_DELAY]) ∧
  (∀ w, decode_head (playlist w) = NULL → Forall (sink_ready w) (attached_sinks w) →
        ∃ w', decode_thread_body decode_one_frame put_ok w = Ok (tt, w')) ∧
  (∀ w w', decode_thread_body decode_one_frame put_ok w = Ok (tt, w') →
           decode_head (playlist w) ≠ NULL → sent_end_of_q (playlist w') = 0) ∧
  (∀ clients w r w',
     Forall (keeps same_sent_end_of_q) clients →
     decode_thread decode_one_frame put_ok clients w = Ok (r, w') →
     r = 0 ∧ abort_request (playlist w') ≠ 0 ∧
     ∃ turns,
       worker_turns (decode_thread_body decode_one_frame put_ok) clients w turns w' ∧
       (∀ a b, turns !! 0%nat = Some (a, b) → decode_head (playlist a) = NULL →
               sent_end_of_q (playlist w) = 0 → sentinel_delivered a b) ∧
       (∀ i a b a2 b2, turns !! i = Some (a, b) → turns !! S i = Some (a2, b2) →
                       decode_head (playlist a2) = NULL →
                       if is_null (decode_head (playlist a)) then sinks b2 = sinks a2
                       else sentinel_delivered a2 b2)).
Proof.
  intros Hput Hkeep.
  assert (∀ w w', decode_thread_body decode_one_frame put_ok w = Ok (tt, w') →
                  decode_head (playlist w) = NULL →
                  (if sent_end_of_q (playlist w) =? 0 then sentinel_delivered w w'
                   else sinks w' = sinks w) ∧
                  sent_end_of_q (playlist w') ≠ 0 ∧
                  decode_head (playlist w') = NULL ∧
                  buffers w' = buffers w ∧ items w' = items w ∧ files w' = files w ∧
                  trace w' = trace w ++ [Delay NOOP_DELAY]) as Hnone.
  { intros w w' H Hd.
    destruct (decode_thread_body_none decode_one_frame put_ok Hput w w' H Hd)
      as [(_ & -> & Hflag)|[-> Hflag]].
    - rewrite Hflag. split; [apply sentinel_delivered_signalled|].
      split; [discriminate|]. repeat split. exact Hd.
    - destruct (Z.eqb_spec (sent_end_of_q (playlist w)) 0) as [|_]; [contradiction|].
      split; [reflexivity|]. split; [exact Hflag|]. repeat split. exact Hd. }
  split; [exact Hnone|].
  split.
  { intros w Hd Hready.
    destruct (Z.eq_dec (sent_end_of_q (playlist w)) 0) as [Hflag|Hflag].
    - eexists. apply (decode_thread_body_signals _ _ Hput w Hd Hflag Hready).
    - eexists. apply (decode_thread_body_polls _ _ w Hd Hflag). }
  split; [intros w w' H Hd; exact (decode_thread_body_some _ _ Hkeep w w' H Hd)|].
  intros clients w r w' Hclients H.
  destruct (decode_thread_run decode_one_frame put_ok clients w r w' H)
    as (Hr & Hab & turns & Hturns).
  split; [exact Hr|]. split; [exact Hab|]. exists turns. split; [exact Hturns|]. split.
  - intros a b H0 Hd Hflag.
    destruct (worker_turns_first _ _ _ _ _ _ _ _ Hturns H0) as [-> Hbody].
    destruct (Hnone _ _ Hbody Hd) as [Hdel _]. rewrite Hflag in Hdel. exact Hdel.
  - intros i a b a2 b2 Hi Hj Hd2.
    destruct (worker_turns_adjacent _ _ same_sent_end_of_q turns clients w w' i a b a2 b2
                Hclients Hturns Hi Hj) as (Hb & Hflag & Hb2).
    destruct (Hnone _ _ Hb2 Hd2) as [Hdel _].
    destruct (decode_head (playlist a)) as [d|] eqn:Ed.
    + change (is_null (Some d)) with false. cbv iota.
      assert (sent_end_of_q (playlist b) = 0) as Hzero.
      { apply (decode_thread_body_some _ _ Hkeep a b Hb). rewrite Ed. discriminate. }
      unfold same_sent_end_of_q in Hflag. rewrite Hflag, Hzero in Hdel. exact Hdel.
    + change (is_null NULL) with true. cbv iota.
      destruct (Hnone _ _ Hb Ed) as (_ & Hone & _).
      unfold same_sent_end_of_q in Hflag. rewrite Hflag in Hdel.
      destruct (Z.eqb_spec (sent_end_of_q (playlist b)) 0) as [|_]; [contradiction|].
      exact Hdel.
Qed.

(** [decode_one_frame] is as the hypothesis above wants it. *)
Lemma decode_one_frame_keeps_sent_end_of_q nb_channels bytes graph_alloc_ok libav put_ok env
    file' :
  keeps same_sent_end_of_q
    (decode_one_frame nb_channels bytes graph_alloc_ok libav put_ok env file').
Proof.
  intros w r w' H. destruct file' as [fa|].
  - apply (decode_one_frame_schedule fa) in H.
    destruct H as (_ & _ & _ & _ & _ & _ & _ & _ & _ & _ & Hflag & _). exact Hflag.
  - unfold decode_one_frame in H. apply bind_inv in H as (r0 & w1 & H & _).
    unfold maybe_init_filter_graph in H. rewrite bind_the_playlist in H.
    apply bind_inv in H as (f & w2 & H & _). discriminate H.
Qed.

(** So are the calls of the client: none of them writes [sent_end_of_q]. *)
Section ClientCalls.

Let R_frame := same_sent_end_of_q_frame.

Lemma groove_playlist_seek_keeps_sent_end_of_q double_to_int64 start_time item seconds :
keeps same_sent_end_of_q (groove_playlist_seek double_to_int64 start_time item seconds).
Proof. unfold groove_playlist_seek, store_file, update_playlist. keeps_auto. Qed.

Lemma groove_playlist_insert_keeps_sent_end_of_q item file' gain' next' :
keeps same_sent_end_of_q (groove_playlist_insert item file' gain' next').
Proof.
unfold groove_playlist_insert, store_item, store_file, update_playlist. keeps_auto.
Qed.

Lemma groove_playlist_remove_keeps_sent_end_of_q item :
keeps same_sent_end_of_q (groove_playlist_remove item).
Proof.
pose proof (every_sink_keeps _ R_frame purge_sink 0 (purge_sink_keeps _ R_frame)) as Hpurge.
unfold groove_playlist_remove, store_item, free_item, update_playlist. keeps_auto.
Qed.

Lemma add_sink_to_map_loop_keeps_sent_end_of_q sink e m :
keeps same_sent_end_of_q (add_sink_to_map_loop sink e m).
Proof.
induction m as [st a b|st a b n IH] using SinkMap_ind; simpl; keeps_auto.
Qed.

Lemma groove_sink_attach_keeps_sent_end_of_q nb_channels bytes stack_ok map_ok sink pl :
keeps same_sent_end_of_q (groove_sink_attach nb_channels bytes stack_ok map_ok sink pl).
Proof.
pose proof (store_sink_keeps _ R_frame). pose proof (the_queue_keeps _ R_frame).
pose proof add_sink_to_map_loop_keeps_sent_end_of_q.
unfold groove_sink_attach, groove_queue_reset, set_queue, add_sink_to_map, update_playlist,
  av_mallocz.
keeps_auto.
Qed.

Lemma groove_sink_detach_keeps_sent_end_of_q sink :
keeps same_sent_end_of_q (groove_sink_detach sink).
Proof.
pose proof (store_sink_keeps _ R_frame). pose proof (groove_queue_flush_keeps _ R_frame).
pose proof (the_queue_keeps _ R_frame).
unfold groove_sink_detach, groove_queue_abort, set_queue, remove_sink_from_map,
  update_playlist.
keeps_auto.
Qed.

Lemma groove_sink_get_buffer_keeps_sent_end_of_q sink block :
keeps same_sent_end_of_q (groove_sink_get_buffer sink block).
Proof.
pose proof (store_sink_keeps _ R_frame). pose proof (the_queue_keeps _ R_frame).
unfold groove_sink_get_buffer, groove_queue_get, set_queue, audioq_get. keeps_auto.
Qed.

Lemma groove_playlist_set_gain_keeps_sent_end_of_q item gain' :
keeps same_sent_end_of_q (groove_playlist_set_gain item gain').
Proof. unfold groove_playlist_set_gain, store_item, update_playlist. keeps_auto. Qed.

Lemma groove_playlist_set_volume_keeps_sent_end_of_q volume' :
keeps same_sent_end_of_q (groove_playlist_set_volume volume').
Proof. unfold groove_playlist_set_volume, update_playlist. keeps_auto. Qed.

End ClientCalls.

Lemma decode_thread_end_of_q_witness :
  decode_thread decode_at_end (λ _, true) [ret tt; ret tt; ret tt; request_abort]
    playing_world = Ok (0, worker_done_world) ∧
  q_items <$> queue_of worker_done_world 1%positive = Some [end_of_q_sentinel] ∧
  trace worker_done_world =
    [Decode (Some 100%positive); Decode (Some 100%positive);
     Delay NOOP_DELAY; Delay NOOP_DELAY] ∧
  ∃ turns,
    worker_turns (decode_thread_body decode_at_end (λ _, true))
      [ret tt; ret tt; ret tt; request_abort] playing_world turns worker_done_world.
Proof.
  assert (decode_thread decode_at_end (λ _, true) [ret tt; ret tt; ret tt; request_abort]
            playing_world = Ok (0, worker_done_world)) as Hrun
    by (vm_compute; reflexivity).
  split; [exact Hrun|]. split; [vm_compute; reflexivity|]. split; [vm_compute; reflexivity|].
  destruct (decode_thread_end_of_q decode_at_end (λ _, true)) as (_ & _ & _ & Hthread).
  - intros p. reflexivity.
  - intros f. apply decode_one_frame_keeps_sent_end_of_q.
  - destruct (Hthread [ret tt; ret tt; ret tt; request_abort] playing_world 0
                worker_done_world) as (_ & _ & turns & Hturns & _).
    + pose proof same_sent_end_of_q_frame as R_frame.
      repeat constructor; unfold request_abort, update_playlist; keeps_auto.
    + exact Hrun.
    + exists turns. exact Hturns.
Defined.

(** The counterexample to C3 as it is written.  The file at 100 ends: the
    second turn of the worker moves [decode_head] from the item at 50 to
    its [next], which is null.  Before the worker's next turn the client
    calls [groove_playlist_seek] on the item, which makes it the decode
    head again.  The third turn decodes a frame of the item into the buffer
    at 8 and puts it into the queue of the sink at 1.  No turn found
    [decode_head] null, so [sent_end_of_q] is clear all along and the
    queue never held the sentinel. *)
Lemma decode_thread_seek_before_sentinel :
  ∃ w1 w2 w3 w4,
    decode_thread_body decode_rewinding (λ _, true) playing_world = Ok (tt, w1) ∧
    decode_head (playlist w1) = Some 50%positive ∧
    decode_thread_body decode_rewinding (λ _, true) w1 = Ok (tt, w2) ∧
    decode_head (playlist w2) = NULL ∧
    q_items <$> queue_of w2 1%positive = Some [] ∧
    sent_end_of_q (playlist w2) = 0 ∧
    groove_playlist_seek (λ _, 0) AV_NOPTS_VALUE (Some 50%positive) 0%float w2 =
      Ok (tt, w3) ∧
    decode_head (playlist w3) = Some 50%positive ∧
    q_items <$> queue_of w3 1%positive = Some [] ∧
    decode_thread_body decode_rewinding (λ _, true) w3 = Ok (tt, w4) ∧
    q_items <$> queue_of w4 1%positive = Some [Some 8%positive] ∧
    item <$> buffers w4 !! 8%positive = Some (Some 50%positive) ∧
    sent_end_of_q (playlist w4) = 0 ∧
    decode_thread decode_rewinding (λ _, true)
      [ret tt;
       groove_playlist_seek (λ _, 0) AV_NOPTS_VALUE (Some 50%positive) 0%float;
       request_abort] playing_world =
      Ok (0, set_playlist (with_abort_request 1) w4).
Proof.
  do 4 eexists.
  split; [vm_compute; reflexivity|]. split; [vm_compute; reflexivity|].
  split; [vm_compute; reflexivity|]. split; [vm_compute; reflexivity|].
  split; [vm_compute; reflexivity|]. split; [vm_compute; reflexivity|].
  split; [vm_compute; reflexivity|]. split; [vm_compute; reflexivity|].
  split; [vm_compute; reflexivity|]. split; [vm_compute; reflexivity|].
  split; [vm_compute; reflexivity|]. split; [vm_compute; reflexivity|].
  split; vm_compute; reflexivity.
Qed.
